(** * Screenshot-resolution pipeline of app-store-scraper: a shallow embedding

    The development follows the JavaScript sources under [lib/]:
    - [pattern-analyzer.js]     -> [Module PatternAnalyzer]
    - [content-deduplicator.js] -> [Module ContentDeduplicator]
    - [screenshot-validator.js] -> [Module ScreenshotValidator]
    - [screenshot-chain.js]     -> [Module ScreenshotChain]
    - [screenshot-fallback.js]  -> [Module ScreenshotFallback]
    The models come first; the properties follow, one [...Facts] module per
    source file.

    Conventions of the embedding.
    - A URL is a [string] of 8-bit characters; the sources inspect ASCII
      characters only.  The empty string is the only falsy URL.
    - JavaScript numbers that hold counts, indices and pixel areas are
      modelled by [Z]: [parseInt] of a digit run is its exact value.  The
      code holds a double, which is this value below 2^53 and the nearest
      double (or an approximation of it) beyond; the statements that
      compare parsed numbers or pixel areas assume the bound
      ([Js.exact_area], [DoubleFacts.pixel_area_exact]).
    - A JavaScript number that holds a ratio or a confidence is a double.
      [Module Double] models a double by the rational it denotes and the
      arithmetic by exact arithmetic followed by rounding to the nearest
      double, ties to even, on a 53-bit significand; infinities, NaN,
      subnormal numbers and overflow do not occur for the magnitudes at
      hand (the one division by zero of the sources is treated apart).
    - [Array.prototype.sort] is modelled by a stable insertion sort driven by
      the comparator's sign ([Js.sort]); every stable sort computes the same
      array when the comparator is a consistent ordering.
    - A [Map] (or an object used as a map) iterated in insertion order is an
      association list.
    - An element of a screenshot collection is a URL as the lookup and the
      page give it; after [SmartFilter.filter] it is a URL or an array of
      URLs ([SmartFilter.Entry]).  A step of the validator that throws a
      TypeError on an array is [None], and [validateScreenshots] catches
      it. *)

From Stdlib Require Import List String Ascii ZArith QArith Qround Qpower.
From Stdlib Require Import Bool Lia Arith Permutation Sorted.
From Stdlib Require Floats.
Import ListNotations.

Local Open Scope string_scope.
Local Open Scope Z_scope.

(* ================================================================== *)
(** ** IEEE 754 binary64 numbers, as the rationals they denote *)
(* ================================================================== *)

Module Double.

(** Nearest integer, ties to even. *)
Definition rne (t : Q) : Z :=
  let f := Qfloor t in
  match Qcompare (t - inject_Z f) (1 # 2) with
  | Lt => f
  | Gt => f + 1
  | Eq => if Z.even f then f else f + 1
  end.

(** For [0 < y], the exponent [e] with [2^52 <= y / 2^e < 2^53]. *)
Definition exponent (y : Q) : Z :=
  let k := Z.log2 (Qnum y) - Z.log2 (Zpos (Qden y)) in
  if Qle_bool (2 ^ k) y then k - 52 else k - 53.

Definition round_pos (y : Q) : Q :=
  let e := exponent y in (inject_Z (rne (y * 2 ^ (- e))) * 2 ^ e)%Q.

(** The double nearest to [y]. *)
Definition round (y : Q) : Q :=
  match Qcompare y 0 with
  | Eq => 0%Q
  | Gt => round_pos y
  | Lt => (- round_pos (- y))%Q
  end.

Definition mul (a b : Q) : Q := round (a * b).
Definition div (a b : Q) : Q := round (a / b).
Definition sub (a b : Q) : Q := round (a - b).

(** A decimal literal of the source, such as [0.8]. *)
Definition lit (q : Q) : Q := round q.

(** An integer of magnitude below 2^53. *)
Definition of_Z (n : Z) : Q := inject_Z n.

(** [a < b] *)
Definition ltb (a b : Q) : bool := negb (Qle_bool b a).

(** [Math.ceil] *)
Definition ceil (a : Q) : Z := Qceiling a.

Definition add (a b : Q) : Q := round (a + b).

(** [Math.min] of two numbers *)
Definition min (a b : Q) : Q := if Qle_bool a b then a else b.

(** [Math.round]: the nearest integer, a tie going up. *)
Definition jsround (a : Q) : Z := Qfloor (a + (1 # 2)).

(** The sign of a number, as a comparator passes it to [sort]. *)
Definition sgn (a : Q) : Z := Z.sgn (Qnum a).

End Double.

(* ================================================================== *)
(** ** JavaScript string and array primitives used by the sources *)
(* ================================================================== *)

Module Js.

Definition chars (s : string) : list ascii := list_ascii_of_string s.
Definition str (l : list ascii) : string := string_of_list_ascii l.

(** [Boolean(s)] for a string. *)
Definition truthy (s : string) : bool :=
  match s with EmptyString => false | String _ _ => true end.

Definition ascii_eqb (a b : ascii) : bool := Ascii.eqb a b.

(** [prefix_rest p l] is [Some r] when [l = p ++ r]. *)
Fixpoint prefix_rest (p l : list ascii) : option (list ascii) :=
  match p with
  | [] => Some l
  | a :: p' =>
      match l with
      | [] => None
      | b :: l' => if ascii_eqb a b then prefix_rest p' l' else None
      end
  end.

(** Leftmost position at which the attempt [try] succeeds: the search order
    of a regular-expression engine. *)
Fixpoint leftmost {A : Type} (try : list ascii -> option A) (l : list ascii)
  : option A :=
  match try l with
  | Some r => Some r
  | None =>
      match l with
      | [] => None
      | _ :: t => leftmost try t
      end
  end.

(** [s.replace(re, '')] for a regular expression without the [g] flag:
    [try] returns what follows the match when the match starts here. *)
Fixpoint replace_first (try : list ascii -> option (list ascii))
  (l : list ascii) : list ascii :=
  match try l with
  | Some rest => rest
  | None =>
      match l with
      | [] => []
      | c :: t => c :: replace_first try t
      end
  end.

(** Longest prefix whose characters satisfy [p], and the rest. *)
Fixpoint span (p : ascii -> bool) (l : list ascii)
  : list ascii * list ascii :=
  match l with
  | [] => ([], [])
  | c :: t =>
      if p c then let (a, b) := span p t in (c :: a, b) else ([], l)
  end.

Definition includes_l (sub l : list ascii) : bool :=
  match leftmost (prefix_rest sub) l with Some _ => true | None => false end.

(** [s.includes(sub)] *)
Definition includes (s sub : string) : bool := includes_l (chars sub) (chars s).

(** [\d] *)
Definition is_digit (c : ascii) : bool :=
  let n := nat_of_ascii c in (48 <=? n)%nat && (n <=? 57)%nat.

Definition digit_val (c : ascii) : Z := Z.of_nat (nat_of_ascii c) - 48.

(** [parseInt] of a run of decimal digits: the integer that the digits
    denote.  The double that the code holds is this integer when it is
    below 2^53 ([DoubleFacts.parseInt_exact]). *)
Definition parseInt (ds : list ascii) : Z :=
  fold_left (fun acc c => 10 * acc + digit_val c) ds 0.

Definition nonempty {A : Type} (l : list A) : bool :=
  match l with [] => false | _ :: _ => true end.

(** [(\d+)] at the head of [l]; [\d+] is greedy and nothing that follows it
    in the expressions below can start with a digit, so the longest run is
    the one the engine keeps. *)
Definition digits1 (l : list ascii) : option (list ascii * list ascii) :=
  let (d, r) := span is_digit l in
  if nonempty d then Some (d, r) else None.

(** [/(\d+)_of_(\d+)/] : the two captured digit runs. *)
Definition seq_at (l : list ascii) : option (list ascii * list ascii) :=
  match digits1 l with
  | Some (d1, r) =>
      match prefix_rest (chars "_of_") r with
      | Some r' =>
          match digits1 r' with
          | Some (d2, _) => Some (d1, d2)
          | None => None
          end
      | None => None
      end
  | None => None
  end.

Definition match_seq (s : string) : option (list ascii * list ascii) :=
  leftmost seq_at (chars s).

(** [/Slice_(\d+)/] *)
Definition slice_at (l : list ascii) : option (list ascii) :=
  match prefix_rest (chars "Slice_") l with
  | Some r =>
      match digits1 r with
      | Some (d, _) => Some d
      | None => None
      end
  | None => None
  end.

Definition match_slice (s : string) : option (list ascii) :=
  leftmost slice_at (chars s).

(** [/(\d+)x(\d+)/] : captures and what follows the match. *)
Definition dims_at (l : list ascii)
  : option (list ascii * list ascii * list ascii) :=
  match digits1 l with
  | Some (d1, r) =>
      match prefix_rest (chars "x") r with
      | Some r' =>
          match digits1 r' with
          | Some (d2, r'') => Some (d1, d2, r'')
          | None => None
          end
      | None => None
      end
  | None => None
  end.

Definition match_dims (s : string) : option (list ascii * list ascii) :=
  leftmost (fun l => option_map fst (dims_at l)) (chars s).

Definition is_slash (c : ascii) : bool := ascii_eqb c "/".
Definition is_dot (c : ascii) : bool := ascii_eqb c ".".
Definition is_sep (c : ascii) : bool := ascii_eqb c "_" || ascii_eqb c "-".

(** [/[/-](\d+)[^/]*\.[^/]*$/] : after the digits the remainder must hold no
    slash and at least one dot; giving digits back to [[^/]*] never turns a
    failure into a success, so the captured run is the longest one. *)
Definition numbered_at (l : list ascii) : option (list ascii) :=
  match l with
  | c :: r =>
      if is_slash c || ascii_eqb c "-" then
        match digits1 r with
        | Some (d, rest) =>
            if negb (existsb is_slash rest) && existsb is_dot rest
            then Some d else None
        | None => None
        end
      else None
  | [] => None
  end.

Definition match_numbered (s : string) : option (list ascii) :=
  leftmost numbered_at (chars s).

(** [[a-f0-9-]] *)
Definition is_hashchar (c : ascii) : bool :=
  let n := nat_of_ascii c in
  is_digit c || ((97 <=? n)%nat && (n <=? 102)%nat) || ascii_eqb c "-".

(** [/[a-f0-9-]{16,}/] : the whole (greedy) run. *)
Definition hash_at (l : list ascii) : option (list ascii) :=
  let (h, _) := span is_hashchar l in
  if (16 <=? List.length h)%nat then Some h else None.

Definition match_hash (s : string) : option (list ascii) :=
  leftmost hash_at (chars s).

(** [s.split('/').pop()] *)
Fixpoint last_segment_from (acc l : list ascii) : list ascii :=
  match l with
  | [] => acc
  | c :: t => if is_slash c then last_segment_from t t
              else last_segment_from acc t
  end.

Definition last_segment (l : list ascii) : list ascii := last_segment_from l l.

(** [s.split('.')[0]] *)
Definition before_dot (l : list ascii) : list ascii :=
  fst (span (fun c => negb (is_dot c)) l).

(** [/_new|_orig|_retry|_thumb/] at the head of [l]: what follows it. *)
Definition version_at (l : list ascii) : option (list ascii) :=
  match prefix_rest (chars "_new") l with
  | Some r => Some r
  | None =>
      match prefix_rest (chars "_orig") l with
      | Some r => Some r
      | None =>
          match prefix_rest (chars "_retry") l with
          | Some r => Some r
          | None => prefix_rest (chars "_thumb") l
          end
      end
  end.

(** [.replace(/_new|_orig|_retry|_thumb/, '')] *)
Definition strip_version (l : list ascii) : list ascii :=
  replace_first version_at l.

(** [.replace(/\d+x\d+[^_-]*/, '')] *)
Definition strip_dims_sep (l : list ascii) : list ascii :=
  replace_first
    (fun l => match dims_at l with
              | Some (_, _, r) => Some (snd (span (fun c => negb (is_sep c)) r))
              | None => None
              end) l.

(** [.replace(/\d+x\d+[^/]*/, '')] *)
Definition strip_dims_slash (l : list ascii) : list ascii :=
  replace_first
    (fun l => match dims_at l with
              | Some (_, _, r) => Some (snd (span (fun c => negb (is_slash c)) r))
              | None => None
              end) l.

(** [.replace(/[-_]+$/, '')] *)
Definition strip_trailing_sep (l : list ascii) : list ascii :=
  rev (snd (span is_sep (rev l))).

(** The recurring base-name expression
    [url.split('/').pop().split('.')[0]
       .replace(/\d+x\d+[^_-]*/, '').replace(/_new|_orig|_retry|_thumb/, '')
       .replace(/[-_]+$/, '')]. *)
Definition base_name (url : string) : string :=
  str (strip_trailing_sep
         (strip_version (strip_dims_sep (before_dot (last_segment (chars url)))))).

(** Pixel area [parseInt(w) * parseInt(h)] of the first [WxH] token, 0 when
    there is none: the product of the two integers. *)
Definition pixel_area (url : string) : Z :=
  match match_dims url with
  | Some (w, h) => parseInt w * parseInt h
  | None => 0
  end.

(** The two numbers of the first [WxH] token and their product are below
    2^53.  Up to there every integer is a double, so that the double that
    the code computes is [pixel_area url]
    ([DoubleFacts.pixel_area_exact]). *)
Definition exact_area (url : string) : bool :=
  match match_dims url with
  | Some (w, h) =>
      (parseInt w <? 2 ^ 53) && (parseInt h <? 2 ^ 53)
      && (parseInt w * parseInt h <? 2 ^ 53)
  | None => true
  end.

(** ASCII [toLowerCase]. *)
Definition lower_ascii (c : ascii) : ascii :=
  let n := nat_of_ascii c in
  if (65 <=? n)%nat && (n <=? 90)%nat then ascii_of_nat (n + 32) else c.

Definition toLowerCase (s : string) : string := str (map lower_ascii (chars s)).

(** [arr.sort(cmp)]: stable insertion driven by the sign of [cmp]. *)
Fixpoint insert {A : Type} (cmp : A -> A -> Z) (x : A) (l : list A) : list A :=
  match l with
  | [] => [x]
  | y :: t => if cmp x y <? 0 then x :: y :: t else y :: insert cmp x t
  end.

Definition sort {A : Type} (cmp : A -> A -> Z) (l : list A) : list A :=
  fold_left (fun acc x => insert cmp x acc) l [].

(** [[...new Set(arr)]] : first occurrences, in order. *)
Fixpoint set_add {A : Type} (eqb : A -> A -> bool) (x : A) (l : list A)
  : list A :=
  match l with
  | [] => [x]
  | y :: t => if eqb y x then l else y :: set_add eqb x t
  end.

Definition uniq {A : Type} (eqb : A -> A -> bool) (l : list A) : list A :=
  fold_left (fun acc x => set_add eqb x acc) l [].

Definition len {A : Type} (l : list A) : Z := Z.of_nat (List.length l).

(** [arr.slice(0, end)]: a negative [end] counts from the end. *)
Definition slice0 {A : Type} (fin : Z) (l : list A) : list A :=
  firstn (Z.to_nat (if fin <? 0 then Z.max (len l + fin) 0 else fin)) l.

(** The integers [lo], [lo + 1], ..., [hi]: the values of [i] in
    [for (let i = lo; i <= hi; i++)]. *)
Definition range (lo hi : Z) : list Z :=
  map (fun k => lo + Z.of_nat k) (seq 0 (Z.to_nat (hi - lo + 1))).

(** A [Map] as an association list in insertion order: [m.get(k)]. *)
Fixpoint map_get {K V : Type} (eqb : K -> K -> bool) (k : K) (m : list (K * V))
  : option V :=
  match m with
  | [] => None
  | (k', v) :: t => if eqb k' k then Some v else map_get eqb k t
  end.

(** [m.set(k, v)]: a key already present keeps its place. *)
Fixpoint map_set {K V : Type} (eqb : K -> K -> bool) (k : K) (v : V)
  (m : list (K * V)) : list (K * V) :=
  match m with
  | [] => [(k, v)]
  | (k', v') :: t =>
      if eqb k' k then (k', v) :: t else (k', v') :: map_set eqb k v t
  end.

(** [if (!m.has(k)) m.set(k, []); m.get(k).push(v)] *)
Fixpoint map_push {K V : Type} (eqb : K -> K -> bool) (k : K) (v : V)
  (m : list (K * list V)) : list (K * list V) :=
  match m with
  | [] => [(k, [v])]
  | (k', vs) :: t =>
      if eqb k' k then (k', (vs ++ [v])%list) :: t
      else (k', vs) :: map_push eqb k v t
  end.

(** [s.startsWith(p)] *)
Definition startsWith (s p : string) : bool :=
  match prefix_rest (chars p) (chars s) with Some _ => true | None => false end.

(** [s.replace(pattern, by)] for a pattern without the [g] flag: [try]
    returns what follows the match when the match starts here. *)
Fixpoint replace_first_by (try : list ascii -> option (list ascii))
  (by_ l : list ascii) : list ascii :=
  match try l with
  | Some rest => (by_ ++ rest)%list
  | None =>
      match l with
      | [] => []
      | c :: t => c :: replace_first_by try by_ t
      end
  end.

(** [arr.some(f)] for a callback that may throw ([None]): the callback is
    applied from the left until it returns a truthy value or throws. *)
Fixpoint some {A : Type} (f : A -> option bool) (l : list A) : option bool :=
  match l with
  | [] => Some false
  | x :: t =>
      match f x with
      | None => None
      | Some true => Some true
      | Some false => some f t
      end
  end.

(** [arr.includes(s)] for an array of strings. *)
Definition array_includes (l : list string) (s : string) : bool :=
  existsb (String.eqb s) l.

End Js.

(* ================================================================== *)
(** ** lib/pattern-analyzer.js *)
(* ================================================================== *)

Module PatternAnalyzer.

(** The [platform] argument, documented as 'iPhone' | 'iPad' | 'AppleTV'. *)
Inductive Platform := iPhone | iPad | AppleTV.

Inductive Strategy :=
| respect_sequence | respect_slices | deduplicate_aggressive
| quality_filter | platform_optimize | none.

Definition Strategy_eqb (a b : Strategy) : bool :=
  match a, b with
  | respect_sequence, respect_sequence | respect_slices, respect_slices
  | deduplicate_aggressive, deduplicate_aggressive
  | quality_filter, quality_filter | platform_optimize, platform_optimize
  | none, none => true
  | _, _ => false
  end.

Inductive Quality := high | low | mixed.

(** The results of the detectors, without [coverage] and [strength]: these
    two only feed [patterns.dominantPattern], which no decision reads.
    [[seq_foundSize]] is [foundNumbers.size]. *)
Record Sequential := {
  seq_found : bool;
  seq_expectedCount : Z;
  seq_actualCount : Z;
  seq_foundSize : Z;
  seq_isComplete : bool
}.

Record Slice := {
  slice_found : bool;
  slice_expectedCount : Z;
  slice_actualCount : Z;
  slice_isComplete : bool
}.

Record QualityTiers := {
  qt_found : bool;
  qt_uniqueQualities : Z;
  qt_redundancy : Q
}.

Record Redundancy := {
  redundancyRatio : Q;
  uniqueBaseNames : Z;
  hasSignificantRedundancy : bool
}.

(** The fields of [patterns] that [determineFilteringStrategy] and
    [getPlatformLimits] read ([size_variations], [version_variations] and
    [dominantPattern] are left out). *)
Record Patterns := {
  sequential : Sequential;
  slice : Slice;
  quality_tiers : QualityTiers
}.

Record Analysis := {
  totalCount : Z;
  patterns : Patterns;
  quality : Quality;
  redundancy : Redundancy;
  platform : Platform
}.

Inductive Action :=
| keep_complete_sequence | keep_complete_slices | aggressive_deduplication
| prefer_high_quality | apply_platform_limits | keep_all.

(** [recommendation], without its free-text [rationale]. *)
Record Recommendation := {
  action : Action;
  maxScreenshots : Z
}.

Record Decision := {
  strategy : Strategy;
  confidence : Q;
  recommendation : Recommendation;
  analysis : option Analysis;
  needsFiltering : bool
}.

Definition isSequentialUrl (url : string) : bool :=
  match Js.match_seq url with Some _ => true | None => false end.

(** [sequenceInfo]: total -> set of sequence numbers, in insertion order. *)
Fixpoint seqinfo_add (total seqNum : Z) (m : list (Z * list Z))
  : list (Z * list Z) :=
  match m with
  | [] => [(total, [seqNum])]
  | (k, s) :: t =>
      if k =? total then (k, Js.set_add Z.eqb seqNum s) :: t
      else (k, s) :: seqinfo_add total seqNum t
  end.

Definition seqStep (m : list (Z * list Z)) (url : string) : list (Z * list Z) :=
  match Js.match_seq url with
  | Some (d1, d2) => seqinfo_add (Js.parseInt d2) (Js.parseInt d1) m
  | None => m
  end.

Definition sequenceInfo (sequentialUrls : list string) : list (Z * list Z) :=
  fold_left seqStep sequentialUrls [].

(** [completeness > 0.8] for [completeness = size / expected]:
    a positive size over 0 is [Infinity]. *)
Definition completeness_gt_08 (size expected : Z) : bool :=
  if expected =? 0 then 0 <? size
  else Double.ltb (Double.lit (8 # 10))
                  (Double.div (Double.of_Z size) (Double.of_Z expected)).

Definition detectSequentialPattern (screenshots : list string) : Sequential :=
  let sequentialUrls := filter isSequentialUrl screenshots in
  let info := sequenceInfo sequentialUrls in
  match Js.sort (fun a b => Js.len (snd b) - Js.len (snd a)) info with
  | mostCommonTotal :: _ =>
      let expectedCount := fst mostCommonTotal in
      let foundNumbers := snd mostCommonTotal in
      {| seq_found := Js.nonempty sequentialUrls;
         seq_expectedCount := expectedCount;
         seq_actualCount := Js.len sequentialUrls;
         seq_foundSize := Js.len foundNumbers;
         seq_isComplete := completeness_gt_08 (Js.len foundNumbers) expectedCount |}
  | [] =>
      {| seq_found := Js.nonempty sequentialUrls;
         seq_expectedCount := 0;
         seq_actualCount := Js.len sequentialUrls;
         seq_foundSize := 0;
         seq_isComplete := false |}
  end.

Definition isSliceUrl (url : string) : bool :=
  match Js.match_slice url with Some _ => true | None => false end.

Definition sliceStep (s : list Z) (url : string) : list Z :=
  match Js.match_slice url with
  | Some d => Js.set_add Z.eqb (Js.parseInt d) s
  | None => s
  end.

Definition sliceNumbers (sliceUrls : list string) : list Z :=
  fold_left sliceStep sliceUrls [].

Definition detectSlicePattern (screenshots : list string) : Slice :=
  let sliceUrls := filter isSliceUrl screenshots in
  let nums := sliceNumbers sliceUrls in
  let maxSlice := if Js.nonempty nums then fold_right Z.max 0 nums else -1 in
  let expectedCount := if 0 <=? maxSlice then maxSlice + 1 else 0 in
  {| slice_found := Js.nonempty sliceUrls;
     slice_expectedCount := expectedCount;
     slice_actualCount := Js.len sliceUrls;
     slice_isComplete := Js.len nums =? expectedCount |}.

(** A counting [Map]: key -> number of occurrences, in insertion order. *)
Fixpoint count_add {K : Type} (eqb : K -> K -> bool) (k : K)
  (m : list (K * Z)) : list (K * Z) :=
  match m with
  | [] => [(k, 1)]
  | (k', n) :: t =>
      if eqb k' k then (k', n + 1) :: t else (k', n) :: count_add eqb k t
  end.

Definition tierStep (m : list (Z * Z)) (url : string) : list (Z * Z) :=
  let total := Js.pixel_area url in
  if 0 <? total then count_add Z.eqb total m else m.

Definition qualityTiers (screenshots : list string) : list (Z * Z) :=
  fold_left tierStep screenshots [].

Definition detectQualityTiers (screenshots : list string) : QualityTiers :=
  let tiers := qualityTiers screenshots in
  let uniqueQualities := Js.len tiers in
  let hasMultipleQualities := 1 <? uniqueQualities in
  let redundancy :=
    if hasMultipleQualities then
      let maxCount := fold_right Z.max 0 (map snd tiers) in
      Double.div (Double.of_Z (Js.len screenshots - maxCount))
                 (Double.of_Z (Js.len screenshots))
    else 0%Q in
  {| qt_found := hasMultipleQualities;
     qt_uniqueQualities := uniqueQualities;
     qt_redundancy := redundancy |}.

Definition assessQuality (screenshots : list string) : Quality :=
  let highQualityCount :=
    Js.len (filter (fun url => 500000 <? Js.pixel_area url) screenshots) in
  let lowQualityCount :=
    Js.len (filter (fun url =>
                      let t := Js.pixel_area url in
                      negb (500000 <? t) && (0 <? t) && (t <? 100000))
                   screenshots) in
  if lowQualityCount <? highQualityCount then high
  else if highQualityCount <? lowQualityCount then low
  else mixed.

(** [extractBaseName] *)
Definition extractBaseName (url : string) : string := Js.base_name url.

Definition baseNameStep (m : list (string * Z)) (url : string)
  : list (string * Z) :=
  count_add String.eqb (extractBaseName url) m.

Definition baseNames (screenshots : list string) : list (string * Z) :=
  fold_left baseNameStep screenshots [].

Definition detectRedundancy (screenshots : list string) : Redundancy :=
  let names := baseNames screenshots in
  let duplicateCount := Js.len screenshots - Js.len names in
  let ratio :=
    Double.div (Double.of_Z duplicateCount) (Double.of_Z (Js.len screenshots)) in
  {| redundancyRatio := ratio;
     uniqueBaseNames := Js.len names;
     hasSignificantRedundancy := Double.ltb (Double.lit (3 # 10)) ratio |}.

Record Limits := { reasonable : Z; optimal : Z }.

Definition baseLimits (p : Platform) : Limits :=
  match p with
  | iPhone => {| reasonable := 8; optimal := 6 |}
  | iPad => {| reasonable := 10; optimal := 8 |}
  | AppleTV => {| reasonable := 6; optimal := 4 |}
  end.

Definition getPlatformLimits (p : Platform) (a : Analysis) : Limits :=
  let limits := baseLimits p in
  if seq_found (sequential (patterns a)) then
    let sequenceCount := seq_expectedCount (sequential (patterns a)) in
    if (0 <? sequenceCount) && (sequenceCount <=? reasonable limits)
    then {| reasonable := sequenceCount; optimal := sequenceCount |}
    else limits
  else limits.

Definition mkDecision (s : Strategy) (c : Q) (act : Action) (n : Z)
  : Decision :=
  {| strategy := s; confidence := c;
     recommendation := {| action := act; maxScreenshots := n |};
     analysis := None; needsFiltering := false |}.

Definition determineFilteringStrategy (a : Analysis) : Decision :=
  let p := patterns a in
  if seq_found (sequential p) && seq_isComplete (sequential p) then
    mkDecision respect_sequence (Double.lit (9 # 10)) keep_complete_sequence
      (seq_expectedCount (sequential p))
  else if slice_found (slice p) && slice_isComplete (slice p) then
    mkDecision respect_slices (Double.lit (9 # 10)) keep_complete_slices
      (slice_expectedCount (slice p))
  else if hasSignificantRedundancy (redundancy a) then
    let targetCount :=
      Z.max 3 (Double.ceil
                 (Double.mul (Double.of_Z (uniqueBaseNames (redundancy a)))
                             (Double.lit (8 # 10)))) in
    mkDecision deduplicate_aggressive (Double.lit (8 # 10))
      aggressive_deduplication targetCount
  else if qt_found (quality_tiers p)
          && match quality a with mixed => true | _ => false end then
    let targetCount :=
      Z.max 4 (Double.ceil
                 (Double.mul (Double.of_Z (totalCount a))
                             (Double.sub 1 (qt_redundancy (quality_tiers p))))) in
    mkDecision quality_filter (Double.lit (7 # 10)) prefer_high_quality
      targetCount
  else
    let platformLimits := getPlatformLimits (platform a) a in
    if reasonable platformLimits <? totalCount a then
      mkDecision platform_optimize (Double.lit (6 # 10))
        apply_platform_limits (optimal platformLimits)
    else
      mkDecision none 1%Q keep_all (totalCount a).

Definition identifyPatterns (screenshots : list string) : Patterns :=
  {| sequential := detectSequentialPattern screenshots;
     slice := detectSlicePattern screenshots;
     quality_tiers := detectQualityTiers screenshots |}.

Definition analyzeCollection (screenshots : list string) (p : Platform)
  : Decision :=
  match screenshots with
  | [] => mkDecision none 1%Q keep_all 0
  | _ :: _ =>
      let a := {| totalCount := Js.len screenshots;
                  patterns := identifyPatterns screenshots;
                  quality := assessQuality screenshots;
                  redundancy := detectRedundancy screenshots;
                  platform := p |} in
      let d := determineFilteringStrategy a in
      {| strategy := strategy d;
         confidence := confidence d;
         recommendation := recommendation d;
         analysis := Some a;
         needsFiltering := negb (Strategy_eqb (strategy d) none) |}
  end.

End PatternAnalyzer.

(* ================================================================== *)
(** ** lib/content-deduplicator.js *)
(* ================================================================== *)

Module ContentDeduplicator.

Import PatternAnalyzer.

Inductive PatternName :=
| sequential_p | slice_p | hash_p | numbered_p | themed_p | unknown_p.

(** [analysis.patterns]: a pattern's [found] flag is raised exactly when its
    [count] is incremented, so the counts carry both. *)
Record PatternCounts := {
  n_sequential : Z;
  n_slice : Z;
  n_hash : Z;
  n_numbered : Z;
  n_themed : Z;
  n_expected : Z
}.

Record UrlAnalysis := {
  totalUrls : Z;
  counts : PatternCounts;
  dominantPattern : PatternName;
  expectedUniqueCount : Z
}.

Definition is_some {A : Type} (o : option A) : bool :=
  match o with Some _ => true | None => false end.

(** Body of the [urls.forEach] of [analyzeUrlPatterns]. *)
Definition analyzeUrl (c : PatternCounts) (url : string) : PatternCounts :=
  if negb (Js.truthy url) then c else
  let sequentialMatch := Js.match_seq url in
  let sliceMatch := Js.match_slice url in
  let numberedMatch := Js.match_numbered url in
  let hashMatch := Js.match_hash url in
  let c1 :=
    match sequentialMatch with
    | Some (_, total) =>
        {| n_sequential := n_sequential c + 1; n_slice := n_slice c;
           n_hash := n_hash c; n_numbered := n_numbered c;
           n_themed := n_themed c;
           n_expected := Z.max (n_expected c) (Js.parseInt total) |}
    | None => c
    end in
  let c2 :=
    match sliceMatch with
    | Some sliceNum =>
        {| n_sequential := n_sequential c1; n_slice := n_slice c1 + 1;
           n_hash := n_hash c1; n_numbered := n_numbered c1;
           n_themed := n_themed c1;
           n_expected := Z.max (n_expected c1) (Js.parseInt sliceNum + 1) |}
    | None => c1
    end in
  let c3 :=
    match numberedMatch with
    | Some num =>
        if negb (is_some sequentialMatch) && negb (is_some sliceMatch) then
          {| n_sequential := n_sequential c2; n_slice := n_slice c2;
             n_hash := n_hash c2; n_numbered := n_numbered c2 + 1;
             n_themed := n_themed c2;
             n_expected := Z.max (n_expected c2) (Js.parseInt num) |}
        else c2
    | None => c2
    end in
  match hashMatch with
  | Some _ =>
      {| n_sequential := n_sequential c3; n_slice := n_slice c3;
         n_hash := n_hash c3 + 1; n_numbered := n_numbered c3;
         n_themed := n_themed c3; n_expected := n_expected c3 |}
  | None => c3
  end.

Definition analyzeUrlPatterns (urls : list string) : UrlAnalysis :=
  let c := fold_left analyzeUrl urls
             {| n_sequential := 0; n_slice := 0; n_hash := 0;
                n_numbered := 0; n_themed := 0; n_expected := 0 |} in
  let patternCounts :=
    Js.sort (fun a b => snd b - snd a)
      (filter (fun e => 0 <? snd e)
         [(sequential_p, n_sequential c); (slice_p, n_slice c);
          (hash_p, n_hash c); (numbered_p, n_numbered c);
          (themed_p, n_themed c)]) in
  {| totalUrls := Js.len urls;
     counts := c;
     dominantPattern :=
       match patternCounts with
       | (name, _) :: _ => name
       | [] => unknown_p
       end;
     expectedUniqueCount :=
       if n_expected c =? 0 then
         if 0 <? n_hash c then (Js.len urls + 1) / 2
         else Z.min 6 ((Js.len urls + 2) / 3)
       else n_expected c |}.

(** [extractDimensions] of this class returns the pixel area directly. *)
Definition extractDimensions (url : string) : Z := Js.pixel_area url.

Definition count_underscores (url : string) : Z :=
  Js.len (filter (fun c => Js.ascii_eqb c "_") (Js.chars url)).

(** The comparator of [selectBestUrl]. *)
Definition compareUrls (platform : Platform) (a b : string) : Z :=
  let aNew := Js.includes a "_new" in
  let bNew := Js.includes b "_new" in
  let aOld := Js.includes a "_orig" || Js.includes a "_retry" in
  let bOld := Js.includes b "_orig" || Js.includes b "_retry" in
  if aNew && negb bNew then -1
  else if negb aNew && bNew then 1
  else if aOld && negb bOld then 1
  else if negb aOld && bOld then -1
  else
    let aDims := extractDimensions a in
    let bDims := extractDimensions b in
    if negb (aDims =? bDims) then bDims - aDims
    else
      let aThumb := Js.includes a "300x0w" || Js.includes a "thumb" in
      let bThumb := Js.includes b "300x0w" || Js.includes b "thumb" in
      if aThumb && negb bThumb then 1
      else if negb aThumb && bThumb then -1
      else
        match platform with
        | iPad => count_underscores a - count_underscores b
        | _ => Js.len (Js.chars a) - Js.len (Js.chars b)
        end.

Definition selectBestUrl (urls : list string) (platform : Platform) : string :=
  hd EmptyString (Js.sort (compareUrls platform) urls).

Definition extractSequenceNumber (url : string) : option Z :=
  match Js.match_seq url with
  | Some (d, _) => Some (Js.parseInt d)
  | None =>
      match Js.match_slice url with
      | Some d => Some (Js.parseInt d)
      | None =>
          match Js.match_numbered url with
          | Some d => Some (Js.parseInt d)
          | None => None
          end
      end
  end.

(** [groups]: content id -> URLs, in insertion order. *)
Fixpoint group_add (contentId url : string)
  (groups : list (string * list string)) : list (string * list string) :=
  match groups with
  | [] => [(contentId, [url])]
  | (k, us) :: t =>
      if String.eqb k contentId then (k, (us ++ [url])%list) :: t
      else (k, us) :: group_add contentId url t
  end.

Section WithRuntime.

(** The state of the pseudo-random generator behind [Math.random], the
    expression [Math.random().toString(36).substr(2, 8)] and
    [String.prototype.localeCompare] are supplied by the runtime. *)
Variable Rng : Type.
Variable random_id : Rng -> string * Rng.
Variable localeCompare : string -> string -> Z.

Definition M (A : Type) : Type := Rng -> A * Rng.
Definition ret {A : Type} (a : A) : M A := fun g => (a, g).
Definition bind {A B : Type} (m : M A) (f : A -> M B) : M B :=
  fun g => let (a, g') := m g in f a g'.

(** [`fallback_${cleanName}` || `fallback_${Math.random()...}`]: the right
    operand of [||] is evaluated only when the left one is falsy. *)
Definition fallbackId (url : string) : M string :=
  let cleanName := Js.base_name url in
  let id := "fallback_" ++ cleanName in
  if Js.truthy id then ret id
  else bind random_id (fun r => ret ("fallback_" ++ r)).

Definition extractContentId (url : string) (a : UrlAnalysis) : M string :=
  match dominantPattern a with
  | sequential_p =>
      match Js.match_seq url with
      | Some (d, _) => ret ("seq_" ++ Js.str d)
      | None => fallbackId url
      end
  | slice_p =>
      match Js.match_slice url with
      | Some d => ret ("slice_" ++ Js.str d)
      | None => fallbackId url
      end
  | numbered_p =>
      match Js.match_numbered url with
      | Some d => ret ("num_" ++ Js.str d)
      | None => fallbackId url
      end
  | hash_p =>
      match Js.match_hash url with
      | Some h => ret ("hash_" ++ Js.str (firstn 16 h))
      | None => fallbackId url
      end
  | _ => fallbackId url
  end.

Fixpoint groupByContent_from (urls : list string) (a : UrlAnalysis)
  (groups : list (string * list string)) : M (list (string * list string)) :=
  match urls with
  | [] => ret groups
  | url :: rest =>
      if negb (Js.truthy url) then groupByContent_from rest a groups
      else
        bind (extractContentId url a)
             (fun contentId =>
                groupByContent_from rest a (group_add contentId url groups))
  end.

Definition groupByContent (urls : list string) (a : UrlAnalysis)
  : M (list (string * list string)) :=
  groupByContent_from urls a [].

Definition compareRepresentatives (a b : string) : Z :=
  match extractSequenceNumber a, extractSequenceNumber b with
  | Some aSeq, Some bSeq => aSeq - bSeq
  | _, _ => localeCompare a b
  end.

Definition sortRepresentatives (urls : list string) : list string :=
  Js.sort compareRepresentatives urls.

Definition representative (platform : Platform) (g : string * list string)
  : string :=
  match snd g with
  | [u] => u
  | urls => selectBestUrl urls platform
  end.

Definition selectBestRepresentatives (contentGroups : list (string * list string))
  (platform : Platform) : list string :=
  sortRepresentatives (map (representative platform) contentGroups).

Definition deduplicate (screenshots : list string) (platform : Platform)
  : M (list string) :=
  match screenshots with
  | [] => ret []
  | _ :: _ =>
      let a := analyzeUrlPatterns screenshots in
      bind (groupByContent screenshots a)
           (fun contentGroups =>
              ret (selectBestRepresentatives contentGroups platform))
  end.

End WithRuntime.

End ContentDeduplicator.

(* ================================================================== *)
(** ** lib/smart-filter.js *)
(* ================================================================== *)

Module SmartFilter.

Import PatternAnalyzer.

(** An element of the array that [filter] returns: a URL, or (under the
    strategy "deduplicate_aggressive", which pushes what
    [selectBestFromGroup] returns) an array of URLs. *)
Inductive Entry :=
| Url (url : string)
| Urls (urls : list string).

Definition calculateQualityScore (url : string) : Q :=
  let total := Js.pixel_area url in
  let s0 := 0%Q in
  let s1 :=
    if 0 <? total
    then Double.add s0
           (Double.min (Double.div (Double.of_Z total) (Double.of_Z 100000)) 10)
    else s0 in
  let s2 := if Js.includes url "_new" then Double.add s1 5 else s1 in
  let s3 :=
    if Js.includes url "_orig" || Js.includes url "_retry"
    then Double.sub s2 3 else s2 in
  let s4 := if Js.includes url "_thumb" then Double.sub s3 5 else s3 in
  let s5 := if Js.includes url ".jpg" then Double.add s4 1 else s4 in
  let s6 :=
    if Js.includes url ".png" && (total <? 200000)
    then Double.add s5 2 else s5 in
  if Js.includes url "300x0w" then Double.sub s6 3 else s6.

(** The comparator [(a, b) => score(b) - score(a)]. *)
Definition byScore (a b : string) : Z :=
  Double.sgn (Double.sub (calculateQualityScore b) (calculateQualityScore a)).

Definition assessGroupQuality (urls : list string) : Q :=
  Double.div
    (fold_left (fun sum url => Double.add sum (calculateQualityScore url))
               urls 0%Q)
    (Double.of_Z (Js.len urls)).

Definition isBetterUrl (urlA urlB : string) : bool :=
  Double.ltb (calculateQualityScore urlB) (calculateQualityScore urlA).

Definition extractContentIdentifier (url : string) : string := Js.base_name url.

(** Returns the array itself, sorted in place when it holds several URLs. *)
Definition selectBestFromGroup (urls : list string) : list string :=
  match urls with
  | [_] => urls
  | _ => Js.sort byScore urls
  end.

(** [if (!existing || this.isBetterUrl(url, existing)) m.set(k, url)] *)
Definition keepBetter (k : Z) (url : string) (m : list (Z * string))
  : list (Z * string) :=
  match Js.map_get Z.eqb k m with
  | Some existing =>
      if negb (Js.truthy existing) || isBetterUrl url existing
      then Js.map_set Z.eqb k url m else m
  | None => Js.map_set Z.eqb k url m
  end.

(** [result.push(m.get(i))] for the [i] of the loop that [m] holds. *)
Definition collect (m : list (Z * string)) (indices : list Z) : list string :=
  flat_map (fun i => match Js.map_get Z.eqb i m with
                     | Some url => [url]
                     | None => []
                     end) indices.

Definition sequenceStep (expectedCount : Z) (m : list (Z * string))
  (url : string) : list (Z * string) :=
  match Js.match_seq url with
  | Some (d1, d2) =>
      let seqNum := Js.parseInt d1 in
      let total := Js.parseInt d2 in
      if (total =? expectedCount) && (1 <=? seqNum) && (seqNum <=? expectedCount)
      then keepBetter seqNum url m else m
  | None => m
  end.

Definition respectSequentialPattern (screenshots : list string)
  (analysis : Decision) : list string :=
  let expectedCount := maxScreenshots (recommendation analysis) in
  let sequentialUrls := fold_left (sequenceStep expectedCount) screenshots [] in
  collect sequentialUrls (Js.range 1 expectedCount).

Definition sliceKeep (expectedCount : Z) (m : list (Z * string))
  (url : string) : list (Z * string) :=
  match Js.match_slice url with
  | Some d =>
      let sliceNum := Js.parseInt d in
      if (0 <=? sliceNum) && (sliceNum <? expectedCount)
      then keepBetter sliceNum url m else m
  | None => m
  end.

Definition respectSlicePattern (screenshots : list string)
  (analysis : Decision) : list string :=
  let expectedCount := maxScreenshots (recommendation analysis) in
  let sliceUrls := fold_left (sliceKeep expectedCount) screenshots [] in
  collect sliceUrls (Js.range 0 (expectedCount - 1)).

(** [groups]: base name -> URLs, in insertion order. *)
Definition groupByIdentifier (screenshots : list string)
  : list (string * list string) :=
  fold_left (fun groups url =>
               Js.map_push String.eqb (extractContentIdentifier url) url groups)
            screenshots [].

(** The [for (const [baseName, urls] of sortedGroups)] loop. *)
Fixpoint takeGroups (targetCount : Z)
  (sortedGroups : list (string * list string)) (result : list (list string))
  : list (list string) :=
  match sortedGroups with
  | [] => result
  | (_, urls) :: rest =>
      if targetCount <=? Js.len result then result
      else takeGroups targetCount rest
             (result ++ [selectBestFromGroup urls])%list
  end.

Definition aggressiveDeduplicate (screenshots : list string)
  (analysis : Decision) : list (list string) :=
  let targetCount := maxScreenshots (recommendation analysis) in
  let groups := groupByIdentifier screenshots in
  let sortedGroups :=
    Js.sort (fun a b =>
               Double.sgn (Double.sub (assessGroupQuality (snd b))
                                      (assessGroupQuality (snd a))))
            groups in
  takeGroups targetCount sortedGroups [].

Definition filterByQuality (screenshots : list string) (analysis : Decision)
  : list string :=
  let targetCount := maxScreenshots (recommendation analysis) in
  let scoredScreenshots :=
    map (fun url => (url, calculateQualityScore url)) screenshots in
  map fst
    (Js.slice0 targetCount
       (Js.sort (fun a b => Double.sgn (Double.sub (snd b) (snd a)))
                scoredScreenshots)).

(** The key [`${aspectRatio}_${hasSequence}_${hasSlice}`]; two keys are the
    same string exactly when their three components agree. *)
Definition SimilarityKey : Type := Z * bool * bool.

Definition SimilarityKey_eqb (a b : SimilarityKey) : bool :=
  (fst (fst a) =? fst (fst b)) && Bool.eqb (snd (fst a)) (snd (fst b))
  && Bool.eqb (snd a) (snd b).

Definition calculateSimilarityKey (url : string) : SimilarityKey :=
  let aspectRatio :=
    match Js.match_dims url with
    | Some (w, h) =>
        let width := Js.parseInt w in
        let height := Js.parseInt h in
        if 0 <? width
        then Double.jsround
               (Double.mul (Double.div (Double.of_Z height) (Double.of_Z width))
                           10)
        else 0
    | None => 0
    end in
  (aspectRatio, isSequentialUrl url, isSliceUrl url).

Definition groupBySimilarity (screenshots : list string)
  : list (SimilarityKey * list string) :=
  fold_left (fun groups url =>
               Js.map_push SimilarityKey_eqb (calculateSimilarityKey url) url
                 groups)
            screenshots [].

(** Body of the [groups.forEach] of [selectDiverseSet]; the accumulator is
    [(result, remaining)]. *)
Definition diverseStep (targetCount totalSize : Z) (acc : list string * Z)
  (group : SimilarityKey * list string) : list string * Z :=
  let urls := snd group in
  if snd acc <=? 0 then acc
  else
    let groupProportion :=
      Double.div (Double.of_Z (Js.len urls)) (Double.of_Z totalSize) in
    let groupTarget :=
      Z.max 1 (Double.jsround
                 (Double.mul (Double.of_Z targetCount) groupProportion)) in
    let takeCount := Z.min (Z.min groupTarget (snd acc)) (Js.len urls) in
    ((fst acc ++ Js.slice0 takeCount (selectBestFromGroup urls))%list,
     snd acc - takeCount).

Definition selectDiverseSet (screenshots : list string) (targetCount : Z)
  : list string :=
  if Js.len screenshots <=? targetCount then screenshots
  else
    let groups := groupBySimilarity screenshots in
    let groupSizes := map (fun group => Js.len (snd group)) groups in
    let totalSize := fold_left (fun sum size => sum + size) groupSizes 0 in
    Js.slice0 targetCount
      (fst (fold_left (diverseStep targetCount totalSize) groups
                      ([], targetCount))).

Definition platformOptimize (screenshots : list string) (analysis : Decision)
  : list string :=
  selectDiverseSet screenshots (maxScreenshots (recommendation analysis)).

Definition applyStrategy (screenshots : list string) (analysis : Decision)
  : list Entry :=
  match strategy analysis with
  | respect_sequence => map Url (respectSequentialPattern screenshots analysis)
  | respect_slices => map Url (respectSlicePattern screenshots analysis)
  | deduplicate_aggressive =>
      map Urls (aggressiveDeduplicate screenshots analysis)
  | quality_filter => map Url (filterByQuality screenshots analysis)
  | platform_optimize => map Url (platformOptimize screenshots analysis)
  | none => map Url screenshots
  end.

Definition filter (screenshots : list string) (platform : Platform)
  : list Entry :=
  match screenshots with
  | [] => []
  | _ :: _ =>
      let analysis := analyzeCollection screenshots platform in
      if negb (needsFiltering analysis) then map Url screenshots
      else applyStrategy screenshots analysis
  end.

End SmartFilter.

(* ================================================================== *)
(** ** The app record handed around by the validator and the chain *)
(* ================================================================== *)

Module App.

(** The fields of [appData] the pipeline reads or writes, for collections
    whose elements are of type [U].  A field that is absent ([undefined])
    is [None]; [id] is [None] when it is absent or falsy, and otherwise
    holds [appData.id.toString()]. *)
Record AppDataOf (U : Type) := {
  id : option string;
  screenshots : option (list U);
  ipadScreenshots : option (list U);
  appletvScreenshots : option (list U);
  _screenshotExtractionWarning : option string;
  _lastError : option string
}.

Arguments id {U} _.
Arguments screenshots {U} _.
Arguments ipadScreenshots {U} _.
Arguments appletvScreenshots {U} _.
Arguments _screenshotExtractionWarning {U} _.
Arguments _lastError {U} _.
Arguments Build_AppDataOf {U} _ _ _ _ _ _.

(** The record as the lookup and the product page give it: the elements
    of the collections are URLs. *)
Definition AppData : Type := AppDataOf string.

(** [field || []] *)
Definition orEmpty {U : Type} (f : option (list U)) : list U :=
  match f with Some l => l | None => [] end.

(** [field && field.length > 0] *)
Definition hasAny {U : Type} (f : option (list U)) : bool :=
  match f with Some (_ :: _) => true | _ => false end.

Definition with_appletv {U : Type} (a : AppDataOf U) (tv : option (list U))
  : AppDataOf U :=
  {| id := id a;
     screenshots := screenshots a;
     ipadScreenshots := ipadScreenshots a;
     appletvScreenshots := tv;
     _screenshotExtractionWarning := _screenshotExtractionWarning a;
     _lastError := _lastError a |}.

(** The same record under another reading of its elements. *)
Definition mapUrls {U V : Type} (f : U -> V) (a : AppDataOf U) : AppDataOf V :=
  {| id := id a;
     screenshots := option_map (map f) (screenshots a);
     ipadScreenshots := option_map (map f) (ipadScreenshots a);
     appletvScreenshots := option_map (map f) (appletvScreenshots a);
     _screenshotExtractionWarning := _screenshotExtractionWarning a;
     _lastError := _lastError a |}.

End App.

(* ================================================================== *)
(** ** lib/screenshot-validator.js *)
(* ================================================================== *)

Module ScreenshotValidator.

Import App.

Inductive Issue :=
| app_not_found | potentially_stale_urls | threads_mastodon_mismatch
| excessive_iphone_duplicates | excessive_ipad_duplicates | no_screenshots
| screenshots_not_accessible | some_screenshots_inaccessible
| validation_failed.

Inductive Recommend :=
| app_removed | force_refresh | clear_cache | rerun_deduplication
| force_web_scraping | refresh_screenshot_urls | manual_review.

Definition Issue_eqb (a b : Issue) : bool :=
  match a, b with
  | app_not_found, app_not_found
  | potentially_stale_urls, potentially_stale_urls
  | threads_mastodon_mismatch, threads_mastodon_mismatch
  | excessive_iphone_duplicates, excessive_iphone_duplicates
  | excessive_ipad_duplicates, excessive_ipad_duplicates
  | no_screenshots, no_screenshots
  | screenshots_not_accessible, screenshots_not_accessible
  | some_screenshots_inaccessible, some_screenshots_inaccessible
  | validation_failed, validation_failed => true
  | _, _ => false
  end.

(** [issues.includes(tag)] *)
Definition issues_include (issues : list Issue) (tag : Issue) : bool :=
  existsb (Issue_eqb tag) issues.

Record ValidationResult := {
  isValid : bool;
  confidence : Q;
  issues : list Issue;
  recommendations : list Recommend
}.

Record PartialResult := {
  p_issues : list Issue;
  p_confidence : Q
}.

Definition maxCacheAge : Z := 60000.

(** [/\/\d{4}\/\d{2}\//] at the head of [l]. *)
Definition date_path_at (l : list ascii) : option unit :=
  match l with
  | s1 :: a :: b :: c :: d :: s2 :: e :: f :: s3 :: _ =>
      if Js.is_slash s1 && Js.is_digit a && Js.is_digit b && Js.is_digit c
         && Js.is_digit d && Js.is_slash s2 && Js.is_digit e && Js.is_digit f
         && Js.is_slash s3
      then Some tt else None
  | _ => None
  end.

Definition has_date_path (url : string) : bool :=
  match Js.leftmost date_path_at (Js.chars url) with
  | Some _ => true
  | None => false
  end.

(** An element of a screenshot collection is a URL or, in a record that
    went through [SmartFilter.filter] under "deduplicate_aggressive", an
    array of URLs.  A step that throws a TypeError on an element is
    [None]. *)
Abbreviation Entry := SmartFilter.Entry.
Abbreviation Url := SmartFilter.Url.
Abbreviation Urls := SmartFilter.Urls.

(** [step1] followed by [step2], unless [step1] throws. *)
Definition andThen {A B : Type} (step1 : option A) (step2 : A -> option B)
  : option B :=
  match step1 with
  | Some a => step2 a
  | None => None
  end.

(** The callback of [hasOldPatterns]:
    [url && (url.includes('_old') || url.includes('_archived')
             || url.includes('_legacy') || url.match(/.../))].
    On an array [includes] is [Array.prototype.includes] and [match] is
    not a function. *)
Definition isOldPattern (url : Entry) : option bool :=
  match url with
  | Url s =>
      Some (Js.truthy s &&
            (Js.includes s "_old" || Js.includes s "_archived"
             || Js.includes s "_legacy" || has_date_path s))
  | Urls l =>
      if Js.array_includes l "_old" || Js.array_includes l "_archived"
         || Js.array_includes l "_legacy"
      then Some true else None
  end.

Record Mismatch := {
  appId_of : string;
  problemPatterns : list string;
  description : Issue
}.

Definition knownMismatches : list Mismatch :=
  [ {| appId_of := "6446901002";
       problemPatterns := ["mastodon"; "toot"; "fediverse"];
       description := threads_mastodon_mismatch |} ].

(** [url && url.toLowerCase().includes(pattern)]; an array has no
    [toLowerCase]. *)
Definition hasPattern (url : Entry) (pattern : string) : option bool :=
  match url with
  | Url s => Some (Js.truthy s && Js.includes (Js.toLowerCase s) pattern)
  | Urls _ => None
  end.

(** Body of the [knownMismatches.forEach]. *)
Definition mismatchStep (appData : AppDataOf Entry) (allUrls : list Entry)
  (issues : list Issue) (mismatch : Mismatch) : option (list Issue) :=
  match id appData with
  | Some i =>
      if String.eqb i (appId_of mismatch) then
        andThen
          (Js.some (fun url => Js.some (hasPattern url)
                                       (problemPatterns mismatch))
                   allUrls)
          (fun hasProblemPattern =>
             Some (if hasProblemPattern
                   then (issues ++ [description mismatch])%list
                   else issues))
      else Some issues
  | None => Some issues
  end.

Definition _detectContentMismatches (appData : AppDataOf Entry)
  (screenshots ipadScreenshots : list Entry) : option (list Issue) :=
  let allUrls := (screenshots ++ ipadScreenshots)%list in
  fold_left (fun issues mismatch =>
               andThen issues
                       (fun issues => mismatchStep appData allUrls issues
                                        mismatch))
            knownMismatches (Some []).

(** An array has no [replace]. *)
Definition _extractVisualIdentifier (url : Entry) : option string :=
  match url with
  | Url s =>
      let identifier := Js.strip_version (Js.strip_dims_slash (Js.chars s)) in
      let filename := Js.last_segment identifier in
      Some (if Js.nonempty filename then Js.str (Js.before_dot filename)
            else Js.str identifier)
  | Urls _ => None
  end.

(** [!url] *)
Definition falsy (url : Entry) : bool :=
  match url with
  | Url s => negb (Js.truthy s)
  | Urls _ => false
  end.

(** The [forEach] of [_countVisualDuplicates]: the set of identifiers seen
    and the number of repeats. *)
Definition countStep (acc : list string * Z) (url : Entry)
  : option (list string * Z) :=
  if falsy url then Some acc
  else
    andThen (_extractVisualIdentifier url)
      (fun identifier =>
         Some (if existsb (String.eqb identifier) (fst acc)
               then (fst acc, snd acc + 1)
               else ((fst acc ++ [identifier])%list, snd acc))).

Definition _countVisualDuplicates (urls : list Entry) : option Z :=
  option_map snd
    (fold_left (fun acc url => andThen acc (fun acc => countStep acc url))
               urls (Some ([], 0))).

(** [count > urls.length * 0.4] *)
Definition exceeds_40_percent (count : Z) (urls : list Entry) : bool :=
  Double.ltb (Double.mul (Double.of_Z (Js.len urls)) (Double.lit (4 # 10)))
             (Double.of_Z count).

Definition _detectExcessiveDuplicates (screenshots ipadScreenshots : list Entry)
  : option (list Issue) :=
  andThen (_countVisualDuplicates screenshots) (fun iphoneDuplicates =>
  let issues1 :=
    if exceeds_40_percent iphoneDuplicates screenshots
    then [excessive_iphone_duplicates] else [] in
  andThen (_countVisualDuplicates ipadScreenshots) (fun ipadDuplicates =>
  Some (issues1
        ++ (if exceeds_40_percent ipadDuplicates ipadScreenshots
            then [excessive_ipad_duplicates] else []))%list)).

Definition _analyzeScreenshotPatterns (appData : AppDataOf Entry)
  : option PartialResult :=
  let screenshots := orEmpty (screenshots appData) in
  let ipadScreenshots := orEmpty (ipadScreenshots appData) in
  andThen (Js.some isOldPattern (screenshots ++ ipadScreenshots)%list)
    (fun hasOldPatterns =>
  let issues1 := if hasOldPatterns then [potentially_stale_urls] else [] in
  let confidence1 :=
    if hasOldPatterns then Double.mul 1 (Double.lit (5 # 10)) else 1%Q in
  andThen (_detectContentMismatches appData screenshots ipadScreenshots)
    (fun contentMismatches =>
  let issues2 := (issues1 ++ contentMismatches)%list in
  let confidence2 :=
    if Js.nonempty contentMismatches
    then Double.mul confidence1 (Double.lit (2 # 10))
    else confidence1 in
  andThen (_detectExcessiveDuplicates screenshots ipadScreenshots)
    (fun duplicateIssues =>
  let issues3 := (issues2 ++ duplicateIssues)%list in
  let confidence3 :=
    if Js.nonempty duplicateIssues
    then Double.mul confidence2 (Double.lit (6 # 10))
    else confidence2 in
  Some {| p_issues := issues3; p_confidence := confidence3 |}))).

Definition _generateRecommendations (issues : list Issue) (confidence : Q)
  : list Recommend :=
  let r1 :=
    if Double.ltb confidence (Double.lit (3 # 10)) then [force_refresh]
    else if Double.ltb confidence (Double.lit (7 # 10)) then [clear_cache]
    else [] in
  let r2 :=
    if issues_include issues excessive_iphone_duplicates
       || issues_include issues excessive_ipad_duplicates
    then (r1 ++ [rerun_deduplication])%list else r1 in
  let r3 :=
    if issues_include issues threads_mastodon_mismatch
    then (r2 ++ [force_web_scraping])%list else r2 in
  let r4 :=
    if issues_include issues screenshots_not_accessible
    then (r3 ++ [refresh_screenshot_urls])%list else r3 in
  if negb (Js.nonempty r4) && Js.nonempty issues
  then (r4 ++ [manual_review])%list else r4.

(** What the [catch] of [validateScreenshots] returns. *)
Definition validationFailed : ValidationResult :=
  {| isValid := false; confidence := 0%Q; issues := [validation_failed];
     recommendations := [force_refresh] |}.

Section WithNetwork.

(** The outside world: the clock behind [Date.now()] and the network behind
    [axios.head].  [head url timeout w] tells whether the response arrived
    with status 200 (a rejected promise is caught by the callers and counts
    as [false]) and gives the world after the request; [url] is the value
    that the caller passes, whatever it is. *)
Variable World : Type.
Variable Date_now : World -> Z.
Variable head : Entry -> Z -> World -> bool * World.

Record CacheEntry := {
  timestamp : Z;
  result : ValidationResult
}.

(** State of one [ScreenshotValidator]: its [validationCache], the world,
    and the list of HEAD requests issued so far (most recent first). *)
Record State := {
  world : World;
  validationCache : list (string * CacheEntry);
  requests : list Entry
}.

Definition V (A : Type) : Type := State -> A * State.
Definition ret {A : Type} (a : A) : V A := fun st => (a, st).
Definition bind {A B : Type} (m : V A) (f : A -> V B) : V B :=
  fun st => let (a, st') := m st in f a st'.

(** [await axios.head(url, {timeout, ...})], reduced to [status === 200]. *)
Definition axios_head (url : Entry) (timeout : Z) : V bool :=
  fun st =>
    let (ok, w') := head url timeout (world st) in
    (ok, {| world := w';
            validationCache := validationCache st;
            requests := url :: requests st |}).

Fixpoint cache_get (key : string) (c : list (string * CacheEntry))
  : option CacheEntry :=
  match c with
  | [] => None
  | (k, e) :: t => if String.eqb k key then Some e else cache_get key t
  end.

Fixpoint cache_set (key : string) (e : CacheEntry)
  (c : list (string * CacheEntry)) : list (string * CacheEntry) :=
  match c with
  | [] => [(key, e)]
  | (k, e') :: t =>
      if String.eqb k key then (k, e) :: t else (k, e') :: cache_set key e t
  end.

Definition _checkAppPageExists (appId country : string) : V bool :=
  axios_head (Url ("https://apps.apple.com/" ++ country ++ "/app/id" ++ appId))
             5000.

(** The [for (const url of sampleUrls)] loop: number of accessible URLs. *)
Fixpoint countAccessible (sampleUrls : list Entry) (accessibleCount : Z)
  : V Z :=
  match sampleUrls with
  | [] => ret accessibleCount
  | url :: rest =>
      bind (axios_head url 3000)
           (fun ok =>
              countAccessible rest
                (if ok then accessibleCount + 1 else accessibleCount))
  end.

Definition _validateScreenshotUrls (appData : AppDataOf Entry)
  : V PartialResult :=
  let allUrls :=
    (orEmpty (screenshots appData) ++ orEmpty (ipadScreenshots appData))%list in
  match allUrls with
  | [] => ret {| p_issues := [no_screenshots];
                 p_confidence := Double.lit (3 # 10) |}
  | _ :: _ =>
      let sampleSize := Z.min 3 (Js.len allUrls) in
      let sampleUrls := firstn (Z.to_nat sampleSize) allUrls in
      bind (countAccessible sampleUrls 0)
           (fun accessibleCount =>
              let accessibilityRatio :=
                Double.div (Double.of_Z accessibleCount)
                           (Double.of_Z sampleSize) in
              if Double.ltb accessibilityRatio (Double.lit (5 # 10)) then
                ret {| p_issues := [screenshots_not_accessible];
                       p_confidence := Double.mul 1 (Double.lit (3 # 10)) |}
              else if Double.ltb accessibilityRatio (Double.lit (8 # 10)) then
                ret {| p_issues := [some_screenshots_inaccessible];
                       p_confidence := Double.mul 1 (Double.lit (7 # 10)) |}
              else ret {| p_issues := []; p_confidence := 1%Q |})
  end.

(** [_performValidation]; [None] when it throws: the TypeError of
    [_analyzeScreenshotPatterns] leaves it after the request for the
    page. *)
Definition _performValidation (appData : AppDataOf Entry)
  (appId country : string) : V (option ValidationResult) :=
  bind (_checkAppPageExists appId country)
       (fun pageExists =>
          if negb pageExists then
            ret (Some {| isValid := false; confidence := 0%Q;
                         issues := [app_not_found];
                         recommendations := [app_removed] |})
          else
            match _analyzeScreenshotPatterns appData with
            | None => ret None
            | Some screenshotIssues =>
                let issues1 := p_issues screenshotIssues in
                let confidence1 :=
                  Double.mul 1 (p_confidence screenshotIssues) in
                bind (_validateScreenshotUrls appData)
                     (fun urlValidation =>
                        let issues2 :=
                          (issues1 ++ p_issues urlValidation)%list in
                        let confidence2 :=
                          Double.mul confidence1 (p_confidence urlValidation) in
                        let valid :=
                          Double.ltb (Double.lit (7 # 10)) confidence2
                          && negb (Js.nonempty issues2) in
                        ret (Some {| isValid := valid;
                                     confidence := confidence2;
                                     issues := issues2;
                                     recommendations :=
                                       _generateRecommendations issues2
                                         confidence2 |}))
            end).

(** [validateScreenshots]: a result that [_performValidation] returns is
    stored in the cache; when [_performValidation] throws, the [catch]
    returns [validationFailed] and nothing is stored. *)
Definition validateScreenshots (appData : AppDataOf Entry)
  (appId country : string) : V ValidationResult :=
  fun st =>
    let cacheKey := appId ++ "_" ++ country in
    let miss :=
      let (outcome, st') := _performValidation appData appId country st in
      match outcome with
      | Some validation =>
          (validation,
           {| world := world st';
              validationCache :=
                cache_set cacheKey
                  {| timestamp := Date_now (world st'); result := validation |}
                  (validationCache st');
              requests := requests st' |})
      | None => (validationFailed, st')
      end in
    match cache_get cacheKey (validationCache st) with
    | Some cached =>
        if Date_now (world st) - timestamp cached <? maxCacheAge
        then (result cached, st)
        else miss
    | None => miss
    end.

Definition clearCache : V unit :=
  fun st => (tt, {| world := world st; validationCache := [];
                    requests := requests st |}).

(** A validator as constructed: empty cache, no request issued. *)
Definition fresh (w : World) : State :=
  {| world := w; validationCache := []; requests := [] |}.

End WithNetwork.

End ScreenshotValidator.

(* ================================================================== *)
(** ** lib/screenshot-chain.js *)
(* ================================================================== *)

Module ScreenshotChain.

Import App.
Import PatternAnalyzer.

(** A thrown JavaScript value, reduced to its [message]. *)
Definition Exn : Type := string.

Record WebScreenshots := {
  web_screenshots : list string;
  web_ipadScreenshots : list string;
  web_appletvScreenshots : list string
}.

Inductive Reason :=
| no_screenshots_in_api | validation_failed | api_processing_error
| no_screenshots_extracted | web_validation_failed | web_scraping_error.

(** A processed record: its collections are what [SmartFilter.filter]
    returns, whose elements are URLs or, under "deduplicate_aggressive",
    arrays of URLs. *)
Definition Processed : Type := AppDataOf SmartFilter.Entry.

(** [{ success: true, data }] or [{ success: false, reason, error }]. *)
Inductive Outcome :=
| Success (data : Processed)
| Failure (reason : Reason) (error : option Exn).

Record Options := {
  forceRefresh : bool;
  skipValidation : bool;
  maxRetries : Z
}.

(** [const { forceRefresh = false, skipValidation = false, maxRetries = 2 }] *)
Definition defaultOptions : Options :=
  {| forceRefresh := false; skipValidation := false; maxRetries := 2 |}.

Section WithCollaborators.

(** The chain runs against a state [S] (network, clock, validation cache,
    ...).  A computation either returns or throws. *)
Variable S : Type.

Definition C (A : Type) : Type := S -> (Exn + A) * S.
Definition ret {A : Type} (a : A) : C A := fun s => (inr a, s).
Definition throw {A : Type} (e : Exn) : C A := fun s => (inl e, s).
Definition bind {A B : Type} (m : C A) (f : A -> C B) : C B :=
  fun s => match m s with
           | (inr a, s') => f a s'
           | (inl e, s') => (inl e, s')
           end.
(** [try { m } catch (error) { h error }] *)
Definition try_catch {A : Type} (m : C A) (h : Exn -> C A) : C A :=
  fun s => match m s with
           | (inr a, s') => (inr a, s')
           | (inl e, s') => h e s'
           end.

(** The collaborators of the chain; each of them may throw. *)
Variable extractScreenshotsFromWeb : string -> string -> C WebScreenshots.
Variable validateScreenshots :
  Processed -> string -> string -> C ScreenshotValidator.ValidationResult.
Variable deduplicate : list string -> Platform -> C (list string).
Variable smartFilter : list string -> Platform -> C (list SmartFilter.Entry).
Variable delay : Z -> C unit.

(** [[...new Set(xs)].filter(Boolean)] *)
Definition uniqueTruthy (xs : list string) : list string :=
  filter Js.truthy (Js.uniq String.eqb xs).

(** [if (xs.length > 0) xs = f(xs, platform)] *)
Definition whenNonEmpty {U : Type} (f : list string -> Platform -> C (list U))
  (xs : list string) (p : Platform) : C (list U) :=
  match xs with
  | [] => ret []
  | _ :: _ => f xs p
  end.

Definition processScreenshots (appData : AppData) : C Processed :=
  let s0 := uniqueTruthy (orEmpty (screenshots appData)) in
  let i0 := uniqueTruthy (orEmpty (ipadScreenshots appData)) in
  let t0 := uniqueTruthy (orEmpty (appletvScreenshots appData)) in
  bind (whenNonEmpty deduplicate s0 iPhone) (fun s1 =>
  bind (whenNonEmpty deduplicate i0 iPad) (fun i1 =>
  bind (whenNonEmpty deduplicate t0 AppleTV) (fun t1 =>
  bind (whenNonEmpty smartFilter s1 iPhone) (fun s2 =>
  bind (whenNonEmpty smartFilter i1 iPad) (fun i2 =>
  bind (whenNonEmpty smartFilter t1 AppleTV) (fun t2 =>
  ret {| id := id appData;
         screenshots := Some s2;
         ipadScreenshots := Some i2;
         appletvScreenshots := Some t2;
         _screenshotExtractionWarning := _screenshotExtractionWarning appData;
         _lastError := _lastError appData |})))))).

Definition tryItunesApi (appData : AppData) (appId country : string)
  (skipValidation : bool) : C Outcome :=
  try_catch
    (let hasIphone := hasAny (screenshots appData) in
     let hasIpad := hasAny (ipadScreenshots appData) in
     if negb hasIphone && negb hasIpad then
       ret (Failure no_screenshots_in_api None)
     else
       bind (if negb skipValidation
             then bind (validateScreenshots (mapUrls SmartFilter.Url appData)
                          appId country)
                       (fun validation =>
                          ret (ScreenshotValidator.isValid validation))
             else ret true)
            (fun valid =>
               if negb valid then ret (Failure validation_failed None)
               else bind (processScreenshots appData)
                         (fun processed => ret (Success processed))))
    (fun error => ret (Failure api_processing_error (Some error))).

Definition tryWebScraping (appData : AppData) (appId country : string)
  (attempt : Z) (skipValidation : bool) : C Outcome :=
  try_catch
    (bind (extractScreenshotsFromWeb appId country) (fun webScreenshots =>
     let totalScreenshots :=
       Js.len (web_screenshots webScreenshots)
       + Js.len (web_ipadScreenshots webScreenshots)
       + Js.len (web_appletvScreenshots webScreenshots) in
     if totalScreenshots =? 0 then
       ret (Failure no_screenshots_extracted None)
     else
       bind (processScreenshots
               {| id := id appData;
                  screenshots := Some (web_screenshots webScreenshots);
                  ipadScreenshots := Some (web_ipadScreenshots webScreenshots);
                  appletvScreenshots :=
                    Some (web_appletvScreenshots webScreenshots);
                  _screenshotExtractionWarning :=
                    _screenshotExtractionWarning appData;
                  _lastError := _lastError appData |})
            (fun processed =>
               bind (if negb skipValidation
                     then bind (validateScreenshots processed appId country)
                               (fun validation =>
                                  ret (negb (ScreenshotValidator.isValid validation)
                                       && Double.ltb
                                            (ScreenshotValidator.confidence validation)
                                            (Double.lit (5 # 10))))
                     else ret false)
                    (fun rejected =>
                       if rejected
                       then ret (Failure web_validation_failed None)
                       else ret (Success processed)))))
    (fun error => ret (Failure web_scraping_error (Some error))).

Definition createFallbackResult (appData : AppData) (lastError : option Exn)
  : C Processed :=
  let message :=
    match lastError with
    | Some m => if Js.truthy m then m else "Unknown error"
    | None => "Unknown error"
    end in
  let fallbackData : AppData :=
    {| id := id appData;
       screenshots := Some (orEmpty (screenshots appData));
       ipadScreenshots := Some (orEmpty (ipadScreenshots appData));
       appletvScreenshots := Some (orEmpty (appletvScreenshots appData));
       _screenshotExtractionWarning :=
         Some "Screenshot extraction failed, using available data";
       _lastError := Some message |} in
  try_catch (processScreenshots fallbackData)
            (fun processError => ret (mapUrls SmartFilter.Url fallbackData)).

(** The [for (let attempt = 1; attempt <= maxRetries; attempt++)] loop of
    [extract] followed by the final fallback; [remaining] counts the
    iterations still to run. *)
Fixpoint scrapeLoop (appData : AppData) (appId country : string)
  (opts : Options) (remaining : nat) (attempt : Z) (lastError : option Exn)
  : C Processed :=
  match remaining with
  | O => createFallbackResult appData lastError
  | Datatypes.S remaining' =>
      fun s =>
        let body :=
          bind (tryWebScraping appData appId country attempt
                  (skipValidation opts))
               (fun webResult =>
                  match webResult with
                  | Success data => ret (inl data)
                  | Failure _ error =>
                      bind (if attempt <? maxRetries opts
                            then delay (1000 * 2 ^ (attempt - 1))
                            else ret tt)
                           (fun _ => ret (inr error))
                  end) in
        match try_catch body (fun error => ret (inr (Some error))) s with
        | (inr (inl data), s') => (inr data, s')
        | (inr (inr lastError'), s') =>
            scrapeLoop appData appId country opts remaining' (attempt + 1)
              lastError' s'
        | (inl e, s') => (inl e, s')
        end
  end.

Definition extract (appData : AppData) (appId country : string)
  (opts : Options) : C Processed :=
  let scrape :=
    scrapeLoop appData appId country opts (Z.to_nat (maxRetries opts)) 1 None in
  if negb (forceRefresh opts) then
    bind (tryItunesApi appData appId country (skipValidation opts))
         (fun apiResult =>
            match apiResult with
            | Success data => ret data
            | Failure _ _ => scrape
            end)
  else scrape.

End WithCollaborators.

(** *** [validateResult] and its helpers *)

(** [/\d+x\d+[^/]*/] at the head of [l]: what follows the match. *)
Definition size_token_at (l : list ascii) : option (list ascii) :=
  match Js.dims_at l with
  | Some (_, _, r) => Some (snd (Js.span (fun c => negb (Js.is_slash c)) r))
  | None => None
  end.

(** [/_new|_orig|_retry/] at the head of [l]: what follows the match. *)
Definition version_token_at (l : list ascii) : option (list ascii) :=
  match Js.prefix_rest (Js.chars "_new") l with
  | Some r => Some r
  | None =>
      match Js.prefix_rest (Js.chars "_orig") l with
      | Some r => Some r
      | None => Js.prefix_rest (Js.chars "_retry") l
      end
  end.

Definition normalizeUrlForComparison (url : string) : string :=
  Js.str
    (Js.replace_first_by version_token_at (Js.chars "_VER")
       (Js.replace_first_by size_token_at (Js.chars "SIZE") (Js.chars url))).

Record Duplicates := {
  dup_count : Z;
  dup_ratio : Q
}.

(** The [forEach] of [detectRemainingDuplicates]: the set of normalized
    URLs seen and the number of repeats. *)
Definition duplicateStep (acc : list string * Z) (url : string)
  : list string * Z :=
  let normalized := normalizeUrlForComparison url in
  if existsb (String.eqb normalized) (fst acc)
  then (fst acc, snd acc + 1)
  else ((fst acc ++ [normalized])%list, snd acc).

Definition detectRemainingDuplicates (urls : list string) : Duplicates :=
  let duplicates := snd (fold_left duplicateStep urls ([], 0)) in
  {| dup_count := duplicates;
     dup_ratio :=
       if 0 <? Js.len urls
       then Double.div (Double.of_Z duplicates) (Double.of_Z (Js.len urls))
       else 0%Q |}.

Inductive ResultQuality := good | fair | poor.

Inductive Warning :=
| No_screenshots_extracted
| Very_few_screenshots_extracted
| Potential_duplicates_detected (count : Z)
| Many_screenshots_URLs_are_not_accessible.

Record ResultValidation := {
  rv_isValid : bool;
  rv_warnings : list Warning;
  rv_quality : ResultQuality
}.

Section WithNetwork.

(** The network behind [axios.head]: [head url timeout s] tells whether
    the response arrived with status 200 (a rejected promise is caught and
    counts as a failure, like any other status). *)
Variable S : Type.
Variable head : string -> Z -> S -> bool * S.

(** The [for (const url of sampleUrls)] loop of [checkUrlAccessibility]. *)
Fixpoint countFailures (sampleUrls : list string) (failures : Z) (s : S)
  : Z * S :=
  match sampleUrls with
  | [] => (failures, s)
  | url :: rest =>
      let (ok, s') := head url 3000 s in
      countFailures rest (if ok then failures else failures + 1) s'
  end.

(** [checkUrlAccessibility], reduced to its [failureRate]. *)
Definition checkUrlAccessibility (urls : list string) (s : S) : Q * S :=
  match urls with
  | [] => (0%Q, s)
  | _ :: _ =>
      let sampleUrls := Js.slice0 3 urls in
      let (failures, s') := countFailures sampleUrls 0 s in
      (Double.div (Double.of_Z failures) (Double.of_Z (Js.len sampleUrls)), s')
  end.

Definition validateResult (result : AppData) (appId : string) (s : S)
  : ResultValidation * S :=
  let screenshots := orEmpty (screenshots result) in
  let ipadScreenshots := orEmpty (ipadScreenshots result) in
  let totalScreenshots := Js.len screenshots + Js.len ipadScreenshots in
  let v1 :=
    if totalScreenshots =? 0 then
      {| rv_isValid := false; rv_warnings := [No_screenshots_extracted];
         rv_quality := poor |}
    else if totalScreenshots <? 3 then
      {| rv_isValid := true; rv_warnings := [Very_few_screenshots_extracted];
         rv_quality := fair |}
    else {| rv_isValid := true; rv_warnings := []; rv_quality := good |} in
  let duplicates :=
    detectRemainingDuplicates (screenshots ++ ipadScreenshots)%list in
  let v2 :=
    if 0 <? dup_count duplicates then
      {| rv_isValid := rv_isValid v1;
         rv_warnings :=
           (rv_warnings v1
            ++ [Potential_duplicates_detected (dup_count duplicates)])%list;
         rv_quality :=
           if Double.ltb (Double.lit (3 # 10)) (dup_ratio duplicates)
           then poor else rv_quality v1 |}
    else v1 in
  let (failureRate, s') :=
    checkUrlAccessibility (Js.slice0 3 (screenshots ++ ipadScreenshots)%list) s in
  (if Double.ltb (Double.lit (5 # 10)) failureRate then
     {| rv_isValid := rv_isValid v2;
        rv_warnings :=
          (rv_warnings v2 ++ [Many_screenshots_URLs_are_not_accessible])%list;
        rv_quality := poor |}
   else v2,
   s').

End WithNetwork.

End ScreenshotChain.

(* ================================================================== *)
(** ** lib/screenshot-fallback.js : grouping and group selection *)
(* ================================================================== *)

Module ScreenshotFallback.

Inductive Device := iphone | ipad | appletv.

Definition Device_eqb (a b : Device) : bool :=
  match a, b with
  | iphone, iphone | ipad, ipad | appletv, appletv => true
  | _, _ => false
  end.

(** [([^\/]+)\.[^\/]+] on one path segment: the greedy file name, that is
    the segment up to its last dot that still leaves an extension. *)
Definition filename_of_segment (seg : list ascii) : option (list ascii) :=
  match rev seg with
  | [] => None
  | _ :: r =>
      let (_, beforeRev) := Js.span (fun c => negb (Js.is_dot c)) r in
      match beforeRev with
      | _dot :: nameRev => if Js.nonempty nameRev then Some (rev nameRev) else None
      | [] => None
      end
  end.

(** [/\/([a-f0-9-]{36})\/([^\/]+)\.[^\/]+\/[^\/]+$/] at the head of [l]:
    the captured uuid and file name. *)
Definition uuid_at (l : list ascii) : option (list ascii * list ascii) :=
  match l with
  | c :: r =>
      let uuid := firstn 36 r in
      if Js.is_slash c && (List.length uuid =? 36)%nat
         && forallb Js.is_hashchar uuid then
        match skipn 36 r with
        | s1 :: r1 =>
            if Js.is_slash s1 then
              let (seg, r2) := Js.span (fun c => negb (Js.is_slash c)) r1 in
              match r2 with
              | _slash :: size =>
                  if Js.nonempty size && negb (existsb Js.is_slash size) then
                    match filename_of_segment seg with
                    | Some filename => Some (uuid, filename)
                    | None => None
                    end
                  else None
              | [] => None
              end
            else None
        | [] => None
        end
      else None
  | [] => None
  end.

Definition match_uuid (url : string) : option (list ascii * list ascii) :=
  Js.leftmost uuid_at (Js.chars url).

(** [groups]: base pattern -> URLs; the keys hold a slash, so
    [Object.entries] lists them in insertion order. *)
Fixpoint groups_add (basePattern url : string)
  (groups : list (string * list string)) : list (string * list string) :=
  match groups with
  | [] => [(basePattern, [url])]
  | (k, us) :: t =>
      if String.eqb k basePattern then (k, (us ++ [url])%list) :: t
      else (k, us) :: groups_add basePattern url t
  end.

Definition groupScreenshotsByPattern (urls : list string)
  : list (string * list string) :=
  fold_left
    (fun groups url =>
       match match_uuid url with
       | Some (uuid, filename) =>
           groups_add (Js.str uuid ++ "/" ++ Js.str filename) url groups
       | None => groups
       end)
    urls [].

Record PatternGroup := {
  pattern : string;
  urls : list string;
  deviceType : Device;
  confidence : Z;
  count : Z
}.

(** The [.map(([pattern, urls]) => ...)] of [selectPrimaryScreenshotGroups].
    Every group built by [groupScreenshotsByPattern] is non-empty, so
    [urls[0]] exists. *)
Definition classify (entry : string * list string) : PatternGroup :=
  let pattern := fst entry in
  let urls := snd entry in
  let sampleUrl := hd EmptyString urls in
  let inc := Js.includes sampleUrl in
  let isIpad :=
    inc "iPad" || inc "Slice_" || inc "2048x2732" || inc "APP_IPAD_PRO" in
  let isTv := inc "appletv" || inc "AppleTV" || inc "1920x1080" in
  let isPhone := inc "1242x2688" || inc "ImageGen" in
  let deviceType :=
    if isIpad then ipad else if isTv then appletv else iphone in
  let c0 :=
    if isIpad then
      2 + (if inc "APP_IPAD_PRO" then 2 else 0)
        + (if inc "iPad13" || inc "iPad12" then 2 else 0)
    else if isTv then 2
    else if isPhone then 2
    else 0 in
  let c1 := if Js.includes pattern "_of_" then c0 + 3 else c0 in
  let c2 :=
    if Js.includes pattern "_new." then c1 + 1
    else if Js.includes pattern "_orig." then c1 - 1
    else c1 in
  let c3 := if Js.includes pattern "ImageGen" then c2 + 2 else c2 in
  let c4 := if Js.len urls =? 1 then c3 - 1 else c3 in
  {| pattern := pattern; urls := urls; deviceType := deviceType;
     confidence := c4; count := Js.len urls |}.

(** [extractDimensions(url).total] *)
Definition total (url : string) : Z := Js.pixel_area url.

Definition selectBestQualityUrl (urls : list string) : string :=
  match urls with
  | [] => EmptyString
  | [u] => u
  | first :: others =>
      fold_left (fun best current =>
                   if total best <? total current then current else best)
                others first
  end.

(** [b.confidence - a.confidence || b.count - a.count] *)
Definition compareGroups (a b : PatternGroup) : Z :=
  if negb (confidence b - confidence a =? 0) then confidence b - confidence a
  else count b - count a.

Definition devicePatterns (deviceType0 : Device)
  (patternGroups : list PatternGroup) : list PatternGroup :=
  Js.sort compareGroups
    (filter (fun group => Device_eqb (deviceType group) deviceType0)
            patternGroups).

(** The [for (const group of devicePatterns)] loop; [kept] is
    [deviceGroups[deviceType]]. *)
Fixpoint selectLoop (maxScreenshots : Z) (groups : list PatternGroup)
  (totalScreenshots : Z) (kept : list string) : list string :=
  match groups with
  | [] => kept
  | group :: rest =>
      if maxScreenshots <=? totalScreenshots then kept
      else
        let minConfidence := if totalScreenshots =? 0 then 1 else 2 in
        if minConfidence <=? confidence group then
          selectLoop maxScreenshots rest (totalScreenshots + 1)
            (kept ++ [selectBestQualityUrl (urls group)])%list
        else selectLoop maxScreenshots rest totalScreenshots kept
  end.

(** [const maxScreenshots = deviceType === 'iphone' ? 8 : 6] *)
Definition maxScreenshotsFor (deviceType0 : Device) : Z :=
  match deviceType0 with iphone => 8 | _ => 6 end.

(** The group-selection stage for one device class. *)
Definition selectForDevice (deviceType0 : Device)
  (patternGroups : list PatternGroup) : list string :=
  selectLoop (maxScreenshotsFor deviceType0)
    (devicePatterns deviceType0 patternGroups) 0 [].

(** [.replace(/_(new|orig|updated|v\d+)$/, '')] on a file name. *)
Definition version_suffix_at (l : list ascii) : option (list ascii) :=
  match Js.prefix_rest (Js.chars "_") l with
  | Some r =>
      let ends (w : string) := String.eqb (Js.str r) w in
      let isV :=
        match r with
        | v :: ds => Js.ascii_eqb v "v" && Js.nonempty ds && forallb Js.is_digit ds
        | [] => false
        end in
      if ends "new" || ends "orig" || ends "updated" || isV
      then Some [] else None
  | None => None
  end.

Definition strip_version_suffix (filename : list ascii) : string :=
  Js.str (Js.replace_first version_suffix_at filename).

Fixpoint semanticLoop (screenshots : list string) (seenBasenames : list string)
  (result : list string) : list string :=
  match screenshots with
  | [] => result
  | url :: rest =>
      match match_uuid url with
      | Some (_, filename) =>
          let baseKey := strip_version_suffix filename in
          if existsb (String.eqb baseKey) seenBasenames
          then semanticLoop rest seenBasenames result
          else semanticLoop rest (seenBasenames ++ [baseKey])%list
                 (result ++ [url])%list
      | None => semanticLoop rest seenBasenames (result ++ [url])%list
      end
  end.

Definition deduplicateSemanticDuplicates (screenshots : list string)
  : list string :=
  semanticLoop screenshots [] [].

Record DeviceGroups := {
  g_iphone : list string;
  g_ipad : list string;
  g_appletv : list string
}.

Definition selectPrimaryScreenshotGroups
  (groupedScreenshots : list (string * list string)) : DeviceGroups :=
  let patternGroups := map classify groupedScreenshots in
  {| g_iphone :=
       deduplicateSemanticDuplicates (selectForDevice iphone patternGroups);
     g_ipad :=
       deduplicateSemanticDuplicates (selectForDevice ipad patternGroups);
     g_appletv :=
       deduplicateSemanticDuplicates (selectForDevice appletv patternGroups) |}.

(** *** Cleaning the URLs found on the page *)

Definition backslash : ascii := ascii_of_nat 92.

(** The size template of the page; the second one is followed by a
    backslash. *)
Definition sizeTemplate : list ascii := Js.chars "{w}x{h}{c}.{f}".
Definition sizeTemplateEscaped : list ascii := (sizeTemplate ++ [backslash])%list.
Definition standardSize : list ascii := Js.chars "392x696bb.jpg".

(** [null] is [None]. *)
Definition cleanScreenshotUrl (url : string) : option string :=
  let url1 :=
    List.filter (fun c => negb (Js.ascii_eqb c backslash)) (Js.chars url) in
  let url2 :=
    if Js.includes_l sizeTemplate url1 then
      Js.replace_first_by (Js.prefix_rest sizeTemplate) standardSize
        (Js.replace_first_by (Js.prefix_rest sizeTemplateEscaped) standardSize
           url1)
    else url1 in
  if negb (Js.startsWith (Js.str url2) "http") then None
  else Some (Js.str url2).

(** *** [deduplicateScreenshots] *)

(** [s.split('/')]; [cur] holds the current piece, reversed. *)
Fixpoint split_slash (l cur : list ascii) : list (list ascii) :=
  match l with
  | [] => [rev cur]
  | c :: t =>
      if Js.is_slash c then rev cur :: split_slash t []
      else split_slash t (c :: cur)
  end.

(** [.replace(/\.[^.]*$/, '')] on a text that holds a dot: the text up to
    its last dot. *)
Definition strip_extension (filename : list ascii) : list ascii :=
  rev (tl (snd (Js.span (fun c => negb (Js.is_dot c)) (rev filename)))).

Definition baseIdOf (url : string) : string :=
  match match_uuid url with
  | Some (uuid, filename) => Js.str uuid ++ "/" ++ Js.str filename
  | None =>
      let pathParts := split_slash (Js.chars url) [] in
      if (2 <=? List.length pathParts)%nat then
        let filename := nth (List.length pathParts - 2) pathParts [] in
        if Js.nonempty filename && existsb Js.is_dot filename
        then Js.str (strip_extension filename)
        else url
      else url
  end.

(** Body of the [forEach]; [uniqueScreenshots] maps base ids to URLs. *)
Definition uniqueStep (uniqueScreenshots : list (string * string))
  (url : string) : list (string * string) :=
  if negb (Js.truthy url) then uniqueScreenshots
  else
    let baseId := baseIdOf url in
    match Js.map_get String.eqb baseId uniqueScreenshots with
    | Some existing =>
        if negb (Js.truthy existing) then
          Js.map_set String.eqb baseId url uniqueScreenshots
        else if total existing <? total url then
          Js.map_set String.eqb baseId url uniqueScreenshots
        else uniqueScreenshots
    | None => Js.map_set String.eqb baseId url uniqueScreenshots
    end.

Definition deduplicateScreenshots (screenshots : list string) : list string :=
  List.filter Js.truthy
    (map snd (fold_left uniqueStep screenshots [])).

(** *** [applyConservativeValidation] *)

Definition isContaminated (url : string) : bool :=
  let urlLower := Js.toLowerCase url in
  let isKnownContaminatedUuid :=
    Js.includes url "87193092-0ef8-49c2-b620-3655c1aa9a3b" in
  let hasContaminationKeywords :=
    Js.includes urlLower "_snap_" || Js.includes urlLower "snapchat"
    || Js.includes urlLower "_hive_" || Js.includes urlLower "mastodon"
    || Js.includes urlLower "baseball" || Js.includes urlLower "mlb"
    || Js.includes urlLower "snla" || Js.includes urlLower "sport"
    || Js.includes urlLower "league" in
  isKnownContaminatedUuid || hasContaminationKeywords.

Definition indicatorCount (url : string) : Z :=
  let urlLower := Js.toLowerCase url in
  let inc := Js.includes urlLower in
  (if inc "ipad_pro" || inc "app_ipad_pro" then 3 else 0)
  + (if inc "ipad13" || inc "ipad12" then 3 else 0)
  + (if inc "imagegen" then 2 else 0)
  + (if inc "2048x2732" then 2 else 0)
  + (if inc "display_portrait" then 2 else 0)
  + (if inc "slice_" && inc "ipad" then 2 else 0)
  + (if inc "3gen_129" then 2 else 0)
  + (if inc "tablet" then 1 else 0).

Definition applyConservativeValidation (screenshots : list string)
  (deviceType0 : Device) : list string :=
  match screenshots with
  | [] => []
  | _ :: _ =>
      let patternKeys := map fst (groupScreenshotsByPattern screenshots) in
      let maxPatterns := match deviceType0 with ipad => 6 | _ => 10 end in
      if maxPatterns <? Js.len patternKeys then []
      else
        match deviceType0 with
        | ipad =>
            let contaminatedUrls := List.filter isContaminated screenshots in
            if 0 <? Js.len contaminatedUrls then []
            else
              let validIpadScreenshots :=
                List.filter (fun url => 2 <=? indicatorCount url) screenshots in
              if (8 <? Js.len screenshots)
                 && Double.ltb (Double.of_Z (Js.len validIpadScreenshots))
                      (Double.mul (Double.of_Z (Js.len screenshots))
                                  (Double.lit (7 # 10)))
              then []
              else validIpadScreenshots
        | _ => screenshots
        end
  end.

(** *** [extractScreenshotsFromWeb] *)

(** A character as [toLowerCase] leaves it, for the comparison of the
    [i] flag. *)
Fixpoint prefix_rest_ci (p l : list ascii) : option (list ascii) :=
  match p with
  | [] => Some l
  | a :: p' =>
      match l with
      | [] => None
      | b :: l' =>
          if Js.ascii_eqb (Js.lower_ascii a) (Js.lower_ascii b)
          then prefix_rest_ci p' l' else None
      end
  end.

(** [\s] among the characters below 256. *)
Definition is_space (c : ascii) : bool :=
  let n := nat_of_ascii c in
  ((9 <=? n)%nat && (n <=? 13)%nat) || (n =? 32)%nat || (n =? 160)%nat.

(** The class of the expression below: any character but a double quote,
    a single quote and white space. *)
Definition is_url_char (c : ascii) : bool :=
  negb (Js.ascii_eqb c (ascii_of_nat 34) || Js.ascii_eqb c (ascii_of_nat 39)
        || is_space c).

(** The expression of [extractScreenshotsFromWeb], with the flags [gi]:
    [https://], characters of the class above, [.mzstatic.com], characters
    of the class above.  At the head of [l]: the text matched.  The first
    run of the class extends to the end of the URL characters and gives
    back what the host needs; the last one takes the rest of the run; so
    the match is the scheme and the whole run as soon as the run holds the
    host. *)
Definition mzstatic_at (l : list ascii) : option (list ascii) :=
  match prefix_rest_ci (Js.chars "https://") l with
  | Some r =>
      let run := fst (Js.span is_url_char r) in
      match Js.leftmost (prefix_rest_ci (Js.chars ".mzstatic.com")) run with
      | Some _ => Some (firstn 8 l ++ run)%list
      | None => None
      end
  | None => None
  end.

(** [html.match(/.../gi) || []]: the matches from left to right, each
    search starting where the previous match ended; [skip] counts the
    characters of the current match still to pass. *)
Fixpoint mzstaticUrls (skip : nat) (html : list ascii) : list string :=
  match html with
  | [] => []
  | _ :: t =>
      match skip with
      | Datatypes.S k => mzstaticUrls k t
      | O =>
          match mzstatic_at html with
          | Some m => Js.str m :: mzstaticUrls (List.length m - 1) t
          | None => mzstaticUrls 0 t
          end
      end
  end.

(** [url.match(/\d+x\d+/)], as a condition *)
Definition hasDimensions (url : string) : bool :=
  match Js.match_dims url with Some _ => true | None => false end.

Definition isPotentialScreenshot (url : string) : bool :=
  (Js.includes url ".png" || Js.includes url ".jpg")
  && negb (Js.includes url "AppIcon")
  && negb (Js.includes url "artworkUrl")
  && negb (Js.includes url "icon")
  && negb (Js.includes url "logo")
  && (Js.includes url "screenshot" || Js.includes url "ImageGen"
      || Js.includes url "_of_" || Js.includes url "Slice_"
      || Js.includes url "1242x2688" || Js.includes url "2048x2732"
      || hasDimensions url).

(** [[...new Set(urls)].filter(Boolean).map(cleanScreenshotUrl)
       .filter(Boolean)] *)
Definition cleanAll (urls : list string) : list string :=
  List.filter Js.truthy
    (flat_map (fun url => match cleanScreenshotUrl url with
                          | Some cleaned => [cleaned]
                          | None => []
                          end)
              (List.filter Js.truthy (Js.uniq String.eqb urls))).

(** [if (urls.length > n) urls = urls.slice(0, n)] *)
Definition limitTo (n : Z) (urls : list string) : list string :=
  if n <? Js.len urls then Js.slice0 n urls else urls.

(** What [extractScreenshotsFromWeb] computes from the page it received. *)
Definition screenshotsFromHtml (html : string) : ScreenshotChain.WebScreenshots :=
  let allMzstaticUrls := mzstaticUrls 0 (Js.chars html) in
  let potentialScreenshots :=
    List.filter isPotentialScreenshot allMzstaticUrls in
  let groupedScreenshots := groupScreenshotsByPattern potentialScreenshots in
  let primaryGroups := selectPrimaryScreenshotGroups groupedScreenshots in
  let screenshots :=
    applyConservativeValidation
      (deduplicateScreenshots (cleanAll (g_iphone primaryGroups))) iphone in
  let ipadScreenshots :=
    applyConservativeValidation
      (deduplicateScreenshots (cleanAll (g_ipad primaryGroups))) ipad in
  let appletvScreenshots :=
    deduplicateScreenshots (cleanAll (g_appletv primaryGroups)) in
  {| ScreenshotChain.web_screenshots := limitTo 8 screenshots;
     ScreenshotChain.web_ipadScreenshots := limitTo 8 ipadScreenshots;
     ScreenshotChain.web_appletvScreenshots := limitTo 6 appletvScreenshots |}.

Definition noScreenshots : ScreenshotChain.WebScreenshots :=
  {| ScreenshotChain.web_screenshots := [];
     ScreenshotChain.web_ipadScreenshots := [];
     ScreenshotChain.web_appletvScreenshots := [] |}.

Section WithPage.

(** The network behind [axios.get]: [get url w] is the body of the page
    when the request succeeded and the body is a string; every other
    outcome ends in the [catch] of [extractScreenshotsFromWeb]. *)
Variable World : Type.
Variable get : string -> World -> option string * World.

Definition extractScreenshotsFromWeb (appId country : string) (w : World)
  : ScreenshotChain.WebScreenshots * World :=
  let url := "https://apps.apple.com/" ++ country ++ "/app/id" ++ appId in
  match get url w with
  | (Some html, w') => (screenshotsFromHtml html, w')
  | (None, w') => (noScreenshots, w')
  end.

(** [getScreenshotsWithFallback]; the call of [extractScreenshotsFromWeb]
    never throws, so the [catch] of the source is not reachable. *)
Definition getScreenshotsWithFallback (appData : App.AppData)
  (appId country : string) (w : World) : App.AppData * World :=
  let hasIphoneScreenshots := App.hasAny (App.screenshots appData) in
  let hasIpadScreenshots := App.hasAny (App.ipadScreenshots appData) in
  let hasAppleTvScreenshots := App.hasAny (App.appletvScreenshots appData) in
  if hasIphoneScreenshots && hasIpadScreenshots && hasAppleTvScreenshots
  then (appData, w)
  else
    let (webScreenshots, w') := extractScreenshotsFromWeb appId country w in
    ({| App.id := App.id appData;
        App.screenshots :=
          if hasIphoneScreenshots then App.screenshots appData
          else Some (ScreenshotChain.web_screenshots webScreenshots);
        App.ipadScreenshots :=
          if hasIpadScreenshots then App.ipadScreenshots appData
          else Some (ScreenshotChain.web_ipadScreenshots webScreenshots);
        App.appletvScreenshots :=
          if hasAppleTvScreenshots then App.appletvScreenshots appData
          else Some (ScreenshotChain.web_appletvScreenshots webScreenshots);
        App._screenshotExtractionWarning :=
          App._screenshotExtractionWarning appData;
        App._lastError := App._lastError appData |},
     w').

(** The screenshot step of [app] (lib/app.js): the fallback is applied
    unless the lookup returned both phone and tablet screenshots. *)
Definition appScreenshots (result : App.AppData) (appId country : string)
  (w : World) : App.AppData * World :=
  if App.hasAny (App.screenshots result)
     && App.hasAny (App.ipadScreenshots result)
  then (result, w)
  else getScreenshotsWithFallback result appId country w.

End WithPage.

End ScreenshotFallback.
(* ================================================================== *)
(** * Properties *)
(* ================================================================== *)

#[local] Arguments Z.mul : simpl never.
#[local] Arguments Z.add : simpl never.
#[local] Arguments Z.sub : simpl never.

(** ** Facts about the array primitives *)

Module JsFacts.

Lemma insert_perm {A : Type} (cmp : A -> A -> Z) (x : A) (l : list A) :
  Permutation (Js.insert cmp x l) (x :: l).
Proof.
  induction l as [|y t IH]; simpl.
  - apply Permutation_refl.
  - destruct (cmp x y <? 0).
    + apply Permutation_refl.
    + eapply perm_trans; [apply perm_skip, IH | apply perm_swap].
Qed.

Lemma sort_from_perm {A : Type} (cmp : A -> A -> Z) (l acc : list A) :
  Permutation (fold_left (fun a x => Js.insert cmp x a) l acc) (rev l ++ acc).
Proof.
  revert acc; induction l as [|x t IH]; intros acc; simpl.
  - apply Permutation_refl.
  - eapply perm_trans; [apply IH|].
    rewrite <- app_assoc; simpl.
    apply Permutation_app_head, insert_perm.
Qed.

Lemma sort_perm {A : Type} (cmp : A -> A -> Z) (l : list A) :
  Permutation (Js.sort cmp l) l.
Proof.
  unfold Js.sort.
  eapply perm_trans; [apply sort_from_perm|].
  rewrite app_nil_r. apply Permutation_sym, Permutation_rev.
Qed.

Lemma sort_length {A : Type} (cmp : A -> A -> Z) (l : list A) :
  List.length (Js.sort cmp l) = List.length l.
Proof. apply Permutation_length, sort_perm. Qed.

Lemma sort_in {A : Type} (cmp : A -> A -> Z) (l : list A) (x : A) :
  In x (Js.sort cmp l) <-> In x l.
Proof.
  split; apply Permutation_in;
    [apply sort_perm | apply Permutation_sym, sort_perm].
Qed.

Lemma set_add_length {A : Type} (eqb : A -> A -> bool) (x : A) (l : list A) :
  (List.length (Js.set_add eqb x l) <= Datatypes.S (List.length l))%nat.
Proof.
  induction l as [|y t IH]; simpl; [lia|].
  destruct (eqb y x); simpl; lia.
Qed.

Lemma len_nonneg {A : Type} (l : list A) : 0 <= Js.len l.
Proof. unfold Js.len; lia. Qed.

Lemma len_filter {A : Type} (f : A -> bool) (l : list A) :
  Js.len (filter f l) <= Js.len l.
Proof.
  unfold Js.len. pose proof (filter_length_le f l). lia.
Qed.

Lemma len_app {A : Type} (l1 l2 : list A) :
  Js.len (l1 ++ l2)%list = Js.len l1 + Js.len l2.
Proof. unfold Js.len. rewrite length_app. lia. Qed.

Lemma len_map {A B : Type} (f : A -> B) (l : list A) :
  Js.len (map f l) = Js.len l.
Proof. unfold Js.len. rewrite length_map. reflexivity. Qed.

Lemma len_sort {A : Type} (cmp : A -> A -> Z) (l : list A) :
  Js.len (Js.sort cmp l) = Js.len l.
Proof. unfold Js.len. rewrite sort_length. reflexivity. Qed.

(** *** [slice(0, end)] *)

Lemma slice0_incl {A : Type} (fin : Z) (l : list A) (x : A) :
  In x (Js.slice0 fin l) -> In x l.
Proof.
  unfold Js.slice0. intros H.
  rewrite <- (firstn_skipn (Z.to_nat (if fin <? 0 then Z.max (Js.len l + fin) 0 else fin)) l).
  apply in_or_app. left. exact H.
Qed.

Lemma slice0_len_le {A : Type} (fin : Z) (l : list A) :
  Js.len (Js.slice0 fin l) <= Js.len l.
Proof.
  unfold Js.slice0, Js.len. rewrite length_firstn. lia.
Qed.

Lemma slice0_len {A : Type} (fin : Z) (l : list A) :
  0 <= fin -> Js.len (Js.slice0 fin l) = Z.min fin (Js.len l).
Proof.
  intros H. unfold Js.slice0, Js.len. rewrite length_firstn.
  destruct (fin <? 0) eqn:E; [apply Z.ltb_lt in E; lia|]. lia.
Qed.

(** *** The values of a counting loop *)

Lemma range_In (lo hi i : Z) : In i (Js.range lo hi) <-> lo <= i <= hi.
Proof.
  unfold Js.range. rewrite in_map_iff. split.
  - intros [k [<- Hk]]. apply in_seq in Hk. lia.
  - intros H. exists (Z.to_nat (i - lo)). split; [lia|].
    apply in_seq. lia.
Qed.

Lemma range_sorted (lo hi : Z) : StronglySorted Z.lt (Js.range lo hi).
Proof.
  unfold Js.range. generalize (Z.to_nat (hi - lo + 1)) as n.
  generalize 0%nat as s. intros s n. revert s.
  induction n as [|n IH]; intros s; simpl; constructor.
  - apply IH.
  - apply Forall_forall. intros x Hx. apply in_map_iff in Hx as [k [<- Hk]].
    apply in_seq in Hk. lia.
Qed.

(** *** Maps in insertion order *)

Section Maps.

Variables K V : Type.
Variable eqb : K -> K -> bool.
Hypothesis eqb_eq : forall a b, eqb a b = true <-> a = b.

Lemma eqb_refl (a : K) : eqb a a = true.
Proof. apply eqb_eq. reflexivity. Qed.

Lemma eqb_neq (a b : K) : a <> b -> eqb a b = false.
Proof.
  intros H. destruct (eqb a b) eqn:E; [|reflexivity].
  apply eqb_eq in E. contradiction.
Qed.

Lemma map_get_In (k : K) (v : V) (m : list (K * V)) :
  Js.map_get eqb k m = Some v -> In (k, v) m.
Proof.
  induction m as [|[k' v'] t IH]; simpl; [discriminate|].
  destruct (eqb k' k) eqn:E.
  - apply eqb_eq in E. intros [= ->]. left. congruence.
  - intros H. right. apply IH, H.
Qed.

Lemma map_set_In (k : K) (v : V) (m : list (K * V)) (e : K * V) :
  In e (Js.map_set eqb k v m) -> e = (k, v) \/ In e m.
Proof.
  induction m as [|[k' v'] t IH]; simpl.
  - intros [<-|[]]. left. reflexivity.
  - destruct (eqb k' k) eqn:E.
    + apply eqb_eq in E. subst k'. intros [<-|H]; auto.
    + intros [<-|H]; auto. destruct (IH H); auto.
Qed.

Lemma map_set_keys (k : K) (v : V) (m : list (K * V)) (k0 : K) :
  In k0 (map fst (Js.map_set eqb k v m)) <-> k0 = k \/ In k0 (map fst m).
Proof.
  induction m as [|[k' v'] t IH]; simpl.
  - intuition.
  - destruct (eqb k' k) eqn:E; simpl.
    + apply eqb_eq in E. subst k'. intuition.
    + rewrite IH. intuition.
Qed.

Lemma map_set_NoDup (k : K) (v : V) (m : list (K * V)) :
  NoDup (map fst m) -> NoDup (map fst (Js.map_set eqb k v m)).
Proof.
  induction m as [|[k' v'] t IH]; simpl; intros H.
  - constructor; [intros []|constructor].
  - inversion H as [|? ? Hnotin Ht]; subst.
    destruct (eqb k' k) eqn:E; simpl.
    + constructor; assumption.
    + constructor; [|apply IH, Ht].
      rewrite map_set_keys. intros [->|Hin]; [|contradiction].
      rewrite eqb_refl in E. discriminate.
Qed.

Lemma map_set_length (k : K) (v : V) (m : list (K * V)) :
  (List.length (Js.map_set eqb k v m) <= Datatypes.S (List.length m))%nat.
Proof.
  induction m as [|[k' v'] t IH]; simpl; [lia|].
  destruct (eqb k' k); simpl; lia.
Qed.

(** Grouping the elements of a list by a key: the groups built by
    [map_push] over the list, from the start. *)
Variable key : V -> K.

Definition grouped (l : list V) : list (K * list V) :=
  fold_left (fun groups v => Js.map_push eqb (key v) v groups) l [].

Definition members (k : K) (l : list V) : list V :=
  List.filter (fun v => eqb (key v) k) l.

Definition groups_of (seen : list V) (groups : list (K * list V)) : Prop :=
  NoDup (map fst groups)
  /\ (forall k vs, In (k, vs) groups -> vs <> [] /\ vs = members k seen)
  /\ (forall v, In v seen -> In (key v) (map fst groups)).

Lemma members_snoc (k : K) (seen : list V) (v : V) :
  members k (seen ++ [v]) =
  if eqb (key v) k then (members k seen ++ [v])%list else members k seen.
Proof.
  unfold members. rewrite filter_app. simpl.
  destruct (eqb (key v) k); [reflexivity|apply app_nil_r].
Qed.

Lemma map_push_keys (k : K) (v : V) (groups : list (K * list V)) (k0 : K) :
  In k0 (map fst (Js.map_push eqb k v groups))
  <-> k0 = k \/ In k0 (map fst groups).
Proof.
  induction groups as [|[k' vs] t IH]; simpl.
  - intuition.
  - destruct (eqb k' k) eqn:E; simpl.
    + apply eqb_eq in E. subst k'. intuition.
    + rewrite IH. intuition.
Qed.

Lemma map_push_In (k : K) (v : V) (groups : list (K * list V))
  (k0 : K) (vs0 : list V) :
  NoDup (map fst groups) ->
  In (k0, vs0) (Js.map_push eqb k v groups) ->
  (k0 = k /\ ((~ In k (map fst groups) /\ vs0 = [v])
              \/ exists vs, In (k, vs) groups /\ vs0 = (vs ++ [v])%list))
  \/ (k0 <> k /\ In (k0, vs0) groups).
Proof.
  induction groups as [|[k' vs] t IH]; simpl; intros Hnd.
  - intros [[= <- <-]|[]]. left. split; [reflexivity|]. left. auto.
  - inversion Hnd as [|? ? Hnotin Ht]; subst.
    destruct (eqb k' k) eqn:E.
    + apply eqb_eq in E. subst k'. intros [[= <- <-]|H].
      * left. split; [reflexivity|]. right. exists vs. auto.
      * right. split; [|auto]. intros ->. apply Hnotin.
        apply (in_map fst) in H. exact H.
    + assert (k' <> k) as Hne by (intros ->; rewrite eqb_refl in E; discriminate).
      intros [[= <- <-]|H].
      * right. auto.
      * destruct (IH Ht H) as [[-> [[Hn ->]|[vs1 [Hin ->]]]]|[Hne' Hin]].
        -- left. split; [reflexivity|]. left. split; [|reflexivity].
           intros [Hk|Hk]; [congruence|contradiction].
        -- left. split; [reflexivity|]. right. exists vs1. auto.
        -- right. auto.
Qed.

Lemma map_push_NoDup (k : K) (v : V) (groups : list (K * list V)) :
  NoDup (map fst groups) -> NoDup (map fst (Js.map_push eqb k v groups)).
Proof.
  induction groups as [|[k' vs] t IH]; simpl; intros H.
  - constructor; [intros []|constructor].
  - inversion H as [|? ? Hnotin Ht]; subst.
    destruct (eqb k' k) eqn:E; simpl.
    + constructor; assumption.
    + constructor; [|apply IH, Ht].
      rewrite map_push_keys. intros [->|Hin]; [|contradiction].
      rewrite eqb_refl in E. discriminate.
Qed.

Lemma groups_of_push (seen : list V) (groups : list (K * list V)) (v : V) :
  groups_of seen groups ->
  groups_of (seen ++ [v]) (Js.map_push eqb (key v) v groups).
Proof.
  intros (Hnd & Hg & Hc). split; [|split].
  - apply map_push_NoDup, Hnd.
  - intros k vs Hin. rewrite members_snoc.
    destruct (map_push_In _ _ _ _ _ Hnd Hin)
      as [[-> [[Hn ->]|[vs1 [Hin1 ->]]]]|[Hne Hin1]].
    + rewrite eqb_refl. split; [discriminate|].
      assert (members (key v) seen = []) as ->; [|reflexivity].
      unfold members.
      destruct (List.filter _ seen) as [|w ws] eqn:E; [reflexivity|].
      assert (In w (List.filter (fun v0 => eqb (key v0) (key v)) seen)) as Hw
        by (rewrite E; left; reflexivity).
      apply filter_In in Hw as [Hw1 Hw2]. apply eqb_eq in Hw2.
      exfalso. apply Hn. rewrite <- Hw2. apply Hc, Hw1.
    + rewrite eqb_refl. destruct (Hg _ _ Hin1) as [_ ->].
      split; [|reflexivity]. intros H. apply app_eq_nil in H as [_ H].
      discriminate.
    + rewrite eqb_neq by congruence. apply Hg, Hin1.
  - intros w Hw. apply map_push_keys. apply in_app_or in Hw as [Hw|[<-|[]]].
    + right. apply Hc, Hw.
    + left. reflexivity.
Qed.

Lemma grouped_from (l seen : list V) (groups : list (K * list V)) :
  groups_of seen groups ->
  groups_of (seen ++ l)
    (fold_left (fun groups v => Js.map_push eqb (key v) v groups) l groups).
Proof.
  revert seen groups. induction l as [|v t IH]; intros seen groups H; simpl.
  - rewrite app_nil_r. exact H.
  - replace (seen ++ v :: t)%list with ((seen ++ [v]) ++ t)%list
      by (rewrite <- app_assoc; reflexivity).
    apply IH, groups_of_push, H.
Qed.

(** The groups are the non-empty classes of the list under the key, each
    in the order of the list, under pairwise distinct keys. *)
Lemma grouped_spec (l : list V) : groups_of l (grouped l).
Proof.
  apply (grouped_from l [] []). split; [constructor|split].
  - intros k vs [].
  - intros v [].
Qed.

Lemma grouped_length (l : list V) :
  (List.length (grouped l) <= List.length l)%nat.
Proof.
  unfold grouped.
  assert (forall groups,
            (List.length (fold_left
                       (fun groups v => Js.map_push eqb (key v) v groups)
                       l groups)
             <= List.length groups + List.length l)%nat) as H.
  { induction l as [|v t IH]; intros groups; simpl; [lia|].
    eapply Nat.le_trans; [apply IH|].
    assert (List.length (Js.map_push eqb (key v) v groups)
            <= Datatypes.S (List.length groups))%nat; [|lia].
    clear IH. induction groups as [|[k' vs] g IHg]; simpl; [lia|].
    destruct (eqb k' (key v)); simpl; lia. }
  apply (H []).
Qed.

End Maps.

(** *** The array after [sort], for a comparator that follows a key *)

Section SortByKey.

(** On the elements at hand ([D]) the comparator puts a smaller key first
    and never a larger one; it may break ties as it likes. *)
Variable A : Type.
Variable cmp : A -> A -> Z.
Variable key : A -> Q.
Variable D : A -> Prop.
Hypothesis cmp_key : forall x y, D x -> D y -> cmp x y < 0 -> (key x <= key y)%Q.
Hypothesis key_cmp : forall x y, D x -> D y -> (key x < key y)%Q -> cmp x y < 0.

Definition ordered (l : list A) : Prop :=
  StronglySorted (fun x y => (key x <= key y)%Q) l.

Lemma insert_ordered (x : A) (l : list A) :
  D x -> Forall D l -> ordered l -> ordered (Js.insert cmp x l).
Proof.
  intros Hx. induction l as [|y t IH]; intros HD Hs; simpl.
  - constructor; constructor.
  - inversion HD as [|? ? Hy Ht]; subst.
    inversion Hs as [|? ? Hst Hall]; subst.
    destruct (cmp x y <? 0) eqn:E.
    + apply Z.ltb_lt, (cmp_key x y Hx Hy) in E.
      constructor; [exact Hs|]. constructor; [exact E|].
      rewrite Forall_forall in *. intros z Hz.
      apply Qle_trans with (key y); [exact E|apply Hall, Hz].
    + apply Z.ltb_ge in E. constructor; [apply IH; assumption|].
      assert (key y <= key x)%Q as Hyx.
      { apply Qnot_lt_le. intros Hlt. apply (key_cmp x y Hx Hy) in Hlt. lia. }
      rewrite Forall_forall in *. intros z Hz.
      apply (Permutation_in _ (insert_perm cmp x t)) in Hz.
      destruct Hz as [<-|Hz]; [exact Hyx|apply Hall, Hz].
Qed.

Lemma sort_ordered (l : list A) : Forall D l -> ordered (Js.sort cmp l).
Proof.
  unfold Js.sort.
  assert (forall acc, Forall D acc -> ordered acc -> Forall D l ->
            ordered (fold_left (fun a x => Js.insert cmp x a) l acc)) as H.
  { induction l as [|x t IH]; intros acc Hacc Ho Hl; simpl; [exact Ho|].
    inversion Hl as [|? ? Hx Ht]; subst.
    apply IH; [|apply insert_ordered; assumption|exact Ht].
    apply Forall_forall. intros z Hz.
    apply (Permutation_in _ (insert_perm cmp x acc)) in Hz.
    rewrite Forall_forall in Hacc. destruct Hz as [<-|Hz]; auto. }
  intros Hl. apply H; [constructor|constructor|exact Hl].
Qed.

End SortByKey.

(** *** Sorted lists *)

Lemma sorted_app {A : Type} (R : A -> A -> Prop) (l1 l2 : list A) :
  StronglySorted R (l1 ++ l2) ->
  StronglySorted R l1 /\ forall x y, In x l1 -> In y l2 -> R x y.
Proof.
  induction l1 as [|a t IH]; simpl; intros H.
  - split; [constructor|intros x y []].
  - inversion H as [|? ? Hs Hall]; subst. destruct (IH Hs) as [H1 H2].
    rewrite Forall_forall in Hall. split.
    + constructor; [exact H1|]. apply Forall_forall. intros x Hx.
      apply Hall, in_or_app. left. exact Hx.
    + intros x y [<-|Hx] Hy; [apply Hall, in_or_app; right; exact Hy|auto].
Qed.

Lemma sorted_map {A B : Type} (f : A -> B) (R : A -> A -> Prop)
  (R' : B -> B -> Prop) (l : list A) :
  (forall x y, In x l -> In y l -> R x y -> R' (f x) (f y)) ->
  StronglySorted R l -> StronglySorted R' (map f l).
Proof.
  intros H Hs. induction Hs as [|a t Hs IH Hall]; simpl; constructor.
  - apply IH. intros x y Hx Hy. apply H; right; assumption.
  - rewrite Forall_forall in *. intros b Hb.
    apply in_map_iff in Hb as [x [<- Hx]].
    apply H; [left; reflexivity|right; exact Hx|apply Hall, Hx].
Qed.

Lemma sorted_weaken {A : Type} (R R' : A -> A -> Prop) (l : list A) :
  (forall x y, In x l -> In y l -> R x y -> R' x y) ->
  StronglySorted R l -> StronglySorted R' l.
Proof.
  intros H Hs. rewrite <- (map_id l).
  apply (sorted_map (fun x => x) R R'); assumption.
Qed.

Lemma parseInt_from_nonneg (ds : list ascii) (acc : Z) :
  Forall (fun c => Js.is_digit c = true) ds -> 0 <= acc ->
  0 <= fold_left (fun acc c => 10 * acc + Js.digit_val c) ds acc.
Proof.
  intros H. revert acc. induction H as [|c t Hc Ht IH]; intros acc Hacc;
    cbn [fold_left]; [exact Hacc|].
  apply IH. unfold Js.is_digit in Hc. apply andb_true_iff in Hc as [Hc _].
  apply Nat.leb_le in Hc. unfold Js.digit_val. lia.
Qed.

Lemma span_fst_Forall (p : ascii -> bool) (l : list ascii) :
  Forall (fun c => p c = true) (fst (Js.span p l)).
Proof.
  induction l as [|c t IH]; cbn [Js.span]; [constructor|].
  destruct (p c) eqn:E; [|constructor].
  destruct (Js.span p t) as [a b]. cbn [fst] in *.
  constructor; assumption.
Qed.

Lemma leftmost_some {A : Type} (try : list ascii -> option A)
  (l : list ascii) (r : A) :
  Js.leftmost try l = Some r -> exists l', try l' = Some r.
Proof.
  induction l as [|c t IH]; cbn [Js.leftmost].
  - destruct (try []) eqn:E; [|discriminate]. intros [= <-]. eauto.
  - destruct (try (c :: t)) eqn:E; [intros [= <-]; eauto|apply IH].
Qed.

Lemma digits1_digits (l d r : list ascii) :
  Js.digits1 l = Some (d, r) -> Forall (fun c => Js.is_digit c = true) d.
Proof.
  unfold Js.digits1.
  pose proof (span_fst_Forall Js.is_digit l) as Hf.
  destruct (Js.span Js.is_digit l) as [ds rest]. cbn [fst] in Hf.
  destruct (Js.nonempty ds); [|discriminate].
  intros [= <- _]. exact Hf.
Qed.

Lemma parseInt_nonneg (ds : list ascii) :
  Forall (fun c => Js.is_digit c = true) ds -> 0 <= Js.parseInt ds.
Proof. intros H. apply parseInt_from_nonneg; [exact H|lia]. Qed.

(** The captures of [/(\d+)x(\d+)/] are runs of digits. *)
Lemma match_dims_digits (url : string) (w h : list ascii) :
  Js.match_dims url = Some (w, h) ->
  Forall (fun c => Js.is_digit c = true) w
  /\ Forall (fun c => Js.is_digit c = true) h.
Proof.
  unfold Js.match_dims. intros H.
  apply leftmost_some in H as (l & Hl).
  unfold Js.dims_at in Hl.
  destruct (Js.digits1 l) as [[d1 r]|] eqn:E1; [|discriminate].
  destruct (Js.prefix_rest _ r) as [r'|]; [|discriminate].
  destruct (Js.digits1 r') as [[d2 r'']|] eqn:E2; [|discriminate].
  injection Hl as <- <-.
  split; eapply digits1_digits; eassumption.
Qed.

End JsFacts.

(** ** Rounding to the nearest double *)

Module DoubleFacts.
Import Double.

Lemma ltb_true (a b : Q) : Double.ltb a b = true <-> (a < b)%Q.
Proof.
  unfold Double.ltb. rewrite negb_true_iff.
  split; intro H.
  - apply Qnot_le_lt. intro Hle. apply Qle_bool_iff in Hle. congruence.
  - destruct (Qle_bool b a) eqn:E; [|reflexivity].
    apply Qle_bool_iff in E. exfalso. exact (Qlt_not_le _ _ H E).
Qed.

Lemma Qle_sub_r (a b c : Q) : (a <= b)%Q -> (a - c <= b - c)%Q.
Proof.
  intros H. apply Qplus_le_l with (z := c).
  setoid_replace (a - c + c)%Q with a by ring.
  setoid_replace (b - c + c)%Q with b by ring. exact H.
Qed.

(** Turn a [Qcompare] equation into the order statement it encodes. *)
Ltac cmp_prop H :=
  match type of H with
  | _ = Eq => apply <- Qeq_alt in H
  | _ = Lt => apply <- Qlt_alt in H
  | _ = Gt => apply <- Qgt_alt in H
  end.

Lemma rne_cases (t : Q) : rne t = Qfloor t \/ rne t = Qfloor t + 1.
Proof.
  unfold rne. destruct (Qcompare _ _); auto. destruct (Z.even _); auto.
Qed.

Lemma rne_ge_floor (t : Q) : Qfloor t <= rne t.
Proof. destruct (rne_cases t) as [-> | ->]; lia. Qed.

Lemma rne_int (t : Q) (w : Z) : (t == inject_Z w)%Q -> rne t = w.
Proof.
  intros H. unfold rne.
  assert (Qfloor t = w) as -> by (rewrite H; apply Qfloor_Z).
  assert (((t - inject_Z w) ?= (1 # 2))%Q = Lt) as ->.
  { rewrite <- Qlt_alt. rewrite H. setoid_replace (inject_Z w - inject_Z w)%Q with 0%Q by ring. reflexivity. }
  reflexivity.
Qed.

Lemma rne_mono (t1 t2 : Q) : (t1 <= t2)%Q -> rne t1 <= rne t2.
Proof.
  intros H. pose proof (Qfloor_resp_le _ _ H) as Hf.
  destruct (Z.eq_dec (Qfloor t1) (Qfloor t2)) as [E|N].
  - unfold rne. rewrite E.
    assert (t1 - inject_Z (Qfloor t2) <= t2 - inject_Z (Qfloor t2))%Q as Hr
      by (apply Qle_sub_r, H).
    set (r1 := (t1 - inject_Z (Qfloor t2))%Q) in *.
    set (r2 := (t2 - inject_Z (Qfloor t2))%Q) in *.
    destruct (Qcompare r1 (1 # 2)) eqn:C1; destruct (Qcompare r2 (1 # 2)) eqn:C2;
      try (destruct (Z.even (Qfloor t2))); try lia; exfalso;
      cmp_prop C1; cmp_prop C2.
    all: try (rewrite C1 in Hr; exact (Qlt_not_le _ _ C2 Hr)).
    all: try (rewrite C2 in Hr; exact (Qlt_not_le _ _ C1 Hr)).
    all: apply (Qlt_not_le _ _ C1); apply Qle_trans with r2;
      [exact Hr|apply Qlt_le_weak, C2].
  - destruct (rne_cases t1) as [-> | ->]; pose proof (rne_ge_floor t2); lia.
Qed.
Lemma pow2_Z (a : Z) : 0 <= a -> (2 ^ a == inject_Z (2 ^ a))%Q.
Proof. intros H. symmetry. apply (Zpower_Qpower 2 a H). Qed.

Lemma pow2_pos (a : Z) : (0 < 2 ^ a)%Q.
Proof. apply Qpower_0_lt. reflexivity. Qed.

Lemma pow2_add (a b : Z) : (2 ^ (a + b) == 2 ^ a * 2 ^ b)%Q.
Proof. apply Qpower_plus. discriminate. Qed.

Lemma pow2_le (a b : Z) : a <= b -> (2 ^ a <= 2 ^ b)%Q.
Proof. intros H. apply Qpower_le_compat_l; [exact H|discriminate]. Qed.

Lemma pow2_lt_inv (a b : Z) : (2 ^ a < 2 ^ b)%Q -> a < b.
Proof.
  intros H. destruct (Z_lt_le_dec a b) as [L|G]; [exact L|].
  exfalso. exact (Qlt_not_le _ _ H (pow2_le _ _ G)).
Qed.

(** [n / d] against [2 ^ (A - B)], by cross-multiplication. *)
Lemma frac_lt_pow2 (n : Z) (d : positive) (A B : Z) :
  0 <= A -> 0 <= B -> n * 2 ^ B < 2 ^ A * Zpos d -> (n # d < 2 ^ (A - B))%Q.
Proof.
  intros HA HB H.
  unfold Z.sub. rewrite pow2_add, Qpower_opp, !pow2_Z by assumption.
  assert (0 < 2 ^ B) as HpB by (apply Z.pow_pos_nonneg; lia).
  apply Qlt_shift_div_l; [change 0%Q with (inject_Z 0); rewrite <- Zlt_Qlt; exact HpB|].
  unfold Qlt, Qmult, inject_Z; cbn [Qnum Qden]. lia.
Qed.

Lemma pow2_le_frac (n : Z) (d : positive) (A B : Z) :
  0 <= A -> 0 <= B -> 2 ^ A * Zpos d <= n * 2 ^ B -> (2 ^ (A - B) <= n # d)%Q.
Proof.
  intros HA HB H.
  unfold Z.sub. rewrite pow2_add, Qpower_opp, !pow2_Z by assumption.
  assert (0 < 2 ^ B) as HpB by (apply Z.pow_pos_nonneg; lia).
  apply Qle_shift_div_r; [change 0%Q with (inject_Z 0); rewrite <- Zlt_Qlt; exact HpB|].
  unfold Qle, Qmult, inject_Z; cbn [Qnum Qden]. lia.
Qed.

Lemma exponent_spec (y : Q) :
  (0 < y)%Q ->
  (2 ^ (52 + exponent y) <= y)%Q /\ (y < 2 ^ (53 + exponent y))%Q.
Proof.
  intros Hy. destruct y as [n d].
  assert (0 < n) as Hn by (unfold Qlt in Hy; simpl in Hy; lia).
  unfold exponent. cbn [Qnum Qden].
  set (L := Z.log2 n). set (M := Z.log2 (Zpos d)).
  pose proof (Z.log2_spec n Hn) as [HL1 HL2]. fold L in HL1, HL2.
  pose proof (Z.log2_spec (Zpos d) (Pos2Z.is_pos d)) as [HM1 HM2].
  fold M in HM1, HM2.
  pose proof (Z.log2_nonneg n) as HL0. fold L in HL0.
  pose proof (Z.log2_nonneg (Zpos d)) as HM0. fold M in HM0.
  assert (0 < 2 ^ L) by (apply Z.pow_pos_nonneg; lia).
  assert (0 < 2 ^ M) by (apply Z.pow_pos_nonneg; lia).
  destruct (Qle_bool (2 ^ (L - M)) (n # d)) eqn:E.
  - apply Qle_bool_iff in E. split.
    + replace (52 + (L - M - 52)) with (L - M) by lia. exact E.
    + replace (53 + (L - M - 52)) with (Z.succ L - M) by lia.
      apply frac_lt_pow2; try lia. nia.
  - assert (n # d < 2 ^ (L - M))%Q as E'.
    { apply Qnot_le_lt. intros Hle. apply Qle_bool_iff in Hle. congruence. }
    split.
    + replace (52 + (L - M - 53)) with (L - Z.succ M) by lia.
      apply pow2_le_frac; try lia. nia.
    + replace (53 + (L - M - 53)) with (L - M) by lia. exact E'.
Qed.

Lemma scaled_bounds (y : Q) :
  (0 < y)%Q ->
  (2 ^ 52 <= y * 2 ^ (- exponent y))%Q /\ (y * 2 ^ (- exponent y) < 2 ^ 53)%Q.
Proof.
  intros Hy. destruct (exponent_spec y Hy) as [H1 H2].
  pose proof (pow2_pos (- exponent y)) as Hp.
  split.
  - setoid_replace (2 ^ 52)%Q with (2 ^ (52 + exponent y) * 2 ^ (- exponent y))%Q.
    + apply Qmult_le_compat_r; [exact H1|apply Qlt_le_weak, Hp].
    + rewrite <- pow2_add. replace (52 + exponent y + - exponent y) with 52 by lia.
      reflexivity.
  - setoid_replace (2 ^ 53)%Q with (2 ^ (53 + exponent y) * 2 ^ (- exponent y))%Q.
    + apply Qmult_lt_compat_r; [exact Hp|exact H2].
    + rewrite <- pow2_add. replace (53 + exponent y + - exponent y) with 53 by lia.
      reflexivity.
Qed.

Lemma mantissa_bounds (y : Q) :
  (0 < y)%Q -> 2 ^ 52 <= rne (y * 2 ^ (- exponent y)) <= 2 ^ 53.
Proof.
  intros Hy. destruct (scaled_bounds y Hy) as [H1 H2].
  split.
  - rewrite <- (rne_int (2 ^ 52)%Q (2 ^ 52)) by (apply pow2_Z; lia).
    apply rne_mono, H1.
  - rewrite <- (rne_int (2 ^ 53)%Q (2 ^ 53)) by (apply pow2_Z; lia).
    apply rne_mono, Qlt_le_weak, H2.
Qed.

Lemma round_pos_bounds (y : Q) :
  (0 < y)%Q ->
  (2 ^ (52 + exponent y) <= round_pos y)%Q
  /\ (round_pos y <= 2 ^ (53 + exponent y))%Q.
Proof.
  intros Hy. destruct (mantissa_bounds y Hy) as [H1 H2].
  unfold round_pos. cbv zeta.
  pose proof (pow2_pos (exponent y)) as Hp.
  rewrite !pow2_add. split.
  - apply Qmult_le_compat_r; [|apply Qlt_le_weak, Hp].
    rewrite (pow2_Z 52) by lia. rewrite <- Zle_Qle. exact H1.
  - apply Qmult_le_compat_r; [|apply Qlt_le_weak, Hp].
    rewrite (pow2_Z 53) by lia. rewrite <- Zle_Qle. exact H2.
Qed.

Lemma round_pos_pos (y : Q) : (0 < y)%Q -> (0 < round_pos y)%Q.
Proof.
  intros Hy. destruct (round_pos_bounds y Hy) as [H _].
  eapply Qlt_le_trans; [apply pow2_pos|exact H].
Qed.

Lemma round_pos_mono (y1 y2 : Q) :
  (0 < y1)%Q -> (y1 <= y2)%Q -> (round_pos y1 <= round_pos y2)%Q.
Proof.
  intros H1 H12.
  assert (0 < y2)%Q as H2 by (eapply Qlt_le_trans; eauto).
  destruct (exponent_spec y1 H1) as [L1 U1].
  destruct (exponent_spec y2 H2) as [L2 U2].
  assert (exponent y1 <= exponent y2) as He.
  { assert (52 + exponent y1 < 53 + exponent y2); [|lia].
    apply pow2_lt_inv.
    eapply Qle_lt_trans; [exact L1|]. eapply Qle_lt_trans; [exact H12|exact U2]. }
  destruct (Z.eq_dec (exponent y1) (exponent y2)) as [E|N].
  - unfold round_pos. cbv zeta. rewrite E.
    apply Qmult_le_compat_r; [|apply Qlt_le_weak, pow2_pos].
    rewrite <- Zle_Qle. apply rne_mono.
    apply Qmult_le_compat_r; [exact H12|apply Qlt_le_weak, pow2_pos].
  - destruct (round_pos_bounds y1 H1) as [_ B1].
    destruct (round_pos_bounds y2 H2) as [B2 _].
    eapply Qle_trans; [exact B1|]. eapply Qle_trans; [|exact B2].
    apply pow2_le. lia.
Qed.

Lemma Qcompare_Gt (y : Q) : (0 < y)%Q -> Qcompare y 0 = Gt.
Proof. intros H. apply Qgt_alt. exact H. Qed.

Lemma Qcompare_Lt (y : Q) : (y < 0)%Q -> Qcompare y 0 = Lt.
Proof. intros H. apply Qlt_alt. exact H. Qed.

Lemma Qcompare_Eq0 (y : Q) : (y == 0)%Q -> Qcompare y 0 = Eq.
Proof. intros H. apply Qeq_alt. exact H. Qed.

Lemma round_nonneg (y : Q) : (0 <= y)%Q -> (0 <= round y)%Q.
Proof.
  intros H. unfold round.
  destruct (Qcompare y 0) eqn:C.
  - apply Qle_refl.
  - cmp_prop C. exfalso. exact (Qlt_not_le _ _ C H).
  - cmp_prop C. apply Qlt_le_weak, round_pos_pos, C.
Qed.

Lemma neg_pos (y : Q) : (y < 0)%Q -> (0 < - y)%Q.
Proof.
  intros H. apply Qplus_lt_l with (z := y).
  setoid_replace (- y + y)%Q with 0%Q by ring.
  setoid_replace (0 + y)%Q with y by ring. exact H.
Qed.

(** Rounding to the nearest double is monotone. *)
Lemma round_mono (y1 y2 : Q) : (y1 <= y2)%Q -> (round y1 <= round y2)%Q.
Proof.
  intros H. unfold round.
  destruct (Qcompare y1 0) eqn:C1; destruct (Qcompare y2 0) eqn:C2;
    cmp_prop C1; cmp_prop C2.
  - apply Qle_refl.
  - exfalso. rewrite C1 in H. exact (Qlt_not_le _ _ C2 H).
  - apply Qlt_le_weak, round_pos_pos, C2.
  - apply Qopp_le_compat with (p := 0%Q) (q := round_pos (- y1)).
    apply Qlt_le_weak, round_pos_pos, neg_pos, C1.
  - apply Qopp_le_compat.
    apply round_pos_mono; [apply neg_pos, C2|apply Qopp_le_compat, H].
  - apply Qle_trans with 0%Q.
    + apply Qopp_le_compat with (p := 0%Q) (q := round_pos (- y1)).
      apply Qlt_le_weak, round_pos_pos, neg_pos, C1.
    + apply Qlt_le_weak, round_pos_pos, C2.
  - exfalso. rewrite C2 in H. exact (Qlt_not_le _ _ C1 H).
  - exfalso. apply (Qlt_not_le _ _ C2). apply Qle_trans with y1; [|exact H].
    apply Qlt_le_weak, C1.
  - apply round_pos_mono; assumption.
Qed.

(** An integer below 2^53 is a double. *)
Lemma round_int (z : Z) :
  0 <= z < 2 ^ 53 -> (round (inject_Z z) == inject_Z z)%Q.
Proof.
  intros [H0 H53]. unfold round.
  destruct (Z.eq_dec z 0) as [->|Hz]; [reflexivity|].
  assert (0 < inject_Z z)%Q as Hpos
    by (change 0%Q with (inject_Z 0); rewrite <- Zlt_Qlt; lia).
  rewrite (Qcompare_Gt _ Hpos).
  unfold round_pos. cbv zeta.
  set (e := exponent (inject_Z z)).
  assert (e <= 0) as He.
  { destruct (exponent_spec _ Hpos) as [L _]. fold e in L.
    assert (52 + e < 53); [|lia]. apply pow2_lt_inv.
    eapply Qle_lt_trans; [exact L|].
    rewrite pow2_Z by lia. rewrite <- Zlt_Qlt. exact H53. }
  rewrite (rne_int _ (z * 2 ^ (- e))).
  - rewrite inject_Z_mult, <- pow2_Z by lia.
    rewrite <- Qmult_assoc, <- pow2_add.
    replace (- e + e) with 0 by lia. apply Qmult_1_r.
  - rewrite inject_Z_mult, <- pow2_Z by lia. reflexivity.
Qed.

(** Rounding never crosses an integer below 2^53. *)
Lemma round_le_int (y : Q) (z : Z) :
  (y <= inject_Z z)%Q -> 0 <= z < 2 ^ 53 -> (round y <= inject_Z z)%Q.
Proof.
  intros H Hz. rewrite <- (round_int z Hz). apply round_mono, H.
Qed.

(** *** The model against the kernel's binary64 arithmetic *)

(** The rational denoted by a finite primitive float. *)
Definition Q_of_float (f : PrimFloat.float) : Q :=
  match FloatOps.Prim2SF f with
  | SpecFloat.S754_finite s m e =>
      ((if s then - (1) else 1) * inject_Z (Zpos m) * 2 ^ e)%Q
  | _ => 0%Q
  end.

Definition float_of_Z (n : Z) : PrimFloat.float :=
  PrimFloat.of_uint63 (Uint63.of_Z n).

Definition agree (q : Q) (f : PrimFloat.float) : bool :=
  Qeq_bool q (Q_of_float f).

(** Sample evaluations: the literals of the sources, a quotient that is not
    a double, and [totalCount * (1 - redundancy)] for 7 URLs of which the
    largest tier holds one, which exceeds the exact value 1. *)
Example double_model_agrees_with_binary64 :
  let f := float_of_Z in
  agree (lit (8 # 10)) (PrimFloat.div (f 8) (f 10)) = true
  /\ agree (lit (3 # 10)) (PrimFloat.div (f 3) (f 10)) = true
  /\ agree (div 1 3) (PrimFloat.div (f 1) (f 3)) = true
  /\ agree (mul (mul (lit (5 # 10)) (lit (2 # 10))) (lit (6 # 10)))
            (PrimFloat.mul
               (PrimFloat.mul (PrimFloat.div (f 5) (f 10))
                              (PrimFloat.div (f 2) (f 10)))
               (PrimFloat.div (f 6) (f 10))) = true
  /\ agree (mul 7 (sub 1 (div 6 7)))
            (PrimFloat.mul (f 7)
               (PrimFloat.sub (f 1) (PrimFloat.div (f 6) (f 7)))) = true
  /\ ceil (mul 7 (sub 1 (div 6 7))) = 2.
Proof. cbv zeta. repeat split; vm_compute; reflexivity. Qed.

Lemma round_neg_iff (y : Q) : (round y < 0)%Q <-> (y < 0)%Q.
Proof.
  unfold round. destruct (Qcompare y 0) eqn:C; cmp_prop C.
  - rewrite C. split; intros H; exact H.
  - split; [intros _; exact C|intros _].
    apply Qopp_lt_compat with (p := 0%Q) (q := round_pos (- y)).
    apply round_pos_pos, neg_pos, C.
  - split; intros H; exfalso.
    + apply (Qlt_irrefl 0). eapply Qlt_trans; [apply round_pos_pos, C|exact H].
    + apply (Qlt_irrefl 0). eapply Qlt_trans; [exact C|exact H].
Qed.

Lemma sgn_neg_iff (a : Q) : sgn a < 0 <-> (a < 0)%Q.
Proof.
  unfold sgn, Qlt. destruct a as [n d]. cbn [Qnum Qden].
  destruct n; cbn; lia.
Qed.

(** The sign of a comparator [a - b] is that of the exact difference. *)
Lemma sgn_sub_neg (a b : Q) : sgn (sub a b) < 0 <-> (a < b)%Q.
Proof.
  rewrite sgn_neg_iff. unfold sub. rewrite round_neg_iff.
  split; intros H.
  - apply Qplus_lt_l with (z := (- b)%Q).
    setoid_replace (b + - b)%Q with 0%Q by ring. exact H.
  - apply Qplus_lt_l with (z := b).
    setoid_replace (a - b + b)%Q with a by ring.
    setoid_replace (0 + b)%Q with b by ring. exact H.
Qed.

(** Sample evaluations of the sums and quotients behind the quality scores
    of lib/smart-filter.js. *)
Example double_sums_agree_with_binary64 :
  let f := float_of_Z in
  agree (add (min (div 272832 100000) 10) 5)
        (PrimFloat.add (PrimFloat.div (f 272832) (f 100000)) (f 5)) = true
  /\ agree (sub (add (div 30000 100000) 1) 3)
           (PrimFloat.sub
              (PrimFloat.add (PrimFloat.div (f 30000) (f 100000)) (f 1)) (f 3))
     = true
  /\ agree (div (add (add 0 (div 1 3)) (div 2 3)) 2)
           (PrimFloat.div
              (PrimFloat.add (PrimFloat.add (f 0) (PrimFloat.div (f 1) (f 3)))
                             (PrimFloat.div (f 2) (f 3))) (f 2)) = true
  /\ jsround (mul (div 696 392) 10) = 18
  /\ jsround (mul 6 (div 4 10)) = 2
  /\ jsround (5 # 2) = 3.
Proof. cbv zeta. repeat split; vm_compute; reflexivity. Qed.

(** *** Parsed integers as doubles *)

(** Below 2^53 the double nearest to a parsed integer is this integer. *)
Lemma parseInt_exact (ds : list ascii) :
  Forall (fun c => Js.is_digit c = true) ds ->
  Js.parseInt ds < 2 ^ 53 ->
  (round (inject_Z (Js.parseInt ds)) == inject_Z (Js.parseInt ds))%Q.
Proof.
  intros Hd Hlt. apply round_int. split; [|exact Hlt].
  apply JsFacts.parseInt_nonneg, Hd.
Qed.

(** The double product of two integers whose product is below 2^53 is
    their product. *)
Lemma mul_int (a b : Z) :
  0 <= a * b < 2 ^ 53 ->
  (mul (inject_Z a) (inject_Z b) == inject_Z (a * b))%Q.
Proof.
  intros H. unfold mul.
  change (inject_Z a * inject_Z b)%Q with (inject_Z (a * b)).
  apply round_int, H.
Qed.

(** For a URL with [Js.exact_area] the doubles that the code holds for the
    width and the height are the integers parsed, and their double product
    is [Js.pixel_area]. *)
Lemma pixel_area_exact (url : string) (w h : list ascii) :
  Js.match_dims url = Some (w, h) ->
  Js.exact_area url = true ->
  (round (inject_Z (Js.parseInt w)) == inject_Z (Js.parseInt w))%Q
  /\ (round (inject_Z (Js.parseInt h)) == inject_Z (Js.parseInt h))%Q
  /\ (mul (inject_Z (Js.parseInt w)) (inject_Z (Js.parseInt h))
      == inject_Z (Js.pixel_area url))%Q.
Proof.
  intros Hm. unfold Js.exact_area, Js.pixel_area. rewrite Hm.
  intros H. apply andb_true_iff in H as [H H3].
  apply andb_true_iff in H as [H1 H2].
  apply Z.ltb_lt in H1, H2, H3.
  destruct (JsFacts.match_dims_digits url w h Hm) as [Hw Hh].
  pose proof (JsFacts.parseInt_nonneg w Hw).
  pose proof (JsFacts.parseInt_nonneg h Hh).
  split; [apply parseInt_exact; assumption|].
  split; [apply parseInt_exact; assumption|].
  apply mul_int. split; [apply Z.mul_nonneg_nonneg; assumption|exact H3].
Qed.

End DoubleFacts.


(** ** Pattern analyzer: the recommended count against the collection size *)

Module PatternAnalyzerFacts.

Import PatternAnalyzer.

Definition info_size (m : list (Z * list Z)) : Z :=
  fold_right (fun e acc => Js.len (snd e) + acc) 0 m.

Lemma info_size_nonneg (m : list (Z * list Z)) : 0 <= info_size m.
Proof.
  induction m as [|e m IH]; simpl; [lia|].
  pose proof (JsFacts.len_nonneg (snd e)). lia.
Qed.

Lemma len_cons {A : Type} (x : A) (l : list A) : Js.len (x :: l) = 1 + Js.len l.
Proof. unfold Js.len; simpl List.length; lia. Qed.

Lemma seqinfo_add_size (t n : Z) (m : list (Z * list Z)) :
  info_size (seqinfo_add t n m) <= info_size m + 1.
Proof.
  induction m as [|[k s] m IH]; simpl.
  - unfold Js.len; simpl; lia.
  - destruct (k =? t); simpl.
    + pose proof (JsFacts.set_add_length Z.eqb n s). unfold Js.len. lia.
    + lia.
Qed.

Lemma sequenceInfo_size (urls : list string) (m : list (Z * list Z)) :
  info_size (fold_left seqStep urls m) <= info_size m + Js.len urls.
Proof.
  revert m; induction urls as [|u urls IH]; intros m; simpl.
  - unfold Js.len; simpl; lia.
  - eapply Z.le_trans; [apply IH|].
    rewrite len_cons. unfold seqStep.
    destruct (Js.match_seq u) as [[d1 d2]|].
    + pose proof (seqinfo_add_size (Js.parseInt d2) (Js.parseInt d1) m). lia.
    + lia.
Qed.

Lemma info_entry_size (e : Z * list Z) (m : list (Z * list Z)) :
  In e m -> Js.len (snd e) <= info_size m.
Proof.
  induction m as [|e' m IH]; simpl; [tauto|].
  intros [->|H].
  - pose proof (info_size_nonneg m). lia.
  - specialize (IH H). pose proof (JsFacts.len_nonneg (snd e')). lia.
Qed.

(** The set of sequence numbers behind [expectedCount] holds at most one
    number per URL. *)
Lemma seq_foundSize_le (urls : list string) :
  seq_foundSize (detectSequentialPattern urls) <= Js.len urls.
Proof.
  unfold detectSequentialPattern.
  destruct (Js.sort _ (sequenceInfo _)) as [|e rest] eqn:E; simpl.
  - apply JsFacts.len_nonneg.
  - assert (In e (sequenceInfo (filter isSequentialUrl urls))) as Hin.
    { apply (JsFacts.sort_in (fun a b => Js.len (snd b) - Js.len (snd a))).
      rewrite E. left; reflexivity. }
    apply info_entry_size in Hin.
    pose proof (sequenceInfo_size (filter isSequentialUrl urls) []) as Hs.
    fold (sequenceInfo (filter isSequentialUrl urls)) in Hs. simpl in Hs.
    pose proof (JsFacts.len_filter isSequentialUrl urls). lia.
Qed.

(** Turn an order statement between rationals built from integers into the
    integer statement obtained by cross-multiplication. *)
Ltac q_to_z :=
  unfold Qlt, Qle, Qdiv, Qmult, Qminus, Qplus, Qopp, Qinv, inject_Z;
  cbn [Qnum Qden]; rewrite ?Pos2Z.inj_mul.

Lemma completeness_gt_08_pos (size expected : Z) :
  0 < expected -> completeness_gt_08 size expected = true ->
  4 * expected < 5 * size.
Proof.
  intros Hpos. unfold completeness_gt_08.
  destruct (expected =? 0) eqn:E0; [apply Z.eqb_eq in E0; lia|].
  rewrite DoubleFacts.ltb_true. intros H.
  destruct (Z_lt_le_dec (4 * expected) (5 * size)) as [L|G]; [exact L|].
  exfalso. apply (Qlt_not_le _ _ H).
  apply DoubleFacts.round_mono. unfold Double.of_Z.
  destruct expected as [|p|p]; try lia.
  q_to_z. lia.
Qed.

Lemma seq_complete_bound (urls : list string) :
  seq_isComplete (detectSequentialPattern urls) = true ->
  seq_expectedCount (detectSequentialPattern urls) <= 0
  \/ 4 * seq_expectedCount (detectSequentialPattern urls) < 5 * Js.len urls.
Proof.
  intros Hc. pose proof (seq_foundSize_le urls) as Hle.
  revert Hc Hle. unfold detectSequentialPattern.
  destruct (Js.sort _ (sequenceInfo _)) as [|e rest]; simpl; [discriminate|].
  intros Hc Hle.
  destruct (Z_le_gt_dec (fst e) 0) as [H0|H0]; [left; exact H0|right].
  apply completeness_gt_08_pos in Hc; lia.
Qed.

Lemma sliceNumbers_length (urls : list string) (s : list Z) :
  Js.len (fold_left sliceStep urls s) <= Js.len s + Js.len urls.
Proof.
  revert s; induction urls as [|u urls IH]; intros s; simpl.
  - unfold Js.len; simpl; lia.
  - eapply Z.le_trans; [apply IH|]. rewrite len_cons. unfold sliceStep.
    destruct (Js.match_slice u) as [d|]; [|lia].
    pose proof (JsFacts.set_add_length Z.eqb (Js.parseInt d) s).
    unfold Js.len in *. lia.
Qed.

Lemma slice_complete_bound (urls : list string) :
  slice_isComplete (detectSlicePattern urls) = true ->
  slice_expectedCount (detectSlicePattern urls) <= Js.len urls.
Proof.
  unfold detectSlicePattern; simpl. intros H. apply Z.eqb_eq in H.
  rewrite <- H.
  pose proof (sliceNumbers_length (filter isSliceUrl urls) []) as Hs.
  fold (sliceNumbers (filter isSliceUrl urls)) in Hs.
  pose proof (JsFacts.len_filter isSliceUrl urls).
  change (Js.len (@nil Z)) with 0 in Hs. lia.
Qed.

Lemma count_add_length {K : Type} (eqb : K -> K -> bool) (k : K)
  (m : list (K * Z)) :
  Js.len (count_add eqb k m) <= Js.len m + 1.
Proof.
  induction m as [|[k' n] m IH]; simpl.
  - unfold Js.len; simpl; lia.
  - destruct (eqb k' k); rewrite !len_cons; lia.
Qed.

Lemma baseNames_length (urls : list string) (m : list (string * Z)) :
  Js.len (fold_left baseNameStep urls m) <= Js.len m + Js.len urls.
Proof.
  revert m; induction urls as [|u urls IH]; intros m; simpl.
  - unfold Js.len; simpl; lia.
  - eapply Z.le_trans; [apply IH|]. rewrite len_cons. unfold baseNameStep.
    pose proof (count_add_length String.eqb (extractBaseName u) m). lia.
Qed.

Lemma uniqueBaseNames_le (urls : list string) :
  0 <= uniqueBaseNames (detectRedundancy urls) <= Js.len urls.
Proof.
  unfold detectRedundancy; simpl. split; [apply JsFacts.len_nonneg|].
  pose proof (baseNames_length urls []) as H.
  change (Js.len (@nil (string * Z))) with 0 in H. exact H.
Qed.

Lemma Qceiling_le_Z (x : Q) (n : Z) : (x <= inject_Z n)%Q -> Qceiling x <= n.
Proof.
  intros H. apply Qceiling_resp_le in H. rewrite Qceiling_Z in H. exact H.
Qed.

(** A product of a count by a double in [0, 1] rounds to at most the
    count. *)
Lemma mul_unit_le (n : Z) (x : Q) :
  0 <= n < 2 ^ 53 -> (0 <= x)%Q -> (x <= 1)%Q ->
  Double.ceil (Double.mul (Double.of_Z n) x) <= n.
Proof.
  intros Hn H0 H1. unfold Double.ceil, Double.mul, Double.of_Z.
  apply Qceiling_le_Z, DoubleFacts.round_le_int; [|exact Hn].
  destruct x as [a b]. revert H0 H1. q_to_z. intros H0 H1. nia.
Qed.

Lemma lit_unit (q : Q) :
  (0 <= q)%Q -> (q <= 1)%Q -> (0 <= Double.lit q)%Q /\ (Double.lit q <= 1)%Q.
Proof.
  intros H0 H1. unfold Double.lit. split.
  - apply DoubleFacts.round_nonneg, H0.
  - apply (DoubleFacts.round_le_int q 1); [exact H1|lia].
Qed.

Lemma ceil_80_percent_le (u : Z) :
  0 <= u < 2 ^ 53 ->
  Double.ceil (Double.mul (Double.of_Z u) (Double.lit (8 # 10))) <= u.
Proof.
  intros Hu.
  destruct (lit_unit (8 # 10)) as [H0 H1]; [discriminate|discriminate|].
  apply mul_unit_le; assumption.
Qed.

(** Counts of a counting map never exceed the number of keys inserted. *)
Definition count_total (m : list (Z * Z)) : Z :=
  fold_right (fun e acc => snd e + acc) 0 m.

Lemma count_add_total (k : Z) (m : list (Z * Z)) :
  count_total (count_add Z.eqb k m) = count_total m + 1.
Proof.
  induction m as [|[k' n] m IH]; simpl; [lia|].
  destruct (k' =? k); simpl; lia.
Qed.

Lemma count_add_pos (k : Z) (m : list (Z * Z)) :
  Forall (fun e => 0 < snd e) m ->
  Forall (fun e => 0 < snd e) (count_add Z.eqb k m).
Proof.
  induction m as [|[k' n] m IH]; simpl; intros H.
  - constructor; [simpl; lia|constructor].
  - inversion H as [|? ? Hn Hm]; subst. simpl in Hn.
    destruct (k' =? k); constructor; simpl; auto; lia.
Qed.

Lemma qualityTiers_inv (urls : list string) (m : list (Z * Z)) :
  Forall (fun e => 0 < snd e) m ->
  Forall (fun e => 0 < snd e) (fold_left tierStep urls m)
  /\ count_total (fold_left tierStep urls m) <= count_total m + Js.len urls.
Proof.
  revert m; induction urls as [|u urls IH]; intros m Hm; simpl.
  - split; [exact Hm|unfold Js.len; simpl; lia].
  - rewrite len_cons. unfold tierStep at 2 4.
    destruct (0 <? Js.pixel_area u).
    + destruct (IH _ (count_add_pos (Js.pixel_area u) m Hm)) as [H1 H2].
      split; [exact H1|]. rewrite count_add_total in H2. lia.
    + destruct (IH _ Hm) as [H1 H2]. split; [exact H1|lia].
Qed.

Lemma max_count_le_total (m : list (Z * Z)) :
  Forall (fun e => 0 < snd e) m ->
  0 <= fold_right Z.max 0 (map snd m) <= count_total m.
Proof.
  induction m as [|e m IH]; simpl; intros H; [lia|].
  inversion H as [|? ? He Hm]; subst. specialize (IH Hm). lia.
Qed.

Lemma quality_redundancy_unit (urls : list string) :
  urls <> [] ->
  (0 <= qt_redundancy (detectQualityTiers urls))%Q
  /\ (qt_redundancy (detectQualityTiers urls) <= 1)%Q.
Proof.
  intros Hne. unfold detectQualityTiers; simpl.
  destruct (1 <? Js.len (qualityTiers urls));
    [|split; [apply Qle_refl|discriminate]].
  destruct (qualityTiers_inv urls [] (Forall_nil _)) as [Hpos Htot].
  fold (qualityTiers urls) in Hpos, Htot. simpl in Htot.
  pose proof (max_count_le_total _ Hpos) as [Hmin Hmax].
  set (mc := fold_right Z.max 0 (map snd (qualityTiers urls))) in *.
  assert (0 < Js.len urls) as Hlen.
  { destruct urls; [congruence|rewrite len_cons].
    pose proof (JsFacts.len_nonneg urls). lia. }
  unfold Double.div, Double.of_Z.
  destruct (Js.len urls) as [|p|p] eqn:El; try lia.
  split.
  - apply DoubleFacts.round_nonneg. q_to_z. lia.
  - apply (DoubleFacts.round_le_int _ 1); [|lia]. q_to_z. lia.
Qed.

Lemma ceil_quality_le (total : Z) (r : Q) :
  0 <= total < 2 ^ 53 -> (0 <= r)%Q -> (r <= 1)%Q ->
  Double.ceil (Double.mul (Double.of_Z total) (Double.sub 1 r)) <= total.
Proof.
  intros Ht H0 H1. apply mul_unit_le; [exact Ht| |]; unfold Double.sub.
  - apply DoubleFacts.round_nonneg.
    destruct r as [n d]. revert H1. q_to_z. lia.
  - apply (DoubleFacts.round_le_int _ 1); [|lia].
    destruct r as [n d]. revert H0. q_to_z. lia.
Qed.

Lemma getPlatformLimits_ordered (p : Platform) (a : Analysis) :
  optimal (getPlatformLimits p a) <= reasonable (getPlatformLimits p a).
Proof.
  unfold getPlatformLimits.
  destruct (seq_found (sequential (patterns a))).
  - destruct ((0 <? seq_expectedCount (sequential (patterns a)))
              && (seq_expectedCount (sequential (patterns a))
                  <=? reasonable (baseLimits p))).
    + cbn. lia.
    + destruct p; cbn; lia.
  - destruct p; cbn; lia.
Qed.

Definition maxCount (d : Decision) : Z := maxScreenshots (recommendation d).

(** The invariant as the specification words it: unless the strategy is
    "none", the recommended count does not exceed the size of the analysed
    collection. *)
Definition maxCount_within_total (urls : list string) (p : Platform) : Prop :=
  let d := analyzeCollection urls p in
  strategy d <> none -> maxCount d <= Js.len urls.

(** C2, counterexample.  Two variants of one image, ["a/x_new.jpg"] and
    ["a/x_orig.jpg"], have redundancy ratio 0.5 > 0.3, so the strategy is
    "deduplicate_aggressive" with maxScreenshots = max(3, ceil(1 * 0.8)) = 3,
    above the collection size 2. *)
Lemma analyzeCollection_maxCount_exceeds_total :
  ~ maxCount_within_total ["a/x_new.jpg"; "a/x_orig.jpg"] iPhone.
Proof.
  unfold maxCount_within_total. intros H.
  assert (strategy (analyzeCollection ["a/x_new.jpg"; "a/x_orig.jpg"] iPhone)
          <> none) as Hs by (vm_compute; discriminate).
  specialize (H Hs). vm_compute in H. apply H. reflexivity.
Qed.

(** C2, as amended.  For every non-empty URL sequence (an array, so of
    length below 2^32) and platform, when the strategy is not "none" the
    recommended count is at most the size of the collection, except for the
    three strategies whose count is a target rather than a census: "respect_sequence" may announce a sequence longer
    than the collection (then 4 * maxCount < 5 * totalCount),
    "deduplicate_aggressive" has the floor 3 and "quality_filter" the
    floor 4. *)
Theorem analyzeCollection_maxCount_bound (urls : list string) (p : Platform) :
  urls <> [] -> Js.len urls < 2 ^ 32 ->
  let d := analyzeCollection urls p in
  option_map totalCount (analysis d) = Some (Js.len urls) /\
  (strategy d <> none ->
   maxCount d <= Js.len urls
   \/ (strategy d = respect_sequence /\ 4 * maxCount d < 5 * Js.len urls)
   \/ (strategy d = deduplicate_aggressive /\ maxCount d = 3)
   \/ (strategy d = quality_filter /\ maxCount d = 4)).
Proof.
  intros Hne H32. destruct urls as [|u0 us]; [congruence|].
  set (urls := u0 :: us) in *.
  assert (0 <= Js.len urls < 2 ^ 53) as H53
    by (pose proof (JsFacts.len_nonneg urls); lia).
  cbv zeta. split; [reflexivity|].
  unfold analyzeCollection. fold urls.
  change (match urls with [] => _ | _ :: _ => ?x end) with x.
  unfold maxCount. cbn [strategy recommendation].
  unfold determineFilteringStrategy.
  cbn [patterns sequential slice quality_tiers redundancy quality totalCount
       platform identifyPatterns].
  destruct (seq_found (detectSequentialPattern urls)
            && seq_isComplete (detectSequentialPattern urls)) eqn:Eseq.
  { cbn [mkDecision strategy recommendation maxScreenshots]. intros _.
    apply andb_true_iff in Eseq as [_ Hc].
    destruct (seq_complete_bound urls Hc) as [H0|H1].
    - left. pose proof (JsFacts.len_nonneg urls). lia.
    - right; left. split; [reflexivity|exact H1]. }
  destruct (slice_found (detectSlicePattern urls)
            && slice_isComplete (detectSlicePattern urls)) eqn:Eslice.
  { cbn [mkDecision strategy recommendation maxScreenshots]. intros _.
    apply andb_true_iff in Eslice as [_ Hc].
    left. apply slice_complete_bound, Hc. }
  destruct (hasSignificantRedundancy (detectRedundancy urls)) eqn:Ered.
  { cbn [mkDecision strategy recommendation maxScreenshots]. intros _.
    pose proof (uniqueBaseNames_le urls) as [Hu0 Hu].
    pose proof (ceil_80_percent_le (uniqueBaseNames (detectRedundancy urls)))
      as Hc.
    destruct (Z.max_spec 3
                (Double.ceil
                   (Double.mul
                      (Double.of_Z (uniqueBaseNames (detectRedundancy urls)))
                      (Double.lit (8 # 10))))) as [[_ ->]|[_ ->]].
    - left. lia.
    - right; right; left. split; reflexivity. }
  destruct (qt_found (detectQualityTiers urls)
            && match assessQuality urls with mixed => true | _ => false end)
    eqn:Eq.
  { cbn [mkDecision strategy recommendation maxScreenshots]. intros _.
    destruct (quality_redundancy_unit urls Hne) as [Hr0 Hr1].
    pose proof (ceil_quality_le (Js.len urls) _ H53 Hr0 Hr1) as Hc.
    destruct (Z.max_spec 4
                (Double.ceil
                   (Double.mul (Double.of_Z (Js.len urls))
                      (Double.sub 1 (qt_redundancy (detectQualityTiers urls))))))
      as [[_ ->]|[_ ->]].
    - left. exact Hc.
    - right; right; right. split; reflexivity. }
  match goal with
  | |- context [getPlatformLimits p ?a] => set (lim := getPlatformLimits p a)
  end.
  pose proof (getPlatformLimits_ordered p
                {| totalCount := Js.len urls;
                   patterns := identifyPatterns urls;
                   quality := assessQuality urls;
                   redundancy := detectRedundancy urls;
                   platform := p |}) as Hlim.
  fold lim in Hlim.
  destruct (reasonable lim <? Js.len urls) eqn:Elim.
  - cbn [mkDecision strategy recommendation maxScreenshots]. intros _.
    left. apply Z.ltb_lt in Elim. lia.
  - cbn [mkDecision strategy recommendation maxScreenshots]. intros H.
    congruence.
Qed.

(** C2, the amended claim at work: a complete sequence of three URLs plus
    one variant is analysed as "respect_sequence" with maxCount 3 <= 4. *)
Lemma analyzeCollection_maxCount_bound_witness :
  let urls := ["a/1_of_3_new.jpg"; "a/2_of_3_new.jpg"; "a/3_of_3_new.jpg";
               "a/1_of_3_orig.jpg"] in
  let d := analyzeCollection urls iPhone in
  option_map totalCount (analysis d) = Some (Js.len urls) /\
  (strategy d <> none ->
   maxCount d <= Js.len urls
   \/ (strategy d = respect_sequence /\ 4 * maxCount d < 5 * Js.len urls)
   \/ (strategy d = deduplicate_aggressive /\ maxCount d = 3)
   \/ (strategy d = quality_filter /\ maxCount d = 4)).
Proof.
  apply (analyzeCollection_maxCount_bound
           ["a/1_of_3_new.jpg"; "a/2_of_3_new.jpg"; "a/3_of_3_new.jpg";
            "a/1_of_3_orig.jpg"] iPhone).
  - discriminate.
  - reflexivity.
Defined.

End PatternAnalyzerFacts.

(** ** Content deduplicator: representatives and content identifiers *)

Module ContentDeduplicatorFacts.

Import PatternAnalyzer.
Import ContentDeduplicator.

(** *** Sorting by a comparator that ranks a class of elements first *)

Section HeadOfSort.

Variable A : Type.
Variable cmp : A -> A -> Z.
Variable P : A -> bool.
Hypothesis P_first : forall x y, P x = true -> P y = false -> cmp x y < 0.
Hypothesis P_not_after : forall x y, P x = false -> P y = true -> ~ cmp x y < 0.

Definition head_in_class (l : list A) : Prop :=
  (exists x, In x l /\ P x = true) ->
  match l with y :: _ => P y = true | [] => False end.

Lemma insert_head_in_class (x : A) (l : list A) :
  head_in_class l -> head_in_class (Js.insert cmp x l).
Proof.
  unfold head_in_class. destruct l as [|y t]; simpl.
  - intros _ [z [[<-|[]] Hz]]. exact Hz.
  - intros Hl. destruct (cmp x y <? 0) eqn:E.
    + intros [z [Hin Hz]].
      destruct (P x) eqn:Px; [reflexivity|].
      assert (P y = true) as Py.
      { apply Hl. destruct Hin as [<-|Hin]; [congruence|]. eauto. }
      apply Z.ltb_lt in E. destruct (P_not_after x y Px Py E).
    + intros [z [Hin Hz]].
      destruct Hin as [<-|Hin]; [exact Hz|].
      apply (Permutation_in _ (JsFacts.insert_perm cmp x t)) in Hin.
      destruct Hin as [<-|Hin]; [|apply Hl; eauto].
      destruct (P y) eqn:Py; [reflexivity|].
      pose proof (P_first _ _ Hz Py) as Hlt.
      apply Z.ltb_ge in E. lia.
Qed.

Lemma sort_head_in_class (l : list A) : head_in_class (Js.sort cmp l).
Proof.
  unfold Js.sort.
  assert (forall acc, head_in_class acc ->
            head_in_class (fold_left (fun a x => Js.insert cmp x a) l acc))
    as H.
  { induction l as [|x t IH]; intros acc Hacc; simpl; [exact Hacc|].
    apply IH, insert_head_in_class, Hacc. }
  apply H. intros [x [[] _]].
Qed.

End HeadOfSort.

Definition isNew (url : string) : bool := Js.includes url "_new".

Lemma compareUrls_new_first (p : Platform) (x y : string) :
  isNew x = true -> isNew y = false -> compareUrls p x y < 0.
Proof.
  unfold isNew, compareUrls. intros -> ->. simpl. lia.
Qed.

Lemma compareUrls_new_not_after (p : Platform) (x y : string) :
  isNew x = false -> isNew y = true -> ~ compareUrls p x y < 0.
Proof.
  unfold isNew, compareUrls. intros -> ->. simpl. lia.
Qed.

Lemma selectBestUrl_in (urls : list string) (p : Platform) :
  urls <> [] -> In (selectBestUrl urls p) urls.
Proof.
  intros Hne. unfold selectBestUrl.
  destruct (Js.sort (compareUrls p) urls) as [|b rest] eqn:E.
  - pose proof (JsFacts.sort_length (compareUrls p) urls) as Hl.
    rewrite E in Hl. destruct urls; [congruence|discriminate].
  - simpl. apply (JsFacts.sort_in (compareUrls p)). rewrite E. left; reflexivity.
Qed.

Lemma selectBestUrl_new (urls : list string) (p : Platform) (u : string) :
  In u urls -> isNew u = true -> isNew (selectBestUrl urls p) = true.
Proof.
  intros Hin Hu. unfold selectBestUrl.
  pose proof (sort_head_in_class _ (compareUrls p) isNew
                (compareUrls_new_first p) (compareUrls_new_not_after p) urls)
    as H.
  unfold head_in_class in H.
  destruct (Js.sort (compareUrls p) urls) as [|b rest] eqn:E.
  - exfalso. apply H. exists u. split; [|exact Hu].
    rewrite <- E. apply JsFacts.sort_in, Hin.
  - simpl. apply H. exists u. split; [|exact Hu].
    rewrite <- E. apply JsFacts.sort_in, Hin.
Qed.

Lemma representative_in (p : Platform) (g : string * list string) :
  snd g <> [] -> In (representative p g) (snd g).
Proof.
  unfold representative. destruct (snd g) as [|u [|v t]] eqn:E; intros Hne.
  - congruence.
  - left; reflexivity.
  - apply selectBestUrl_in. discriminate.
Qed.

Lemma representative_new (p : Platform) (g : string * list string) (u : string) :
  In u (snd g) -> isNew u = true -> isNew (representative p g) = true.
Proof.
  unfold representative. destruct (snd g) as [|v [|w t]] eqn:E; intros Hin Hu.
  - destruct Hin.
  - destruct Hin as [<-|[]]. exact Hu.
  - eapply selectBestUrl_new; eauto.
Qed.

(** *** The content identifier never draws a random number *)

(** The identifier of a URL, computed by the code itself over a generator
    that is never consulted. *)
Definition contentIdOf (a : UrlAnalysis) (url : string) : string :=
  fst (extractContentId unit (fun g => (EmptyString, g)) url a tt).

Definition groupsFrom (urls : list string) (a : UrlAnalysis)
  (groups : list (string * list string)) : list (string * list string) :=
  fst (groupByContent_from unit (fun g => (EmptyString, g)) urls a groups tt).

Section WithRuntime.

Variable Rng : Type.
Variable random_id : Rng -> string * Rng.
Variable localeCompare : string -> string -> Z.

Lemma fallbackId_pure (url : string) (g : Rng) :
  fallbackId Rng random_id url g = ("fallback_" ++ Js.base_name url, g).
Proof. reflexivity. Qed.

Lemma extractContentId_pure (url : string) (a : UrlAnalysis) (g : Rng) :
  extractContentId Rng random_id url a g = (contentIdOf a url, g).
Proof.
  unfold contentIdOf, extractContentId.
  destruct (dominantPattern a).
  - destruct (Js.match_seq url) as [[d ?]|]; reflexivity.
  - destruct (Js.match_slice url); reflexivity.
  - destruct (Js.match_hash url); reflexivity.
  - destruct (Js.match_numbered url); reflexivity.
  - reflexivity.
  - reflexivity.
Qed.

End WithRuntime.

Lemma groupsFrom_cons (url : string) (rest : list string) (a : UrlAnalysis)
  (groups : list (string * list string)) :
  groupsFrom (url :: rest) a groups =
  if Js.truthy url
  then groupsFrom rest a (group_add (contentIdOf a url) url groups)
  else groupsFrom rest a groups.
Proof.
  unfold groupsFrom. simpl.
  destruct (Js.truthy url); simpl; [|reflexivity].
  unfold bind. rewrite extractContentId_pure. reflexivity.
Qed.

Lemma groupByContent_from_pure (Rng : Type) (random_id : Rng -> string * Rng)
  (urls : list string) (a : UrlAnalysis)
  (groups : list (string * list string)) (g : Rng) :
  groupByContent_from Rng random_id urls a groups g
  = (groupsFrom urls a groups, g).
Proof.
  revert groups; induction urls as [|url rest IH]; intros groups.
  - reflexivity.
  - rewrite groupsFrom_cons. simpl.
    destruct (Js.truthy url); simpl.
    + unfold bind. rewrite extractContentId_pure. apply IH.
    + apply IH.
Qed.

(** The value of [deduplicate], free of the generator. *)
Lemma deduplicate_pure (Rng : Type) (random_id : Rng -> string * Rng)
  (localeCompare : string -> string -> Z)
  (urls : list string) (p : Platform) (g : Rng) :
  deduplicate Rng random_id localeCompare urls p g
  = (match urls with
     | [] => []
     | _ :: _ =>
         selectBestRepresentatives localeCompare
           (groupsFrom urls (analyzeUrlPatterns urls) []) p
     end, g).
Proof.
  destruct urls as [|u us]; [reflexivity|].
  unfold deduplicate, bind, groupByContent.
  rewrite groupByContent_from_pure. reflexivity.
Qed.

(** *** Invariants of the grouping *)

Definition group_inv (a : UrlAnalysis) (g : string * list string) : Prop :=
  snd g <> [] /\
  forall u, In u (snd g) -> Js.truthy u = true /\ contentIdOf a u = fst g.

Definition covered (a : UrlAnalysis) (u : string)
  (groups : list (string * list string)) : Prop :=
  exists g, In g groups /\ fst g = contentIdOf a u /\ In u (snd g).

Lemma group_add_keys (k u : string) (groups : list (string * list string))
  (k' : string) :
  In k' (map fst (group_add k u groups)) <-> k' = k \/ In k' (map fst groups).
Proof.
  induction groups as [|[k0 us] t IH]; simpl.
  - intuition.
  - destruct (String.eqb_spec k0 k) as [->|Hne]; simpl.
    + intuition.
    + rewrite IH. intuition.
Qed.

Lemma group_add_NoDup (k u : string) (groups : list (string * list string)) :
  NoDup (map fst groups) -> NoDup (map fst (group_add k u groups)).
Proof.
  induction groups as [|[k0 us] t IH]; simpl; intros H.
  - constructor; [intros []|constructor].
  - inversion H as [|? ? Hnotin Ht]; subst.
    destruct (String.eqb_spec k0 k) as [->|Hne]; simpl.
    + constructor; assumption.
    + constructor; [|apply IH, Ht].
      rewrite group_add_keys. intros [->|Hin]; [congruence|contradiction].
Qed.

Lemma group_add_inv (a : UrlAnalysis) (u : string)
  (groups : list (string * list string)) :
  Js.truthy u = true ->
  Forall (group_inv a) groups ->
  Forall (group_inv a) (group_add (contentIdOf a u) u groups).
Proof.
  intros Hu. induction groups as [|[k0 us] t IH]; simpl; intros H.
  - constructor; [|constructor]. split; simpl; [discriminate|].
    intros v [<-|[]]. auto.
  - inversion H as [|? ? Hg Ht]; subst.
    destruct (String.eqb_spec k0 (contentIdOf a u)) as [->|Hne].
    + constructor; [|exact Ht]. destruct Hg as [_ Hg]. split; simpl.
      * destruct us; discriminate.
      * intros v Hv. apply in_app_or in Hv as [Hv|[<-|[]]]; auto.
    + constructor; [exact Hg|apply IH, Ht].
Qed.

Lemma group_add_covers (a : UrlAnalysis) (u : string)
  (groups : list (string * list string)) :
  covered a u (group_add (contentIdOf a u) u groups).
Proof.
  unfold covered. induction groups as [|[k0 us] t IH]; simpl.
  - exists (contentIdOf a u, [u]). simpl. auto.
  - destruct (String.eqb_spec k0 (contentIdOf a u)) as [->|Hne].
    + exists (contentIdOf a u, (us ++ [u])%list). simpl.
      split; [auto|split; [reflexivity|]]. apply in_or_app. right. left. reflexivity.
    + destruct IH as [g [Hin Hg]]. exists g. simpl. auto.
Qed.

Lemma group_add_keeps (a : UrlAnalysis) (k u v : string)
  (groups : list (string * list string)) :
  covered a v groups -> covered a v (group_add k u groups).
Proof.
  unfold covered. induction groups as [|[k0 us] t IH]; simpl.
  - intros [g [[] _]].
  - intros [g [[<-|Hin] [Hk Hv]]].
    + destruct (String.eqb k0 k).
      * exists (k0, (us ++ [u])%list). simpl in *.
        split; [auto|split; [exact Hk|]]. apply in_or_app. auto.
      * exists (k0, us). simpl. auto.
    + destruct (String.eqb k0 k).
      * exists g. simpl. auto.
      * destruct IH as [g' [Hin' Hg']]; [eauto|]. exists g'. simpl. auto.
Qed.

Lemma group_add_members (k u : string) (groups : list (string * list string))
  (src : list string) :
  (forall g v, In g groups -> In v (snd g) -> In v src) -> In u src ->
  forall g v, In g (group_add k u groups) -> In v (snd g) -> In v src.
Proof.
  induction groups as [|[k0 us] t IH]; simpl; intros Hs Hu g v Hg Hv.
  - destruct Hg as [<-|[]]. destruct Hv as [<-|[]]. exact Hu.
  - destruct (String.eqb k0 k).
    + destruct Hg as [<-|Hg]; [|eauto].
      simpl in Hv. apply in_app_or in Hv as [Hv|[<-|[]]]; [|exact Hu].
      apply (Hs (k0, us)); auto.
    + destruct Hg as [<-|Hg]; [apply (Hs (k0, us)); auto|].
      apply (IH (fun g v Hg => Hs g v (or_intror Hg)) Hu g v Hg Hv).
Qed.

Lemma groupsFrom_spec (a : UrlAnalysis) (src urls : list string)
  (groups : list (string * list string)) :
  incl urls src ->
  NoDup (map fst groups) ->
  Forall (group_inv a) groups ->
  (forall g v, In g groups -> In v (snd g) -> In v src) ->
  let final := groupsFrom urls a groups in
  NoDup (map fst final)
  /\ Forall (group_inv a) final
  /\ (forall g v, In g final -> In v (snd g) -> In v src)
  /\ (forall v, covered a v groups -> covered a v final)
  /\ (forall u, In u urls -> Js.truthy u = true -> covered a u final).
Proof.
  revert groups; induction urls as [|url rest IH];
    intros groups Hincl Hnd Hinv Hsrc; cbv zeta.
  - unfold groupsFrom; simpl. repeat split; auto. intros u [].
  - rewrite groupsFrom_cons.
    assert (incl rest src) as Hrest by (intros x Hx; apply Hincl; right; exact Hx).
    destruct (Js.truthy url) eqn:Ht.
    + destruct (IH (group_add (contentIdOf a url) url groups) Hrest
                  (group_add_NoDup _ _ _ Hnd)
                  (group_add_inv a url groups Ht Hinv)
                  (group_add_members _ _ _ src Hsrc (Hincl url (or_introl eq_refl))))
        as (H1 & H2 & H3 & H4 & H5).
      repeat split; auto.
      * intros v Hv. apply H4, group_add_keeps, Hv.
      * intros u [<-|Hu] Hu'; [apply H4, group_add_covers|auto].
    + destruct (IH groups Hrest Hnd Hinv Hsrc) as (H1 & H2 & H3 & H4 & H5).
      repeat split; auto.
      intros u [<-|Hu] Hu'; [congruence|auto].
Qed.

Lemma groups_of_input (urls : list string) :
  let a := analyzeUrlPatterns urls in
  let final := groupsFrom urls a [] in
  NoDup (map fst final)
  /\ Forall (group_inv a) final
  /\ (forall g v, In g final -> In v (snd g) -> In v urls)
  /\ (forall u, In u urls -> Js.truthy u = true -> covered a u final).
Proof.
  cbv zeta.
  destruct (groupsFrom_spec (analyzeUrlPatterns urls) urls urls []
              (incl_refl _) (NoDup_nil _) (Forall_nil _))
    as (H1 & H2 & H3 & _ & H5).
  - intros g v [].
  - repeat split; assumption.
Qed.

(** The content identifiers derived from the input: one per truthy URL. *)
Definition contentIds (urls : list string) : list string :=
  map (contentIdOf (analyzeUrlPatterns urls)) (filter Js.truthy urls).

Lemma group_keys_are_contentIds (urls : list string) (k : string) :
  In k (map fst (groupsFrom urls (analyzeUrlPatterns urls) []))
  <-> In k (contentIds urls).
Proof.
  destruct (groups_of_input urls) as (_ & Hinv & Hsrc & Hcov).
  unfold contentIds. rewrite !in_map_iff. split.
  - intros [g [<- Hg]].
    rewrite Forall_forall in Hinv. destruct (Hinv g Hg) as [Hne Hm].
    destruct (snd g) as [|v t] eqn:E; [congruence|].
    assert (In v (snd g)) as Hv by (rewrite E; left; reflexivity).
    rewrite <- E in Hm.
    destruct (Hm v Hv) as [Ht Hk]. exists v. split; [exact Hk|].
    apply filter_In. split; [eapply Hsrc; eauto|exact Ht].
  - intros [u [<- Hu]]. apply filter_In in Hu as [Hu Ht].
    destruct (Hcov u Hu Ht) as [g [Hg [Hk _]]]. exists g. auto.
Qed.

Lemma groups_count (urls : list string) :
  List.length (groupsFrom urls (analyzeUrlPatterns urls) [])
  = List.length (nodup string_dec (contentIds urls)).
Proof.
  destruct (groups_of_input urls) as (Hnd & _).
  rewrite <- (length_map fst).
  apply Nat.le_antisymm; apply NoDup_incl_length.
  - exact Hnd.
  - intros k Hk. apply nodup_In, group_keys_are_contentIds, Hk.
  - apply NoDup_nodup.
  - intros k Hk. apply group_keys_are_contentIds. eapply nodup_In, Hk.
Qed.

Lemma representatives_perm (localeCompare : string -> string -> Z)
  (groups : list (string * list string)) (p : Platform) :
  Permutation (selectBestRepresentatives localeCompare groups p)
              (map (representative p) groups).
Proof. apply JsFacts.sort_perm. Qed.

Lemma representative_ids (a : UrlAnalysis) (p : Platform)
  (groups : list (string * list string)) :
  Forall (group_inv a) groups ->
  map (contentIdOf a) (map (representative p) groups) = map fst groups.
Proof.
  induction 1 as [|g t [Hne Hm] _ IH]; simpl; [reflexivity|].
  rewrite IH. f_equal. apply Hm, representative_in, Hne.
Qed.

Lemma NoDup_map_inj {A B : Type} (f : A -> B) (l : list A) (x y : A) :
  NoDup (map f l) -> In x l -> In y l -> f x = f y -> x = y.
Proof.
  induction l as [|z t IH]; simpl; intros Hnd Hx Hy Hf; [destruct Hx|].
  inversion Hnd as [|? ? Hnotin Ht]; subst.
  destruct Hx as [->|Hx], Hy as [->|Hy]; auto.
  - exfalso. apply Hnotin. rewrite Hf. apply in_map, Hy.
  - exfalso. apply Hnotin. rewrite <- Hf. apply in_map, Hx.
Qed.

(** C8.  [deduplicate] is a function of its input alone: whatever the
    generators behind [Math.random] and their states, two runs on the same
    URLs and platform return the same array; no random number is drawn (the
    generator state is returned unchanged); and the length of the output is
    the number of distinct content identifiers of the (truthy) input URLs. *)
Theorem deduplicate_deterministic
  (Rng1 Rng2 : Type)
  (random1 : Rng1 -> string * Rng1) (random2 : Rng2 -> string * Rng2)
  (localeCompare : string -> string -> Z)
  (urls : list string) (p : Platform) (g1 : Rng1) (g2 : Rng2) :
  fst (deduplicate Rng1 random1 localeCompare urls p g1)
  = fst (deduplicate Rng2 random2 localeCompare urls p g2)
  /\ snd (deduplicate Rng1 random1 localeCompare urls p g1) = g1
  /\ List.length (fst (deduplicate Rng1 random1 localeCompare urls p g1))
     = List.length (nodup string_dec (contentIds urls)).
Proof.
  rewrite !deduplicate_pure. cbn [fst snd].
  split; [reflexivity|split; [reflexivity|]].
  destruct urls as [|u us]; [reflexivity|].
  rewrite (Permutation_length (representatives_perm _ _ _)), length_map.
  apply groups_count.
Qed.

(** The property as the specification words it: one representative per
    distinct stripped base name. *)
Definition one_representative_per_base_name (out urls : list string) : Prop :=
  List.length out
  = List.length (nodup string_dec (map Js.base_name (filter Js.truthy urls))).

(** A sample runtime: a generator that always answers ["00000000"] and a
    byte-wise [localeCompare]. *)
Definition sampleRandom (g : unit) : string * unit := ("00000000", g).
Definition byteCompare (a b : string) : Z :=
  match String.compare a b with Lt => -1 | Eq => 0 | Gt => 1 end.

(** C6, counterexample.  ["a/1_of_2/Home.jpg"] and ["a/2_of_2/Home.jpg"]
    share the stripped base name ["Home"]; the sequential scheme is dominant
    and their content identifiers are [seq_1] and [seq_2], so both are
    returned.  ["a/Home-392x696.jpg"] and ["a/Home-1242x2688.jpg"], two sizes
    with the stripped base name ["Home"], both match the numeric-suffix
    pattern, get the identifiers [num_392] and [num_1242] and are both
    returned as well. *)
Lemma deduplicate_keeps_two_urls_of_one_base_name :
  (let urls := ["a/1_of_2/Home.jpg"; "a/2_of_2/Home.jpg"] in
   map Js.base_name urls = ["Home"; "Home"]
   /\ fst (deduplicate unit sampleRandom byteCompare urls iPhone tt) = urls
   /\ ~ one_representative_per_base_name
         (fst (deduplicate unit sampleRandom byteCompare urls iPhone tt)) urls)
  /\
  (let urls := ["a/Home-392x696.jpg"; "a/Home-1242x2688.jpg"] in
   map Js.base_name urls = ["Home"; "Home"]
   /\ fst (deduplicate unit sampleRandom byteCompare urls iPhone tt) = urls
   /\ ~ one_representative_per_base_name
         (fst (deduplicate unit sampleRandom byteCompare urls iPhone tt)) urls).
Proof.
  cbv zeta. unfold one_representative_per_base_name.
  repeat split; try (vm_compute; reflexivity); vm_compute; discriminate.
Qed.

(** C6, as amended.  Every truthy input URL [u] has exactly one
    representative [r] in the output of [deduplicate]: [r] is an input URL
    with the content identifier of [u], no other output URL has this
    identifier, and [r] is a "_new" variant as soon as [u] is one.  The
    content identifier is the stripped base name (prefixed by "fallback_")
    when no naming scheme is dominant. *)
Theorem deduplicate_one_representative_per_content_id
  (Rng : Type) (random_id : Rng -> string * Rng)
  (localeCompare : string -> string -> Z)
  (urls : list string) (p : Platform) (g : Rng) (u : string) :
  In u urls -> Js.truthy u = true ->
  let out := fst (deduplicate Rng random_id localeCompare urls p g) in
  let cid := contentIdOf (analyzeUrlPatterns urls) in
  (dominantPattern (analyzeUrlPatterns urls) = unknown_p ->
   cid u = "fallback_" ++ Js.base_name u)
  /\ exists r,
      In r out /\ In r urls /\ cid r = cid u
      /\ (forall r', In r' out -> cid r' = cid u -> r' = r)
      /\ (isNew u = true -> isNew r = true).
Proof.
  intros Hu Ht. cbv zeta. rewrite deduplicate_pure. cbn [fst].
  split.
  { intros Hd. unfold contentIdOf, extractContentId. rewrite Hd. reflexivity. }
  destruct urls as [|u0 us]; [destruct Hu|].
  set (urls := u0 :: us) in *.
  set (a := analyzeUrlPatterns urls).
  destruct (groups_of_input urls) as (Hnd & Hinv & Hsrc & Hcov).
  fold a in Hnd, Hinv, Hsrc, Hcov.
  set (groups := groupsFrom urls a []) in *.
  pose proof (representatives_perm localeCompare groups p) as Hperm.
  destruct (Hcov u Hu Ht) as [grp [Hgrp [Hk Hmem]]].
  rewrite Forall_forall in Hinv.
  destruct (Hinv grp Hgrp) as [Hne Hm].
  assert (In (representative p grp) (snd grp)) as Hrep
    by (apply representative_in, Hne).
  assert (In (representative p grp)
             (selectBestRepresentatives localeCompare groups p)) as Hout.
  { apply (Permutation_in _ (Permutation_sym Hperm)), in_map, Hgrp. }
  exists (representative p grp).
  split; [|split; [|split; [|split]]].
  - exact Hout.
  - eapply Hsrc; eauto.
  - destruct (Hm _ Hrep) as [_ ->]. exact Hk.
  - intros r' Hr' Hid.
    apply (NoDup_map_inj (contentIdOf a)
             (selectBestRepresentatives localeCompare groups p)); auto.
    + apply (Permutation_NoDup
               (Permutation_sym (Permutation_map (contentIdOf a) Hperm))).
      rewrite representative_ids; [exact Hnd|].
      apply Forall_forall, Hinv.
    + destruct (Hm _ Hrep) as [_ ->]. rewrite Hid. symmetry. exact Hk.
  - intros Hnew. exact (representative_new p grp u Hmem Hnew).
Qed.

(** C6, the amended claim at work: among the three variants of ["Home"],
    the "_new" URL is represented by a "_new" URL, the only output URL with
    its content identifier. *)
Lemma deduplicate_one_representative_witness :
  let urls := ["a/Home_392x696.jpg"; "a/Home_1242x2688_orig.jpg";
               "a/Home_100x100_new.jpg"; "a/Other.jpg"] in
  let u := "a/Home_100x100_new.jpg" in
  let out := fst (deduplicate unit sampleRandom byteCompare urls iPhone tt) in
  let cid := contentIdOf (analyzeUrlPatterns urls) in
  (dominantPattern (analyzeUrlPatterns urls) = unknown_p ->
   cid u = "fallback_" ++ Js.base_name u)
  /\ exists r,
      In r out /\ In r urls /\ cid r = cid u
      /\ (forall r', In r' out -> cid r' = cid u -> r' = r)
      /\ (isNew u = true -> isNew r = true).
Proof.
  apply (deduplicate_one_representative_per_content_id
           unit sampleRandom byteCompare
           ["a/Home_392x696.jpg"; "a/Home_1242x2688_orig.jpg";
            "a/Home_100x100_new.jpg"; "a/Other.jpg"]
           iPhone tt "a/Home_100x100_new.jpg").
  - simpl. auto.
  - reflexivity.
Defined.

(** *** The output against the input *)

Lemma NoDup_of_map {A B : Type} (f : A -> B) (l : list A) :
  NoDup (map f l) -> NoDup l.
Proof.
  induction l as [|a t IH]; simpl; intros H; constructor;
    inversion H as [|? ? Hn Ht]; subst.
  - intros Hin. apply Hn, in_map, Hin.
  - apply IH, Ht.
Qed.

Lemma deduplicate_output (Rng : Type) (random_id : Rng -> string * Rng)
  (localeCompare : string -> string -> Z)
  (urls : list string) (p : Platform) (g : Rng) :
  let out := fst (deduplicate Rng random_id localeCompare urls p g) in
  (forall r, In r out -> In r urls /\ Js.truthy r = true)
  /\ NoDup out
  /\ ((exists u, In u urls /\ Js.truthy u = true) -> out <> []).
Proof.
  cbv zeta. rewrite deduplicate_pure. cbn [fst].
  destruct urls as [|u0 us].
  { split; [intros r []|split; [constructor|intros [u [[] _]]]]. }
  set (urls := u0 :: us) in *.
  set (a := analyzeUrlPatterns urls).
  destruct (groups_of_input urls) as (Hnd & Hinv & Hsrc & Hcov).
  fold a in Hnd, Hinv, Hsrc, Hcov.
  set (groups := groupsFrom urls a []) in *.
  pose proof (representatives_perm localeCompare groups p) as Hperm.
  assert (forall r, In r (selectBestRepresentatives localeCompare groups p) ->
            exists grp, In grp groups /\ r = representative p grp
                        /\ In r (snd grp)) as Hrep.
  { intros r Hr. apply (Permutation_in _ Hperm), in_map_iff in Hr
      as [grp [<- Hgrp]].
    exists grp. split; [exact Hgrp|split; [reflexivity|]].
    rewrite Forall_forall in Hinv. apply representative_in, (Hinv grp Hgrp). }
  split; [|split].
  - intros r Hr. destruct (Hrep r Hr) as (grp & Hgrp & _ & Hin).
    split; [eapply Hsrc; eauto|].
    rewrite Forall_forall in Hinv. destruct (Hinv grp Hgrp) as [_ Hm].
    apply (Hm r Hin).
  - apply (NoDup_of_map (contentIdOf a)).
    apply (Permutation_NoDup
             (Permutation_sym (Permutation_map (contentIdOf a) Hperm))).
    rewrite representative_ids; [exact Hnd|exact Hinv].
  - intros [u [Hu Ht]] Hnil.
    destruct (Hcov u Hu Ht) as [grp [Hgrp _]].
    assert (In (representative p grp)
               (selectBestRepresentatives localeCompare groups p)) as Hin.
    { apply (Permutation_in _ (Permutation_sym Hperm)), in_map, Hgrp. }
    rewrite Hnil in Hin. destruct Hin.
Qed.

(** X7.  [deduplicate] returns input URLs only, none of them empty and none
    of them twice, so never more URLs than it was given; and it returns at
    least one URL as soon as the input holds a non-empty URL. *)
Theorem deduplicate_keeps_input_urls
  (Rng : Type) (random_id : Rng -> string * Rng)
  (localeCompare : string -> string -> Z)
  (urls : list string) (p : Platform) (g : Rng) :
  let out := fst (deduplicate Rng random_id localeCompare urls p g) in
  (forall r, In r out -> In r urls /\ Js.truthy r = true)
  /\ NoDup out
  /\ Js.len out <= Js.len urls
  /\ ((exists u, In u urls /\ Js.truthy u = true) -> out <> []).
Proof.
  cbv zeta.
  destruct (deduplicate_output Rng random_id localeCompare urls p g)
    as (H1 & H2 & H3).
  split; [exact H1|split; [exact H2|split; [|exact H3]]].
  unfold Js.len. apply inj_le, NoDup_incl_length; [exact H2|].
  intros r Hr. apply (H1 r Hr).
Qed.

(** *** The order of the output *)

(** The number by which [sortRepresentatives] orders a URL. *)
Definition sequenceNumber (url : string) : Z :=
  match extractSequenceNumber url with
  | Some n => n
  | None => 0
  end.

Definition numbered (url : string) : Prop := extractSequenceNumber url <> None.

Lemma compareRepresentatives_numbered (localeCompare : string -> string -> Z)
  (a b : string) :
  numbered a -> numbered b ->
  compareRepresentatives localeCompare a b = sequenceNumber a - sequenceNumber b.
Proof.
  unfold numbered, compareRepresentatives, sequenceNumber.
  destruct (extractSequenceNumber a); [|congruence].
  destruct (extractSequenceNumber b); [|congruence]. reflexivity.
Qed.

(** The double that the code holds for the number of [url] is this
    number: it is below 2^53 ([DoubleFacts.parseInt_exact]). *)
Definition exact_sequence (url : string) : Prop := sequenceNumber url < 2 ^ 53.

(** X8.  When every non-empty input URL carries a number ([k_of_n],
    [Slice_k] or a numeric suffix) and these numbers are below 2^53, where
    the doubles of the code are the integers parsed, [deduplicate] returns
    its URLs in the order of these numbers, whatever [localeCompare]
    does. *)
Theorem deduplicate_in_sequence_order
  (Rng : Type) (random_id : Rng -> string * Rng)
  (localeCompare : string -> string -> Z)
  (urls : list string) (p : Platform) (g : Rng) :
  (forall u, In u urls -> Js.truthy u = true -> numbered u) ->
  (forall u, In u urls -> exact_sequence u) ->
  StronglySorted (fun a b => sequenceNumber a <= sequenceNumber b)
    (fst (deduplicate Rng random_id localeCompare urls p g)).
Proof.
  intros Hnum _.
  destruct (deduplicate_output Rng random_id localeCompare urls p g)
    as (Hsub & _ & _).
  revert Hsub. rewrite deduplicate_pure. cbn [fst].
  destruct urls as [|u0 us]; [constructor|].
  set (urls := u0 :: us) in *. intros Hsub.
  unfold selectBestRepresentatives, sortRepresentatives in *.
  set (reps := map (representative p) _) in *.
  assert (Forall numbered reps) as Hreps.
  { apply Forall_forall. intros r Hr.
    destruct (Hsub r) as [H1 H2]; [apply JsFacts.sort_in, Hr|].
    apply Hnum; assumption. }
  pose proof (JsFacts.sort_ordered string (compareRepresentatives localeCompare)
                (fun u => inject_Z (sequenceNumber u)) numbered) as Hs.
  unfold JsFacts.ordered in Hs.
  eapply JsFacts.sorted_weaken; [|apply Hs; [| |exact Hreps]].
  - intros a b _ _ H. cbv beta in H. rewrite <- Zle_Qle in H. exact H.
  - intros x y Hx Hy H. rewrite compareRepresentatives_numbered in H by assumption.
    rewrite <- Zle_Qle. lia.
  - intros x y Hx Hy H. rewrite compareRepresentatives_numbered by assumption.
    rewrite <- Zlt_Qlt in H. lia.
Qed.

(** X8 at work: a sequence of three given out of order, with two versions
    of its first screenshot and an empty URL. *)
Lemma deduplicate_in_sequence_order_witness :
  StronglySorted (fun a b => sequenceNumber a <= sequenceNumber b)
    (fst (deduplicate unit sampleRandom byteCompare
            ["a/3_of_3.jpg"; "a/1_of_3_orig.jpg"; EmptyString;
             "a/2_of_3.jpg"; "a/1_of_3_new.jpg"] iPhone tt)).
Proof.
  apply (deduplicate_in_sequence_order unit sampleRandom byteCompare
           ["a/3_of_3.jpg"; "a/1_of_3_orig.jpg"; EmptyString;
            "a/2_of_3.jpg"; "a/1_of_3_new.jpg"] iPhone tt).
  - intros u Hu Ht. unfold numbered.
    cbn in Hu. destruct Hu as [<-|[<-|[<-|[<-|[<-|[]]]]]];
      try (vm_compute; discriminate).
  - intros u Hu. unfold exact_sequence.
    cbn in Hu. destruct Hu as [<-|[<-|[<-|[<-|[<-|[]]]]]];
      vm_compute; reflexivity.
Defined.

(** Beyond 2^53 the order of the integers is not that of the doubles: the
    two numbers below differ by one, and the doubles nearest to them are
    the same (2^53), so that the code leaves these two URLs in the order of
    the input. *)
Example sequence_numbers_beyond_2_53 :
  sequenceNumber "a/9007199254740993_of_5.jpg" = 2 ^ 53 + 1
  /\ sequenceNumber "a/9007199254740992_of_5.jpg" = 2 ^ 53
  /\ (Double.round (inject_Z (2 ^ 53 + 1)) == inject_Z (2 ^ 53))%Q
  /\ ~ exact_sequence "a/9007199254740993_of_5.jpg".
Proof.
  split; [vm_compute; reflexivity|].
  split; [vm_compute; reflexivity|].
  split; [vm_compute; reflexivity|].
  unfold exact_sequence. vm_compute. discriminate.
Qed.

(** *** The best URL of a group *)

(** The version markers that [selectBestUrl] looks at first. *)
Definition markedNew (url : string) : bool := Js.includes url "_new".
Definition markedOld (url : string) : bool :=
  Js.includes url "_orig" || Js.includes url "_retry".

Lemma compareUrls_same_markers (p : Platform) (a b : string) :
  markedNew a = markedNew b -> markedOld a = markedOld b ->
  (compareUrls p a b < 0 -> extractDimensions b <= extractDimensions a)
  /\ (extractDimensions b < extractDimensions a -> compareUrls p a b < 0).
Proof.
  unfold markedNew, markedOld, compareUrls. intros -> ->.
  destruct (Js.includes b "_new"), (Js.includes b "_orig" || Js.includes b "_retry");
    cbn [andb negb];
    (destruct (extractDimensions a =? extractDimensions b) eqn:E;
     [apply Z.eqb_eq in E; rewrite E; split; intros; lia
     |apply Z.eqb_neq in E; cbn [negb]; split; intros; lia]).
Qed.

(** X9.  Among variants that carry the same version markers,
    [selectBestUrl] picks a URL of the highest resolution: the URL returned
    is one of the group and, when the dimensions and pixel areas of the
    group are below 2^53 ([Js.exact_area]: the doubles of the code are then
    the integers compared here), no URL of the group has a larger pixel
    area. *)
Theorem selectBestUrl_highest_resolution (urls : list string) (p : Platform)
  (isNew isOld : bool) :
  urls <> [] ->
  (forall u, In u urls -> markedNew u = isNew /\ markedOld u = isOld) ->
  In (selectBestUrl urls p) urls
  /\ ((forall u, In u urls -> Js.exact_area u = true) ->
      forall u, In u urls ->
        extractDimensions u <= extractDimensions (selectBestUrl urls p)).
Proof.
  intros Hne Hm. split; [apply selectBestUrl_in, Hne|]. intros _.
  pose proof (JsFacts.sort_ordered string (compareUrls p)
                (fun u => inject_Z (- extractDimensions u))
                (fun u => markedNew u = isNew /\ markedOld u = isOld)) as Hs.
  unfold JsFacts.ordered in Hs.
  assert (StronglySorted
            (fun x y => (inject_Z (- extractDimensions x)
                         <= inject_Z (- extractDimensions y))%Q)
            (Js.sort (compareUrls p) urls)) as Hsorted.
  { apply Hs.
    - intros x y [Hx1 Hx2] [Hy1 Hy2] H. rewrite <- Zle_Qle.
      destruct (compareUrls_same_markers p x y) as [H1 _]; [congruence..|].
      specialize (H1 H). lia.
    - intros x y [Hx1 Hx2] [Hy1 Hy2] H. rewrite <- Zlt_Qlt in H.
      destruct (compareUrls_same_markers p x y) as [_ H2]; [congruence..|].
      apply H2. lia.
    - apply Forall_forall, Hm. }
  unfold selectBestUrl. intros u Hu.
  apply (JsFacts.sort_in (compareUrls p)) in Hu.
  destruct (Js.sort (compareUrls p) urls) as [|b rest]; [destruct Hu|].
  cbn [hd]. inversion Hsorted as [|? ? _ Hall]; subst.
  destruct Hu as [<-|Hu]; [lia|].
  rewrite Forall_forall in Hall. specialize (Hall u Hu).
  rewrite <- Zle_Qle in Hall. lia.
Qed.

(** X9 at work: three sizes of one screenshot, none of them marked. *)
Lemma selectBestUrl_highest_resolution_witness :
  let urls := ["a/Home_392x696.jpg"; "a/Home_1242x2688.jpg";
               "a/Home_300x0w.jpg"] in
  In (selectBestUrl urls iPad) urls
  /\ forall u, In u urls ->
       extractDimensions u <= extractDimensions (selectBestUrl urls iPad).
Proof.
  cbv zeta.
  destruct (selectBestUrl_highest_resolution
              ["a/Home_392x696.jpg"; "a/Home_1242x2688.jpg";
               "a/Home_300x0w.jpg"] iPad false false) as [H1 H2].
  - discriminate.
  - intros u Hu. cbn in Hu.
    destruct Hu as [<-|[<-|[<-|[]]]]; split; vm_compute; reflexivity.
  - split; [exact H1|]. apply H2.
    intros u Hu. cbn in Hu.
    destruct Hu as [<-|[<-|[<-|[]]]]; vm_compute; reflexivity.
Defined.

End ContentDeduplicatorFacts.


(** ** Smart filter: what [filter] keeps *)

Module SmartFilterFacts.

Import PatternAnalyzer.
Import SmartFilter.

(** The URLs held by an entry of the result. *)
Definition entry_urls (e : Entry) : list string :=
  match e with
  | Url url => [url]
  | Urls urls => urls
  end.

Definition score (url : string) : Q := calculateQualityScore url.

Lemma Zeqb_eq (a b : Z) : (a =? b) = true <-> a = b.
Proof. apply Z.eqb_eq. Qed.

Lemma sorted_NoDup (l : list Z) : StronglySorted Z.lt l -> NoDup l.
Proof.
  induction 1 as [|x l Hs IH Hall]; constructor; [|exact IH].
  intros Hin. rewrite Forall_forall in Hall. specialize (Hall x Hin). lia.
Qed.

Lemma range_NoDup (lo hi : Z) : NoDup (Js.range lo hi).
Proof. apply sorted_NoDup, JsFacts.range_sorted. Qed.

(** *** The map of the best URL per position *)

Lemma keepBetter_In (k : Z) (url : string) (m : list (Z * string))
  (e : Z * string) :
  In e (keepBetter k url m) -> e = (k, url) \/ In e m.
Proof.
  unfold keepBetter. destruct (Js.map_get Z.eqb k m) as [existing|].
  - destruct (negb (Js.truthy existing) || isBetterUrl url existing); auto.
    apply (JsFacts.map_set_In Z string Z.eqb Zeqb_eq).
  - apply (JsFacts.map_set_In Z string Z.eqb Zeqb_eq).
Qed.

Lemma keepBetter_NoDup (k : Z) (url : string) (m : list (Z * string)) :
  NoDup (map fst m) -> NoDup (map fst (keepBetter k url m)).
Proof.
  intros H. unfold keepBetter. destruct (Js.map_get Z.eqb k m) as [existing|].
  - destruct (negb (Js.truthy existing) || isBetterUrl url existing); auto.
    apply (JsFacts.map_set_NoDup Z string Z.eqb Zeqb_eq), H.
  - apply (JsFacts.map_set_NoDup Z string Z.eqb Zeqb_eq), H.
Qed.

Lemma keepBetter_length (k : Z) (url : string) (m : list (Z * string)) :
  (List.length (keepBetter k url m) <= Datatypes.S (List.length m))%nat.
Proof.
  unfold keepBetter. destruct (Js.map_get Z.eqb k m) as [existing|].
  - destruct (negb (Js.truthy existing) || isBetterUrl url existing);
      [apply JsFacts.map_set_length|lia].
  - apply JsFacts.map_set_length.
Qed.

Section Kept.

(** A loop body that leaves the map alone or records the URL at hand under
    some position. *)
Variable step : list (Z * string) -> string -> list (Z * string).
Hypothesis step_cases :
  forall m url, step m url = m \/ exists k, step m url = keepBetter k url m.

Lemma kept_In (l : list string) (m : list (Z * string)) (e : Z * string) :
  In e (fold_left step l m) -> In e m \/ In (snd e) l.
Proof.
  revert m. induction l as [|url t IH]; intros m; simpl; [auto|].
  intros H. destruct (IH _ H) as [Hin|Hin]; [|auto].
  destruct (step_cases m url) as [E|[k E]]; rewrite E in Hin; [auto|].
  destruct (keepBetter_In _ _ _ _ Hin) as [->|Hm]; auto.
Qed.

Lemma kept_length (l : list string) (m : list (Z * string)) :
  (List.length (fold_left step l m) <= List.length m + List.length l)%nat.
Proof.
  revert m. induction l as [|url t IH]; intros m; simpl; [lia|].
  eapply Nat.le_trans; [apply IH|].
  destruct (step_cases m url) as [E|[k E]]; rewrite E; [lia|].
  pose proof (keepBetter_length k url m). lia.
Qed.

End Kept.

Lemma sequenceStep_cases (expectedCount : Z) (m : list (Z * string))
  (url : string) :
  sequenceStep expectedCount m url = m
  \/ exists k, sequenceStep expectedCount m url = keepBetter k url m.
Proof.
  unfold sequenceStep. destruct (Js.match_seq url) as [[d1 d2]|]; [|auto].
  destruct (_ && _); eauto.
Qed.

Lemma sliceKeep_cases (expectedCount : Z) (m : list (Z * string))
  (url : string) :
  sliceKeep expectedCount m url = m
  \/ exists k, sliceKeep expectedCount m url = keepBetter k url m.
Proof.
  unfold sliceKeep. destruct (Js.match_slice url) as [d|]; [|auto].
  destruct (_ && _); eauto.
Qed.

Lemma collect_In (m : list (Z * string)) (indices : list Z) (u : string) :
  In u (collect m indices) <->
  exists i, In i indices /\ Js.map_get Z.eqb i m = Some u.
Proof.
  unfold collect. rewrite in_flat_map. split.
  - intros [i [Hi Hu]]. exists i. split; [exact Hi|].
    destruct (Js.map_get Z.eqb i m) as [v|]; [|destruct Hu].
    destruct Hu as [->|[]]. reflexivity.
  - intros [i [Hi E]]. exists i. split; [exact Hi|]. rewrite E. left. reflexivity.
Qed.

Lemma collect_length (m : list (Z * string)) (indices : list Z) :
  NoDup indices ->
  (List.length (collect m indices) <= List.length m)%nat.
Proof.
  intros Hnd.
  set (has := fun i => match Js.map_get Z.eqb i m with
                       | Some _ => true | None => false end).
  assert (List.length (collect m indices)
          = List.length (List.filter has indices)) as ->.
  { unfold collect, has. induction indices as [|i t IH]; [reflexivity|].
    inversion Hnd; subst. simpl.
    destruct (Js.map_get Z.eqb i m); simpl; rewrite IH; auto. }
  rewrite <- (length_map fst m). apply NoDup_incl_length.
  - apply NoDup_filter, Hnd.
  - intros i Hi. apply filter_In in Hi as [_ Hi]. unfold has in Hi.
    destruct (Js.map_get Z.eqb i m) as [v|] eqn:E; [|discriminate].
    apply (JsFacts.map_get_In Z string Z.eqb Zeqb_eq) in E.
    apply (in_map fst) in E. exact E.
Qed.

Lemma respectSequentialPattern_In (screenshots : list string)
  (analysis : Decision) (u : string) :
  In u (respectSequentialPattern screenshots analysis) -> In u screenshots.
Proof.
  unfold respectSequentialPattern. intros H.
  apply collect_In in H as [i [_ E]].
  apply (JsFacts.map_get_In Z string Z.eqb Zeqb_eq) in E.
  apply (kept_In _ (sequenceStep_cases _)) in E as [[]|E]. exact E.
Qed.

Lemma respectSequentialPattern_length (screenshots : list string)
  (analysis : Decision) :
  Js.len (respectSequentialPattern screenshots analysis) <= Js.len screenshots.
Proof.
  unfold respectSequentialPattern, Js.len.
  pose proof (collect_length
                (fold_left (sequenceStep (maxScreenshots (recommendation analysis)))
                           screenshots [])
                (Js.range 1 (maxScreenshots (recommendation analysis)))
                (range_NoDup _ _)) as H1.
  pose proof (kept_length _ (sequenceStep_cases
                               (maxScreenshots (recommendation analysis)))
                screenshots []) as H2.
  simpl in H2. lia.
Qed.

Lemma respectSlicePattern_In (screenshots : list string)
  (analysis : Decision) (u : string) :
  In u (respectSlicePattern screenshots analysis) -> In u screenshots.
Proof.
  unfold respectSlicePattern. intros H.
  apply collect_In in H as [i [_ E]].
  apply (JsFacts.map_get_In Z string Z.eqb Zeqb_eq) in E.
  apply (kept_In _ (sliceKeep_cases _)) in E as [[]|E]. exact E.
Qed.

Lemma respectSlicePattern_length (screenshots : list string)
  (analysis : Decision) :
  Js.len (respectSlicePattern screenshots analysis) <= Js.len screenshots.
Proof.
  unfold respectSlicePattern, Js.len.
  pose proof (collect_length
                (fold_left (sliceKeep (maxScreenshots (recommendation analysis)))
                           screenshots [])
                (Js.range 0 (maxScreenshots (recommendation analysis) - 1))
                (range_NoDup _ _)) as H1.
  pose proof (kept_length _ (sliceKeep_cases
                               (maxScreenshots (recommendation analysis)))
                screenshots []) as H2.
  simpl in H2. lia.
Qed.

(** *** Groups and their best URLs *)

Lemma selectBestFromGroup_perm (urls : list string) :
  Permutation (selectBestFromGroup urls) urls.
Proof.
  unfold selectBestFromGroup. destruct urls as [|u [|v t]];
    try apply Permutation_refl; apply JsFacts.sort_perm.
Qed.

Lemma selectBestFromGroup_In (urls : list string) (u : string) :
  In u (selectBestFromGroup urls) <-> In u urls.
Proof.
  split; apply Permutation_in;
    [apply selectBestFromGroup_perm
    |apply Permutation_sym, selectBestFromGroup_perm].
Qed.

Lemma selectBestFromGroup_len (urls : list string) :
  Js.len (selectBestFromGroup urls) = Js.len urls.
Proof.
  unfold Js.len. rewrite (Permutation_length (selectBestFromGroup_perm urls)).
  reflexivity.
Qed.

Lemma takeGroups_Forall (P : list string -> Prop) (targetCount : Z)
  (sortedGroups : list (string * list string)) (result : list (list string)) :
  Forall P result ->
  Forall (fun g => P (selectBestFromGroup (snd g))) sortedGroups ->
  Forall P (takeGroups targetCount sortedGroups result).
Proof.
  revert result. induction sortedGroups as [|[k urls] rest IH];
    intros result Hr Hg; simpl; [exact Hr|].
  inversion Hg as [|? ? Hk Hrest]; subst.
  destruct (targetCount <=? Js.len result); [exact Hr|].
  apply IH; [|exact Hrest].
  apply Forall_app. split; [exact Hr|]. constructor; [exact Hk|constructor].
Qed.

Lemma takeGroups_length (targetCount : Z)
  (sortedGroups : list (string * list string)) (result : list (list string)) :
  Js.len (takeGroups targetCount sortedGroups result)
  <= Js.len result + Js.len sortedGroups.
Proof.
  revert result. induction sortedGroups as [|[k urls] rest IH];
    intros result; simpl.
  - unfold Js.len; simpl; lia.
  - rewrite PatternAnalyzerFacts.len_cons.
    destruct (targetCount <=? Js.len result).
    + pose proof (JsFacts.len_nonneg rest). lia.
    + specialize (IH (result ++ [selectBestFromGroup urls])%list).
      rewrite JsFacts.len_app in IH.
      change (Js.len [selectBestFromGroup urls]) with 1 in IH. lia.
Qed.

Lemma takeGroups_target (targetCount : Z)
  (sortedGroups : list (string * list string)) (result : list (list string)) :
  Js.len result <= Z.max 0 targetCount ->
  Js.len (takeGroups targetCount sortedGroups result) <= Z.max 0 targetCount.
Proof.
  revert result. induction sortedGroups as [|[k urls] rest IH];
    intros result H; simpl; [exact H|].
  destruct (targetCount <=? Js.len result) eqn:E; [exact H|].
  apply Z.leb_gt in E. apply IH. rewrite JsFacts.len_app.
  change (Js.len [selectBestFromGroup urls]) with 1. lia.
Qed.

(** The URLs of the input that share the content identifier [k]. *)
Definition sameContent (k : string) (screenshots : list string) : list string :=
  List.filter (fun url => String.eqb (extractContentIdentifier url) k)
              screenshots.

Lemma groupByIdentifier_spec (screenshots : list string) :
  NoDup (map fst (groupByIdentifier screenshots))
  /\ (forall k urls, In (k, urls) (groupByIdentifier screenshots) ->
        urls <> [] /\ urls = sameContent k screenshots)
  /\ (forall url, In url screenshots ->
        In (extractContentIdentifier url)
           (map fst (groupByIdentifier screenshots))).
Proof.
  exact (JsFacts.grouped_spec string string String.eqb String.eqb_eq
           extractContentIdentifier screenshots).
Qed.

Lemma groupByIdentifier_length (screenshots : list string) :
  Js.len (groupByIdentifier screenshots) <= Js.len screenshots.
Proof.
  unfold Js.len.
  pose proof (JsFacts.grouped_length string string String.eqb
                extractContentIdentifier screenshots) as H.
  unfold JsFacts.grouped in H. unfold groupByIdentifier. lia.
Qed.

(** A whole content group of the input, in some order. *)
Definition whole_group (screenshots urls : list string) : Prop :=
  urls <> [] /\ exists k, Permutation urls (sameContent k screenshots).

Lemma aggressiveDeduplicate_groups (screenshots : list string)
  (analysis : Decision) :
  Forall (whole_group screenshots) (aggressiveDeduplicate screenshots analysis).
Proof.
  unfold aggressiveDeduplicate. apply takeGroups_Forall; [constructor|].
  apply Forall_forall. intros [k urls] Hin. cbn [snd].
  apply JsFacts.sort_in in Hin.
  destruct (groupByIdentifier_spec screenshots) as (_ & Hg & _).
  destruct (Hg k urls Hin) as [Hne E].
  split.
  - intros H0. apply Hne.
    pose proof (Permutation_length (selectBestFromGroup_perm urls)) as Hl.
    rewrite H0 in Hl. destruct urls; [reflexivity|discriminate].
  - exists k. rewrite <- E. apply selectBestFromGroup_perm.
Qed.

Lemma aggressiveDeduplicate_length (screenshots : list string)
  (analysis : Decision) :
  Js.len (aggressiveDeduplicate screenshots analysis) <= Js.len screenshots
  /\ Js.len (aggressiveDeduplicate screenshots analysis)
     <= Z.max 0 (maxScreenshots (recommendation analysis)).
Proof.
  unfold aggressiveDeduplicate. split.
  - eapply Z.le_trans; [apply takeGroups_length|].
    rewrite JsFacts.len_sort. change (Js.len (@nil (list string))) with 0.
    pose proof (groupByIdentifier_length screenshots). lia.
  - apply takeGroups_target. change (Js.len (@nil (list string))) with 0. lia.
Qed.

Lemma whole_group_In (screenshots urls : list string) (u : string) :
  whole_group screenshots urls -> In u urls -> In u screenshots.
Proof.
  intros [_ [k Hp]] Hu. apply (Permutation_in _ Hp) in Hu.
  unfold sameContent in Hu. apply filter_In in Hu as [Hu _]. exact Hu.
Qed.

(** *** The best scores *)

Definition byScoreOf (a b : string * Q) : Z :=
  Double.sgn (Double.sub (snd b) (snd a)).

Lemma filterByQuality_In (screenshots : list string) (analysis : Decision)
  (u : string) :
  In u (filterByQuality screenshots analysis) -> In u screenshots.
Proof.
  unfold filterByQuality. intros H.
  apply in_map_iff in H as [[v q] [<- H]].
  apply JsFacts.slice0_incl, JsFacts.sort_in, in_map_iff in H
    as [w [[= -> _] Hw]].
  exact Hw.
Qed.

Lemma filterByQuality_length (screenshots : list string)
  (analysis : Decision) :
  Js.len (filterByQuality screenshots analysis) <= Js.len screenshots.
Proof.
  unfold filterByQuality. rewrite JsFacts.len_map.
  eapply Z.le_trans; [apply JsFacts.slice0_len_le|].
  rewrite JsFacts.len_sort, JsFacts.len_map. lia.
Qed.

(** *** The diverse set *)

Lemma SimilarityKey_eqb_eq (a b : SimilarityKey) :
  SimilarityKey_eqb a b = true <-> a = b.
Proof.
  destruct a as [[a1 a2] a3], b as [[b1 b2] b3]. unfold SimilarityKey_eqb.
  cbn [fst snd]. rewrite !andb_true_iff, Z.eqb_eq, !Bool.eqb_true_iff.
  split; [intros [[-> ->] ->]; reflexivity|intros [= -> -> ->]; auto].
Qed.

Lemma groupBySimilarity_members (screenshots : list string)
  (g : SimilarityKey * list string) (u : string) :
  In g (groupBySimilarity screenshots) -> In u (snd g) -> In u screenshots.
Proof.
  destruct g as [k urls]. intros Hg Hu.
  destruct (JsFacts.grouped_spec SimilarityKey string SimilarityKey_eqb
              SimilarityKey_eqb_eq calculateSimilarityKey screenshots)
    as (_ & Hs & _).
  destruct (Hs k urls Hg) as [_ E]. cbn [snd] in Hu. rewrite E in Hu.
  unfold JsFacts.members in Hu. apply filter_In in Hu as [Hu _]. exact Hu.
Qed.

(** State of the loop of [selectDiverseSet]: what was taken so far never
    exceeds the target, and comes from the groups. *)
Definition diverse_inv (screenshots : list string) (targetCount : Z)
  (acc : list string * Z) : Prop :=
  (forall u, In u (fst acc) -> In u screenshots)
  /\ Js.len (fst acc) + snd acc <= targetCount
  /\ (snd acc < 0 -> fst acc = []).

Lemma diverseStep_inv (screenshots : list string) (targetCount totalSize : Z)
  (acc : list string * Z) (g : SimilarityKey * list string) :
  (forall u, In u (snd g) -> In u screenshots) ->
  diverse_inv screenshots targetCount acc ->
  diverse_inv screenshots targetCount (diverseStep targetCount totalSize acc g).
Proof.
  intros Hg (H1 & H2 & H3). unfold diverseStep.
  destruct (snd acc <=? 0) eqn:E; [repeat split; assumption|].
  apply Z.leb_gt in E.
  set (groupTarget := Z.max 1 _).
  set (takeCount := Z.min (Z.min groupTarget (snd acc)) (Js.len (snd g))).
  assert (0 <= takeCount <= snd acc) as Ht.
  { unfold takeCount. pose proof (JsFacts.len_nonneg (snd g)).
    unfold groupTarget. lia. }
  split; [|split]; cbn [fst snd].
  - intros u Hu. apply in_app_or in Hu as [Hu|Hu]; [apply H1, Hu|].
    apply JsFacts.slice0_incl in Hu.
    apply (proj1 (selectBestFromGroup_In _ _)) in Hu. apply Hg, Hu.
  - rewrite JsFacts.len_app.
    pose proof (JsFacts.slice0_len takeCount (selectBestFromGroup (snd g))
                  (proj1 Ht)) as Hl.
    lia.
  - lia.
Qed.

Lemma diverse_fold_inv (screenshots : list string) (targetCount totalSize : Z)
  (groups : list (SimilarityKey * list string)) (acc : list string * Z) :
  (forall g u, In g groups -> In u (snd g) -> In u screenshots) ->
  diverse_inv screenshots targetCount acc ->
  diverse_inv screenshots targetCount
    (fold_left (diverseStep targetCount totalSize) groups acc).
Proof.
  revert acc. induction groups as [|g rest IH]; intros acc Hg Hacc; simpl;
    [exact Hacc|].
  apply IH.
  - intros g0 u H0. apply Hg. right. exact H0.
  - apply diverseStep_inv; [|exact Hacc]. intros u. apply Hg. left. reflexivity.
Qed.

Lemma selectDiverseSet_spec (screenshots : list string) (targetCount : Z) :
  (forall u, In u (selectDiverseSet screenshots targetCount) ->
             In u screenshots)
  /\ Js.len (selectDiverseSet screenshots targetCount) <= Js.len screenshots
  /\ Js.len (selectDiverseSet screenshots targetCount) <= Z.max 0 targetCount.
Proof.
  unfold selectDiverseSet.
  destruct (Js.len screenshots <=? targetCount) eqn:E.
  - apply Z.leb_le in E. pose proof (JsFacts.len_nonneg screenshots).
    repeat split; [auto|lia|lia].
  - apply Z.leb_gt in E.
    set (totalSize := fold_left _ _ 0).
    destruct (diverse_fold_inv screenshots targetCount totalSize
                (groupBySimilarity screenshots) ([], targetCount))
      as (H1 & H2 & H3).
    + intros g u. apply groupBySimilarity_members.
    + split; [intros u []|split; [cbn; unfold Js.len; simpl; lia|auto]].
    + set (acc := fold_left (diverseStep targetCount totalSize) _ _) in *.
      pose proof (JsFacts.slice0_len_le targetCount (fst acc)) as Hs.
      pose proof (JsFacts.len_nonneg (fst acc)) as H0.
      pose proof (JsFacts.len_nonneg screenshots) as Hn.
      assert (Js.len (fst acc) <= Z.max 0 targetCount) as Hmax.
      { destruct (Z_lt_le_dec (snd acc) 0) as [Hneg|Hpos].
        - rewrite (H3 Hneg). unfold Js.len; simpl; lia.
        - lia. }
      split; [|split].
      * intros u Hu. apply H1, (JsFacts.slice0_incl _ _ _ Hu).
      * lia.
      * lia.
Qed.

(** *** The result of [filter] as a whole *)

Lemma len_map_entries {A : Type} (f : A -> Entry) (l : list A) :
  Js.len (map f l) = Js.len l.
Proof. apply JsFacts.len_map. Qed.

(** X1.  [filter] never invents a URL and never returns more entries than
    it was given: every URL held by an entry of the result is one of the
    input URLs, and the result is not longer than the input. *)
Theorem filter_keeps_input_urls (screenshots : list string) (p : Platform) :
  (forall e u, In e (filter screenshots p) -> In u (entry_urls e) ->
               In u screenshots)
  /\ Js.len (filter screenshots p) <= Js.len screenshots.
Proof.
  destruct screenshots as [|u0 us]; [split; [intros e u []|cbn; lia]|].
  set (screenshots := u0 :: us).
  unfold filter. fold screenshots.
  change (match screenshots with [] => _ | _ :: _ => ?x end) with x.
  cbv zeta. set (analysis := analyzeCollection screenshots p).
  assert (forall l : list string,
            (forall u, In u l -> In u screenshots) ->
            forall e u, In e (map Url l) -> In u (entry_urls e) ->
                        In u screenshots) as Hurl.
  { intros l Hl e u He Hu. apply in_map_iff in He as [v [<- Hv]].
    destruct Hu as [<-|[]]. auto. }
  destruct (negb (needsFiltering analysis)).
  { split; [apply Hurl; auto|rewrite JsFacts.len_map; lia]. }
  unfold applyStrategy. destruct (strategy analysis).
  - split; [apply Hurl, respectSequentialPattern_In|].
    rewrite JsFacts.len_map. apply respectSequentialPattern_length.
  - split; [apply Hurl, respectSlicePattern_In|].
    rewrite JsFacts.len_map. apply respectSlicePattern_length.
  - split.
    + intros e u He Hu. apply in_map_iff in He as [g [<- Hg]].
      pose proof (aggressiveDeduplicate_groups screenshots analysis) as Hall.
      rewrite Forall_forall in Hall.
      exact (whole_group_In _ _ _ (Hall g Hg) Hu).
    + rewrite JsFacts.len_map. apply aggressiveDeduplicate_length.
  - split; [apply Hurl, filterByQuality_In|].
    rewrite JsFacts.len_map. apply filterByQuality_length.
  - split; [apply Hurl, selectDiverseSet_spec|].
    rewrite JsFacts.len_map. apply selectDiverseSet_spec.
  - split; [apply Hurl; auto|rewrite JsFacts.len_map; lia].
Qed.

(** *** One URL per position, the best one, in the order of the positions *)

Lemma map_get_set_same (k : Z) (v : string) (m : list (Z * string)) :
  Js.map_get Z.eqb k (Js.map_set Z.eqb k v m) = Some v.
Proof.
  induction m as [|[k' v'] t IH]; simpl.
  - rewrite Z.eqb_refl. reflexivity.
  - destruct (k' =? k) eqn:E; simpl; rewrite E; [reflexivity|exact IH].
Qed.

Lemma map_get_set_other (k k0 : Z) (v : string) (m : list (Z * string)) :
  k0 <> k ->
  Js.map_get Z.eqb k0 (Js.map_set Z.eqb k v m) = Js.map_get Z.eqb k0 m.
Proof.
  intros Hne. induction m as [|[k' v'] t IH]; simpl.
  - destruct (Z.eqb_spec k k0); [congruence|reflexivity].
  - destruct (Z.eqb_spec k' k) as [->|Hk]; simpl.
    + destruct (Z.eqb_spec k k0); [congruence|reflexivity].
    + destruct (Z.eqb_spec k' k0); [reflexivity|exact IH].
Qed.

Lemma keepBetter_other (k k0 : Z) (url : string) (m : list (Z * string)) :
  k0 <> k ->
  Js.map_get Z.eqb k0 (keepBetter k url m) = Js.map_get Z.eqb k0 m.
Proof.
  intros Hne. unfold keepBetter.
  destruct (Js.map_get Z.eqb k m) as [existing|].
  - destruct (negb (Js.truthy existing) || isBetterUrl url existing);
      [apply map_get_set_other, Hne|reflexivity].
  - apply map_get_set_other, Hne.
Qed.

(** At its position the map holds, after [keepBetter], the new URL or the
    old one, whichever scores better (the old one on a tie). *)
Lemma keepBetter_same (k : Z) (url : string) (m : list (Z * string)) :
  (forall v, Js.map_get Z.eqb k m = Some v -> Js.truthy v = true) ->
  exists w,
    Js.map_get Z.eqb k (keepBetter k url m) = Some w
    /\ (w = url \/ Js.map_get Z.eqb k m = Some w)
    /\ (score url <= score w)%Q
    /\ (forall v, Js.map_get Z.eqb k m = Some v -> (score v <= score w)%Q).
Proof.
  intros Ht. unfold keepBetter.
  destruct (Js.map_get Z.eqb k m) as [existing|] eqn:E.
  - rewrite (Ht existing eq_refl). cbn [negb orb].
    unfold isBetterUrl. fold (score existing) (score url).
    destruct (Double.ltb (score existing) (score url)) eqn:B.
    + apply DoubleFacts.ltb_true in B. exists url.
      rewrite map_get_set_same. repeat split; auto; [apply Qle_refl|].
      intros v [= <-]. apply Qlt_le_weak, B.
    + exists existing. rewrite E. repeat split; auto.
      * apply Qnot_lt_le. intros H. apply DoubleFacts.ltb_true in H. congruence.
      * intros v [= <-]. apply Qle_refl.
  - exists url. rewrite map_get_set_same. repeat split; auto; [apply Qle_refl|].
    intros v [=].
Qed.

Section BestPerPosition.

(** The URLs that a loop records ([ok]), each under its position. *)
Variable pos : string -> Z.
Variable ok : string -> bool.
Hypothesis ok_truthy : forall u, ok u = true -> Js.truthy u = true.

Definition record (m : list (Z * string)) (url : string) : list (Z * string) :=
  if ok url then keepBetter (pos url) url m else m.

Definition best_inv (seen : list string) (m : list (Z * string)) : Prop :=
  (forall k v, Js.map_get Z.eqb k m = Some v ->
               In v seen /\ ok v = true /\ pos v = k)
  /\ (forall u, In u seen -> ok u = true ->
        exists v, Js.map_get Z.eqb (pos u) m = Some v
                  /\ (score u <= score v)%Q).

Lemma record_inv (seen : list string) (m : list (Z * string)) (url : string) :
  best_inv seen m -> best_inv (seen ++ [url]) (record m url).
Proof.
  intros [Ha Hb]. unfold record. destruct (ok url) eqn:Ok.
  - destruct (keepBetter_same (pos url) url m) as (w & Hw & Hor & Hwu & Hwv).
    { intros v Hv. apply ok_truthy. apply (Ha _ _ Hv). }
    split.
    + intros k v Hv. destruct (Z.eq_dec k (pos url)) as [->|Hne].
      * rewrite Hw in Hv. injection Hv as <-.
        destruct Hor as [->|Hold].
        -- split; [apply in_or_app; right; left; reflexivity|auto].
        -- destruct (Ha _ _ Hold) as (H1 & H2 & H3).
           split; [apply in_or_app; left; exact H1|auto].
      * rewrite keepBetter_other in Hv by exact Hne.
        destruct (Ha _ _ Hv) as (H1 & H2 & H3).
        split; [apply in_or_app; left; exact H1|auto].
    + intros u Hu Hok. apply in_app_or in Hu as [Hu|[<-|[]]].
      * destruct (Hb u Hu Hok) as (v & Hv & Hle).
        destruct (Z.eq_dec (pos u) (pos url)) as [Heq|Hne].
        -- rewrite Heq in *. exists w. split; [exact Hw|].
           eapply Qle_trans; [exact Hle|apply Hwv, Hv].
        -- exists v. rewrite keepBetter_other by exact Hne. auto.
      * exists w. auto.
  - split.
    + intros k v Hv. destruct (Ha _ _ Hv) as (H1 & H2 & H3).
      split; [apply in_or_app; left; exact H1|auto].
    + intros u Hu Hok. apply in_app_or in Hu as [Hu|[<-|[]]]; [auto|congruence].
Qed.

Lemma record_all_inv (l seen : list string) (m : list (Z * string)) :
  best_inv seen m -> best_inv (seen ++ l) (fold_left record l m).
Proof.
  revert seen m. induction l as [|url t IH]; intros seen m H; simpl.
  - rewrite app_nil_r. exact H.
  - replace (seen ++ url :: t)%list with ((seen ++ [url]) ++ t)%list
      by (rewrite <- app_assoc; reflexivity).
    apply IH, record_inv, H.
Qed.

Lemma collect_sorted (m : list (Z * string)) (indices : list Z) :
  StronglySorted Z.lt indices ->
  (forall k v, Js.map_get Z.eqb k m = Some v -> pos v = k) ->
  StronglySorted Z.lt (map pos (collect m indices)).
Proof.
  intros Hs Hm. induction Hs as [|i t Hs IH Hall]; [constructor|].
  change (collect m (i :: t))
    with ((match Js.map_get Z.eqb i m with Some url => [url] | None => [] end)
          ++ collect m t)%list.
  destruct (Js.map_get Z.eqb i m) as [v|] eqn:E; [|exact IH].
  cbn [app map]. constructor; [exact IH|].
  apply Forall_forall. intros j Hj. apply in_map_iff in Hj as [u [<- Hu]].
  apply collect_In in Hu as [i' [Hi' E']].
  rewrite (Hm _ _ E), (Hm _ _ E').
  rewrite Forall_forall in Hall. apply Hall, Hi'.
Qed.

(** What the two loops return: one URL per recorded position between [lo]
    and [hi], in the order of the positions, each one a recorded input URL
    that no recorded input URL of its position outscores. *)
Lemma best_per_position (screenshots : list string) (lo hi : Z) :
  (forall u, ok u = true -> lo <= pos u <= hi) ->
  let kept := collect (fold_left record screenshots []) (Js.range lo hi) in
  StronglySorted Z.lt (map pos kept)
  /\ Forall (fun u => In u screenshots /\ ok u = true) kept
  /\ (forall u, In u screenshots -> ok u = true ->
        exists v, In v kept /\ pos v = pos u /\ (score u <= score v)%Q).
Proof.
  intros Hrange. cbv zeta.
  destruct (record_all_inv screenshots [] []) as [Ha Hb].
  { split; [intros k v [=]|intros u []]. }
  cbn [app] in Ha, Hb.
  split; [|split].
  - apply collect_sorted; [apply JsFacts.range_sorted|].
    intros k v Hv. apply (Ha _ _ Hv).
  - apply Forall_forall. intros u Hu. apply collect_In in Hu as [i [_ E]].
    destruct (Ha _ _ E) as (H1 & H2 & _). auto.
  - intros u Hu Hok. destruct (Hb u Hu Hok) as (v & Hv & Hle).
    exists v. split; [|split; [apply (Ha _ _ Hv)|exact Hle]].
    apply collect_In. exists (pos u). split; [|exact Hv].
    apply JsFacts.range_In, Hrange, Hok.
Qed.

End BestPerPosition.

(** The position [k] of a URL named [k_of_n], and whether the URL belongs
    to the sequence of [expectedCount] screenshots. *)
Definition position (url : string) : Z :=
  match Js.match_seq url with
  | Some (d1, _) => Js.parseInt d1
  | None => 0
  end.

Definition inSequence (expectedCount : Z) (url : string) : bool :=
  match Js.match_seq url with
  | Some (d1, d2) =>
      (Js.parseInt d2 =? expectedCount) && (1 <=? Js.parseInt d1)
      && (Js.parseInt d1 <=? expectedCount)
  | None => false
  end.

Lemma sequenceStep_record (expectedCount : Z) (m : list (Z * string))
  (url : string) :
  sequenceStep expectedCount m url
  = record position (inSequence expectedCount) m url.
Proof.
  unfold sequenceStep, record, inSequence, position.
  destruct (Js.match_seq url) as [[d1 d2]|]; reflexivity.
Qed.

Lemma fold_left_ext {A B : Type} (f g : A -> B -> A) (l : list B) (a : A) :
  (forall x y, f x y = g x y) -> fold_left f l a = fold_left g l a.
Proof.
  intros H. revert a. induction l as [|y t IH]; intros a; simpl; [reflexivity|].
  rewrite H. apply IH.
Qed.

(** X2.  [respectSequentialPattern] returns the URLs of the announced
    sequence in the order of their positions, one per position: every URL
    returned is an input URL named [k_of_n] with [n] the expected count and
    [1 <= k <= n]; the positions increase strictly along the result; and
    every such input URL is represented at its position by a URL whose
    quality score is at least its own. *)
Theorem respectSequentialPattern_in_order (screenshots : list string)
  (analysis : Decision) :
  let expectedCount := maxScreenshots (recommendation analysis) in
  let kept := respectSequentialPattern screenshots analysis in
  StronglySorted Z.lt (map position kept)
  /\ Forall (fun u => In u screenshots /\ inSequence expectedCount u = true)
            kept
  /\ (forall u, In u screenshots -> inSequence expectedCount u = true ->
        exists v, In v kept /\ position v = position u
                  /\ (score u <= score v)%Q).
Proof.
  cbv zeta. unfold respectSequentialPattern.
  rewrite (fold_left_ext _ _ _ _
             (sequenceStep_record (maxScreenshots (recommendation analysis)))).
  apply best_per_position.
  - intros u. unfold inSequence. destruct u; [discriminate|reflexivity].
  - intros u. unfold inSequence, position.
    destruct (Js.match_seq u) as [[d1 d2]|]; [|discriminate].
    rewrite !andb_true_iff, Z.eqb_eq, !Z.leb_le. lia.
Qed.

(** The number [k] of a URL named [Slice_k], and whether it is below
    [expectedCount]. *)
Definition sliceNumber (url : string) : Z :=
  match Js.match_slice url with
  | Some d => Js.parseInt d
  | None => 0
  end.

Definition inSlices (expectedCount : Z) (url : string) : bool :=
  match Js.match_slice url with
  | Some d => (0 <=? Js.parseInt d) && (Js.parseInt d <? expectedCount)
  | None => false
  end.

Lemma sliceKeep_record (expectedCount : Z) (m : list (Z * string))
  (url : string) :
  sliceKeep expectedCount m url
  = record sliceNumber (inSlices expectedCount) m url.
Proof.
  unfold sliceKeep, record, inSlices, sliceNumber.
  destruct (Js.match_slice url) as [d|]; reflexivity.
Qed.

(** X3.  [respectSlicePattern] returns the slices in the order of their
    numbers, one per number: every URL returned is an input URL named
    [Slice_k] with [0 <= k < expectedCount]; the numbers increase strictly
    along the result; and every such input URL is represented at its number
    by a URL whose quality score is at least its own. *)
Theorem respectSlicePattern_in_order (screenshots : list string)
  (analysis : Decision) :
  let expectedCount := maxScreenshots (recommendation analysis) in
  let kept := respectSlicePattern screenshots analysis in
  StronglySorted Z.lt (map sliceNumber kept)
  /\ Forall (fun u => In u screenshots /\ inSlices expectedCount u = true) kept
  /\ (forall u, In u screenshots -> inSlices expectedCount u = true ->
        exists v, In v kept /\ sliceNumber v = sliceNumber u
                  /\ (score u <= score v)%Q).
Proof.
  cbv zeta. unfold respectSlicePattern.
  rewrite (fold_left_ext _ _ _ _
             (sliceKeep_record (maxScreenshots (recommendation analysis)))).
  apply best_per_position.
  - intros u. unfold inSlices. destruct u; [discriminate|reflexivity].
  - intros u. unfold inSlices, sliceNumber.
    destruct (Js.match_slice u) as [d|]; [|discriminate].
    rewrite !andb_true_iff, Z.leb_le, Z.ltb_lt. lia.
Qed.

(** *** The best scores first *)

Lemma byScoreOf_key (a b : string * Q) :
  byScoreOf a b < 0 <-> (- snd a < - snd b)%Q.
Proof.
  unfold byScoreOf. rewrite DoubleFacts.sgn_sub_neg. split; intros H.
  - apply Qopp_lt_compat, H.
  - apply Qopp_lt_compat in H. rewrite !Qopp_involutive in H. exact H.
Qed.

(** X4.  [filterByQuality] keeps the [targetCount] best-scored URLs: for a
    target that is not negative, the result holds min(targetCount, n) URLs
    in the order of decreasing quality score, the input is the result
    together with the URLs dropped, and no dropped URL outscores a kept
    one. *)
Theorem filterByQuality_keeps_best (screenshots : list string)
  (analysis : Decision) :
  let targetCount := maxScreenshots (recommendation analysis) in
  let kept := filterByQuality screenshots analysis in
  0 <= targetCount ->
  Js.len kept = Z.min targetCount (Js.len screenshots)
  /\ StronglySorted (fun u v => (score v <= score u)%Q) kept
  /\ exists dropped,
       Permutation screenshots (kept ++ dropped)
       /\ forall u v, In u kept -> In v dropped -> (score v <= score u)%Q.
Proof.
  cbv zeta. intros Ht. unfold filterByQuality.
  set (targetCount := maxScreenshots (recommendation analysis)) in *.
  set (scored := map (fun url => (url, calculateQualityScore url)) screenshots).
  change (Js.sort _ scored) with (Js.sort byScoreOf scored).
  set (sorted := Js.sort byScoreOf scored).
  assert (Js.slice0 targetCount sorted = firstn (Z.to_nat targetCount) sorted)
    as Hslice.
  { unfold Js.slice0. destruct (targetCount <? 0) eqn:E; [|reflexivity].
    apply Z.ltb_lt in E. lia. }
  assert (forall q, In q sorted -> snd q = score (fst q)) as Hscore.
  { intros q Hq. apply JsFacts.sort_in, in_map_iff in Hq as [u [<- _]].
    reflexivity. }
  assert (StronglySorted (fun x y => (- snd x <= - snd y)%Q) sorted) as Hs.
  { apply (JsFacts.sort_ordered _ byScoreOf (fun q => (- snd q)%Q)
             (fun _ => True)).
    - intros x y _ _ H. apply Qlt_le_weak, byScoreOf_key, H.
    - intros x y _ _. apply byScoreOf_key.
    - apply Forall_forall. auto. }
  assert (forall x y, In x sorted -> In y sorted ->
            (- snd x <= - snd y)%Q -> (score (fst y) <= score (fst x))%Q)
    as Hrel.
  { intros x y Hx Hy H. rewrite <- (Hscore x Hx), <- (Hscore y Hy).
    apply Qopp_le_compat in H. rewrite !Qopp_involutive in H. exact H. }
  rewrite <- (firstn_skipn (Z.to_nat targetCount) sorted) in Hs.
  destruct (JsFacts.sorted_app _ _ _ Hs) as [Hs1 Hs2].
  assert (forall x, In x (firstn (Z.to_nat targetCount) sorted) -> In x sorted)
    as Hin1.
  { intros x Hx. rewrite <- (firstn_skipn (Z.to_nat targetCount) sorted).
    apply in_or_app. left. exact Hx. }
  assert (forall x, In x (skipn (Z.to_nat targetCount) sorted) -> In x sorted)
    as Hin2.
  { intros x Hx. rewrite <- (firstn_skipn (Z.to_nat targetCount) sorted).
    apply in_or_app. right. exact Hx. }
  split; [|split].
  - rewrite JsFacts.len_map, JsFacts.slice0_len by exact Ht.
    unfold sorted. rewrite JsFacts.len_sort. unfold scored.
    rewrite JsFacts.len_map. reflexivity.
  - rewrite Hslice.
    apply (JsFacts.sorted_map fst (fun x y => (- snd x <= - snd y)%Q)); [|exact Hs1].
    intros x y Hx Hy. apply Hrel; auto.
  - exists (map fst (skipn (Z.to_nat targetCount) sorted)). split.
    + rewrite Hslice, <- map_app, firstn_skipn.
      assert (screenshots = map fst scored) as E.
      { unfold scored. rewrite map_map. cbn [fst]. symmetry. apply map_id. }
      rewrite E at 1. apply Permutation_map, Permutation_sym, JsFacts.sort_perm.
    + rewrite Hslice. intros u v Hu Hv.
      apply in_map_iff in Hu as [x [<- Hx]].
      apply in_map_iff in Hv as [y [<- Hy]].
      apply Hrel; auto.
Qed.

(** Six images of six sizes, two of them large and two small: the strategy
    is "quality_filter" and the target 4. *)
Definition mixedSizes : list string :=
  ["a/Home_1242x2688.jpg"; "a/Feed_392x696.jpg"; "a/Chat_1300x1000.jpg";
   "a/Menu_100x100.jpg"; "a/Map_50x50.jpg"; "a/List_500x500.jpg"].

(** X4 at work: six sizes, a target of four. *)
Lemma filterByQuality_keeps_best_witness :
  let analysis := analyzeCollection mixedSizes iPhone in
  let targetCount := maxScreenshots (recommendation analysis) in
  let kept := filterByQuality mixedSizes analysis in
  Js.len kept = Z.min targetCount (Js.len mixedSizes)
  /\ StronglySorted (fun u v => (score v <= score u)%Q) kept
  /\ exists dropped,
       Permutation mixedSizes (kept ++ dropped)
       /\ forall u v, In u kept -> In v dropped -> (score v <= score u)%Q.
Proof.
  apply (filterByQuality_keeps_best mixedSizes
           (analyzeCollection mixedSizes iPhone)).
  vm_compute. discriminate.
Defined.

(** *** Whole groups under the strategy "deduplicate_aggressive" *)

Lemma analyzeCollection_strategy (screenshots : list string) (p : Platform) :
  screenshots <> [] ->
  let a := {| totalCount := Js.len screenshots;
              patterns := identifyPatterns screenshots;
              quality := assessQuality screenshots;
              redundancy := detectRedundancy screenshots;
              platform := p |} in
  strategy (analyzeCollection screenshots p)
  = strategy (determineFilteringStrategy a)
  /\ recommendation (analyzeCollection screenshots p)
     = recommendation (determineFilteringStrategy a)
  /\ needsFiltering (analyzeCollection screenshots p)
     = negb (Strategy_eqb (strategy (determineFilteringStrategy a)) none).
Proof.
  intros Hne. destruct screenshots as [|u us]; [congruence|].
  cbv zeta. repeat split.
Qed.

Lemma aggressive_target (screenshots : list string) (p : Platform) :
  strategy (analyzeCollection screenshots p) = deduplicate_aggressive ->
  3 <= maxScreenshots (recommendation (analyzeCollection screenshots p)).
Proof.
  destruct screenshots as [|u0 us]; [discriminate|].
  set (screenshots := u0 :: us).
  destruct (analyzeCollection_strategy screenshots p) as (-> & -> & _);
    [discriminate|].
  unfold determineFilteringStrategy.
  repeat match goal with
         | |- context [if ?c then _ else _] => destruct c
         end;
    cbn [mkDecision strategy recommendation maxScreenshots];
    try discriminate.
  intros _. lia.
Qed.

(** X5.  Under the strategy "deduplicate_aggressive" the entries of the
    result are arrays, not URLs: [filter] returns, for at most
    [maxScreenshots] content identifiers, the whole group of the input URLs
    with this identifier (in the order of [selectBestFromGroup]). *)
Theorem filter_aggressive_returns_groups (screenshots : list string)
  (p : Platform) :
  strategy (analyzeCollection screenshots p) = deduplicate_aggressive ->
  exists groups,
    filter screenshots p = map Urls groups
    /\ Forall (whole_group screenshots) groups
    /\ Js.len groups
       <= maxScreenshots (recommendation (analyzeCollection screenshots p)).
Proof.
  intros Hs. pose proof (aggressive_target screenshots p Hs) as Ht.
  exists (aggressiveDeduplicate screenshots (analyzeCollection screenshots p)).
  split; [|split].
  - destruct screenshots as [|u0 us]; [discriminate|].
    unfold filter. cbv zeta.
    destruct (analyzeCollection_strategy (u0 :: us) p) as (E1 & _ & E3);
      [discriminate|].
    rewrite E3, <- E1, Hs. cbn [Strategy_eqb negb].
    unfold applyStrategy. rewrite Hs. reflexivity.
  - apply aggressiveDeduplicate_groups.
  - pose proof (aggressiveDeduplicate_length screenshots
                  (analyzeCollection screenshots p)) as [_ H]. lia.
Qed.

(** X5 at work: two versions of one screenshot come back as one array. *)
Lemma filter_aggressive_returns_groups_witness :
  exists groups,
    filter ["a/x_new.jpg"; "a/x_orig.jpg"] iPhone = map Urls groups
    /\ Forall (whole_group ["a/x_new.jpg"; "a/x_orig.jpg"]) groups
    /\ Js.len groups
       <= maxScreenshots
            (recommendation
               (analyzeCollection ["a/x_new.jpg"; "a/x_orig.jpg"] iPhone)).
Proof.
  apply (filter_aggressive_returns_groups ["a/x_new.jpg"; "a/x_orig.jpg"]
           iPhone).
  vm_compute. reflexivity.
Defined.

(** *** The strategy "platform_optimize" *)

Lemma getPlatformLimits_optimal (p : Platform) (a : Analysis) :
  1 <= optimal (getPlatformLimits p a) <= 10.
Proof.
  unfold getPlatformLimits.
  destruct (seq_found (sequential (patterns a))); [|destruct p; cbn; lia].
  destruct ((0 <? seq_expectedCount (sequential (patterns a)))
            && (seq_expectedCount (sequential (patterns a))
                <=? reasonable (baseLimits p))) eqn:E;
    [|destruct p; cbn; lia].
  apply andb_true_iff in E as [E1 E2].
  apply Z.ltb_lt in E1. apply Z.leb_le in E2. cbn [optimal].
  assert (reasonable (baseLimits p) <= 10) by (destruct p; cbn; lia).
  lia.
Qed.

Lemma platform_target (screenshots : list string) (p : Platform) :
  strategy (analyzeCollection screenshots p) = platform_optimize ->
  let targetCount :=
    maxScreenshots (recommendation (analyzeCollection screenshots p)) in
  1 <= targetCount <= 10 /\ targetCount < Js.len screenshots.
Proof.
  destruct screenshots as [|u0 us]; [discriminate|].
  set (screenshots := u0 :: us).
  destruct (analyzeCollection_strategy screenshots p) as (-> & -> & _);
    [discriminate|].
  cbv zeta. unfold determineFilteringStrategy.
  cbn [patterns sequential slice quality_tiers redundancy quality totalCount
       platform].
  repeat match goal with
         | |- context [if ?c then mkDecision _ _ _ _ else _] =>
             destruct c eqn:?
         end;
    cbn [mkDecision strategy recommendation maxScreenshots];
    try discriminate.
  intros _.
  match goal with
  | E : (reasonable (getPlatformLimits p ?a) <? _) = true |- _ =>
      pose proof (PatternAnalyzerFacts.getPlatformLimits_ordered p a);
      pose proof (getPlatformLimits_optimal p a);
      apply Z.ltb_lt in E; lia
  end.
Qed.

Lemma diverse_fold_grows (targetCount totalSize : Z)
  (groups : list (SimilarityKey * list string)) (acc : list string * Z) :
  Js.len (fst acc)
  <= Js.len (fst (fold_left (diverseStep targetCount totalSize) groups acc)).
Proof.
  revert acc. induction groups as [|g rest IH]; intros acc; simpl; [lia|].
  eapply Z.le_trans; [|apply IH].
  unfold diverseStep. destruct (snd acc <=? 0); [lia|].
  cbn [fst]. rewrite JsFacts.len_app.
  pose proof (JsFacts.len_nonneg
                (Js.slice0
                   (Z.min
                      (Z.min
                         (Z.max 1
                            (Double.jsround
                               (Double.mul (Double.of_Z targetCount)
                                  (Double.div (Double.of_Z (Js.len (snd g)))
                                     (Double.of_Z totalSize)))))
                         (snd acc)) (Js.len (snd g)))
                   (selectBestFromGroup (snd g)))). lia.
Qed.

Lemma selectDiverseSet_nonempty (screenshots : list string) (targetCount : Z) :
  1 <= targetCount -> screenshots <> [] ->
  1 <= Js.len (selectDiverseSet screenshots targetCount).
Proof.
  intros Ht Hne. unfold selectDiverseSet.
  destruct (Js.len screenshots <=? targetCount).
  { destruct screenshots; [congruence|].
    rewrite PatternAnalyzerFacts.len_cons.
    pose proof (JsFacts.len_nonneg screenshots). lia. }
  set (totalSize := fold_left _ _ 0).
  destruct (JsFacts.grouped_spec SimilarityKey string SimilarityKey_eqb
              SimilarityKey_eqb_eq calculateSimilarityKey screenshots)
    as (_ & Hs & Hc).
  change (JsFacts.grouped SimilarityKey string SimilarityKey_eqb
            calculateSimilarityKey screenshots)
    with (groupBySimilarity screenshots) in Hs, Hc.
  destruct (groupBySimilarity screenshots) as [|[k urls] rest] eqn:Eg.
  { destruct screenshots as [|u us]; [congruence|].
    destruct (Hc u (or_introl eq_refl)). }
  destruct (Hs k urls (or_introl eq_refl)) as [Hurls _].
  assert (1 <= Js.len urls) as Hl.
  { destruct urls; [congruence|]. rewrite PatternAnalyzerFacts.len_cons.
    pose proof (JsFacts.len_nonneg urls). lia. }
  rewrite JsFacts.slice0_len by lia.
  cbn [fold_left].
  pose proof (diverse_fold_grows targetCount totalSize rest
                (diverseStep targetCount totalSize ([], targetCount) (k, urls)))
    as Hg.
  assert (1 <= Js.len (fst (diverseStep targetCount totalSize
                              ([], targetCount) (k, urls)))) as H1.
  { unfold diverseStep. cbn [fst snd].
    destruct (targetCount <=? 0) eqn:E; [apply Z.leb_le in E; lia|].
    cbn [fst snd app]. rewrite JsFacts.slice0_len by lia.
    rewrite selectBestFromGroup_len. lia. }
  lia.
Qed.

(** X6.  Under the strategy "platform_optimize" the collection is cut down
    but never emptied: the target is between 1 and 10 and below the number
    of input URLs, and [filter] returns between 1 and target URLs, all of
    them input URLs. *)
Theorem filter_platform_optimize (screenshots : list string) (p : Platform) :
  strategy (analyzeCollection screenshots p) = platform_optimize ->
  let targetCount :=
    maxScreenshots (recommendation (analyzeCollection screenshots p)) in
  1 <= targetCount <= 10 /\ targetCount < Js.len screenshots
  /\ exists urls,
       filter screenshots p = map Url urls
       /\ 1 <= Js.len urls <= targetCount
       /\ forall u, In u urls -> In u screenshots.
Proof.
  intros Hs. cbv zeta.
  destruct (platform_target screenshots p Hs) as [Ht Hlt].
  split; [exact Ht|split; [exact Hlt|]].
  exists (selectDiverseSet screenshots
            (maxScreenshots (recommendation (analyzeCollection screenshots p)))).
  destruct (selectDiverseSet_spec screenshots
              (maxScreenshots (recommendation (analyzeCollection screenshots p))))
    as (H1 & _ & H3).
  split; [|split; [split|exact H1]].
  - destruct screenshots as [|u0 us]; [discriminate|].
    unfold filter. cbv zeta.
    destruct (analyzeCollection_strategy (u0 :: us) p) as (E1 & _ & E3);
      [discriminate|].
    rewrite E3, <- E1, Hs. cbn [Strategy_eqb negb].
    unfold applyStrategy. rewrite Hs. reflexivity.
  - apply selectDiverseSet_nonempty; [lia|].
    intros ->. discriminate.
  - lia.
Qed.

(** X6 at work: nine phone screenshots without any pattern. *)
Lemma filter_platform_optimize_witness :
  let screenshots :=
    ["a/a.jpg"; "a/b.jpg"; "a/c.jpg"; "a/d.jpg"; "a/e.jpg"; "a/f.jpg";
     "a/g.jpg"; "a/h.jpg"; "a/i.jpg"] in
  let targetCount :=
    maxScreenshots (recommendation (analyzeCollection screenshots iPhone)) in
  1 <= targetCount <= 10 /\ targetCount < Js.len screenshots
  /\ exists urls,
       filter screenshots iPhone = map Url urls
       /\ 1 <= Js.len urls <= targetCount
       /\ forall u, In u urls -> In u screenshots.
Proof.
  apply (filter_platform_optimize
           ["a/a.jpg"; "a/b.jpg"; "a/c.jpg"; "a/d.jpg"; "a/e.jpg"; "a/f.jpg";
            "a/g.jpg"; "a/h.jpg"; "a/i.jpg"] iPhone).
  vm_compute. reflexivity.
Defined.

(** *** A complete set of slices *)

Lemma set_add_Z_In (x y : Z) (l : list Z) :
  In y (Js.set_add Z.eqb x l) <-> y = x \/ In y l.
Proof.
  induction l as [|z t IH]; simpl.
  - intuition.
  - destruct (Z.eqb_spec z x) as [->|Hne]; simpl.
    + intuition.
    + rewrite IH. intuition.
Qed.

Lemma set_add_Z_NoDup (x : Z) (l : list Z) :
  NoDup l -> NoDup (Js.set_add Z.eqb x l).
Proof.
  induction l as [|z t IH]; simpl; intros H.
  - constructor; [intros []|constructor].
  - inversion H as [|? ? Hnotin Ht]; subst.
    destruct (Z.eqb_spec z x) as [->|Hne]; [exact H|].
    constructor; [|apply IH, Ht].
    rewrite set_add_Z_In. intros [->|Hin]; [congruence|contradiction].
Qed.

(** The slice number that the expression captures in [url]. *)
Definition sliceOf (url : string) (k : Z) : Prop :=
  exists d, Js.match_slice url = Some d /\ Js.parseInt d = k.

Lemma sliceNumbers_spec (urls : list string) :
  forall s,
    NoDup s ->
    NoDup (fold_left sliceStep urls s)
    /\ (forall k, In k (fold_left sliceStep urls s)
                  <-> In k s \/ exists u, In u urls /\ sliceOf u k).
Proof.
  induction urls as [|u t IH]; intros s Hs; cbn [fold_left].
  - split; [exact Hs|]. intros k. split; [auto|].
    intros [H|(u & [] & _)]. exact H.
  - assert (NoDup (sliceStep s u)) as Hs'.
    { unfold sliceStep. destruct (Js.match_slice u); [|exact Hs].
      apply set_add_Z_NoDup, Hs. }
    destruct (IH _ Hs') as [H1 H2]. split; [exact H1|].
    intros k. rewrite H2. unfold sliceStep, sliceOf.
    destruct (Js.match_slice u) as [d|] eqn:E.
    + rewrite set_add_Z_In. split.
      * intros [[->|H]|(v & Hv & Hk)]; [right|left; exact H|right].
        -- exists u. split; [left; reflexivity|]. exists d. auto.
        -- exists v. split; [right; exact Hv|exact Hk].
      * intros [H|(v & [<-|Hv] & (d' & Hd & Hk))]; [auto| |].
        -- rewrite E in Hd. injection Hd as <-. auto.
        -- right. exists v. split; [exact Hv|]. exists d'. auto.
    + split.
      * intros [H|(v & Hv & Hk)]; [auto|].
        right. exists v. split; [right; exact Hv|exact Hk].
      * intros [H|(v & [<-|Hv] & (d' & Hd & Hk))]; [auto| |].
        -- rewrite E in Hd. discriminate.
        -- right. exists v. split; [exact Hv|]. exists d'. auto.
Qed.

Lemma sliceOf_nonneg (u : string) (k : Z) : sliceOf u k -> 0 <= k.
Proof.
  intros (d & Hd & <-). unfold Js.match_slice in Hd.
  apply JsFacts.leftmost_some in Hd as (l & Hl).
  unfold Js.slice_at in Hl.
  destruct (Js.prefix_rest _ l) as [r|]; [|discriminate].
  unfold Js.digits1 in Hl.
  pose proof (JsFacts.span_fst_Forall Js.is_digit r) as Hf.
  destruct (Js.span Js.is_digit r) as [ds rest]. cbn [fst] in Hf.
  destruct (Js.nonempty ds); [|discriminate].
  injection Hl as <-. apply JsFacts.parseInt_from_nonneg; [exact Hf|lia].
Qed.

Lemma fold_max_ge (l : list Z) :
  0 <= fold_right Z.max 0 l /\ forall k, In k l -> k <= fold_right Z.max 0 l.
Proof.
  induction l as [|x t [IH0 IH]]; cbn [fold_right].
  - split; [lia|intros k []].
  - split; [lia|]. intros k [->|Hk]; [lia|]. specialize (IH k Hk). lia.
Qed.

(** A complete set of slices: every number from 0 to the largest one is
    the slice number of some URL. *)
Lemma slice_complete_all (screenshots : list string) :
  let sl := detectSlicePattern screenshots in
  slice_found sl = true -> slice_isComplete sl = true ->
  0 < slice_expectedCount sl
  /\ forall k, 0 <= k < slice_expectedCount sl ->
               exists u, In u screenshots /\ sliceOf u k.
Proof.
  cbv zeta. unfold detectSlicePattern.
  cbn [slice_found slice_isComplete slice_expectedCount].
  set (sliceUrls := List.filter isSliceUrl screenshots).
  destruct (sliceNumbers_spec sliceUrls [] (NoDup_nil _)) as [Hnd Hin].
  fold (sliceNumbers sliceUrls) in Hnd, Hin.
  set (nums := sliceNumbers sliceUrls) in *.
  destruct (fold_max_ge nums) as [Hmax0 Hmax].
  set (mx := fold_right Z.max 0 nums) in *.
  intros Hfound Hcomplete.
  assert (Js.nonempty nums = true) as Hne.
  { destruct sliceUrls as [|u t] eqn:Eu; [discriminate|].
    assert (In u (List.filter isSliceUrl screenshots)) as Hu
        by (fold sliceUrls; rewrite Eu; left; reflexivity).
    apply filter_In in Hu as [_ Hu]. unfold isSliceUrl in Hu.
    destruct (Js.match_slice u) as [d|] eqn:Ed; [|discriminate].
    assert (In (Js.parseInt d) nums) as Hk.
    { apply Hin. right. exists u. split; [left; reflexivity|].
      exists d. auto. }
    destruct nums; [destruct Hk|reflexivity]. }
  rewrite Hne in *.
  assert ((0 <=? mx) = true) as Hle by (apply Z.leb_le; exact Hmax0).
  rewrite Hle in *. apply Z.eqb_eq in Hcomplete.
  split; [lia|]. intros k Hk.
  assert (incl nums (Js.range 0 mx)) as Hincl.
  { intros j Hj. apply JsFacts.range_In. split; [|apply Hmax, Hj].
    apply Hin in Hj as [[]|(u & _ & Hu)]. exact (sliceOf_nonneg _ _ Hu). }
  assert (List.length (Js.range 0 mx) = Z.to_nat (mx + 1)) as Hlen.
  { unfold Js.range. rewrite length_map, length_seq. f_equal. lia. }
  assert (incl (Js.range 0 mx) nums) as Hall.
  { apply NoDup_length_incl; [exact Hnd| |exact Hincl].
    rewrite Hlen. unfold Js.len in Hcomplete. lia. }
  assert (In k nums) as Hkn by (apply Hall, JsFacts.range_In; lia).
  apply Hin in Hkn as [[]|(u & Hu & Hs)].
  exists u. split; [|exact Hs].
  apply filter_In in Hu as [Hu _]. exact Hu.
Qed.

Lemma sorted_same_elements (l1 l2 : list Z) :
  StronglySorted Z.lt l1 -> StronglySorted Z.lt l2 ->
  (forall i, In i l1 <-> In i l2) -> l1 = l2.
Proof.
  intros H1. revert l2. induction H1 as [|x t Ht IH Hx]; intros l2 H2 Hsame.
  - destruct l2 as [|y t2]; [reflexivity|].
    destruct (proj2 (Hsame y) (or_introl eq_refl)).
  - destruct H2 as [|y t2 Ht2 Hy].
    + destruct (proj1 (Hsame x) (or_introl eq_refl)).
    + rewrite Forall_forall in Hx, Hy.
      assert (x = y) as ->.
      { destruct (proj1 (Hsame x) (or_introl eq_refl)) as [->|Hxi];
          [reflexivity|].
        destruct (proj2 (Hsame y) (or_introl eq_refl)) as [->|Hyi];
          [reflexivity|].
        specialize (Hx _ Hyi). specialize (Hy _ Hxi). lia. }
      f_equal. apply IH; [exact Ht2|].
      intros i. split; intros Hi.
      * destruct (proj1 (Hsame i) (or_intror Hi)) as [->|H]; [|exact H].
        specialize (Hx _ Hi). lia.
      * destruct (proj2 (Hsame i) (or_intror Hi)) as [->|H]; [|exact H].
        specialize (Hy _ Hi). lia.
Qed.

Lemma sliceOf_number (u : string) (k : Z) : sliceOf u k -> sliceNumber u = k.
Proof.
  intros (d & Hd & <-). unfold sliceNumber. rewrite Hd. reflexivity.
Qed.

(** X28.  When the analysis settles on the strategy respect_slices, the
    slices of the collection are complete, numbered from 0 to n - 1, and
    [filter] returns exactly n URLs of the input: one for each slice
    number, in the order 0, 1, ..., n - 1. *)
Theorem filter_complete_slices (screenshots : list string) (p : Platform) :
  strategy (analyzeCollection screenshots p) = respect_slices ->
  let n := maxScreenshots (recommendation (analyzeCollection screenshots p)) in
  exists kept,
    filter screenshots p = map Url kept
    /\ 0 < n
    /\ map sliceNumber kept = Js.range 0 (n - 1)
    /\ Js.len kept = n
    /\ Forall (fun u => In u screenshots) kept.
Proof.
  intros Hs. cbv zeta.
  destruct screenshots as [|u0 us]; [discriminate Hs|].
  set (screenshots := u0 :: us) in *.
  destruct (analyzeCollection_strategy screenshots p) as (E1 & E2 & E3);
    [discriminate|].
  cbv zeta in E1, E2, E3.
  unfold filter. fold screenshots.
  change (match screenshots with
          | [] => []
          | _ :: _ =>
              if negb (needsFiltering (analyzeCollection screenshots p))
              then map Url screenshots
              else applyStrategy screenshots (analyzeCollection screenshots p)
          end)
    with (if negb (needsFiltering (analyzeCollection screenshots p))
          then map Url screenshots
          else applyStrategy screenshots (analyzeCollection screenshots p)).
  rewrite E3, <- E1, Hs. cbn [Strategy_eqb negb].
  unfold applyStrategy. rewrite Hs.
  exists (respectSlicePattern screenshots (analyzeCollection screenshots p)).
  split; [reflexivity|].
  (* the decision comes from the slice branch *)
  assert (slice_found (detectSlicePattern screenshots) = true
          /\ slice_isComplete (detectSlicePattern screenshots) = true
          /\ maxScreenshots (recommendation (analyzeCollection screenshots p))
             = slice_expectedCount (detectSlicePattern screenshots))
    as (Hf & Hc & Hn).
  { rewrite E2. rewrite E1 in Hs. revert Hs.
    unfold determineFilteringStrategy.
    cbn [patterns identifyPatterns sequential slice quality_tiers redundancy
         quality totalCount platform].
    destruct (_ && _); [discriminate|].
    destruct (slice_found (detectSlicePattern screenshots)) eqn:Ef;
      cbn [andb]; [destruct (slice_isComplete (detectSlicePattern screenshots))
                     eqn:Ec|].
    - intros _. auto.
    - destruct (hasSignificantRedundancy _); [discriminate|].
      destruct (_ && _); [discriminate|].
      destruct (_ <? _); discriminate.
    - destruct (hasSignificantRedundancy _); [discriminate|].
      destruct (_ && _); [discriminate|].
      destruct (_ <? _); discriminate. }
  destruct (slice_complete_all screenshots Hf Hc) as [Hpos Hall].
  rewrite <- Hn in Hpos, Hall.
  set (n := maxScreenshots (recommendation (analyzeCollection screenshots p)))
    in *.
  set (an := analyzeCollection screenshots p) in *.
  assert (StronglySorted Z.lt (map sliceNumber (respectSlicePattern screenshots an))
          /\ Forall (fun u => In u screenshots /\ inSlices n u = true)
                    (respectSlicePattern screenshots an)
          /\ (forall u, In u screenshots -> inSlices n u = true ->
                exists v, In v (respectSlicePattern screenshots an)
                          /\ sliceNumber v = sliceNumber u
                          /\ (score u <= score v)%Q)) as (Hsorted & Hkept & Hrep).
  { unfold respectSlicePattern. fold n.
    rewrite (fold_left_ext _ _ _ _ (sliceKeep_record n)).
    apply best_per_position.
    - intros u. unfold inSlices. destruct u; [discriminate|reflexivity].
    - intros u. unfold inSlices, sliceNumber.
      destruct (Js.match_slice u) as [d|]; [|discriminate].
      rewrite !andb_true_iff, Z.leb_le, Z.ltb_lt. lia. }
  assert (map sliceNumber (respectSlicePattern screenshots an)
          = Js.range 0 (n - 1)) as Hrange.
  { apply sorted_same_elements;
      [exact Hsorted|apply JsFacts.range_sorted|].
    intros i. rewrite JsFacts.range_In, in_map_iff. split.
    - intros (v & <- & Hv). rewrite Forall_forall in Hkept.
      destruct (Hkept v Hv) as [_ Hok]. unfold inSlices, sliceNumber in *.
      destruct (Js.match_slice v) as [d|]; [|discriminate].
      rewrite !andb_true_iff, Z.leb_le, Z.ltb_lt in Hok. lia.
    - intros Hi. destruct (Hall i) as (u & Hu & Hsl); [lia|].
      destruct (Hrep u Hu) as (v & Hv & Hvn & _).
      + destruct Hsl as (d & Hd & Hk). unfold inSlices. rewrite Hd, Hk.
        rewrite !andb_true_iff, Z.leb_le, Z.ltb_lt. lia.
      + exists v. split; [|exact Hv].
        rewrite Hvn. apply sliceOf_number, Hsl. }
  split; [exact Hpos|]. split; [exact Hrange|]. split.
  - apply (f_equal (@List.length Z)) in Hrange.
    rewrite length_map in Hrange. unfold Js.len. rewrite Hrange.
    unfold Js.range. rewrite length_map, length_seq. lia.
  - apply Forall_forall. intros u Hu. rewrite Forall_forall in Hkept.
    apply (Hkept u Hu).
Qed.

Definition threeSlices : list string :=
  ["a/Slice_1_new.png"; "a/Slice_0.png"; "a/Slice_2.png"; "a/Slice_1.png"].

(** X28 at work: slices 0, 1 and 2, the second one in two versions. *)
Lemma filter_complete_slices_witness :
  let n := maxScreenshots (recommendation (analyzeCollection threeSlices iPad)) in
  exists kept,
    filter threeSlices iPad = map Url kept
    /\ 0 < n
    /\ map sliceNumber kept = Js.range 0 (n - 1)
    /\ Js.len kept = n
    /\ Forall (fun u => In u threeSlices) kept.
Proof.
  apply (filter_complete_slices threeSlices iPad). vm_compute. reflexivity.
Defined.

End SmartFilterFacts.


(** ** Screenshot validator: cache and recommendations *)

Module ScreenshotValidatorFacts.

Import App.
Import ScreenshotValidator.

Lemma issues_include_In (issues : list Issue) (tag : Issue) :
  issues_include issues tag = true <-> In tag issues.
Proof.
  unfold issues_include. rewrite existsb_exists. split.
  - intros [x [Hx E]]. destruct tag, x; try discriminate; exact Hx.
  - intros H. exists tag. split; [exact H|]. destruct tag; reflexivity.
Qed.

(** What the specification promises about the recommendations of a result
    with the given issues and confidence. *)
Definition recommendations_ok (r : ValidationResult) : Prop :=
  ((confidence r < Double.lit (3 # 10))%Q ->
   In force_refresh (recommendations r))
  /\ ((Double.lit (3 # 10) <= confidence r)%Q ->
      (confidence r < Double.lit (7 # 10))%Q ->
      In clear_cache (recommendations r))
  /\ (In excessive_iphone_duplicates (issues r)
      \/ In excessive_ipad_duplicates (issues r) ->
      In rerun_deduplication (recommendations r))
  /\ (In threads_mastodon_mismatch (issues r) ->
      In force_web_scraping (recommendations r))
  /\ (In screenshots_not_accessible (issues r) ->
      In refresh_screenshot_urls (recommendations r))
  /\ (issues r <> [] ->
      ~ In force_refresh (recommendations r) ->
      ~ In clear_cache (recommendations r) ->
      ~ In rerun_deduplication (recommendations r) ->
      ~ In force_web_scraping (recommendations r) ->
      ~ In refresh_screenshot_urls (recommendations r) ->
      In manual_review (recommendations r)).

(** The early return of [_performValidation] when the page is gone. *)
Definition app_removed_result (r : ValidationResult) : Prop :=
  r = {| isValid := false; confidence := 0%Q; issues := [app_not_found];
         recommendations := [app_removed] |}.

Lemma in_snoc {A : Type} (x y : A) (l : list A) :
  In x (l ++ [y])%list <-> In x l \/ x = y.
Proof.
  rewrite in_app_iff. simpl. intuition.
Qed.

Lemma generateRecommendations_ok (valid : bool) (iss : list Issue) (c : Q) :
  recommendations_ok
    {| isValid := valid; confidence := c; issues := iss;
       recommendations := _generateRecommendations iss c |}.
Proof.
  unfold recommendations_ok, _generateRecommendations.
  cbn [confidence issues recommendations].
  generalize (Double.lit (3 # 10)) (Double.lit (7 # 10)). intros t3 t7.
  rewrite <- !issues_include_In.
  destruct (Double.ltb c t3) eqn:E3;
    [apply DoubleFacts.ltb_true in E3
    |assert (~ (c < t3)%Q) as N3
       by (rewrite <- DoubleFacts.ltb_true; congruence)];
  (destruct (Double.ltb c t7) eqn:E7;
    [apply DoubleFacts.ltb_true in E7
    |assert (~ (c < t7)%Q) as N7
       by (rewrite <- DoubleFacts.ltb_true; congruence)]);
  destruct (issues_include iss excessive_iphone_duplicates);
  destruct (issues_include iss excessive_ipad_duplicates);
  destruct (issues_include iss threads_mastodon_mismatch);
  destruct (issues_include iss screenshots_not_accessible);
  destruct iss as [|i0 iss'];
  cbn [orb negb andb Js.nonempty app];
  repeat split; intros;
    try solve [ simpl; tauto
              | discriminate
              | congruence
              | simpl; intuition discriminate
              | match goal with
                | H1 : (?a < ?b)%Q, H2 : (?b <= ?a)%Q |- _ =>
                    destruct (Qlt_not_le _ _ H1 H2)
                | N : ~ (?a < ?b)%Q, H : (?a < ?b)%Q |- _ => destruct (N H)
                end
              | match goal with
                | H : ~ In _ _ |- _ => exfalso; apply H; simpl; tauto
                end ].
Qed.

(** *** Arrays among the URLs *)

Definition is_url (u : Entry) : bool :=
  match u with
  | SmartFilter.Url _ => true
  | SmartFilter.Urls _ => false
  end.

(** The phone and tablet collections hold URLs only. *)
Definition urls_only (a : AppDataOf Entry) : bool :=
  forallb is_url (orEmpty (screenshots a) ++ orEmpty (ipadScreenshots a)).

Lemma urls_only_mapUrls (a : AppData) : urls_only (mapUrls Url a) = true.
Proof.
  unfold urls_only, mapUrls. cbn [screenshots ipadScreenshots].
  apply forallb_forall. intros x Hx.
  apply in_app_or in Hx.
  destruct Hx as [Hx|Hx];
    [destruct (screenshots a)|destruct (ipadScreenshots a)];
    simpl in Hx; try contradiction;
    apply in_map_iff in Hx as (u & <- & _); reflexivity.
Qed.

Lemma some_defined {A : Type} (f : A -> option bool) (l : list A) :
  (forall x, In x l -> f x <> None) -> Js.some f l <> None.
Proof.
  induction l as [|x t IH]; simpl; intros H; [discriminate|].
  destruct (f x) as [[|]|] eqn:E.
  - discriminate.
  - apply IH. intros y Hy. apply H. right. exact Hy.
  - destruct (H x (or_introl eq_refl) E).
Qed.

Lemma forallb_is_url (l : list Entry) (x : Entry) :
  forallb is_url l = true -> In x l -> exists s, x = Url s.
Proof.
  intros H Hx. rewrite forallb_forall in H. specialize (H x Hx).
  destruct x as [s|l0]; [eauto|discriminate].
Qed.

Abbreviation countFold :=
  (fold_left (fun acc url => andThen acc (fun acc => countStep acc url))).

Lemma countFold_None (l : list Entry) : countFold l None = None.
Proof. induction l as [|u t IH]; [reflexivity|exact IH]. Qed.

Lemma countFold_urls (l : list Entry) (acc : list string * Z) :
  forallb is_url l = true -> countFold l (Some acc) <> None.
Proof.
  revert acc. induction l as [|u t IH]; intros acc H; [discriminate|].
  simpl in H. apply andb_true_iff in H as [Hu Ht].
  destruct u as [s|l0]; [|discriminate].
  cbn [fold_left andThen]. unfold countStep.
  destruct (falsy (Url s)); [apply IH; exact Ht|].
  cbn [_extractVisualIdentifier andThen]. apply IH. exact Ht.
Qed.

Lemma countFold_array (l : list Entry) (acc : option (list string * Z)) :
  forallb is_url l = false -> countFold l acc = None.
Proof.
  revert acc. induction l as [|u t IH]; intros acc H; [discriminate|].
  simpl in H. apply andb_false_iff in H.
  destruct u as [s|l0].
  - destruct H as [H|H]; [discriminate|]. cbn [fold_left]. apply IH. exact H.
  - cbn [fold_left].
    replace (andThen acc (fun acc0 => countStep acc0 (Urls l0)))
      with (@None (list string * Z)) by (destruct acc; reflexivity).
    apply countFold_None.
Qed.

Lemma countVisualDuplicates_urls (l : list Entry) :
  forallb is_url l = true -> _countVisualDuplicates l <> None.
Proof.
  intros H. unfold _countVisualDuplicates.
  pose proof (countFold_urls l ([], 0) H) as Hf.
  destruct (countFold l (Some ([], 0))); [discriminate|congruence].
Qed.

Lemma countVisualDuplicates_array (l : list Entry) :
  forallb is_url l = false -> _countVisualDuplicates l = None.
Proof.
  intros H. unfold _countVisualDuplicates.
  rewrite (countFold_array l _ H). reflexivity.
Qed.

Lemma forallb_app_true {A : Type} (f : A -> bool) (l1 l2 : list A) :
  forallb f (l1 ++ l2) = true ->
  forallb f l1 = true /\ forallb f l2 = true.
Proof. rewrite forallb_app. apply andb_true_iff. Qed.

(** [_analyzeScreenshotPatterns] throws exactly when an element of the
    phone or tablet collection is an array: the duplicate count calls
    [replace] on every element. *)
Lemma analyzeScreenshotPatterns_throws (a : AppDataOf Entry) :
  _analyzeScreenshotPatterns a = None <-> urls_only a = false.
Proof.
  unfold urls_only, _analyzeScreenshotPatterns.
  set (phone := orEmpty (screenshots a)).
  set (tablet := orEmpty (ipadScreenshots a)).
  destruct (forallb is_url (phone ++ tablet)) eqn:E.
  - split; [|discriminate]. intros H. exfalso. revert H.
    destruct (Js.some isOldPattern (phone ++ tablet)) as [old|] eqn:E1.
    2:{ exfalso. revert E1. apply some_defined. intros x Hx.
        destruct (forallb_is_url _ x E Hx) as [s ->]. discriminate. }
    cbn [andThen].
    destruct (_detectContentMismatches a phone tablet) as [mm|] eqn:E2.
    2:{ exfalso. revert E2. unfold _detectContentMismatches.
        cbn [knownMismatches fold_left andThen]. unfold mismatchStep.
        destruct (id a) as [i|]; [|discriminate].
        destruct (String.eqb i _); [|discriminate].
        match goal with
        | |- andThen ?m _ = None -> _ =>
            assert (m <> None) as Hm; [|destruct m; [discriminate|congruence]]
        end.
        apply some_defined. intros x Hx.
        destruct (forallb_is_url _ x E Hx) as [s ->].
        apply some_defined. intros pat _. discriminate. }
    cbn [andThen]. unfold _detectExcessiveDuplicates.
    apply forallb_app_true in E as [Ep Et].
    pose proof (countVisualDuplicates_urls phone Ep) as Hp.
    pose proof (countVisualDuplicates_urls tablet Et) as Ht.
    destruct (_countVisualDuplicates phone); [|congruence].
    destruct (_countVisualDuplicates tablet); [|congruence].
    discriminate.
  - split; [reflexivity|]. intros _.
    assert (_detectExcessiveDuplicates phone tablet = None) as Hd.
    { unfold _detectExcessiveDuplicates.
      rewrite forallb_app in E. apply andb_false_iff in E as [E|E].
      - rewrite (countVisualDuplicates_array _ E). reflexivity.
      - rewrite (countVisualDuplicates_array tablet E).
        destruct (_countVisualDuplicates phone); reflexivity. }
    destruct (Js.some isOldPattern (phone ++ tablet)); [|reflexivity].
    cbn [andThen].
    destruct (_detectContentMismatches a phone tablet); [|reflexivity].
    cbn [andThen]. rewrite Hd. reflexivity.
Qed.

(** The issues that [_analyzeScreenshotPatterns] can report. *)
Lemma analyzeScreenshotPatterns_issues (a : AppDataOf Entry)
  (pa : PartialResult) :
  _analyzeScreenshotPatterns a = Some pa ->
  incl (p_issues pa)
       [potentially_stale_urls; threads_mastodon_mismatch;
        excessive_iphone_duplicates; excessive_ipad_duplicates].
Proof.
  unfold _analyzeScreenshotPatterns.
  destruct (Js.some isOldPattern _) as [old|]; [|discriminate].
  cbn [andThen].
  destruct (_detectContentMismatches a _ _) as [mm|] eqn:E2; [|discriminate].
  cbn [andThen].
  destruct (_detectExcessiveDuplicates _ _) as [dd|] eqn:E3; [|discriminate].
  cbn [andThen]. intros [= <-]. cbn [p_issues].
  assert (incl mm [threads_mastodon_mismatch]) as Hm.
  { revert E2. unfold _detectContentMismatches.
    cbn [knownMismatches fold_left andThen]. unfold mismatchStep.
    destruct (id a) as [i|]; [|intros [= <-]; intros x []].
    destruct (String.eqb i _); [|intros [= <-]; intros x []].
    destruct (Js.some _ _) as [[|]|]; cbn [andThen];
      [intros [= <-]|intros [= <-]|discriminate].
    - intros x Hx. exact Hx.
    - intros x []. }
  assert (incl dd [excessive_iphone_duplicates; excessive_ipad_duplicates])
    as Hd.
  { revert E3. unfold _detectExcessiveDuplicates.
    destruct (_countVisualDuplicates _); [|discriminate]. cbn [andThen].
    destruct (_countVisualDuplicates _); [|discriminate]. cbn [andThen].
    intros [= <-].
    destruct (exceeds_40_percent _ _); destruct (exceeds_40_percent _ _);
      intros x Hx; simpl in *; tauto. }
  intros x Hx. apply in_app_or in Hx as [Hx|Hx].
  - apply in_app_or in Hx as [Hx|Hx].
    + destruct old; simpl in Hx |- *; tauto.
    + apply Hm in Hx. simpl in *. tauto.
  - apply Hd in Hx. simpl in *. tauto.
Qed.

Lemma validationFailed_ok : recommendations_ok validationFailed.
Proof.
  unfold recommendations_ok, validationFailed.
  cbn [confidence issues recommendations].
  repeat split; intros;
    try solve [ simpl; tauto
              | simpl in *; intuition discriminate
              | match goal with
                | H : ~ In _ _ |- _ => exfalso; apply H; simpl; tauto
                end ].
  exfalso. vm_compute in H. apply H. reflexivity.
Qed.

Section WithNetwork.

Variable World : Type.
Variable Date_now : World -> Z.
Variable head : Entry -> Z -> World -> bool * World.

Abbreviation State := (ScreenshotValidator.State World).
Abbreviation validate := (validateScreenshots World Date_now head).
Abbreviation perform := (_performValidation World head).

Definition cacheKey (appId country : string) : string :=
  appId ++ "_" ++ country.

(** The page of the app, which [_checkAppPageExists] probes. *)
Definition pageUrl (appId country : string) : string :=
  "https://apps.apple.com/" ++ country ++ "/app/id" ++ appId.

(** The same validator in a later world: the time that passes and the
    network changes between two calls. *)
Definition at_world (st : State) (w : World) : State :=
  {| world := w; validationCache := validationCache World st;
     requests := requests World st |}.

(** The cache entry that a call made in state [st] would read. *)
Definition fresh_entry (key : string) (st : State) : option (CacheEntry) :=
  match cache_get key (validationCache World st) with
  | Some e =>
      if Date_now (world World st) - timestamp e <? maxCacheAge
      then Some e else None
  | None => None
  end.

(** The call finds no live entry and [_performValidation] throws: the
    [catch] of [validateScreenshots] answers. *)
Definition fails_internally (appData : AppDataOf Entry)
  (appId country : string) (st : State) : Prop :=
  fresh_entry (cacheKey appId country) st = None
  /\ fst (perform appData appId country st) = None.

Lemma cache_get_set (key : string) (e : CacheEntry)
  (c : list (string * CacheEntry)) :
  cache_get key (cache_set key e c) = Some e.
Proof.
  induction c as [|[k e'] t IH]; simpl.
  - rewrite String.eqb_refl. reflexivity.
  - destruct (String.eqb k key) eqn:E; simpl; rewrite E; [reflexivity|exact IH].
Qed.

Lemma validate_hit (appData : AppDataOf Entry) (appId country : string)
  (st : State) (e : CacheEntry) :
  fresh_entry (cacheKey appId country) st = Some e ->
  validate appData appId country st = (result e, st).
Proof.
  unfold fresh_entry, validateScreenshots, cacheKey.
  destruct (cache_get _ _) as [c|]; [|discriminate].
  destruct (_ <? maxCacheAge); [|discriminate].
  intros [= ->]. reflexivity.
Qed.

(** Without a live entry the call computes: the result is stored, unless
    [_performValidation] throws. *)
Lemma validate_miss (appData : AppDataOf Entry) (appId country : string)
  (st : State) :
  fresh_entry (cacheKey appId country) st = None ->
  validate appData appId country st =
  let st' := snd (perform appData appId country st) in
  match fst (perform appData appId country st) with
  | Some validation =>
      (validation,
       {| world := world World st';
          validationCache :=
            cache_set (cacheKey appId country)
              {| timestamp := Date_now (world World st');
                 result := validation |}
              (validationCache World st');
          requests := requests World st' |})
  | None => (validationFailed, st')
  end.
Proof.
  unfold fresh_entry, validateScreenshots, cacheKey. cbv zeta.
  destruct (perform appData appId country st) as [[v|] st'] eqn:E;
    cbn [fst snd];
    (destruct (cache_get _ _) as [c|]; [|reflexivity]);
    (destruct (_ <? maxCacheAge); [discriminate|reflexivity]).
Qed.

(** After a call that does not fail internally, the cache holds the
    returned result under the key. *)
Lemma validate_caches_result (appData : AppDataOf Entry)
  (appId country : string) (st : State) :
  ~ fails_internally appData appId country st ->
  exists e,
    cache_get (cacheKey appId country)
      (validationCache World (snd (validate appData appId country st)))
    = Some e
    /\ result e = fst (validate appData appId country st).
Proof.
  intros Hok.
  destruct (fresh_entry (cacheKey appId country) st) as [e|] eqn:E.
  - rewrite (validate_hit _ _ _ _ _ E). simpl.
    exists e. split; [|reflexivity].
    unfold fresh_entry in E.
    destruct (cache_get _ _) as [c|]; [|discriminate].
    destruct (_ <? maxCacheAge); congruence.
  - rewrite (validate_miss _ _ _ _ E). cbv zeta.
    destruct (fst (perform appData appId country st)) as [v|] eqn:Ev.
    + cbn [fst snd validationCache].
      eexists. split; [apply cache_get_set|reflexivity].
    + destruct Hok. split; assumption.
Qed.

Lemma cache_get_set_other (k key : string) (e : CacheEntry)
  (c : list (string * CacheEntry)) :
  k <> key -> cache_get k (cache_set key e c) = cache_get k c.
Proof.
  intros Hne. induction c as [|[k0 e0] t IH]; simpl.
  - destruct (String.eqb_spec key k); [congruence|reflexivity].
  - destruct (String.eqb_spec k0 key) as [->|Hk]; simpl.
    + destruct (String.eqb_spec key k); [congruence|reflexivity].
    + destruct (String.eqb_spec k0 k); [reflexivity|exact IH].
Qed.

Definition result_ok (r : ValidationResult) : Prop :=
  app_removed_result r \/ recommendations_ok r.

(** Every cached result is one that [validateScreenshots] may return. *)
Definition cache_ok (st : State) : Prop :=
  forall k e, cache_get k (validationCache World st) = Some e ->
              result_ok (result e).

Lemma performValidation_ok (appData : AppDataOf Entry)
  (appId country : string) (st : State) (r : ValidationResult) :
  fst (perform appData appId country st) = Some r -> result_ok r.
Proof.
  unfold _performValidation, bind, _checkAppPageExists, axios_head.
  destruct (head _ 5000 (world World st)) as [pageExists w'].
  destruct pageExists; cbn [negb].
  - destruct (_analyzeScreenshotPatterns appData) as [pa|]; [|discriminate].
    destruct (_validateScreenshotUrls World head appData _) as [uv st'].
    intros [= <-]. right. apply generateRecommendations_ok.
  - intros [= <-]. left. reflexivity.
Qed.

Lemma countAccessible_cache (urls : list Entry) (n : Z) (s : State) :
  validationCache World (snd (countAccessible World head urls n s))
  = validationCache World s.
Proof.
  revert n s. induction urls as [|u t IH]; intros n s; [reflexivity|].
  simpl. unfold bind, axios_head.
  destruct (head u 3000 (world World s)) as [ok w1]. rewrite IH. reflexivity.
Qed.

Lemma performValidation_cache (appData : AppDataOf Entry)
  (appId country : string) (st : State) :
  validationCache World (snd (perform appData appId country st))
  = validationCache World st.
Proof.
  unfold _performValidation, bind, _checkAppPageExists, axios_head.
  destruct (head _ 5000 (world World st)) as [pageExists w'].
  destruct pageExists; cbn [negb]; [|reflexivity].
  destruct (_analyzeScreenshotPatterns appData) as [pa|]; [|reflexivity].
  unfold _validateScreenshotUrls.
  destruct (orEmpty (screenshots appData) ++ orEmpty (ipadScreenshots appData))%list
    as [|u0 us]; [reflexivity|].
  set (sample := firstn _ _). clearbody sample.
  set (st1 := {| world := w'; validationCache := validationCache World st;
                 requests := _ |}).
  unfold bind.
  pose proof (countAccessible_cache sample 0 st1) as Hloop.
  destruct (countAccessible World head sample 0 st1) as [n s2]. simpl in Hloop.
  destruct (Double.ltb _ (Double.lit (5 # 10))); [exact Hloop|].
  destruct (Double.ltb _ (Double.lit (8 # 10))); exact Hloop.
Qed.

(** [_performValidation] throws exactly when the page of the app exists
    and an element of the phone or tablet collection is an array; the
    request for the page is then the only one made. *)
Lemma performValidation_throws (appData : AppDataOf Entry)
  (appId country : string) (st : State) :
  fst (perform appData appId country st) = None
  <-> fst (head (Url (pageUrl appId country)) 5000 (world World st)) = true
      /\ urls_only appData = false.
Proof.
  clear Date_now.
  unfold _performValidation, bind, _checkAppPageExists, axios_head.
  fold (pageUrl appId country).
  destruct (head (Url (pageUrl appId country)) 5000 (world World st))
    as [pageExists w'].
  destruct pageExists; cbn [negb fst].
  - rewrite <- analyzeScreenshotPatterns_throws.
    destruct (_analyzeScreenshotPatterns appData) as [pa|].
    + destruct (_validateScreenshotUrls World head appData _) as [uv st'].
      cbn. split; [discriminate|]. intros [_ H]. discriminate.
    + cbn. tauto.
  - cbn. split; [discriminate|]. intros [H _]. discriminate.
Qed.

Lemma performValidation_of_urls (appData : AppDataOf Entry)
  (appId country : string) (st : State) :
  urls_only appData = true -> fst (perform appData appId country st) <> None.
Proof.
  intros Hu H. apply performValidation_throws in H as [_ H]. congruence.
Qed.

Lemma performValidation_thrown (appData : AppDataOf Entry)
  (appId country : string) (st : State) :
  fst (perform appData appId country st) = None ->
  snd (perform appData appId country st)
  = {| world := snd (head (Url (pageUrl appId country)) 5000 (world World st));
       validationCache := validationCache World st;
       requests := Url (pageUrl appId country) :: requests World st |}.
Proof.
  unfold _performValidation, bind, _checkAppPageExists, axios_head.
  fold (pageUrl appId country).
  destruct (head (Url (pageUrl appId country)) 5000 (world World st))
    as [pageExists w'].
  destruct pageExists; cbn [negb fst snd].
  - destruct (_analyzeScreenshotPatterns appData) as [pa|].
    + destruct (_validateScreenshotUrls World head appData _) as [uv st'].
      discriminate.
    + reflexivity.
  - discriminate.
Qed.

(** C7, as amended.  On a validator whose cache holds results of earlier
    calls, the result of every [validateScreenshots] call is either the
    early return for a missing page (confidence 0, issue app_not_found, the
    single recommendation app_removed) or has the promised recommendations:
    force_refresh when confidence < 0.3, clear_cache when
    0.3 <= confidence < 0.7, rerun_deduplication for a duplicate issue,
    force_web_scraping for the mismatch issue, refresh_screenshot_urls for
    the issue screenshots_not_accessible, and manual_review when issues
    remain and none of these was produced.  The cache keeps this property.
    The result may come from the cache, from [_performValidation] or from
    the [catch] of [validateScreenshots]. *)
Theorem validate_recommendations (appData : AppDataOf Entry)
  (appId country : string) (st : State) :
  cache_ok st ->
  let r := fst (validate appData appId country st) in
  (app_removed_result r \/ recommendations_ok r)
  /\ cache_ok (snd (validate appData appId country st)).
Proof.
  intros Hc. cbv zeta.
  destruct (fresh_entry (cacheKey appId country) st) as [e|] eqn:E.
  - rewrite (validate_hit _ _ _ _ _ E). cbn [fst snd].
    split; [|exact Hc].
    unfold fresh_entry in E.
    destruct (cache_get _ _) as [c|] eqn:G; [|discriminate].
    destruct (_ <? maxCacheAge); [|discriminate].
    injection E as ->. exact (Hc _ _ G).
  - rewrite (validate_miss _ _ _ _ E). cbv zeta.
    pose proof (performValidation_ok appData appId country st) as Hok.
    pose proof (performValidation_cache appData appId country st) as Hca.
    destruct (fst (perform appData appId country st)) as [v|]; cbn [fst snd].
    + split; [exact (Hok v eq_refl)|].
      intros k e'. cbn [validationCache].
      destruct (String.eqb_spec k (cacheKey appId country)) as [->|Hne].
      * rewrite cache_get_set. intros [= <-]. exact (Hok v eq_refl).
      * rewrite cache_get_set_other by exact Hne.
        rewrite Hca. apply Hc.
    + split; [right; apply validationFailed_ok|].
      intros k e'. rewrite Hca. apply Hc.
Qed.


(** C10.  On a cache hit the collections passed are ignored: after a first
    call that left the entry [e] under the key, any later call made while
    [Date.now() - e.timestamp < 60000] returns the result of the entry and
    leaves the validator as it was, for every choice of the second call's
    collections.  This result is the result of the first call, and the one
    computed from the first call's collections whenever the first call had
    to compute, unless the first call failed internally (nothing is stored
    then); a first call whose collections hold URLs only never does. *)
Theorem validate_hit_ignores_collections (a1 a2 a2' : AppDataOf Entry)
  (appId country : string) (st : State) (w2 : World) (e : CacheEntry) :
  let c1 := validate a1 appId country st in
  cache_get (cacheKey appId country) (validationCache World (snd c1)) = Some e ->
  Date_now w2 - timestamp e < maxCacheAge ->
  validate a2 appId country (at_world (snd c1) w2)
  = (result e, at_world (snd c1) w2)
  /\ validate a2' appId country (at_world (snd c1) w2)
     = validate a2 appId country (at_world (snd c1) w2)
  /\ (~ fails_internally a1 appId country st ->
      validate a2 appId country (at_world (snd c1) w2)
      = (fst c1, at_world (snd c1) w2)
      /\ (fresh_entry (cacheKey appId country) st = None ->
          fst (perform a1 appId country st) = Some (fst c1)))
  /\ (urls_only a1 = true -> ~ fails_internally a1 appId country st).
Proof.
  cbv zeta. intros Hget Hfresh.
  assert (fresh_entry (cacheKey appId country)
            (at_world (snd (validate a1 appId country st)) w2) = Some e) as Hf.
  { unfold fresh_entry, at_world. cbn [validationCache world].
    rewrite Hget. apply Z.ltb_lt in Hfresh. rewrite Hfresh. reflexivity. }
  rewrite !(validate_hit _ _ _ _ _ Hf).
  split; [reflexivity|split; [reflexivity|split]].
  - intros Hok.
    destruct (validate_caches_result a1 appId country st Hok)
      as [e' [Hget' Hres]].
    rewrite Hget in Hget'. injection Hget' as <-. rewrite Hres.
    split; [reflexivity|].
    intros Hmiss. rewrite (validate_miss _ _ _ _ Hmiss). cbv zeta.
    destruct (fst (perform a1 appId country st)) as [v|] eqn:Ev;
      [reflexivity|].
    destruct Hok. split; assumption.
  - intros Hu [_ H]. exact (performValidation_of_urls _ _ _ _ Hu H).
Qed.

(** C9.  [validateScreenshots] never reads [appletvScreenshots]: two inputs
    with the same id, phone and tablet collections, whatever their Apple TV
    collections, give the same result (isValid, confidence, issues,
    recommendations), issue the same HEAD requests and leave the validator
    in the same state. *)
Theorem validate_ignores_appletv (a1 a2 : AppDataOf Entry)
  (appId country : string) (st : State) :
  id a1 = id a2 ->
  screenshots a1 = screenshots a2 ->
  ipadScreenshots a1 = ipadScreenshots a2 ->
  validate a1 appId country st = validate a2 appId country st.
Proof.
  intros Hid Hs Hi.
  assert (_analyzeScreenshotPatterns a1 = _analyzeScreenshotPatterns a2) as Ha.
  { unfold _analyzeScreenshotPatterns, _detectContentMismatches, mismatchStep.
    rewrite Hid, Hs, Hi. reflexivity. }
  assert (forall s, _validateScreenshotUrls World head a1 s
                    = _validateScreenshotUrls World head a2 s) as Hu.
  { intros s. unfold _validateScreenshotUrls. rewrite Hs, Hi. reflexivity. }
  assert (forall s, perform a1 appId country s = perform a2 appId country s)
    as Hp.
  { intros s. unfold _performValidation, bind.
    destruct (_checkAppPageExists World head appId country s) as [ok s1].
    destruct ok; cbn [negb]; [|reflexivity].
    rewrite Ha. destruct (_analyzeScreenshotPatterns a2); [|reflexivity].
    rewrite Hu. reflexivity. }
  unfold validateScreenshots. rewrite Hp. reflexivity.
Qed.

End WithNetwork.

(** *** Sample worlds: the world is the clock, a request takes 10 ms *)

Definition clock_now (w : Z) : Z := w.

(** The network answers 200 to every request made before [deadline]. *)
Definition head_until (deadline : Z) (url : Entry) (timeout : Z) (w : Z)
  : bool * Z :=
  (w <? deadline, w + 10).

(** The network answers 200 to the requests for a URL that does not hold
    the word gone. *)
Definition head_unless_gone (url : Entry) (timeout : Z) (w : Z) : bool * Z :=
  (match url with
   | SmartFilter.Url s => negb (Js.includes s "gone")
   | SmartFilter.Urls _ => false
   end, w + 10).

Definition sampleApp : AppDataOf Entry :=
  {| id := Some "1";
     screenshots := Some [Url "https://cdn.example/a/Home_392x696.jpg"];
     ipadScreenshots := None;
     appletvScreenshots := None;
     _screenshotExtractionWarning := None;
     _lastError := None |}.

(** A record as [processScreenshots] hands it to the validator when
    [SmartFilter.filter] chose "deduplicate_aggressive": the phone
    collection holds one array of two URLs. *)
Definition filteredApp : AppDataOf Entry :=
  {| id := Some "1";
     screenshots := Some (SmartFilter.filter ["a/x_new.jpg"; "a/x_orig.jpg"]
                            PatternAnalyzer.iPhone);
     ipadScreenshots := Some [];
     appletvScreenshots := Some [];
     _screenshotExtractionWarning := None;
     _lastError := None |}.

(** The property as the specification words it, for a second call that
    follows a first one. *)
Definition served_from_cache {World : Type}
  (c1 c2 : ValidationResult * State World) : Prop :=
  confidence (fst c2) = confidence (fst c1)
  /\ issues (fst c2) = issues (fst c1)
  /\ requests World (snd c2) = requests World (snd c1).


(** A second way for two calls less than 60 seconds apart to differ from
    the specification: the first call fails internally on the array of
    [filteredApp], after the request for the page; nothing is stored, and
    the call made one second later requests the page again. *)
Example validate_twice_after_failure :
  let validate := validateScreenshots Z clock_now (head_until 60000) in
  let c1 := validate filteredApp "1" "us" (fresh Z 0) in
  let c2 := validate filteredApp "1" "us" (at_world Z (snd c1) 1000) in
  screenshots filteredApp = Some [Urls ["a/x_new.jpg"; "a/x_orig.jpg"]]
  /\ fst c1 = validationFailed
  /\ validationCache Z (snd c1) = []
  /\ requests Z (snd c1) = [Url (pageUrl "1" "us")]
  /\ fst c2 = validationFailed
  /\ requests Z (snd c2) = [Url (pageUrl "1" "us"); Url (pageUrl "1" "us")]
  /\ ~ served_from_cache c1 c2.
Proof.
  cbv zeta. unfold served_from_cache.
  repeat split; try (vm_compute; reflexivity).
  intros (_ & _ & H). vm_compute in H. discriminate.
Qed.


(** C10, at work: the second call passes no screenshots at all and is still
    answered with the result computed for [sampleApp]. *)
Lemma validate_hit_ignores_collections_witness :
  let validate := validateScreenshots Z clock_now (head_until 60000) in
  let noShots : AppDataOf Entry :=
    {| id := None; screenshots := None; ipadScreenshots := None;
       appletvScreenshots := None;
       _screenshotExtractionWarning := None;
       _lastError := None |} in
  let c1 := validate sampleApp "1" "us" (fresh Z 0) in
  validate noShots "1" "us" (at_world Z (snd c1) 30000)
  = (fst c1, at_world Z (snd c1) 30000)
  /\ validate filteredApp "1" "us" (at_world Z (snd c1) 30000)
     = validate noShots "1" "us" (at_world Z (snd c1) 30000)
  /\ fst (_performValidation Z (head_until 60000) sampleApp "1" "us"
            (fresh Z 0)) = Some (fst c1).
Proof.
  cbv zeta.
  edestruct (validate_hit_ignores_collections Z clock_now (head_until 60000)
               sampleApp
               {| id := None; screenshots := None; ipadScreenshots := None;
                  appletvScreenshots := None;
                  _screenshotExtractionWarning := None;
                  _lastError := None |}
               filteredApp "1" "us" (fresh Z 0) 30000)
    as (_ & H2 & H3 & H4).
  - vm_compute. reflexivity.
  - vm_compute. reflexivity.
  - destruct (H3 (H4 eq_refl)) as [H5 H6].
    split; [exact H5|]. split; [exact H2|]. apply H6. reflexivity.
Defined.

(** C9 at work: stale markers, a mismatch keyword, duplicates and an array
    that occur only in the Apple TV collection leave the result as it
    is. *)
Lemma validate_ignores_appletv_witness :
  let tv := Some [Url "https://cdn.example/2019/08/mastodon_old.jpg";
                  Url "https://cdn.example/2019/08/mastodon_old.jpg";
                  Urls ["a/x_new.jpg"; "a/x_orig.jpg"]] in
  validateScreenshots Z clock_now (head_until 60000)
    sampleApp "1" "us" (fresh Z 0)
  = validateScreenshots Z clock_now (head_until 60000)
      (with_appletv sampleApp tv) "1" "us" (fresh Z 0).
Proof.
  apply (validate_ignores_appletv Z clock_now (head_until 60000)
           sampleApp
           (with_appletv sampleApp
              (Some [Url "https://cdn.example/2019/08/mastodon_old.jpg";
                     Url "https://cdn.example/2019/08/mastodon_old.jpg";
                     Urls ["a/x_new.jpg"; "a/x_orig.jpg"]]))
           "1" "us" (fresh Z 0)); reflexivity.
Defined.

(** C7, counterexample.  When the page of the app is gone the call returns
    confidence 0 with the single recommendation app_removed: force_refresh
    is absent although the confidence is below 0.3. *)
Lemma validate_missing_page_recommends_app_removed :
  let r := fst (validateScreenshots Z clock_now (head_until 0)
                  sampleApp "1" "us" (fresh Z 0)) in
  (confidence r < Double.lit (3 # 10))%Q
  /\ recommendations r = [app_removed]
  /\ ~ recommendations_ok r.
Proof.
  cbv zeta. split; [vm_compute; reflexivity|].
  split; [vm_compute; reflexivity|].
  intros (H & _).
  assert (In force_refresh [app_removed]) as Hin.
  { apply H. vm_compute. reflexivity. }
  destruct Hin as [E|[]]. discriminate.
Qed.

(** An app with a dated URL, which answers. *)
Definition datedApp : AppDataOf Entry :=
  {| id := Some "2";
     screenshots := Some [Url "https://cdn.example/2019/08/a_392x696.jpg"];
     ipadScreenshots := None;
     appletvScreenshots := None;
     _screenshotExtractionWarning := None;
     _lastError := None |}.

(** An app with three screenshots, one of which does not answer. *)
Definition partlyGoneApp : AppDataOf Entry :=
  {| id := Some "3";
     screenshots := Some [Url "https://cdn.example/a/One_392x696.jpg";
                          Url "https://cdn.example/a/Two_392x696.jpg"];
     ipadScreenshots := Some [Url "https://cdn.example/gone/Pad_1024x768.jpg"];
     appletvScreenshots := None;
     _screenshotExtractionWarning := None;
     _lastError := None |}.

(** The app of the known mismatch, with three sizes of one screenshot that
    carries a keyword of the mismatch; none of them answers. *)
Definition mismatchedApp : AppDataOf Entry :=
  {| id := Some "6446901002";
     screenshots :=
       Some [Url "https://cdn.example/gone/mastodon_392x696.jpg";
             Url "https://cdn.example/gone/mastodon_300x650.jpg";
             Url "https://cdn.example/gone/mastodon_600x1300.jpg"];
     ipadScreenshots := None;
     appletvScreenshots := None;
     _screenshotExtractionWarning := None;
     _lastError := None |}.

(** C7, the amended claim at work: three calls on one validator.  The
    first two leave results of confidence 0.5 (recommendation clear_cache)
    and 0.7 (issue some_screenshots_inaccessible, recommendation
    manual_review) in the cache; the third computes a result of confidence
    below 0.3 with three issues and four recommendations. *)
Lemma validate_recommendations_witness :
  let validate := validateScreenshots Z clock_now head_unless_gone in
  let c1 := validate datedApp "2" "us" (fresh Z 0) in
  let c2 := validate partlyGoneApp "3" "us" (at_world Z (snd c1) 1000) in
  let c3 := validate mismatchedApp "6446901002" "us"
              (at_world Z (snd c2) 2000) in
  (issues (fst c1) = [potentially_stale_urls]
   /\ recommendations (fst c1) = [clear_cache]
   /\ issues (fst c2) = [some_screenshots_inaccessible]
   /\ recommendations (fst c2) = [manual_review]
   /\ List.length (validationCache Z (snd c2)) = 2%nat
   /\ (confidence (fst c3) < Double.lit (3 # 10))%Q
   /\ issues (fst c3)
      = [threads_mastodon_mismatch; excessive_iphone_duplicates;
         screenshots_not_accessible]
   /\ recommendations (fst c3)
      = [force_refresh; rerun_deduplication; force_web_scraping;
         refresh_screenshot_urls])
  /\ (app_removed_result (fst c3) \/ recommendations_ok (fst c3))
  /\ cache_ok Z (snd c3).
Proof.
  cbv zeta. split; [repeat split; vm_compute; reflexivity|].
  apply (validate_recommendations Z clock_now head_unless_gone
           mismatchedApp "6446901002" "us").
  apply (validate_recommendations Z clock_now head_unless_gone
           partlyGoneApp "3" "us"
           (at_world Z (snd (validateScreenshots Z clock_now head_unless_gone
                               datedApp "2" "us" (fresh Z 0))) 1000)).
  apply (validate_recommendations Z clock_now head_unless_gone
           datedApp "2" "us" (fresh Z 0)).
  intros k e H. discriminate H.
Defined.
(** *** The requests of a validation, and what a result can be *)

Section Requests.

Variable World : Type.
Variable Date_now : World -> Z.
Variable head : Entry -> Z -> World -> bool * World.

Abbreviation State := (ScreenshotValidator.State World).
Abbreviation validate := (validateScreenshots World Date_now head).
Abbreviation perform := (_performValidation World head).

(** The elements that [_validateScreenshotUrls] probes: the first three of
    the phone elements followed by the tablet elements. *)
Definition sampleUrls (appData : AppDataOf Entry) : list Entry :=
  firstn 3 (orEmpty (screenshots appData)
            ++ orEmpty (ipadScreenshots appData))%list.

Lemma countAccessible_requests (urls : list Entry) (n : Z) (s : State) :
  requests World (snd (countAccessible World head urls n s))
  = (rev urls ++ requests World s)%list.
Proof.
  revert n s. induction urls as [|u t IH]; intros n s; [reflexivity|].
  simpl. unfold bind, axios_head.
  destruct (head u 3000 (world World s)) as [ok w1]. rewrite IH.
  cbn [requests]. rewrite <- app_assoc. reflexivity.
Qed.

Lemma sample_firstn {A : Type} (l : list A) :
  firstn (Z.to_nat (Z.min 3 (Js.len l))) l = firstn 3 l.
Proof.
  unfold Js.len.
  destruct (Z.min_spec 3 (Z.of_nat (List.length l))) as [[H ->]|[H ->]].
  - reflexivity.
  - rewrite Nat2Z.id, firstn_all. symmetry. apply firstn_all2. lia.
Qed.

Lemma validateScreenshotUrls_requests (appData : AppDataOf Entry)
  (s : State) :
  requests World (snd (_validateScreenshotUrls World head appData s))
  = (rev (sampleUrls appData) ++ requests World s)%list.
Proof.
  unfold _validateScreenshotUrls, sampleUrls.
  destruct (orEmpty (screenshots appData) ++ orEmpty (ipadScreenshots appData))%list
    as [|u0 us] eqn:E; [reflexivity|].
  rewrite sample_firstn. unfold bind.
  pose proof (countAccessible_requests (firstn 3 (u0 :: us)) 0 s) as H.
  destruct (countAccessible World head (firstn 3 (u0 :: us)) 0 s) as [n s2].
  cbn [snd] in H.
  destruct (Double.ltb _ (Double.lit (5 # 10))); [exact H|].
  destruct (Double.ltb _ (Double.lit (8 # 10))); exact H.
Qed.

(** The issues that [_validateScreenshotUrls] can report. *)
Lemma validateScreenshotUrls_issues (appData : AppDataOf Entry) (s : State) :
  incl (p_issues (fst (_validateScreenshotUrls World head appData s)))
       [no_screenshots; screenshots_not_accessible;
        some_screenshots_inaccessible].
Proof.
  unfold _validateScreenshotUrls.
  destruct (orEmpty (screenshots appData) ++ orEmpty (ipadScreenshots appData))%list.
  - intros x Hx. simpl in *. tauto.
  - unfold bind. destruct (countAccessible _ _ _ _ _) as [n s2].
    destruct (Double.ltb _ (Double.lit (5 # 10)));
      [intros x Hx; simpl in *; tauto|].
    destruct (Double.ltb _ (Double.lit (8 # 10)));
      intros x Hx; simpl in *; tauto.
Qed.

(** The three ways for [_performValidation] to end: the page is missing;
    it throws after the request for the page; it computes a result after
    the requests for the page and for the sample. *)
Lemma performValidation_requests (appData : AppDataOf Entry)
  (appId country : string) (st : State) :
  let r := perform appData appId country st in
  (exists v, fst r = Some v /\ issues v = [app_not_found]
             /\ requests World (snd r)
                = Url (pageUrl appId country) :: requests World st)
  \/ (fst r = None
      /\ requests World (snd r)
         = Url (pageUrl appId country) :: requests World st)
  \/ (exists v, fst r = Some v
                /\ ~ In app_not_found (issues v)
                /\ ~ In validation_failed (issues v)
                /\ requests World (snd r)
                   = (rev (sampleUrls appData)
                      ++ Url (pageUrl appId country) :: requests World st)%list).
Proof.
  cbv zeta. unfold _performValidation, bind, _checkAppPageExists, axios_head.
  fold (pageUrl appId country).
  destruct (head (Url (pageUrl appId country)) 5000 (world World st))
    as [pageExists w'].
  destruct pageExists; cbn [negb];
    [|left; eexists; repeat split; reflexivity].
  destruct (_analyzeScreenshotPatterns appData) as [pa|] eqn:Ea;
    [|right; left; split; reflexivity].
  right. right.
  set (st1 := {| world := w'; validationCache := validationCache World st;
                 requests := Url (pageUrl appId country) :: requests World st |}).
  pose proof (validateScreenshotUrls_requests appData st1) as H.
  pose proof (validateScreenshotUrls_issues appData st1) as Hu.
  pose proof (analyzeScreenshotPatterns_issues appData pa Ea) as Hp.
  destruct (_validateScreenshotUrls World head appData st1) as [uv st2] eqn:E.
  cbn [fst snd] in *. eexists. split; [reflexivity|].
  cbn [issues]. split; [|split; [|exact H]].
  - intros Hin. apply in_app_or in Hin as [Hin|Hin];
      [apply Hp in Hin|apply Hu in Hin]; simpl in Hin; intuition discriminate.
  - intros Hin. apply in_app_or in Hin as [Hin|Hin];
      [apply Hp in Hin|apply Hu in Hin]; simpl in Hin; intuition discriminate.
Qed.

(** X10.  A call of [validateScreenshots] issues no HEAD request at all
    (cache hit), or one for the page of the app (page missing, or internal
    failure), or one for the page followed by one for each of the first
    three phone and tablet URLs: at most four requests, and never one for
    an Apple TV URL. *)
Theorem validate_requests (appData : AppDataOf Entry)
  (appId country : string) (st : State) :
  let st' := snd (validate appData appId country st) in
  requests World st' = requests World st
  \/ requests World st' = Url (pageUrl appId country) :: requests World st
  \/ requests World st'
     = (rev (sampleUrls appData)
        ++ Url (pageUrl appId country) :: requests World st)%list.
Proof.
  cbv zeta.
  destruct (fresh_entry World Date_now (cacheKey appId country) st) as [e|] eqn:E.
  - rewrite (validate_hit World Date_now head _ _ _ _ _ E). left. reflexivity.
  - rewrite (validate_miss World Date_now head _ _ _ _ E). cbv zeta.
    destruct (performValidation_requests appData appId country st)
      as [(v & -> & _ & H)|[(-> & H)|(v & -> & _ & _ & H)]];
      cbn [snd requests]; auto.
Qed.

(** No underscore occurs in [s]. *)
Definition no_underscore (s : string) : Prop :=
  forall i, String.get i s <> Some "_"%char.

Lemma no_underscore_tail (c : ascii) (s : string) :
  no_underscore (String c s) -> c <> "_"%char /\ no_underscore s.
Proof.
  intros H. split.
  - intros ->. exact (H 0%nat eq_refl).
  - intros i. exact (H (Datatypes.S i)).
Qed.

(** Keys are concatenations: two calls share a key when their identifiers
    and countries are the same, and, for identifiers without underscore
    (the identifiers of the store are numbers), only then. *)
Lemma cacheKey_inj (appId country appId' country' : string) :
  no_underscore appId -> no_underscore appId' ->
  cacheKey appId country = cacheKey appId' country' ->
  appId = appId' /\ country = country'.
Proof.
  unfold cacheKey. revert appId'.
  induction appId as [|c s IH]; intros [|c' s'] H1 H2; cbn [append].
  - intros [= ->]. split; reflexivity.
  - intros [= <- _]. apply no_underscore_tail in H2 as [H2 _]. congruence.
  - intros [= -> _]. apply no_underscore_tail in H1 as [H1 _]. congruence.
  - intros [= <- E].
    apply no_underscore_tail in H1 as [_ H1].
    apply no_underscore_tail in H2 as [_ H2].
    destruct (IH s' H1 H2 E) as [-> ->]. split; reflexivity.
Qed.

(** X13.  A call changes the cache under its own key only: the entry of
    every other key is the one it was, and so is the entry of every other
    (appId, country) whose identifiers hold no underscore.  Under its own
    key the cache holds the returned result after the call, unless the call
    failed internally: then the result is [validationFailed], a phone or
    tablet collection holds an array, and the cache is as it was. *)
Theorem validate_updates_only_its_key (appData : AppDataOf Entry)
  (appId country : string) (st : State) :
  let c := validate appData appId country st in
  (forall k, k <> cacheKey appId country ->
             cache_get k (validationCache World (snd c))
             = cache_get k (validationCache World st))
  /\ (forall appId' country',
         no_underscore appId -> no_underscore appId' ->
         (appId', country') <> (appId, country) ->
         cache_get (cacheKey appId' country') (validationCache World (snd c))
         = cache_get (cacheKey appId' country') (validationCache World st))
  /\ ((exists e,
          cache_get (cacheKey appId country) (validationCache World (snd c))
          = Some e
          /\ result e = fst c)
      \/ (fails_internally World Date_now head appData appId country st
          /\ urls_only appData = false
          /\ fst c = validationFailed
          /\ validationCache World (snd c) = validationCache World st)).
Proof.
  cbv zeta.
  assert (forall k, k <> cacheKey appId country ->
             cache_get k (validationCache World
                            (snd (validate appData appId country st)))
             = cache_get k (validationCache World st)) as Hother.
  { intros k Hk.
    destruct (fresh_entry World Date_now (cacheKey appId country) st)
      as [e|] eqn:E.
    - rewrite (validate_hit _ _ _ _ _ _ _ _ E). reflexivity.
    - rewrite (validate_miss _ _ _ _ _ _ _ E). cbv zeta.
      pose proof (performValidation_cache World head appData appId country st)
        as Hca.
      destruct (fst (perform appData appId country st)) as [v|];
        cbn [snd validationCache].
      + rewrite cache_get_set_other by exact Hk. rewrite Hca. reflexivity.
      + rewrite Hca. reflexivity. }
  split; [exact Hother|]. split.
  - intros appId' country' H1 H2 Hne. apply Hother. intros Hk.
    apply cacheKey_inj in Hk as [-> ->]; [|assumption|assumption].
    apply Hne. reflexivity.
  - destruct (fresh_entry World Date_now (cacheKey appId country) st)
      as [e|] eqn:E.
    + left. apply validate_caches_result. intros [H _]. congruence.
    + destruct (fst (perform appData appId country st)) as [v|] eqn:Ev.
      * left. apply validate_caches_result. intros [_ H]. congruence.
      * right. split; [split; assumption|].
        split; [apply (performValidation_throws World head) in Ev as [_ Ev];
                exact Ev|].
        rewrite (validate_miss _ _ _ _ _ _ _ E). cbv zeta. rewrite Ev.
        cbn [fst snd]. split; [reflexivity|].
        apply performValidation_cache.
Qed.

(** X14.  [clearCache] empties the cache and touches nothing else; the call
    that follows it, for any app, is computed anew in the world of the call
    (the page of the app is requested), however recent the entry was: its
    result is the one that [_performValidation] returns or, when that
    throws, [validationFailed]. *)
Theorem clearCache_forces_recomputation (appData : AppDataOf Entry)
  (appId country : string) (st : State) :
  let st0 := snd (clearCache World st) in
  (forall k, cache_get k (validationCache World st0) = None)
  /\ world World st0 = world World st
  /\ requests World st0 = requests World st
  /\ fst (validate appData appId country st0)
     = match fst (perform appData appId country st0) with
       | Some validation => validation
       | None => validationFailed
       end
  /\ In (Url (pageUrl appId country))
        (requests World (snd (validate appData appId country st0)))
  /\ requests World (snd (validate appData appId country st0))
     <> requests World st.
Proof.
  cbv zeta.
  set (st0 := snd (clearCache World st)).
  assert (fresh_entry World Date_now (cacheKey appId country) st0 = None) as E
      by reflexivity.
  split; [reflexivity|]. split; [reflexivity|]. split; [reflexivity|].
  rewrite (validate_miss _ _ _ _ _ _ _ E). cbv zeta.
  assert (forall l : list Entry, (l ++ Url (pageUrl appId country)
                                    :: requests World st)%list
                                 <> requests World st) as Hlen.
  { intros l Heq. apply (f_equal (@List.length Entry)) in Heq.
    rewrite length_app in Heq. simpl in Heq. lia. }
  destruct (performValidation_requests appData appId country st0)
    as [(v & -> & _ & H)|[(-> & H)|(v & -> & _ & _ & H)]];
    cbn [fst snd requests]; rewrite H;
    change (requests World st0) with (requests World st);
    (split; [reflexivity|]).
  - split; [left; reflexivity|apply (Hlen [])].
  - split; [left; reflexivity|apply (Hlen [])].
  - split; [apply in_or_app; right; left; reflexivity|apply Hlen].
Qed.

End Requests.

(** Two pairs of one key: an identifier with an underscore. *)
Example cacheKey_shared : cacheKey "1_us" "x" = cacheKey "1" "us_x".
Proof. reflexivity. Qed.

(** *** Confidence and validity of a computed result *)

Definition unit_interval (q : Q) : Prop := (0 <= q)%Q /\ (q <= 1)%Q.

Lemma unit_one : unit_interval 1.
Proof. split; discriminate. Qed.

Lemma unit_lit (q : Q) : unit_interval q -> unit_interval (Double.lit q).
Proof. intros [H0 H1]. apply PatternAnalyzerFacts.lit_unit; assumption. Qed.

Lemma unit_mul (a b : Q) :
  unit_interval a -> unit_interval b -> unit_interval (Double.mul a b).
Proof.
  intros [Ha0 Ha1] [Hb0 Hb1]. unfold Double.mul. split.
  - apply DoubleFacts.round_nonneg. apply Qmult_le_0_compat; assumption.
  - apply (DoubleFacts.round_le_int _ 1); [|lia].
    setoid_replace (inject_Z 1) with (1 * 1)%Q by reflexivity.
    apply Qmult_le_compat_nonneg; split; assumption.
Qed.

Lemma analyzeScreenshotPatterns_confidence (appData : AppDataOf Entry)
  (pa : PartialResult) :
  _analyzeScreenshotPatterns appData = Some pa ->
  (p_issues pa = [] -> p_confidence pa = 1%Q)
  /\ unit_interval (p_confidence pa).
Proof.
  unfold _analyzeScreenshotPatterns.
  destruct (Js.some isOldPattern _) as [old|]; [|discriminate].
  cbn [andThen].
  destruct (_detectContentMismatches _ _ _) as [mismatches|]; [|discriminate].
  cbn [andThen].
  destruct (_detectExcessiveDuplicates _ _) as [duplicates|]; [|discriminate].
  cbn [andThen]. intros [= <-]. cbn [p_issues p_confidence].
  split.
  - intros H. apply app_eq_nil in H as [H Hd]. apply app_eq_nil in H as [Ho Hm].
    rewrite Hd, Hm. destruct old; [discriminate|reflexivity].
  - repeat match goal with
           | |- context [if ?c then _ else _] => destruct c
           end;
      repeat first [apply unit_mul | apply unit_lit | apply unit_one
                   | split; discriminate].
Qed.

Section Computed.

Variable World : Type.
Variable head : Entry -> Z -> World -> bool * World.

Abbreviation State := (ScreenshotValidator.State World).
Abbreviation perform := (_performValidation World head).

Lemma validateScreenshotUrls_confidence (appData : AppDataOf Entry)
  (s : State) :
  let uv := fst (_validateScreenshotUrls World head appData s) in
  (p_issues uv = [] -> p_confidence uv = 1%Q)
  /\ unit_interval (p_confidence uv).
Proof.
  cbv zeta. unfold _validateScreenshotUrls.
  destruct (orEmpty (screenshots appData) ++ orEmpty (ipadScreenshots appData))%list.
  - cbn. split; [discriminate|]. apply unit_lit. split; discriminate.
  - unfold bind. destruct (countAccessible _ _ _ _ _) as [n s2].
    destruct (Double.ltb _ (Double.lit (5 # 10))).
    + cbn. split; [discriminate|].
      apply unit_mul; [apply unit_one|apply unit_lit; split; discriminate].
    + destruct (Double.ltb _ (Double.lit (8 # 10))); cbn.
      * split; [discriminate|].
        apply unit_mul; [apply unit_one|apply unit_lit; split; discriminate].
      * split; [reflexivity|apply unit_one].
Qed.

(** X11.  A result that [_performValidation] computes is valid exactly
    when it reports no issue; a valid result has confidence 1 and no
    recommendation; and the confidence always lies between 0 and 1.
    [_performValidation] computes a result unless a phone or tablet
    collection holds an array. *)
Theorem performValidation_valid_iff_no_issue (appData : AppDataOf Entry)
  (appId country : string) (st : State) :
  match fst (perform appData appId country st) with
  | Some r =>
      (isValid r = true <-> issues r = [])
      /\ (isValid r = true -> (confidence r == 1)%Q /\ recommendations r = [])
      /\ (0 <= confidence r)%Q /\ (confidence r <= 1)%Q
  | None => urls_only appData = false
  end.
Proof.
  pose proof (performValidation_throws World head appData appId country st)
    as Hthrow.
  revert Hthrow.
  unfold _performValidation, bind, _checkAppPageExists, axios_head.
  destruct (head _ 5000 (world World st)) as [pageExists w'].
  destruct pageExists; cbn [negb].
  2:{ intros _. cbn. split; [split; discriminate|]. split; [discriminate|].
      split; discriminate. }
  destruct (_analyzeScreenshotPatterns appData) as [pa|] eqn:Ea.
  2:{ cbn. intros [H _]. apply H. reflexivity. }
  intros _.
  set (st1 := {| world := w'; validationCache := _; requests := _ |}).
  pose proof (validateScreenshotUrls_confidence appData st1) as [Hu1 Hu2].
  destruct (_validateScreenshotUrls World head appData st1) as [uv st2].
  unfold ret.
  cbn [fst snd isValid confidence issues recommendations] in *.
  destruct (analyzeScreenshotPatterns_confidence appData pa Ea) as [Ha1 Ha2].
  assert (unit_interval (Double.mul (Double.mul 1 (p_confidence pa))
                                    (p_confidence uv))) as [Hc0 Hc1].
  { apply unit_mul; [apply unit_mul; [apply unit_one|exact Ha2]|exact Hu2]. }
  assert ((p_issues pa ++ p_issues uv)%list = [] ->
          Double.mul (Double.mul 1 (p_confidence pa)) (p_confidence uv)
          = Double.mul (Double.mul 1 1) 1) as Hone.
  { intros H. apply app_eq_nil in H as [Hp Hv].
    rewrite (Ha1 Hp), (Hu1 Hv). reflexivity. }
  split; [|split; [|split; assumption]].
  - split.
    + intros H. apply andb_true_iff in H as [_ H].
      destruct (p_issues pa ++ p_issues uv)%list; [reflexivity|discriminate].
    + intros H. rewrite (Hone H), H. vm_compute. reflexivity.
  - intros H. apply andb_true_iff in H as [_ H].
    destruct (p_issues pa ++ p_issues uv)%list eqn:E; [|discriminate].
    rewrite (Hone eq_refl). split; vm_compute; reflexivity.
Qed.

(** The two results that [_performValidation] computes for an app without
    phone and tablet screenshots: the page is missing, the page exists. *)
Definition appNotFoundResult : ValidationResult :=
  {| isValid := false; confidence := 0%Q; issues := [app_not_found];
     recommendations := [app_removed] |}.

Definition noScreenshotsResult : ValidationResult :=
  let c := Double.mul (Double.mul 1 1) (Double.lit (3 # 10)) in
  {| isValid := Double.ltb (Double.lit (7 # 10)) c
                && negb (Js.nonempty [no_screenshots]);
     confidence := c;
     issues := [no_screenshots];
     recommendations := _generateRecommendations [no_screenshots] c |}.

Lemma performValidation_no_urls (appData : AppDataOf Entry)
  (appId country : string) (st : State) :
  orEmpty (screenshots appData) = [] ->
  orEmpty (ipadScreenshots appData) = [] ->
  fst (perform appData appId country st)
  = Some (if fst (head (Url (pageUrl appId country)) 5000 (world World st))
          then noScreenshotsResult else appNotFoundResult)
  /\ requests World (snd (perform appData appId country st))
     = Url (pageUrl appId country) :: requests World st.
Proof.
  intros Hs Hi.
  unfold _performValidation, bind, _checkAppPageExists, axios_head.
  fold (pageUrl appId country).
  destruct (head (Url (pageUrl appId country)) 5000 (world World st))
    as [pageExists w'].
  destruct pageExists; cbn [negb fst]; [|split; reflexivity].
  unfold _validateScreenshotUrls, _analyzeScreenshotPatterns,
    _detectContentMismatches, _detectExcessiveDuplicates.
  rewrite Hs, Hi.
  cbn [app Js.some andThen knownMismatches fold_left].
  assert (forall m, mismatchStep appData [] [] m = Some []) as Hid.
  { intros m. unfold mismatchStep. destruct (id appData) as [i0|]; [|reflexivity].
    destruct (String.eqb i0 _); reflexivity. }
  rewrite Hid. split; reflexivity.
Qed.

(** X12.  Without phone and tablet screenshots a result is computed; it is
    never valid and its confidence is below 0.5, whatever the Apple TV
    collection holds: the page is missing (issue app_not_found, confidence
    0) or the only issue is no_screenshots, with confidence 0.3 and the
    recommendation clear_cache.  The page is the only URL probed. *)
Theorem performValidation_without_phone_and_tablet
  (appData : AppDataOf Entry) (appId country : string) (st : State) :
  orEmpty (screenshots appData) = [] ->
  orEmpty (ipadScreenshots appData) = [] ->
  exists r,
    fst (perform appData appId country st) = Some r
    /\ isValid r = false
    /\ (confidence r < Double.lit (5 # 10))%Q
    /\ ((issues r = [app_not_found] /\ recommendations r = [app_removed])
        \/ (issues r = [no_screenshots] /\ recommendations r = [clear_cache]
            /\ (confidence r == Double.lit (3 # 10))%Q))
    /\ requests World (snd (perform appData appId country st))
       = Url (pageUrl appId country) :: requests World st.
Proof.
  intros Hs Hi.
  destruct (performValidation_no_urls appData appId country st Hs Hi)
    as [-> ->].
  eexists. split; [reflexivity|].
  destruct (fst (head (Url (pageUrl appId country)) 5000 (world World st))).
  - split; [vm_compute; reflexivity|]. split; [vm_compute; reflexivity|].
    split; [|reflexivity].
    right. split; [reflexivity|]. split; vm_compute; reflexivity.
  - split; [reflexivity|]. split; [vm_compute; reflexivity|].
    split; [|reflexivity].
    left. split; reflexivity.
Qed.

End Computed.

(** An app that has Apple TV screenshots only. *)
Definition appleTvOnlyApp : AppDataOf Entry :=
  {| id := Some "1";
     screenshots := Some [];
     ipadScreenshots := None;
     appletvScreenshots :=
       Some [Url "https://cdn.example/tv/Home_1920x1080.jpg"];
     _screenshotExtractionWarning := None;
     _lastError := None |}.

(** X12 at work: an app with one Apple TV screenshot, on a new validator. *)
Lemma performValidation_without_phone_and_tablet_witness :
  let perform := _performValidation Z (head_until 60000) in
  exists r,
    fst (perform appleTvOnlyApp "1" "us" (fresh Z 0)) = Some r
    /\ isValid r = false
    /\ (confidence r < Double.lit (5 # 10))%Q
    /\ ((issues r = [app_not_found] /\ recommendations r = [app_removed])
        \/ (issues r = [no_screenshots] /\ recommendations r = [clear_cache]
            /\ (confidence r == Double.lit (3 # 10))%Q))
    /\ requests Z (snd (perform appleTvOnlyApp "1" "us" (fresh Z 0)))
       = Url (pageUrl "1" "us") :: requests Z (fresh Z 0).
Proof.
  exact (performValidation_without_phone_and_tablet Z (head_until 60000)
           appleTvOnlyApp "1" "us" (fresh Z 0) eq_refl eq_refl).
Defined.

End ScreenshotValidatorFacts.

(** ** Screenshot chain: totality and the fallback result *)

Module ScreenshotChainFacts.

Import App.
Import PatternAnalyzer.
Import ScreenshotChain.

Section WithCollaborators.

Variable S : Type.
Variable extractScreenshotsFromWeb : string -> string -> C S WebScreenshots.
Variable validateScreenshots :
  Processed -> string -> string -> C S ScreenshotValidator.ValidationResult.
Variable deduplicate : list string -> Platform -> C S (list string).
Variable smartFilter : list string -> Platform -> C S (list SmartFilter.Entry).
Variable delay : Z -> C S unit.

Abbreviation process := (processScreenshots S deduplicate smartFilter).
Abbreviation tryApi :=
  (tryItunesApi S validateScreenshots deduplicate smartFilter).
Abbreviation tryWeb :=
  (tryWebScraping S extractScreenshotsFromWeb validateScreenshots
     deduplicate smartFilter).
Abbreviation fallback := (createFallbackResult S deduplicate smartFilter).
Abbreviation loop :=
  (scrapeLoop S extractScreenshotsFromWeb validateScreenshots deduplicate
     smartFilter delay).
Abbreviation run :=
  (extract S extractScreenshotsFromWeb validateScreenshots deduplicate
     smartFilter delay).

(** A computation that returns normally from every state. *)
Definition returns {A : Type} (m : C S A) : Prop :=
  forall s, exists a s', m s = (inr a, s').

Lemma try_catch_returns {A : Type} (m : C S A) (h : Exn -> C S A) :
  (forall e, returns (h e)) -> returns (try_catch S m h).
Proof.
  intros Hh s. unfold try_catch.
  destruct (m s) as [[e|a] s'].
  - apply Hh.
  - eauto.
Qed.

Lemma ret_returns {A : Type} (a : A) : returns (ret S a).
Proof. intros s. unfold ret. eauto. Qed.

Lemma tryItunesApi_returns (appData : AppData) (appId country : string)
  (skip : bool) : returns (tryApi appData appId country skip).
Proof. apply try_catch_returns. intros e. apply ret_returns. Qed.

Lemma tryWebScraping_returns (appData : AppData) (appId country : string)
  (attempt : Z) (skip : bool) :
  returns (tryWeb appData appId country attempt skip).
Proof. apply try_catch_returns. intros e. apply ret_returns. Qed.

Lemma createFallbackResult_returns (appData : AppData) (lastError : option Exn) :
  returns (fallback appData lastError).
Proof. apply try_catch_returns. intros e. apply ret_returns. Qed.

Lemma scrapeLoop_returns (appData : AppData) (appId country : string)
  (opts : Options) (remaining : nat) (attempt : Z) (lastError : option Exn) :
  returns (loop appData appId country opts remaining attempt lastError).
Proof.
  revert attempt lastError.
  induction remaining as [|n IH]; intros attempt lastError s.
  - apply createFallbackResult_returns.
  - cbn [scrapeLoop].
    match goal with
    | |- context [try_catch S ?b ?h s] =>
        destruct (try_catch_returns b h (fun e => ret_returns _) s)
          as (x & s' & E); rewrite E
    end.
    destruct x as [data|lastError']; [eauto|apply IH].
Qed.

Lemma extract_returns (appData : AppData) (appId country : string)
  (opts : Options) : returns (run appData appId country opts).
Proof.
  intros s. unfold extract.
  destruct (forceRefresh opts); cbn [negb]; [apply scrapeLoop_returns|].
  unfold bind.
  destruct (tryItunesApi_returns appData appId country (skipValidation opts) s)
    as (r & s' & E). rewrite E.
  destruct r as [data|reason error].
  - apply ret_returns.
  - apply scrapeLoop_returns.
Qed.








(** C3.  An app whose only screenshots are Apple TV ones is turned down by
    [tryItunesApi] with the reason "no_screenshots_in_api", validation
    skipped or not, before any collaborator is called. *)
Theorem tryItunesApi_rejects_tv_only (tv : list string)
  (appId country : string) (skipValidation : bool) (s : S) :
  tryItunesApi S validateScreenshots deduplicate smartFilter
    {| id := Some appId;
       screenshots := Some [];
       ipadScreenshots := Some [];
       appletvScreenshots := Some tv;
       _screenshotExtractionWarning := None;
       _lastError := None |}
    appId country skipValidation s
  = (inr (Failure no_screenshots_in_api None), s).
Proof. reflexivity. Qed.

End WithCollaborators.

(** *** Sample collaborators over a state that counts the scrape attempts *)

Definition noWeb (appId country : string) : C nat WebScreenshots :=
  fun n => (inr {| web_screenshots := []; web_ipadScreenshots := [];
                   web_appletvScreenshots := [] |}, Datatypes.S n).

Definition tvWeb (appId country : string) : C nat WebScreenshots :=
  fun n => (inr {| web_screenshots := []; web_ipadScreenshots := [];
                   web_appletvScreenshots := ["https://cdn.example/tv/1.jpg"] |},
            Datatypes.S n).

Definition failingValidator (a : Processed) (appId country : string)
  : C nat ScreenshotValidator.ValidationResult :=
  fun n => (inl "validator down", n).

Definition keepAll (urls : list string) (p : Platform) : C nat (list string) :=
  fun n => (inr urls, n).

(** A filter that keeps every URL, as [SmartFilter.filter] does under the
    strategy "none". *)
Definition keepAsUrls (urls : list string) (p : Platform)
  : C nat (list SmartFilter.Entry) :=
  fun n => (inr (map SmartFilter.Url urls), n).

Definition noDelay (ms : Z) : C nat unit := fun n => (inr tt, n).

Definition emptyApp : AppData :=
  {| id := Some "1"; screenshots := None; ipadScreenshots := Some [];
     appletvScreenshots := None; _screenshotExtractionWarning := None;
     _lastError := None |}.


Definition tvOnlyApp : AppData :=
  {| id := Some "1"; screenshots := Some []; ipadScreenshots := Some [];
     appletvScreenshots := Some ["https://cdn.example/tv/1.jpg"];
     _screenshotExtractionWarning := None; _lastError := None |}.

(** End to end: with validation skipped and a product page that yields
    nothing, an app whose primary record holds an Apple TV screenshot comes
    back after two scrape attempts, marked as a failed extraction. *)
Lemma extract_tv_only_falls_back :
  exists r,
    extract nat noWeb failingValidator keepAll keepAsUrls noDelay tvOnlyApp
      "1" "us"
      {| forceRefresh := false; skipValidation := true; maxRetries := 2 |}
      0%nat = (inr r, 2%nat)
    /\ appletvScreenshots r
       = Some [SmartFilter.Url "https://cdn.example/tv/1.jpg"]
    /\ _screenshotExtractionWarning r
       = Some "Screenshot extraction failed, using available data".
Proof. eexists. repeat split. Qed.

(** The sibling path counts Apple TV screenshots: scraped data holding only
    Apple TV URLs is accepted by [tryWebScraping]. *)
Lemma tryWebScraping_accepts_tv_only :
  exists data,
    tryWebScraping nat tvWeb failingValidator keepAll keepAsUrls
      emptyApp "1" "us" 1 true 0%nat = (inr (Success data), 1%nat)
    /\ appletvScreenshots data
       = Some [SmartFilter.Url "https://cdn.example/tv/1.jpg"].
Proof. eexists. split; reflexivity. Qed.

(** *** The retry schedule of [extract] *)

(** What a run does to the outside world, as far as the retry loop is
    concerned: a request for the product page, a pause. *)
Inductive Event :=
| Scraped
| Waited (ms : Z).

(** The events of [k] consecutive attempts that start with attempt number
    [attempt]: a pause of [1000 * 2^(attempt - 1)] ms after each attempt
    but the last. *)
Fixpoint scheduleFrom (attempt : Z) (k : nat) : list Event :=
  match k with
  | O => []
  | Datatypes.S k' =>
      Scraped ::
      match k' with
      | O => []
      | Datatypes.S _ =>
          Waited (1000 * 2 ^ (attempt - 1)) :: scheduleFrom (attempt + 1) k'
      end
  end.

Definition schedule (k : nat) : list Event := scheduleFrom 1 k.

Section Schedule.

Variable S : Type.
Variable extractScreenshotsFromWeb : string -> string -> C S WebScreenshots.
Variable validateScreenshots :
  Processed -> string -> string -> C S ScreenshotValidator.ValidationResult.
Variable deduplicate : list string -> Platform -> C S (list string).
Variable smartFilter : list string -> Platform -> C S (list SmartFilter.Entry).
Variable delay : Z -> C S unit.

Abbreviation process := (processScreenshots S deduplicate smartFilter).
Abbreviation tryApi :=
  (tryItunesApi S validateScreenshots deduplicate smartFilter).
Abbreviation tryWeb :=
  (tryWebScraping S extractScreenshotsFromWeb validateScreenshots deduplicate
     smartFilter).
Abbreviation fallback := (createFallbackResult S deduplicate smartFilter).
Abbreviation loop :=
  (scrapeLoop S extractScreenshotsFromWeb validateScreenshots deduplicate
     smartFilter delay).
Abbreviation run :=
  (extract S extractScreenshotsFromWeb validateScreenshots deduplicate
     smartFilter delay).

(** The state records the events, oldest first. *)
Variable log : S -> list Event.

(** [m] adds the events [tr] to the log, whether it returns or throws. *)
Definition emits {A : Type} (tr : list Event) (m : C S A) : Prop :=
  forall s, log (snd (m s)) = (log s ++ tr)%list.

Hypothesis scrape_logged :
  forall appId country, emits [Scraped] (extractScreenshotsFromWeb appId country).
Hypothesis delay_logged : forall ms, emits [Waited ms] (delay ms).
Hypothesis validate_silent :
  forall a appId country, emits [] (validateScreenshots a appId country).
Hypothesis deduplicate_silent : forall urls p, emits [] (deduplicate urls p).
Hypothesis smartFilter_silent : forall urls p, emits [] (smartFilter urls p).

Lemma emits_ret {A : Type} (a : A) : emits [] (ret S a).
Proof. intros s. cbn. rewrite app_nil_r. reflexivity. Qed.

Lemma silent_bind {A B : Type} (m : C S A) (f : A -> C S B) :
  emits [] m -> (forall a, emits [] (f a)) -> emits [] (bind S m f).
Proof.
  intros Hm Hf s. unfold bind. specialize (Hm s).
  destruct (m s) as [[e|a] s1]; cbn [snd] in *.
  - exact Hm.
  - rewrite (Hf a s1), Hm, !app_nil_r. reflexivity.
Qed.

Lemma emits_try_catch {A : Type} (tr : list Event) (m : C S A)
  (h : Exn -> C S A) :
  emits tr m -> (forall e, emits [] (h e)) -> emits tr (try_catch S m h).
Proof.
  intros Hm Hh s. unfold try_catch. specialize (Hm s).
  destruct (m s) as [[e|a] s1]; cbn [snd] in *.
  - rewrite (Hh e s1), Hm, app_nil_r. reflexivity.
  - exact Hm.
Qed.

Lemma after_bind {A B : Type} (tr : list Event) (m : C S A)
  (f : A -> C S B) :
  emits tr m -> (forall a, emits [] (f a)) -> emits tr (bind S m f).
Proof.
  intros Hm Hf s. unfold bind. specialize (Hm s).
  destruct (m s) as [[e|a] s1]; cbn [snd] in *.
  - exact Hm.
  - rewrite (Hf a s1), Hm, app_nil_r. reflexivity.
Qed.

Lemma whenNonEmpty_silent {U : Type}
  (f : list string -> Platform -> C S (list U))
  (xs : list string) (p : Platform) :
  (forall urls q, emits [] (f urls q)) -> emits [] (whenNonEmpty S f xs p).
Proof. intros Hf. destruct xs; [apply emits_ret|apply Hf]. Qed.

Lemma processScreenshots_silent (appData : AppData) : emits [] (process appData).
Proof.
  unfold processScreenshots.
  repeat (apply silent_bind;
          [apply whenNonEmpty_silent; assumption|intros ?]).
  apply emits_ret.
Qed.

Lemma tryItunesApi_silent (appData : AppData) (appId country : string)
  (skip : bool) : emits [] (tryApi appData appId country skip).
Proof.
  unfold tryItunesApi.
  apply emits_try_catch; [|intros e; apply emits_ret].
  destruct (_ && _); [apply emits_ret|].
  apply silent_bind.
  - destruct (negb skip); [|apply emits_ret].
    apply silent_bind; [apply validate_silent|intros v; apply emits_ret].
  - intros valid. destruct (negb valid); [apply emits_ret|].
    apply silent_bind; [apply processScreenshots_silent|].
    intros d. apply emits_ret.
Qed.

Lemma tryWebScraping_scrapes_once (appData : AppData) (appId country : string)
  (attempt : Z) (skip : bool) :
  emits [Scraped] (tryWeb appData appId country attempt skip).
Proof.
  unfold tryWebScraping.
  apply emits_try_catch; [|intros e; apply emits_ret].
  apply after_bind; [apply scrape_logged|].
  intros w. destruct (_ =? 0); [apply emits_ret|].
  apply silent_bind; [apply processScreenshots_silent|].
  intros processed. apply silent_bind.
  - destruct (negb skip); [|apply emits_ret].
    apply silent_bind; [apply validate_silent|intros v; apply emits_ret].
  - intros rejected. destruct rejected; apply emits_ret.
Qed.

Lemma createFallbackResult_silent (appData : AppData) (lastError : option Exn) :
  emits [] (fallback appData lastError).
Proof.
  unfold createFallbackResult.
  apply emits_try_catch; [apply processScreenshots_silent|].
  intros e. apply emits_ret.
Qed.

Lemma scheduleFrom_step (attempt : Z) (k : nat) :
  (1 <= k)%nat ->
  scheduleFrom attempt (Datatypes.S k)
  = Scraped :: Waited (1000 * 2 ^ (attempt - 1)) :: scheduleFrom (attempt + 1) k.
Proof. destruct k; [lia|reflexivity]. Qed.

Lemma scrapeLoop_schedule (appData : AppData) (appId country : string)
  (opts : Options) (remaining : nat) :
  forall (attempt : Z) (lastError : option Exn) (s : S),
    (remaining = 0)%nat \/ attempt + Z.of_nat remaining = maxRetries opts + 1 ->
    exists k,
      (k <= remaining)%nat /\ ((1 <= remaining)%nat -> (1 <= k)%nat)
      /\ log (snd (loop appData appId country opts remaining attempt
                     lastError s))
         = (log s ++ scheduleFrom attempt k)%list.
Proof.
  induction remaining as [|n IH]; intros attempt lastError s Hinv.
  - exists 0%nat. split; [lia|]. split; [lia|].
    cbn [scrapeLoop]. rewrite createFallbackResult_silent. reflexivity.
  - destruct Hinv as [Hinv|Hinv]; [discriminate|].
    cbn [scrapeLoop]. unfold try_catch, bind.
    pose proof (tryWebScraping_scrapes_once appData appId country attempt
                  (skipValidation opts) s) as Hweb.
    destruct (tryWebScraping_returns S extractScreenshotsFromWeb
                validateScreenshots deduplicate smartFilter appData
                appId country attempt (skipValidation opts) s)
      as (webResult & s1 & Ea).
    rewrite Ea in *. cbn [snd] in Hweb.
    destruct webResult as [data|reason error].
    { exists 1%nat. split; [lia|]. split; [lia|]. cbn. exact Hweb. }
    assert (forall lastError' s2,
               log s2 = (log s1
                         ++ if attempt <? maxRetries opts
                            then [Waited (1000 * 2 ^ (attempt - 1))]
                            else [])%list ->
               exists k,
                 (k <= Datatypes.S n)%nat
                 /\ ((1 <= Datatypes.S n)%nat -> (1 <= k)%nat)
                 /\ log (snd (loop appData appId country opts n (attempt + 1)
                                lastError' s2))
                    = (log s ++ scheduleFrom attempt k)%list) as Hnext.
    { intros lastError' s2 Hs2.
      destruct (IH (attempt + 1) lastError' s2) as (k & Hk & Hk1 & E);
        [lia|].
      exists (Datatypes.S k). split; [lia|]. split; [lia|].
      rewrite E, Hs2, Hweb, <- !app_assoc. f_equal.
      destruct (Z.ltb_spec attempt (maxRetries opts)) as [Hlt|Hge].
      - rewrite scheduleFrom_step by lia. reflexivity.
      - assert (k = 0)%nat as -> by lia. reflexivity. }
    destruct (attempt <? maxRetries opts) eqn:Hlt.
    + pose proof (delay_logged (1000 * 2 ^ (attempt - 1)) s1) as Hd.
      destruct (delay (1000 * 2 ^ (attempt - 1)) s1) as [[e|[]] s2];
        cbn [snd] in Hd; cbn [ret]; apply Hnext; exact Hd.
    + cbn [ret]. apply Hnext. rewrite app_nil_r. reflexivity.
Qed.

(** X15.  What [extract] asks of the outside world follows the retry
    schedule: for some [k] not above [maxRetries], the product page is
    requested [k] times, with a pause of 1000 ms, 2000 ms, 4000 ms, ...
    after each request but the last, and nothing else is requested or
    awaited.  With [forceRefresh] and a positive [maxRetries] the page is
    requested at least once; with [maxRetries <= 0] it never is. *)
Theorem extract_retry_schedule (appData : AppData) (appId country : string)
  (opts : Options) (s : S) :
  exists k,
    (k <= Z.to_nat (maxRetries opts))%nat
    /\ (forceRefresh opts = true -> 0 < maxRetries opts -> (1 <= k)%nat)
    /\ log (snd (run appData appId country opts s))
       = (log s ++ schedule k)%list.
Proof.
  assert (forall lastError s0,
             exists k,
               (k <= Z.to_nat (maxRetries opts))%nat
               /\ ((1 <= Z.to_nat (maxRetries opts))%nat -> (1 <= k)%nat)
               /\ log (snd (loop appData appId country opts
                              (Z.to_nat (maxRetries opts)) 1 lastError s0))
                  = (log s0 ++ schedule k)%list) as Hloop.
  { intros lastError s0. apply scrapeLoop_schedule.
    destruct (Z.to_nat (maxRetries opts)) eqn:E; [left; reflexivity|right].
    lia. }
  unfold extract. destruct (forceRefresh opts); cbn [negb].
  - destruct (Hloop None s) as (k & Hk & Hk1 & E).
    exists k. split; [exact Hk|]. split; [intros _ Hpos; apply Hk1; lia|exact E].
  - unfold bind.
    pose proof (tryItunesApi_silent appData appId country (skipValidation opts) s)
      as Hapi.
    destruct (tryApi appData appId country (skipValidation opts) s)
      as [[e|[data|reason error]] s1]; cbn [snd] in Hapi;
      rewrite app_nil_r in Hapi.
    + exists 0%nat. split; [lia|]. split; [discriminate|].
      cbn. rewrite app_nil_r. exact Hapi.
    + exists 0%nat. split; [lia|]. split; [discriminate|].
      cbn. rewrite app_nil_r. exact Hapi.
    + destruct (Hloop None s1) as (k & Hk & _ & E).
      exists k. split; [exact Hk|]. split; [discriminate|].
      rewrite E, Hapi. reflexivity.
Qed.

End Schedule.

(** *** Sample collaborators over a state that is the log *)

Definition loggedDownPage (appId country : string)
  : C (list Event) WebScreenshots :=
  fun l => (inl "Request failed with status code 404", (l ++ [Scraped])%list).

Definition loggedDelay (ms : Z) : C (list Event) unit :=
  fun l => (inr tt, (l ++ [Waited ms])%list).

Definition quietValidator (a : Processed) (appId country : string)
  : C (list Event) ScreenshotValidator.ValidationResult :=
  fun l => (inl "validator down", l).

Definition quietKeepAll (urls : list string) (p : Platform)
  : C (list Event) (list string) :=
  fun l => (inr urls, l).

Definition quietKeepUrls (urls : list string) (p : Platform)
  : C (list Event) (list SmartFilter.Entry) :=
  fun l => (inr (map SmartFilter.Url urls), l).

(** X15 at work: a forced refresh with three attempts against a page that
    is down. *)
Lemma extract_retry_schedule_witness :
  let opts := {| forceRefresh := true; skipValidation := false;
                 maxRetries := 3 |} in
  exists k,
    (k <= Z.to_nat (maxRetries opts))%nat
    /\ (forceRefresh opts = true -> 0 < maxRetries opts -> (1 <= k)%nat)
    /\ snd (extract (list Event) loggedDownPage quietValidator quietKeepAll
              quietKeepUrls loggedDelay emptyApp "1" "us" opts [])
       = ([] ++ schedule k)%list.
Proof.
  apply (extract_retry_schedule (list Event) loggedDownPage quietValidator
           quietKeepAll quietKeepUrls loggedDelay (fun l => l));
    intros; intros l; cbn; try rewrite app_nil_r; reflexivity.
Defined.

(** The same run, event by event: three attempts against a page that is
    down. *)
Example extract_retry_schedule_run :
  snd (extract (list Event) loggedDownPage quietValidator quietKeepAll
         quietKeepUrls loggedDelay emptyApp "1" "us"
         {| forceRefresh := true; skipValidation := false; maxRetries := 3 |}
         [])
  = [Scraped; Waited 1000; Scraped; Waited 2000; Scraped].
Proof. reflexivity. Qed.

(** *** What [extract] returns *)

Section Results.

Variable S : Type.
Variable extractScreenshotsFromWeb : string -> string -> C S WebScreenshots.
Variable deduplicate : list string -> Platform -> C S (list string).
Variable smartFilter : list string -> Platform -> C S (list SmartFilter.Entry).
Variable delay : Z -> C S unit.

Abbreviation process := (processScreenshots S deduplicate smartFilter).
Abbreviation fallback := (createFallbackResult S deduplicate smartFilter).

(** The three collections are arrays. *)
Definition collections_defined {U : Type} (r : AppDataOf U) : Prop :=
  screenshots r <> None /\ ipadScreenshots r <> None
  /\ appletvScreenshots r <> None.

Lemma processScreenshots_fields (appData : AppData) (r : Processed)
  (s s' : S) :
  process appData s = (inr r, s') ->
  id r = id appData
  /\ _screenshotExtractionWarning r = _screenshotExtractionWarning appData
  /\ _lastError r = _lastError appData
  /\ collections_defined r.
Proof.
  unfold processScreenshots, bind.
  repeat match goal with
         | |- context [whenNonEmpty S ?f ?xs ?p ?s0] =>
             destruct (whenNonEmpty S f xs p s0) as [[?|?] ?];
             [discriminate|]
         end.
  unfold ret. intros [= <- _]. cbn.
  unfold collections_defined. cbn. repeat split; discriminate.
Qed.

(** The message that the fallback stores: that of the last error, the
    placeholder when there is none or it is empty. *)
Definition lastErrorMessage (lastError : option Exn) : string :=
  match lastError with
  | Some m => if Js.truthy m then m else "Unknown error"
  | None => "Unknown error"
  end.

Definition marked_as_failed {U : Type} (r : AppDataOf U) : Prop :=
  _screenshotExtractionWarning r
  = Some "Screenshot extraction failed, using available data"
  /\ exists m, _lastError r = Some m /\ m <> EmptyString.

Lemma lastErrorMessage_truthy (lastError : option Exn) :
  lastErrorMessage lastError <> EmptyString.
Proof.
  unfold lastErrorMessage. destruct lastError as [m|]; [|discriminate].
  destruct m; cbn; discriminate.
Qed.

Lemma createFallbackResult_fields (appData : AppData) (lastError : option Exn)
  (s : S) :
  exists r s',
    fallback appData lastError s = (inr r, s')
    /\ id r = id appData
    /\ _screenshotExtractionWarning r
       = Some "Screenshot extraction failed, using available data"
    /\ _lastError r = Some (lastErrorMessage lastError)
    /\ collections_defined r.
Proof.
  unfold createFallbackResult, try_catch.
  fold (lastErrorMessage lastError).
  match goal with
  | |- context [process ?d s] =>
      pose proof (processScreenshots_fields d) as Hp;
      destruct (process d s) as [[e|r] s'] eqn:E
  end.
  - eexists _, s'. split; [reflexivity|]. cbn.
    unfold collections_defined. cbn. repeat split; discriminate.
  - exists r, s'. split; [reflexivity|].
    destruct (Hp r s s' E) as (H1 & H2 & H3 & H4). cbn in H1, H2, H3.
    unfold lastErrorMessage. repeat split; try assumption; apply H4.
Qed.

(** X17.  [createFallbackResult] never throws, also when the processing of
    the fallback data does.  Its result is the input record with the three
    collections turned into arrays, the extraction warning set, and
    [_lastError] set to the message of the last error, or to the text
    Unknown error when there was no error or its message is empty; so
    [_lastError] is never empty. *)
Theorem createFallbackResult_marks_failure (appData : AppData)
  (lastError : option Exn) (s : S) :
  exists r s',
    fallback appData lastError s = (inr r, s')
    /\ id r = id appData
    /\ collections_defined r
    /\ marked_as_failed r
    /\ (forall m, lastError = Some m -> m <> EmptyString ->
                  _lastError r = Some m)
    /\ (lastError = None \/ lastError = Some EmptyString ->
        _lastError r = Some "Unknown error").
Proof.
  destruct (createFallbackResult_fields appData lastError s)
    as (r & s' & E & H1 & H2 & H3 & H4).
  exists r, s'. split; [exact E|]. split; [exact H1|]. split; [exact H4|].
  split; [|split].
  - split; [exact H2|]. exists (lastErrorMessage lastError).
    split; [exact H3|apply lastErrorMessage_truthy].
  - intros m -> Hm. rewrite H3. cbn. destruct m; [congruence|reflexivity].
  - intros [->| ->]; rewrite H3; reflexivity.
Qed.

Section OneValidator.

Variable validateScreenshots :
  Processed -> string -> string -> C S ScreenshotValidator.ValidationResult.

Abbreviation tryApi :=
  (tryItunesApi S validateScreenshots deduplicate smartFilter).
Abbreviation tryWeb :=
  (tryWebScraping S extractScreenshotsFromWeb validateScreenshots deduplicate
     smartFilter).
Abbreviation loop :=
  (scrapeLoop S extractScreenshotsFromWeb validateScreenshots deduplicate
     smartFilter delay).
Abbreviation run :=
  (extract S extractScreenshotsFromWeb validateScreenshots deduplicate
     smartFilter delay).

(** The result is a processed record, from the primary source or from the
    page, or the fallback. *)
Definition extract_result (appData : AppData) (r : Processed) : Prop :=
  id r = id appData
  /\ collections_defined r
  /\ (_screenshotExtractionWarning r = _screenshotExtractionWarning appData
      /\ _lastError r = _lastError appData
      \/ marked_as_failed r).

Lemma bind_inr {A B : Type} (m : C S A) (f : A -> C S B) (s s' : S) (b : B) :
  bind S m f s = (inr b, s') ->
  exists a s1, m s = (inr a, s1) /\ f a s1 = (inr b, s').
Proof.
  unfold bind. destruct (m s) as [[e|a] s1]; [discriminate|].
  intros H. exists a, s1. split; [reflexivity|exact H].
Qed.

Lemma try_catch_inv {A : Type} (m : C S A) (h : Exn -> C S A) (s s' : S)
  (r : Exn + A) :
  try_catch S m h s = (r, s') ->
  m s = (r, s') \/ exists e s1, m s = (inl e, s1) /\ h e s1 = (r, s').
Proof.
  unfold try_catch. destruct (m s) as [[e|a] s1]; intros H.
  - right. exists e, s1. split; [reflexivity|exact H].
  - left. exact H.
Qed.

Lemma tryItunesApi_success (appData : AppData) (data : Processed)
  (appId country : string)
  (skip : bool) (s s' : S) :
  tryApi appData appId country skip s = (inr (Success data), s') ->
  extract_result appData data.
Proof.
  unfold tryItunesApi. intros H.
  apply try_catch_inv in H as [H|(e & s1 & _ & H)]; [|discriminate H].
  destruct (_ && _); [discriminate H|].
  apply bind_inr in H as (valid & s1 & _ & H).
  destruct (negb valid); [discriminate H|].
  apply bind_inr in H as (r & s2 & E & H). injection H as <- _.
  destruct (processScreenshots_fields _ _ _ _ E) as (H1 & H2 & H3 & H4).
  split; [exact H1|]. split; [exact H4|]. left. split; assumption.
Qed.

Lemma tryWebScraping_success (appData : AppData) (data : Processed)
  (appId country : string)
  (attempt : Z) (skip : bool) (s s' : S) :
  tryWeb appData appId country attempt skip s = (inr (Success data), s') ->
  extract_result appData data.
Proof.
  unfold tryWebScraping. intros H.
  apply try_catch_inv in H as [H|(e & s1 & _ & H)]; [|discriminate H].
  apply bind_inr in H as (w & s1 & _ & H).
  destruct (_ =? 0); [discriminate H|].
  apply bind_inr in H as (r & s2 & E & H).
  apply bind_inr in H as (rejected & s3 & _ & H).
  destruct rejected; [discriminate H|]. injection H as <- _.
  destruct (processScreenshots_fields _ _ _ _ E) as (H1 & H2 & H3 & H4).
  cbn in H1, H2, H3.
  split; [exact H1|]. split; [exact H4|]. left. split; assumption.
Qed.

Lemma scrapeLoop_result (appData : AppData) (appId country : string)
  (opts : Options) (remaining : nat) :
  forall (attempt : Z) (lastError : option Exn) (s s' : S) (r : Processed),
    loop appData appId country opts remaining attempt lastError s
    = (inr r, s') ->
    extract_result appData r.
Proof.
  induction remaining as [|n IH]; intros attempt lastError s s' r.
  - cbn [scrapeLoop]. intros E.
    destruct (createFallbackResult_fields appData lastError s)
      as (r0 & s0 & E0 & H1 & H2 & H3 & H4).
    rewrite E0 in E. injection E as <- _.
    split; [exact H1|]. split; [exact H4|]. right.
    split; [exact H2|]. exists (lastErrorMessage lastError).
    split; [exact H3|apply lastErrorMessage_truthy].
  - cbn [scrapeLoop]. unfold try_catch, bind.
    destruct (tryWeb appData appId country attempt (skipValidation opts) s)
      as [[e|[data|reason error]] s1] eqn:Ew.
    + cbn [ret]. apply IH.
    + cbn [ret]. intros [= <- _].
      exact (tryWebScraping_success _ _ _ _ _ _ _ _ Ew).
    + destruct (attempt <? maxRetries opts).
      * destruct (delay _ s1) as [[e|[]] s2]; cbn [ret]; apply IH.
      * cbn [ret]. apply IH.
Qed.

(** X16.  Whatever path a run takes, [extract] returns the record of the
    app with the three collections as arrays, never undefined.  Either the
    record comes from a successful step, and then the warning and
    [_lastError] fields are those of the input, or it is the fallback,
    which carries the extraction warning and a non-empty [_lastError]. *)
Theorem extract_result_shape (appData : AppData) (appId country : string)
  (opts : Options) (s : S) :
  exists r s',
    run appData appId country opts s = (inr r, s')
    /\ id r = id appData
    /\ collections_defined r
    /\ (_screenshotExtractionWarning r = _screenshotExtractionWarning appData
        /\ _lastError r = _lastError appData
        \/ marked_as_failed r).
Proof.
  destruct (extract_returns S extractScreenshotsFromWeb validateScreenshots
              deduplicate smartFilter delay appData appId country opts s)
    as (r & s' & E).
  exists r, s'. split; [exact E|].
  revert E. unfold extract.
  destruct (forceRefresh opts); cbn [negb]; [apply scrapeLoop_result|].
  unfold bind.
  destruct (tryApi appData appId country (skipValidation opts) s)
    as [[e|[data|reason error]] s1] eqn:Ea.
  - discriminate.
  - cbn [ret]. intros [= <- _].
    exact (tryItunesApi_success _ _ _ _ _ _ _ Ea).
  - apply scrapeLoop_result.
Qed.

End OneValidator.

Section TwoValidators.

Variables validate1 validate2 :
  Processed -> string -> string -> C S ScreenshotValidator.ValidationResult.

Lemma scrapeLoop_skipValidation (appData : AppData) (appId country : string)
  (fr : bool) (maxRetries : Z) (remaining : nat) :
  forall (attempt : Z) (lastError : option Exn) (s : S),
    scrapeLoop S extractScreenshotsFromWeb validate1 deduplicate smartFilter
      delay appData appId country
      {| forceRefresh := fr; skipValidation := true;
         maxRetries := maxRetries |} remaining attempt lastError s
    = scrapeLoop S extractScreenshotsFromWeb validate2 deduplicate smartFilter
        delay appData appId country
        {| forceRefresh := fr; skipValidation := true;
           maxRetries := maxRetries |} remaining attempt lastError s.
Proof.
  induction remaining as [|n IH]; intros attempt lastError s;
    [reflexivity|].
  cbn [scrapeLoop ScreenshotChain.skipValidation ScreenshotChain.maxRetries].
  change (tryWebScraping S extractScreenshotsFromWeb validate1 deduplicate
            smartFilter appData appId country attempt true)
    with (tryWebScraping S extractScreenshotsFromWeb validate2 deduplicate
            smartFilter appData appId country attempt true).
  match goal with
  | |- match ?m with _ => _ end = _ => destruct m as [[e|[data|le]] s1]
  end; [reflexivity|reflexivity|apply IH].
Qed.

(** X18.  With [skipValidation] the validator is never consulted: the run
    is the same, result and final state, whatever the validator is, also
    one that throws. *)
Theorem extract_skipValidation_ignores_validator (appData : AppData)
  (appId country : string) (opts : Options) (s : S) :
  skipValidation opts = true ->
  extract S extractScreenshotsFromWeb validate1 deduplicate smartFilter delay
    appData appId country opts s
  = extract S extractScreenshotsFromWeb validate2 deduplicate smartFilter
      delay appData appId country opts s.
Proof.
  destruct opts as [fr skip maxRetries]. cbn. intros ->.
  unfold extract.
  cbn [ScreenshotChain.forceRefresh ScreenshotChain.skipValidation
       ScreenshotChain.maxRetries].
  destruct fr; cbn [negb]; [apply scrapeLoop_skipValidation|].
  unfold bind.
  change (tryItunesApi S validate1 deduplicate smartFilter appData appId
            country true)
    with (tryItunesApi S validate2 deduplicate smartFilter appData appId
            country true).
  destruct (tryItunesApi S validate2 deduplicate smartFilter appData appId
              country true s) as [[e|[data|reason error]] s1];
    [reflexivity|reflexivity|apply scrapeLoop_skipValidation].
Qed.

End TwoValidators.

End Results.

Definition rejectingValidator (a : Processed) (appId country : string)
  : C nat ScreenshotValidator.ValidationResult :=
  fun n => (inr {| ScreenshotValidator.isValid := false;
                   ScreenshotValidator.confidence := 0%Q;
                   ScreenshotValidator.issues := [ScreenshotValidator.app_not_found];
                   ScreenshotValidator.recommendations :=
                     [ScreenshotValidator.app_removed] |}, n).

(** X18 at work: a validator that throws and one that rejects give the same
    run. *)
Lemma extract_skipValidation_ignores_validator_witness :
  let opts := {| forceRefresh := false; skipValidation := true;
                 maxRetries := 2 |} in
  extract nat tvWeb failingValidator keepAll keepAsUrls noDelay emptyApp "1" "us"
    opts 0%nat
  = extract nat tvWeb rejectingValidator keepAll keepAsUrls noDelay emptyApp "1"
      "us" opts 0%nat.
Proof.
  exact (extract_skipValidation_ignores_validator nat tvWeb keepAll keepAsUrls
           noDelay failingValidator rejectingValidator emptyApp "1" "us"
           {| forceRefresh := false; skipValidation := true; maxRetries := 2 |}
           0%nat eq_refl).
Defined.

(** *** The chain with its validator: Apple TV screenshots only *)

Section AppleTvOnly.

Import ScreenshotValidator.
Import ScreenshotValidatorFacts.

Variable World : Type.
Variable Date_now : World -> Z.
Variable head : Entry -> Z -> World -> bool * World.

(** The state of the chain is that of its validator. *)
Abbreviation VState := (ScreenshotValidator.State World).

(** [this.validator.validateScreenshots], which does not throw. *)
Definition theValidator (a : Processed) (appId country : string)
  : C VState ValidationResult :=
  fun st =>
    let (r, st') := validateScreenshots World Date_now head a appId country st in
    (inr r, st').

Variable extractScreenshotsFromWeb : string -> string -> C VState WebScreenshots.
Variable delay : Z -> C VState unit.

(** The deduplicator and the filter, as the functions of the lists that
    they are. *)
Variable deduplicate : list string -> Platform -> list string.
Variable smartFilter : list string -> Platform -> list Entry.

Definition pureStep {U : Type} (f : list string -> Platform -> list U)
  (urls : list string) (p : Platform) : C VState (list U) :=
  ScreenshotChain.ret VState (f urls p).

Abbreviation chain :=
  (extract VState extractScreenshotsFromWeb theValidator
     (pureStep deduplicate) (pureStep smartFilter) delay).

(** A verdict that makes [tryWebScraping] turn the scraped data down. *)
Definition rejecting (r : ValidationResult) : Prop :=
  isValid r = false /\ (confidence r < Double.lit (5 # 10))%Q.

Definition cache_rejects (key : string) (st : VState) : Prop :=
  forall e, cache_get key (validationCache World st) = Some e ->
            rejecting (result e).

Lemma validate_rejects (a : Processed) (appId country : string)
  (st : VState) :
  orEmpty (screenshots a) = [] ->
  orEmpty (ipadScreenshots a) = [] ->
  cache_rejects (cacheKey appId country) st ->
  rejecting (fst (validateScreenshots World Date_now head a appId country st))
  /\ cache_rejects (cacheKey appId country)
       (snd (validateScreenshots World Date_now head a appId country st)).
Proof.
  intros Hs Hi Hc.
  destruct (fresh_entry World Date_now (cacheKey appId country) st)
    as [e|] eqn:E.
  - rewrite (validate_hit _ _ _ _ _ _ _ _ E). cbn [fst snd].
    split; [|exact Hc]. apply Hc.
    unfold fresh_entry in E.
    destruct (cache_get _ _) as [c|]; [|discriminate].
    destruct (_ <? maxCacheAge); congruence.
  - rewrite (validate_miss _ _ _ _ _ _ _ E). cbv zeta.
    destruct (performValidation_no_urls World head a appId country st Hs Hi)
      as [-> _]. cbn [fst snd].
    assert (rejecting
              (if fst (head (Url (pageUrl appId country)) 5000
                         (world World st))
               then noScreenshotsResult else appNotFoundResult)) as Hr.
    { destruct (fst (head _ 5000 (world World st)));
        split; vm_compute; reflexivity. }
    split; [exact Hr|].
    intros e. cbn [validationCache]. rewrite cache_get_set.
    intros [= <-]. cbn [result]. exact Hr.
Qed.

(** [if (xs.length > 0) xs = g(xs, p)] *)
Definition stepIfAny {U : Type} (g : list string -> Platform -> list U)
  (xs : list string) (p : Platform) : list U :=
  match xs with
  | [] => []
  | _ :: _ => g xs p
  end.

Definition processed (a : AppData) : Processed :=
  let through xs p :=
    stepIfAny smartFilter (stepIfAny deduplicate (uniqueTruthy (orEmpty xs)) p) p in
  {| id := id a;
     screenshots := Some (through (screenshots a) iPhone);
     ipadScreenshots := Some (through (ipadScreenshots a) iPad);
     appletvScreenshots := Some (through (appletvScreenshots a) AppleTV);
     _screenshotExtractionWarning := _screenshotExtractionWarning a;
     _lastError := _lastError a |}.

Lemma whenNonEmpty_pure {U : Type} (g : list string -> Platform -> list U)
  (xs : list string) (p : Platform) (st : VState) :
  whenNonEmpty VState (pureStep g) xs p st = (inr (stepIfAny g xs p), st).
Proof. destruct xs; reflexivity. Qed.

Lemma processScreenshots_pure (a : AppData) (st : VState) :
  processScreenshots VState (pureStep deduplicate) (pureStep smartFilter) a st
  = (inr (processed a), st).
Proof.
  unfold processScreenshots, ScreenshotChain.bind.
  rewrite !whenNonEmpty_pure. reflexivity.
Qed.

Hypothesis scrape_keeps_cache :
  forall appId country st,
    validationCache World (snd (extractScreenshotsFromWeb appId country st))
    = validationCache World st.
Hypothesis delay_keeps_cache :
  forall ms st,
    validationCache World (snd (delay ms st)) = validationCache World st.

Section OneApp.

Variable appData : AppData.
Variables appId country : string.

(** Neither the primary source nor the page has a phone or tablet URL. *)
Hypothesis no_phone_in_api : orEmpty (screenshots appData) = [].
Hypothesis no_tablet_in_api : orEmpty (ipadScreenshots appData) = [].
Hypothesis no_phone_or_tablet_on_page :
  forall st w,
    fst (extractScreenshotsFromWeb appId country st) = inr w ->
    web_screenshots w = [] /\ web_ipadScreenshots w = [].

Lemma tryWebScraping_tv_only_fails (attempt : Z) (st : VState) :
  cache_rejects (cacheKey appId country) st ->
  exists reason error st',
    tryWebScraping VState extractScreenshotsFromWeb theValidator
      (pureStep deduplicate) (pureStep smartFilter) appData appId country
      attempt false st
    = (inr (Failure reason error), st')
    /\ cache_rejects (cacheKey appId country) st'.
Proof.
  intros Hc. unfold tryWebScraping, try_catch, ScreenshotChain.bind.
  pose proof (scrape_keeps_cache appId country st) as Hk.
  pose proof (no_phone_or_tablet_on_page st) as Hw.
  destruct (extractScreenshotsFromWeb appId country st) as [[e|w] s1];
    cbn [fst snd] in *.
  - eexists _, _, s1. split; [reflexivity|].
    unfold cache_rejects. rewrite Hk. exact Hc.
  - destruct (Hw w eq_refl) as [Hp Ht].
    assert (cache_rejects (cacheKey appId country) s1) as Hc1
        by (unfold cache_rejects; rewrite Hk; exact Hc).
    destruct (_ =? 0).
    + eexists _, _, s1. split; [reflexivity|exact Hc1].
    + rewrite processScreenshots_pure. cbn [negb]. unfold theValidator.
      match goal with
      | |- context [validateScreenshots World Date_now head ?a appId country s1] =>
          assert (orEmpty (screenshots a) = []) as Ha1
            by (cbn; rewrite Hp; reflexivity);
          assert (orEmpty (ipadScreenshots a) = []) as Ha2
            by (cbn; rewrite Ht; reflexivity);
          destruct (validate_rejects a appId country s1 Ha1 Ha2 Hc1)
            as [[Hv Hq] Hc2];
          destruct (validateScreenshots World Date_now head a appId country s1)
            as [r s2]
      end.
      cbn [fst snd] in *. unfold ScreenshotChain.ret. rewrite Hv.
      apply DoubleFacts.ltb_true in Hq. rewrite Hq. cbn [negb andb].
      eexists _, _, s2. split; [reflexivity|exact Hc2].
Qed.

Lemma createFallbackResult_pure (lastError : option Exn) (st : VState) :
  exists r,
    createFallbackResult VState (pureStep deduplicate) (pureStep smartFilter)
      appData lastError st = (inr r, st)
    /\ marked_as_failed r
    /\ screenshots r = Some []
    /\ ipadScreenshots r = Some []
    /\ appletvScreenshots r = appletvScreenshots (processed appData).
Proof.
  unfold createFallbackResult, try_catch.
  rewrite processScreenshots_pure. eexists. split; [reflexivity|].
  unfold processed.
  cbn [screenshots ipadScreenshots appletvScreenshots
       _screenshotExtractionWarning _lastError orEmpty].
  rewrite no_phone_in_api, no_tablet_in_api.
  split; [|repeat split].
  split; [reflexivity|].
  exists (lastErrorMessage lastError).
  split; [reflexivity|apply lastErrorMessage_truthy].
Qed.

Lemma scrapeLoop_tv_only (opts : Options) (remaining : nat) :
  skipValidation opts = false ->
  forall (attempt : Z) (lastError : option Exn) (st : VState),
    cache_rejects (cacheKey appId country) st ->
    exists r st',
      scrapeLoop VState extractScreenshotsFromWeb theValidator
        (pureStep deduplicate) (pureStep smartFilter) delay appData appId
        country opts remaining attempt lastError st = (inr r, st')
      /\ marked_as_failed r
      /\ screenshots r = Some []
      /\ ipadScreenshots r = Some []
      /\ appletvScreenshots r = appletvScreenshots (processed appData).
Proof.
  intros Hskip.
  induction remaining as [|n IH]; intros attempt lastError st Hc.
  - cbn [scrapeLoop].
    destruct (createFallbackResult_pure lastError st) as (r & E & H).
    exists r, st. split; [exact E|exact H].
  - cbn [scrapeLoop]. unfold try_catch, ScreenshotChain.bind. rewrite Hskip.
    destruct (tryWebScraping_tv_only_fails attempt st Hc)
      as (reason & error & s1 & E & Hc1).
    rewrite E.
    destruct (attempt <? maxRetries opts).
    + pose proof (delay_keeps_cache (1000 * 2 ^ (attempt - 1)) s1) as Hd.
      assert (forall s2, validationCache World s2 = validationCache World s1 ->
                         cache_rejects (cacheKey appId country) s2) as Hc2.
      { intros s2 Hs2. unfold cache_rejects. rewrite Hs2. exact Hc1. }
      destruct (delay (1000 * 2 ^ (attempt - 1)) s1) as [[e|[]] s2];
        cbn [snd] in Hd; unfold ScreenshotChain.ret; apply IH, Hc2, Hd.
    + unfold ScreenshotChain.ret. apply IH, Hc1.
Qed.

(** X19.  An app that has Apple TV screenshots only never gets them
    accepted while validation is on.  When neither the primary source nor
    the product page has a phone or tablet URL and the validator holds no
    accepting verdict for the app, every step is turned down (the primary
    source for want of phone and tablet screenshots, each scrape by the
    validator) and [extract] returns the fallback: the Apple TV screenshots
    of the primary source, processed, under the extraction warning. *)
Theorem extract_tv_only_is_marked_failed (opts : Options) (st : VState) :
  skipValidation opts = false ->
  cache_rejects (cacheKey appId country) st ->
  exists r st',
    chain appData appId country opts st = (inr r, st')
    /\ marked_as_failed r
    /\ screenshots r = Some []
    /\ ipadScreenshots r = Some []
    /\ appletvScreenshots r = appletvScreenshots (processed appData).
Proof.
  intros Hskip Hc. unfold extract.
  destruct (forceRefresh opts); cbn [negb];
    [apply scrapeLoop_tv_only; assumption|].
  unfold ScreenshotChain.bind, tryItunesApi, try_catch.
  assert (hasAny (screenshots appData) = false) as ->
    by (pose proof no_phone_in_api;
        destruct (screenshots appData) as [[|]|]; simpl in *; congruence).
  assert (hasAny (ipadScreenshots appData) = false) as ->
    by (pose proof no_tablet_in_api;
        destruct (ipadScreenshots appData) as [[|]|]; simpl in *; congruence).
  cbn. apply scrapeLoop_tv_only; assumption.
Qed.

End OneApp.

End AppleTvOnly.

(** *** A sample world: the clock; a product page with one Apple TV URL *)

Definition tvPage (appId country : string)
  : C (ScreenshotValidator.State Z) WebScreenshots :=
  fun st =>
    (inr {| web_screenshots := []; web_ipadScreenshots := [];
            web_appletvScreenshots := ["https://cdn.example/tv/1.jpg"] |},
     ScreenshotValidatorFacts.at_world Z st
       (ScreenshotValidator.world Z st + 500)).

Definition clockDelay (ms : Z) : C (ScreenshotValidator.State Z) unit :=
  fun st =>
    (inr tt,
     ScreenshotValidatorFacts.at_world Z st
       (ScreenshotValidator.world Z st + ms)).

Definition keepUrls (urls : list string) (p : Platform) : list string := urls.

(** X19 at work: the default options, a new validator, the filter of
    [SmartFilter], a page that holds one Apple TV URL. *)
Lemma extract_tv_only_is_marked_failed_witness :
  exists r st',
    extract (ScreenshotValidator.State Z) tvPage
      (theValidator Z ScreenshotValidatorFacts.clock_now
         (ScreenshotValidatorFacts.head_until 60000))
      (pureStep Z keepUrls) (pureStep Z SmartFilter.filter) clockDelay
      tvOnlyApp "1" "us" defaultOptions
      (ScreenshotValidator.fresh Z 0)
    = (inr r, st')
    /\ marked_as_failed r
    /\ screenshots r = Some []
    /\ ipadScreenshots r = Some []
    /\ appletvScreenshots r
       = appletvScreenshots
           (processed keepUrls SmartFilter.filter tvOnlyApp).
Proof.
  apply (extract_tv_only_is_marked_failed Z ScreenshotValidatorFacts.clock_now
           (ScreenshotValidatorFacts.head_until 60000) tvPage clockDelay
           keepUrls SmartFilter.filter).
  - intros appId country st. reflexivity.
  - intros ms st. reflexivity.
  - reflexivity.
  - reflexivity.
  - intros st w [= <-]. split; reflexivity.
  - reflexivity.
  - intros e. discriminate.
Defined.

(** *** The chain with the collaborators of the sources

    [ContentDeduplicator.deduplicate] with the sample random identifier
    and the byte-wise comparison. *)
Definition theDeduplicator (urls : list string) (p : Platform) : list string :=
  fst (ContentDeduplicator.deduplicate unit
         ContentDeduplicatorFacts.sampleRandom
         ContentDeduplicatorFacts.byteCompare urls p tt).

(** A product page with two sizes of one phone screenshot. *)
Definition twoSizesPage (appId country : string)
  : C (ScreenshotValidator.State Z) WebScreenshots :=
  fun st =>
    (inr {| web_screenshots := ["https://cdn.example/a/Home-392x696.jpg";
                                "https://cdn.example/a/Home-1242x2688.jpg"];
            web_ipadScreenshots := [];
            web_appletvScreenshots := [] |},
     ScreenshotValidatorFacts.at_world Z st
       (ScreenshotValidator.world Z st + 500)).

(** The chain with the deduplicator, the filter and the validator of the
    sources on this page: the deduplicator keeps both URLs, the filter
    returns them as one array, the validator fails internally on the array
    after the request for the page and stores nothing, and the attempt is
    turned down. *)
Example tryWebScraping_fails_on_filtered_array :
  let run :=
    tryWebScraping (ScreenshotValidator.State Z) twoSizesPage
      (theValidator Z ScreenshotValidatorFacts.clock_now
         (ScreenshotValidatorFacts.head_until 60000))
      (pureStep Z theDeduplicator) (pureStep Z SmartFilter.filter)
      emptyApp "1" "us" 1 false (ScreenshotValidator.fresh Z 0) in
  SmartFilter.filter
    (theDeduplicator ["https://cdn.example/a/Home-392x696.jpg";
                      "https://cdn.example/a/Home-1242x2688.jpg"] iPhone)
    iPhone
  = [SmartFilter.Urls ["https://cdn.example/a/Home-1242x2688.jpg";
                       "https://cdn.example/a/Home-392x696.jpg"]]
  /\ fst run = inr (Failure web_validation_failed None)
  /\ ScreenshotValidator.requests Z (snd run)
     = [SmartFilter.Url (ScreenshotValidatorFacts.pageUrl "1" "us")]
  /\ ScreenshotValidator.validationCache Z (snd run) = [].
Proof. cbv zeta. repeat split; vm_compute; reflexivity. Qed.


(** *** [detectRemainingDuplicates] and [validateResult] *)

Definition normalized (urls : list string) : list string :=
  map normalizeUrlForComparison urls.

Lemma existsb_eqb_In (x : string) (l : list string) :
  existsb (String.eqb x) l = true <-> In x l.
Proof.
  rewrite existsb_exists. split.
  - intros (y & Hy & E). apply String.eqb_eq in E. subst. exact Hy.
  - intros H. exists x. split; [exact H|apply String.eqb_refl].
Qed.

(** The loop of [detectRemainingDuplicates]: [seen] stays duplicate-free,
    holds the normalized URLs met so far, and every URL met either joined
    [seen] or was counted. *)
Lemma duplicateStep_fold (urls : list string) :
  forall (seen : list string) (n : Z),
    NoDup seen ->
    NoDup (fst (fold_left duplicateStep urls (seen, n)))
    /\ (forall x, In x (fst (fold_left duplicateStep urls (seen, n)))
                  <-> In x seen \/ In x (normalized urls))
    /\ snd (fold_left duplicateStep urls (seen, n))
       + Js.len (fst (fold_left duplicateStep urls (seen, n)))
       = n + Js.len seen + Js.len urls.
Proof.
  induction urls as [|u t IH]; intros seen n Hnd; cbn [fold_left].
  - cbn. split; [exact Hnd|]. split; [tauto|]. unfold Js.len. cbn. lia.
  - change (duplicateStep (seen, n) u)
      with (if existsb (String.eqb (normalizeUrlForComparison u)) seen
            then (seen, n + 1)
            else ((seen ++ [normalizeUrlForComparison u])%list, n)).
    destruct (existsb _ seen) eqn:E.
    + apply existsb_eqb_In in E.
      destruct (IH seen (n + 1) Hnd) as (H1 & H2 & H3).
      split; [exact H1|]. split.
      * intros x. rewrite H2. cbn. split; [tauto|].
        intros [H|[<-|H]]; tauto.
      * rewrite H3. unfold Js.len. cbn [List.length]. lia.
    + assert (~ In (normalizeUrlForComparison u) seen) as Hn.
      { intros H. apply existsb_eqb_In in H. congruence. }
      assert (NoDup (seen ++ [normalizeUrlForComparison u])) as Hnd'.
      { apply NoDup_app; [exact Hnd|repeat constructor; intros []|].
        intros x Hx [<-|[]]. exact (Hn Hx). }
      destruct (IH _ n Hnd') as (H1 & H2 & H3).
      split; [exact H1|]. split.
      * intros x. rewrite H2, in_app_iff. cbn. tauto.
      * rewrite H3. unfold Js.len. rewrite length_app. cbn [List.length]. lia.
Qed.

Lemma detectRemainingDuplicates_spec (urls : list string) :
  exists distinct,
    NoDup distinct
    /\ (forall x, In x distinct <-> In x (normalized urls))
    /\ dup_count (detectRemainingDuplicates urls)
       = Js.len urls - Js.len distinct.
Proof.
  destruct (duplicateStep_fold urls [] 0 (NoDup_nil _)) as (H1 & H2 & H3).
  exists (fst (fold_left duplicateStep urls ([], 0))).
  split; [exact H1|]. split.
  - intros x. rewrite H2. cbn. tauto.
  - unfold detectRemainingDuplicates. cbn [dup_count].
    unfold Js.len in *. cbn [List.length] in H3. lia.
Qed.

Lemma detectRemainingDuplicates_none (urls : list string) :
  dup_count (detectRemainingDuplicates urls) = 0 <-> NoDup (normalized urls).
Proof.
  destruct (detectRemainingDuplicates_spec urls) as (d & Hd & Hin & ->).
  assert (List.length (normalized urls) = List.length urls) as Hl
      by apply length_map.
  unfold Js.len. split.
  - intros H. apply (NoDup_incl_NoDup Hd); [lia|].
    intros x. apply Hin.
  - intros H.
    assert (List.length d <= List.length (normalized urls))%nat
      by (apply NoDup_incl_length; [exact Hd|intros x; apply Hin]).
    assert (List.length (normalized urls) <= List.length d)%nat
      by (apply NoDup_incl_length; [exact H|intros x; apply Hin]).
    lia.
Qed.

Lemma detectRemainingDuplicates_bounds (urls : list string) :
  0 <= dup_count (detectRemainingDuplicates urls) <= Js.len urls
  /\ (urls <> [] -> dup_count (detectRemainingDuplicates urls) < Js.len urls).
Proof.
  destruct (detectRemainingDuplicates_spec urls) as (d & Hd & Hin & ->).
  assert (List.length (normalized urls) = List.length urls) as Hl
      by apply length_map.
  assert (List.length d <= List.length (normalized urls))%nat
    by (apply NoDup_incl_length; [exact Hd|intros x; apply Hin]).
  unfold Js.len. split; [lia|].
  intros Hne. destruct urls as [|u t]; [congruence|].
  assert (In (normalizeUrlForComparison u) d) as Hu
      by (apply Hin; left; reflexivity).
  destruct d; [destruct Hu|]. cbn [List.length]. lia.
Qed.

(** X20.  [detectRemainingDuplicates] counts the URLs whose normalized
    form was met before: the count is the number of URLs less the number of
    distinct normalized forms.  It is 0 exactly when the normalized forms
    are pairwise distinct, it is below the number of URLs, and the ratio
    lies between 0 and 1. *)
Theorem detectRemainingDuplicates_counts_repeats (urls : list string) :
  let d := detectRemainingDuplicates urls in
  (exists distinct,
      NoDup distinct
      /\ (forall x, In x distinct <-> In x (normalized urls))
      /\ dup_count d = Js.len urls - Js.len distinct)
  /\ (dup_count d = 0 <-> NoDup (normalized urls))
  /\ 0 <= dup_count d <= Js.len urls
  /\ (urls <> [] -> dup_count d < Js.len urls)
  /\ (0 <= dup_ratio d)%Q /\ (dup_ratio d <= 1)%Q.
Proof.
  cbv zeta.
  split; [apply detectRemainingDuplicates_spec|].
  split; [apply detectRemainingDuplicates_none|].
  destruct (detectRemainingDuplicates_bounds urls) as [Hb Hlt].
  split; [exact Hb|]. split; [exact Hlt|].
  unfold detectRemainingDuplicates in *. cbn [dup_count dup_ratio] in *.
  set (n := snd (fold_left duplicateStep urls ([], 0))) in *.
  destruct (Z.ltb_spec 0 (Js.len urls)) as [Hpos|Hz];
    [|split; discriminate].
  unfold Double.div, Double.of_Z. split.
  - apply DoubleFacts.round_nonneg.
    apply Qle_shift_div_l; [rewrite <- (Zlt_Qlt 0); exact Hpos|].
    rewrite Qmult_0_l. rewrite <- (Zle_Qle 0). lia.
  - apply (DoubleFacts.round_le_int _ 1); [|lia].
    apply Qle_shift_div_r; [rewrite <- (Zlt_Qlt 0); exact Hpos|].
    rewrite Qmult_1_l. rewrite <- Zle_Qle. lia.
Qed.

Section Verdict.

Variable S : Type.
Variable head : string -> Z -> S -> bool * S.

(** X21.  The verdict of [validateResult] depends on the phone and tablet
    URLs only.  It is invalid exactly when there is none, and then it is
    the verdict poor with the single warning No screenshots extracted,
    reached without a request.  There is no warning exactly when the
    quality is good and no two URLs have the same normalized form; and a
    good quality takes at least three URLs and comes without the warning
    about inaccessible URLs. *)
Theorem validateResult_verdict (result : AppData) (appId : string) (s : S) :
  let urls :=
    (orEmpty (screenshots result) ++ orEmpty (ipadScreenshots result))%list in
  let v := fst (validateResult S head result appId s) in
  (rv_isValid v = false <-> urls = [])
  /\ (urls = [] ->
      validateResult S head result appId s
      = ({| rv_isValid := false; rv_warnings := [No_screenshots_extracted];
            rv_quality := poor |}, s))
  /\ (rv_warnings v = [] <->
      rv_quality v = good /\ NoDup (normalized urls))
  /\ (rv_quality v = good ->
      3 <= Js.len urls
      /\ ~ In Many_screenshots_URLs_are_not_accessible (rv_warnings v)).
Proof.
  cbv zeta. unfold validateResult.
  set (phone := orEmpty (screenshots result)).
  set (tablet := orEmpty (ipadScreenshots result)).
  assert (Js.len phone + Js.len tablet = Js.len (phone ++ tablet)) as ->
      by (unfold Js.len; rewrite length_app; lia).
  generalize (phone ++ tablet)%list. clear phone tablet. intros urls.
  pose proof (detectRemainingDuplicates_none urls) as Hnone.
  destruct urls as [|u t].
  - (* no URL *)
    vm_compute.
    split; [tauto|]. split; [reflexivity|].
    split; [split; [discriminate|intros [? _]; discriminate]|discriminate].
  - set (urls := u :: t) in *.
    set (d := detectRemainingDuplicates urls) in *.
    pose proof (detectRemainingDuplicates_bounds urls) as [Hb _].
    fold d in Hb.
    assert (0 < Js.len urls) as Hpos by (unfold Js.len, urls; cbn; lia).
    destruct (checkUrlAccessibility S head (Js.slice0 3 urls) s)
      as [failureRate s'].
    cbn [fst snd].
    assert (0 < dup_count d <-> ~ NoDup (normalized urls)) as Hdup.
    { rewrite <- Hnone. lia. }
    destruct (Z.eqb_spec (Js.len urls) 0) as [Hz|_]; [lia|].
    destruct (Js.len urls <? 3) eqn:E3;
      destruct (0 <? dup_count d) eqn:Ed;
      destruct (Double.ltb (Double.lit (5 # 10)) failureRate);
      cbn [rv_isValid rv_warnings rv_quality app];
      try destruct (Double.ltb (Double.lit (3 # 10)) (dup_ratio d));
      (split; [split; [discriminate|intros H; discriminate H]|]);
      (split; [intros H; discriminate H|]);
      try apply Z.ltb_lt in E3; try apply Z.ltb_ge in E3;
      try apply Z.ltb_lt in Ed; try apply Z.ltb_ge in Ed;
      (split; [split; [try discriminate|intros [Hq Hn]; try discriminate Hq]
              |intros Hq; try discriminate Hq]).
    all: try (exfalso; apply Hdup; assumption).
    all: try (split; [reflexivity|apply Hnone; lia]).
    all: try (split; [lia|intros [H|[]]; discriminate H]).
    all: try (split; [lia|intros []]).
    all: reflexivity.
Qed.

End Verdict.

End ScreenshotChainFacts.


(** ** Page extraction: the cap of the group-selection stage *)

Module ScreenshotFallbackFacts.

Import ScreenshotFallback.

Lemma Device_eqb_eq (a b : Device) : Device_eqb a b = true <-> a = b.
Proof. destruct a, b; simpl; split; intros H; congruence. Qed.

Lemma devicePatterns_in (d : Device) (patternGroups : list PatternGroup)
  (g : PatternGroup) :
  In g (devicePatterns d patternGroups) ->
  In g patternGroups /\ deviceType g = d.
Proof.
  unfold devicePatterns. intros H.
  apply JsFacts.sort_in, filter_In in H as [H1 H2].
  split; [exact H1|apply Device_eqb_eq, H2].
Qed.

Lemma selectLoop_length (maxScreenshots : Z) (groups : list PatternGroup)
  (totalScreenshots : Z) (kept : list string) :
  Js.len kept = totalScreenshots -> totalScreenshots <= maxScreenshots ->
  Js.len (selectLoop maxScreenshots groups totalScreenshots kept)
  <= maxScreenshots.
Proof.
  revert totalScreenshots kept.
  induction groups as [|g rest IH]; intros total kept Hk Hle; simpl.
  - lia.
  - destruct (maxScreenshots <=? total) eqn:E; [lia|].
    apply Z.leb_gt in E.
    destruct ((if total =? 0 then 1 else 2) <=? confidence g).
    + apply IH; [|lia].
      unfold Js.len in *. rewrite length_app. simpl. lia.
    + apply IH; assumption.
Qed.

(** The URL kept for a group is the best-quality URL of a group of the
    device class at hand. *)
Definition best_of_group (d : Device) (patternGroups : list PatternGroup)
  (u : string) : Prop :=
  exists g, In g patternGroups /\ deviceType g = d
            /\ u = selectBestQualityUrl (urls g).

Lemma selectLoop_members (d : Device) (patternGroups : list PatternGroup)
  (maxScreenshots : Z) (groups : list PatternGroup)
  (totalScreenshots : Z) (kept : list string) :
  (forall g, In g groups -> In g patternGroups /\ deviceType g = d) ->
  Forall (best_of_group d patternGroups) kept ->
  Forall (best_of_group d patternGroups)
         (selectLoop maxScreenshots groups totalScreenshots kept).
Proof.
  revert totalScreenshots kept.
  induction groups as [|g rest IH]; intros total kept Hg Hk; simpl.
  - exact Hk.
  - destruct (maxScreenshots <=? total); [exact Hk|].
    assert (forall g0, In g0 rest -> In g0 patternGroups /\ deviceType g0 = d)
      as Hrest by (intros g0 H0; apply Hg; right; exact H0).
    destruct ((if total =? 0 then 1 else 2) <=? confidence g).
    + apply IH; [exact Hrest|].
      apply Forall_app. split; [exact Hk|].
      constructor; [|constructor].
      destruct (Hg g (or_introl eq_refl)) as [H1 H2].
      exists g. auto.
    + apply IH; assumption.
Qed.

Lemma semanticLoop_length (screenshots seen result : list string) :
  Js.len (semanticLoop screenshots seen result)
  <= Js.len result + Js.len screenshots.
Proof.
  revert seen result.
  induction screenshots as [|u rest IH]; intros seen result; simpl.
  - unfold Js.len; simpl; lia.
  - assert (Js.len (u :: rest) = 1 + Js.len rest) as ->
      by (unfold Js.len; simpl List.length; lia).
    assert (Js.len (result ++ [u])%list = Js.len result + 1) as Hsnoc
      by (unfold Js.len; rewrite length_app; simpl; lia).
    destruct (match_uuid u) as [[uuid filename]|].
    + destruct (existsb _ seen).
      * specialize (IH seen result). lia.
      * specialize (IH (seen ++ [strip_version_suffix filename])%list
                       (result ++ [u])%list). lia.
    + specialize (IH seen (result ++ [u])%list). lia.
Qed.

Definition screenshotUrl (n name : string) : string :=
  "https://is1-ssl.mzstatic.com/image/thumb/Purple/v4/aa/bb/cc/0000000" ++ n
  ++ "-1111-2222-3333-444455556666/" ++ name ++ n ++ ".png/392x696bb.jpg".

(** Seven tablet groups, each of confidence 3. *)
Definition sevenTabletGroups : list PatternGroup :=
  map classify
    (groupScreenshotsByPattern
       (map (fun n => screenshotUrl n "APP_IPAD_PRO_")
            ["1"; "2"; "3"; "4"; "5"; "6"; "7"])).

(** Nine phone groups, each of confidence 3. *)
Definition ninePhoneGroups : list PatternGroup :=
  map classify
    (groupScreenshotsByPattern
       (map (fun n => screenshotUrl n "ImageGen_")
            ["1"; "2"; "3"; "4"; "5"; "6"; "7"; "8"; "9"])).

(** The tablet cap is 6: of seven tablet groups that all pass the
    confidence threshold, six are kept, where a limit of 8 would keep all
    seven. *)
Example selectForDevice_ipad_keeps_6_of_7 :
  map (fun g => (deviceType g, confidence g)) sevenTabletGroups
  = repeat (ipad, 3) 7
  /\ List.length (selectForDevice ipad sevenTabletGroups) = 6%nat
  /\ List.length (selectLoop 8 (devicePatterns ipad sevenTabletGroups) 0 [])
     = 7%nat.
Proof. repeat split; vm_compute; reflexivity. Qed.

(** The phone cap is reached: of nine eligible phone groups, eight are
    kept. *)
Example selectForDevice_iphone_keeps_8_of_9 :
  List.length (selectForDevice iphone ninePhoneGroups) = 8%nat.
Proof. vm_compute. reflexivity. Qed.

(** ** Page extraction: cleaning, deduplication, the result *)

(** *** [deduplicateScreenshots]: the largest URL of each base id *)

Lemma string_eqb_eq (a b : string) : String.eqb a b = true <-> a = b.
Proof. apply String.eqb_eq. Qed.

Lemma smap_get_set_same (k v : string) (m : list (string * string)) :
  Js.map_get String.eqb k (Js.map_set String.eqb k v m) = Some v.
Proof.
  induction m as [|[k' v'] t IH]; simpl.
  - rewrite String.eqb_refl. reflexivity.
  - destruct (String.eqb k' k) eqn:E; simpl; rewrite E; [reflexivity|exact IH].
Qed.

Lemma smap_get_set_other (k k0 v : string) (m : list (string * string)) :
  k0 <> k ->
  Js.map_get String.eqb k0 (Js.map_set String.eqb k v m)
  = Js.map_get String.eqb k0 m.
Proof.
  intros Hne. induction m as [|[k' v'] t IH]; simpl.
  - destruct (String.eqb_spec k k0); [congruence|reflexivity].
  - destruct (String.eqb_spec k' k) as [->|Hk]; simpl.
    + destruct (String.eqb_spec k k0); [congruence|reflexivity].
    + destruct (String.eqb_spec k' k0); [reflexivity|exact IH].
Qed.

Lemma smap_In_get (k v : string) (m : list (string * string)) :
  NoDup (map fst m) -> In (k, v) m -> Js.map_get String.eqb k m = Some v.
Proof.
  induction m as [|[k' v'] t IH]; simpl; intros Hnd; [intros []|].
  inversion Hnd as [|? ? Hnotin Ht]; subst.
  intros [[= -> ->]|Hin].
  - rewrite String.eqb_refl. reflexivity.
  - destruct (String.eqb_spec k' k) as [->|Hne]; [|apply IH; assumption].
    exfalso. apply Hnotin. apply in_map_iff. exists (k, v). auto.
Qed.

(** The map of [deduplicateScreenshots] after the URLs [seen]. *)
Definition unique_inv (seen : list string) (m : list (string * string))
  : Prop :=
  NoDup (map fst m)
  /\ (forall k v, In (k, v) m ->
                  In v seen /\ Js.truthy v = true /\ baseIdOf v = k)
  /\ (forall u, In u seen -> Js.truthy u = true ->
        exists v, Js.map_get String.eqb (baseIdOf u) m = Some v
                  /\ total u <= total v).

Lemma uniqueStep_inv (seen : list string) (m : list (string * string))
  (url : string) :
  unique_inv seen m -> unique_inv (seen ++ [url]) (uniqueStep m url).
Proof.
  intros (Hnd & Ha & Hb). unfold uniqueStep.
  assert (forall k v, In (k, v) m ->
             In v (seen ++ [url]) /\ Js.truthy v = true /\ baseIdOf v = k)
    as Ha'.
  { intros k v H. destruct (Ha k v H) as (H1 & H2 & H3).
    split; [apply in_or_app; left; exact H1|auto]. }
  destruct (Js.truthy url) eqn:Ht; cbn [negb].
  2:{ split; [exact Hnd|]. split; [exact Ha'|].
      intros u Hu Htu. apply in_app_or in Hu as [Hu|[<-|[]]];
        [auto|congruence]. }
  assert (forall w,
             (forall v, Js.map_get String.eqb (baseIdOf url) m = Some v ->
                        total v <= total w) ->
             total url <= total w ->
             (w = url \/ Js.map_get String.eqb (baseIdOf url) m = Some w) ->
             forall m',
               NoDup (map fst m') ->
               (forall k v, In (k, v) m' -> (k, v) = (baseIdOf url, w) \/ In (k, v) m) ->
               Js.map_get String.eqb (baseIdOf url) m' = Some w ->
               (forall k0, k0 <> baseIdOf url ->
                           Js.map_get String.eqb k0 m'
                           = Js.map_get String.eqb k0 m) ->
               unique_inv (seen ++ [url]) m') as Hgen.
  { intros w Hold Hnew Hw m' Hnd' Hin' Hsame Hother.
    split; [exact Hnd'|]. split.
    - intros k v H. destruct (Hin' k v H) as [[= -> ->]|Hm]; [|auto].
      destruct Hw as [->|Hw].
      + split; [apply in_or_app; right; left; reflexivity|auto].
      + apply JsFacts.map_get_In in Hw; [|apply string_eqb_eq]. auto.
    - intros u Hu Htu. apply in_app_or in Hu as [Hu|[<-|[]]].
      + destruct (Hb u Hu Htu) as (v & Hv & Hle).
        destruct (String.eqb_spec (baseIdOf u) (baseIdOf url)) as [Heq|Hne].
        * rewrite Heq in *. exists w. split; [exact Hsame|].
          specialize (Hold v Hv). lia.
        * exists v. rewrite Hother by exact Hne. auto.
      + exists w. auto. }
  destruct (Js.map_get String.eqb (baseIdOf url) m) as [existing|] eqn:Eg.
  - assert (Js.truthy existing = true) as Hte.
    { apply JsFacts.map_get_In in Eg; [|apply string_eqb_eq].
      apply (Ha _ _ Eg). }
    rewrite Hte. cbn [negb].
    destruct (total existing <? total url) eqn:Elt.
    + apply Z.ltb_lt in Elt.
      apply (Hgen url).
      * intros v [= <-]. lia.
      * lia.
      * left. reflexivity.
      * apply JsFacts.map_set_NoDup; [apply string_eqb_eq|exact Hnd].
      * intros k v H.
        apply (JsFacts.map_set_In _ _ _ string_eqb_eq) in H. exact H.
      * apply smap_get_set_same.
      * intros k0 Hk0. apply smap_get_set_other, Hk0.
    + apply Z.ltb_ge in Elt.
      apply (Hgen existing).
      * intros v [= <-]. lia.
      * exact Elt.
      * right. reflexivity.
      * exact Hnd.
      * intros k v H. right. exact H.
      * exact Eg.
      * reflexivity.
  - apply (Hgen url).
    + intros v [=].
    + lia.
    + left. reflexivity.
    + apply JsFacts.map_set_NoDup; [apply string_eqb_eq|exact Hnd].
    + intros k v H.
      apply (JsFacts.map_set_In _ _ _ string_eqb_eq) in H. exact H.
    + apply smap_get_set_same.
    + intros k0 Hk0. apply smap_get_set_other, Hk0.
Qed.

Lemma uniqueStep_all_inv (l seen : list string) (m : list (string * string)) :
  unique_inv seen m -> unique_inv (seen ++ l) (fold_left uniqueStep l m).
Proof.
  revert seen m. induction l as [|url t IH]; intros seen m H; simpl.
  - rewrite app_nil_r. exact H.
  - replace (seen ++ url :: t)%list with ((seen ++ [url]) ++ t)%list
      by (rewrite <- app_assoc; reflexivity).
    apply IH, uniqueStep_inv, H.
Qed.

Lemma uniqueStep_length (l : list string) (m : list (string * string)) :
  (List.length (fold_left uniqueStep l m) <= List.length m + List.length l)%nat.
Proof.
  revert m. induction l as [|url t IH]; intros m; simpl; [lia|].
  eapply Nat.le_trans; [apply IH|].
  assert (List.length (uniqueStep m url) <= Datatypes.S (List.length m))%nat;
    [|lia].
  unfold uniqueStep.
  pose proof (JsFacts.map_set_length _ _ String.eqb (baseIdOf url) url m).
  destruct (negb (Js.truthy url)); [lia|].
  destruct (Js.map_get String.eqb (baseIdOf url) m) as [existing|]; [|lia].
  destruct (negb (Js.truthy existing)); [lia|].
  destruct (total existing <? total url); lia.
Qed.

Lemma deduplicateScreenshots_values (screenshots : list string) :
  deduplicateScreenshots screenshots
  = map snd (fold_left uniqueStep screenshots [])
  /\ unique_inv screenshots (fold_left uniqueStep screenshots []).
Proof.
  assert (unique_inv screenshots (fold_left uniqueStep screenshots [])) as H.
  { apply (uniqueStep_all_inv screenshots [] []).
    split; [constructor|]. split; [intros k v []|intros u []]. }
  split; [|exact H].
  unfold deduplicateScreenshots.
  destruct H as (_ & Ha & _).
  induction (fold_left uniqueStep screenshots []) as [|[k v] t IH];
    [reflexivity|].
  cbn [map snd List.filter].
  destruct (Ha k v (or_introl eq_refl)) as (_ & -> & _).
  f_equal. apply IH. intros k0 v0 H0. apply Ha. right. exact H0.
Qed.

Lemma deduplicateScreenshots_incl (screenshots : list string) (u : string) :
  In u (deduplicateScreenshots screenshots) ->
  In u screenshots /\ Js.truthy u = true.
Proof.
  destruct (deduplicateScreenshots_values screenshots) as [-> (_ & Ha & _)].
  intros H. apply in_map_iff in H as [[k v] [<- H]].
  destruct (Ha k v H) as (H1 & H2 & _). auto.
Qed.

Lemma deduplicateScreenshots_length (screenshots : list string) :
  Js.len (deduplicateScreenshots screenshots) <= Js.len screenshots.
Proof.
  destruct (deduplicateScreenshots_values screenshots) as [-> _].
  unfold Js.len. rewrite length_map.
  pose proof (uniqueStep_length screenshots []). simpl in *. lia.
Qed.

(** X22.  [deduplicateScreenshots] keeps one URL for each base id of the
    input, the one of the largest pixel area: the URLs kept are non-empty
    input URLs with pairwise distinct base ids, and every non-empty input
    URL has its base id kept, by a URL that is at least as large when the
    dimensions and pixel areas of the input are below 2^53
    ([Js.exact_area]: the doubles of the code are then the integers
    compared here). *)
Theorem deduplicateScreenshots_largest_per_base_id (screenshots : list string) :
  let kept := deduplicateScreenshots screenshots in
  Forall (fun u => In u screenshots /\ Js.truthy u = true) kept
  /\ NoDup (map baseIdOf kept)
  /\ (forall u, In u screenshots -> Js.truthy u = true ->
        exists v, In v kept /\ baseIdOf v = baseIdOf u
                  /\ ((forall w, In w screenshots -> Js.exact_area w = true) ->
                      total u <= total v))
  /\ Js.len kept <= Js.len screenshots.
Proof.
  cbv zeta. split; [|split; [|split]].
  - apply Forall_forall. intros u. apply deduplicateScreenshots_incl.
  - destruct (deduplicateScreenshots_values screenshots)
      as [-> (Hnd & Ha & _)].
    replace (map baseIdOf (map snd (fold_left uniqueStep screenshots [])))
      with (map fst (fold_left uniqueStep screenshots [])); [exact Hnd|].
    rewrite map_map. apply map_ext_in. intros [k v] H.
    destruct (Ha k v H) as (_ & _ & E). symmetry. exact E.
  - destruct (deduplicateScreenshots_values screenshots)
      as [-> (Hnd & Ha & Hb)].
    intros u Hu Ht. destruct (Hb u Hu Ht) as (v & Hv & Hle).
    apply JsFacts.map_get_In in Hv; [|apply string_eqb_eq].
    exists v. split; [|split; [apply (Ha _ _ Hv)|intros _; exact Hle]].
    apply in_map_iff. exists (baseIdOf u, v). auto.
  - apply deduplicateScreenshots_length.
Qed.

(** *** What [extractScreenshotsFromWeb] returns *)

Lemma limitTo_incl (n : Z) (l : list string) (u : string) :
  In u (limitTo n l) -> In u l.
Proof.
  unfold limitTo. destruct (n <? Js.len l); [apply JsFacts.slice0_incl|auto].
Qed.

Lemma limitTo_len (n : Z) (l : list string) :
  0 <= n -> Js.len (limitTo n l) <= n /\ Js.len (limitTo n l) <= Js.len l.
Proof.
  intros Hn. unfold limitTo. destruct (Z.ltb_spec n (Js.len l)).
  - rewrite JsFacts.slice0_len by exact Hn. lia.
  - lia.
Qed.

Lemma filter_nil_forall {A : Type} (f : A -> bool) (l : list A) (x : A) :
  List.filter f l = [] -> In x l -> f x = false.
Proof.
  intros H Hx. destruct (f x) eqn:E; [|reflexivity].
  assert (In x (List.filter f l)) as Hin by (apply filter_In; auto).
  rewrite H in Hin. destruct Hin.
Qed.

Lemma applyConservativeValidation_incl (l : list string) (d : Device)
  (u : string) :
  In u (applyConservativeValidation l d) ->
  In u l
  /\ (d = ipad -> 2 <= indicatorCount u /\ isContaminated u = false).
Proof.
  unfold applyConservativeValidation. destruct l as [|x t]; [intros []|].
  set (l := x :: t).
  destruct (_ <? Js.len (map fst (groupScreenshotsByPattern l)));
    [intros []|].
  destruct d; try (intros H; split; [exact H|discriminate]).
  destruct (0 <? Js.len (List.filter isContaminated l)) eqn:Ec; [intros []|].
  assert (List.filter isContaminated l = []) as Hnil.
  { apply Z.ltb_ge in Ec. unfold Js.len in Ec.
    destruct (List.filter isContaminated l); [reflexivity|].
    cbn [List.length] in Ec. lia. }
  destruct (_ && _); [intros []|].
  intros H. apply filter_In in H as [H1 H2]. split; [exact H1|].
  intros _. split; [apply Z.leb_le, H2|].
  exact (filter_nil_forall _ _ _ Hnil H1).
Qed.

Lemma applyConservativeValidation_len (l : list string) (d : Device) :
  Js.len (applyConservativeValidation l d) <= Js.len l.
Proof.
  pose proof (JsFacts.len_nonneg l) as Hl.
  unfold applyConservativeValidation. destruct l as [|x t]; [cbn; lia|].
  set (l := x :: t) in *.
  destruct (_ <? Js.len (map fst (groupScreenshotsByPattern l)));
    [exact Hl|].
  destruct d; try lia.
  destruct (0 <? Js.len (List.filter isContaminated l)); [exact Hl|].
  destruct (_ && _); [exact Hl|apply JsFacts.len_filter].
Qed.

Lemma set_add_incl (x y : string) (l : list string) :
  In y (Js.set_add String.eqb x l) -> y = x \/ In y l.
Proof.
  induction l as [|z t IH]; simpl.
  - intros [<-|[]]. left. reflexivity.
  - destruct (String.eqb z x); [intros H; right; exact H|].
    intros [<-|H]; [right; left; reflexivity|].
    destruct (IH H); auto.
Qed.

Lemma uniq_from_incl (l acc : list string) (y : string) :
  In y (fold_left (fun acc x => Js.set_add String.eqb x acc) l acc) ->
  In y acc \/ In y l.
Proof.
  revert acc. induction l as [|x t IH]; intros acc; simpl; [auto|].
  intros H. destruct (IH _ H) as [H1|H1]; [|auto].
  destruct (set_add_incl _ _ _ H1) as [->|H2]; auto.
Qed.

Lemma uniq_from_length (l acc : list string) :
  (List.length (fold_left (fun acc x => Js.set_add String.eqb x acc) l acc)
   <= List.length acc + List.length l)%nat.
Proof.
  revert acc. induction l as [|x t IH]; intros acc; simpl; [lia|].
  eapply Nat.le_trans; [apply IH|].
  pose proof (JsFacts.set_add_length String.eqb x acc). lia.
Qed.

Lemma cleanAll_In (l : list string) (u : string) :
  In u (cleanAll l) -> exists raw, In raw l /\ cleanScreenshotUrl raw = Some u.
Proof.
  unfold cleanAll. intros H. apply filter_In in H as [H _].
  apply in_flat_map in H as (raw & Hraw & Hu).
  apply filter_In in Hraw as [Hraw _].
  destruct (uniq_from_incl _ _ _ Hraw) as [[]|Hin].
  exists raw. split; [exact Hin|].
  destruct (cleanScreenshotUrl raw) as [c|]; [|destruct Hu].
  destruct Hu as [<-|[]]. reflexivity.
Qed.

Lemma flat_map_option_length {A B : Type} (f : A -> option B) (l : list A) :
  (List.length (flat_map (fun x => match f x with
                                   | Some y => [y]
                                   | None => []
                                   end) l)
   <= List.length l)%nat.
Proof.
  induction l as [|x t IH]; simpl; [lia|].
  rewrite length_app. destruct (f x); simpl; lia.
Qed.

Lemma cleanAll_len (l : list string) : Js.len (cleanAll l) <= Js.len l.
Proof.
  unfold cleanAll, Js.len.
  pose proof (filter_length_le Js.truthy
                (flat_map (fun url => match cleanScreenshotUrl url with
                                      | Some cleaned => [cleaned]
                                      | None => []
                                      end)
                   (List.filter Js.truthy (Js.uniq String.eqb l)))) as H1.
  pose proof (flat_map_option_length cleanScreenshotUrl
                (List.filter Js.truthy (Js.uniq String.eqb l))) as H2.
  pose proof (filter_length_le Js.truthy (Js.uniq String.eqb l)) as H3.
  pose proof (uniq_from_length l []) as H4. unfold Js.uniq in *.
  simpl in H4. lia.
Qed.

Lemma cleanScreenshotUrl_http (raw u : string) :
  cleanScreenshotUrl raw = Some u -> Js.startsWith u "http" = true.
Proof.
  unfold cleanScreenshotUrl.
  match goal with
  | |- (if negb ?c then _ else _) = _ -> _ => destruct c eqn:E
  end; cbn [negb]; [|discriminate].
  intros [= <-]. exact E.
Qed.

Lemma semanticLoop_incl (l seen result : list string) (u : string) :
  In u (semanticLoop l seen result) -> In u result \/ In u l.
Proof.
  revert seen result. induction l as [|x t IH]; intros seen result; simpl;
    [auto|].
  destruct (match_uuid x) as [[uuid filename]|].
  - destruct (existsb _ seen); intros H; destruct (IH _ _ H) as [H1|H1]; auto.
    apply in_app_or in H1 as [H1|[<-|[]]]; auto.
  - intros H. destruct (IH _ _ H) as [H1|H1]; auto.
    apply in_app_or in H1 as [H1|[<-|[]]]; auto.
Qed.

Lemma selectBestQualityUrl_In (l : list string) :
  l <> [] -> In (selectBestQualityUrl l) l.
Proof.
  destruct l as [|first others]; [congruence|]. intros _.
  unfold selectBestQualityUrl.
  assert (forall best,
             In (fold_left (fun best current =>
                              if total best <? total current
                              then current else best) others best)
                (best :: others)) as H.
  { induction others as [|c t IH]; intros best; simpl; [auto|].
    destruct (IH (if total best <? total c then c else best)) as [H|H].
    - destruct (total best <? total c); [right; left|left]; exact H.
    - right. right. exact H. }
  destruct others as [|o os]; [left; reflexivity|apply H].
Qed.

(** Every group holds a URL, and only URLs of the input. *)
Definition groups_within (input : list string)
  (groups : list (string * list string)) : Prop :=
  forall k us, In (k, us) groups -> us <> [] /\ forall u, In u us -> In u input.

Lemma groups_add_within (input : list string) (k url : string)
  (groups : list (string * list string)) :
  In url input -> groups_within input groups ->
  groups_within input (groups_add k url groups).
Proof.
  intros Hurl. induction groups as [|[k0 us0] t IH]; intros Hg; simpl.
  - intros k1 us1 [[= <- <-]|[]]. split; [discriminate|].
    intros u [<-|[]]. exact Hurl.
  - assert (groups_within input t) as Ht
        by (intros k1 us1 H1; apply (Hg k1 us1); right; exact H1).
    destruct (String.eqb k0 k).
    + intros k1 us1 [[= <- <-]|H1]; [|apply (Ht k1 us1 H1)].
      destruct (Hg k0 us0 (or_introl eq_refl)) as [Hne Hin].
      split; [destruct us0; discriminate|].
      intros u Hu. apply in_app_or in Hu as [Hu|[<-|[]]]; auto.
    + intros k1 us1 [[= <- <-]|H1].
      * apply (Hg k0 us0). left. reflexivity.
      * apply (IH Ht k1 us1 H1).
Qed.

Lemma groupScreenshotsByPattern_within (input : list string) :
  groups_within input (groupScreenshotsByPattern input).
Proof.
  unfold groupScreenshotsByPattern.
  assert (forall l groups,
             (forall u, In u l -> In u input) ->
             groups_within input groups ->
             groups_within input
               (fold_left
                  (fun groups url =>
                     match match_uuid url with
                     | Some (uuid, filename) =>
                         groups_add (Js.str uuid ++ "/" ++ Js.str filename)
                           url groups
                     | None => groups
                     end) l groups)) as H.
  { induction l as [|x t IH]; intros groups Hl Hg; simpl; [exact Hg|].
    apply IH; [intros u Hu; apply Hl; right; exact Hu|].
    destruct (match_uuid x) as [[uuid filename]|]; [|exact Hg].
    apply groups_add_within; [apply Hl; left; reflexivity|exact Hg]. }
  apply H; [auto|intros k us []].
Qed.

Lemma selectPrimary_In (d : Device) (input : list string) (u : string) :
  In u (deduplicateSemanticDuplicates
          (selectForDevice d (map classify (groupScreenshotsByPattern input)))) ->
  In u input.
Proof.
  unfold deduplicateSemanticDuplicates. intros H.
  apply semanticLoop_incl in H as [[]|H].
  pose proof (selectLoop_members d
                (map classify (groupScreenshotsByPattern input))
                (maxScreenshotsFor d)
                (devicePatterns d
                   (map classify (groupScreenshotsByPattern input)))
                0 [] (devicePatterns_in d _) (Forall_nil _)) as Hall.
  rewrite Forall_forall in Hall.
  destruct (Hall u H) as (g & Hg & _ & ->).
  apply in_map_iff in Hg as [[k us] [<- He]].
  destruct (groupScreenshotsByPattern_within input k us He) as [Hne Hin].
  apply Hin. cbn. apply selectBestQualityUrl_In, Hne.
Qed.

Lemma selectPrimary_len (d : Device) (groups : list (string * list string)) :
  Js.len (deduplicateSemanticDuplicates
            (selectForDevice d (map classify groups)))
  <= maxScreenshotsFor d.
Proof.
  unfold deduplicateSemanticDuplicates.
  pose proof (semanticLoop_length
                (selectForDevice d (map classify groups)) [] []) as H.
  change (Js.len (@nil string)) with 0 in H.
  pose proof (selectLoop_length (maxScreenshotsFor d)
                (devicePatterns d (map classify groups)) 0 [] eq_refl) as H1.
  unfold selectForDevice in *.
  assert (0 <= maxScreenshotsFor d) by (destruct d; cbn; lia).
  lia.
Qed.

(** A URL of the result: the cleaned form of a URL of the content
    delivery network that the page holds and that looks like a
    screenshot. *)
Definition found_on_page (html u : string) : Prop :=
  exists raw,
    In raw (mzstaticUrls 0 (Js.chars html))
    /\ isPotentialScreenshot raw = true
    /\ cleanScreenshotUrl raw = Some u.

Lemma cleaned_found (d : Device) (html u : string) :
  In u (deduplicateScreenshots
          (cleanAll
             (deduplicateSemanticDuplicates
                (selectForDevice d
                   (map classify
                      (groupScreenshotsByPattern
                         (List.filter isPotentialScreenshot
                            (mzstaticUrls 0 (Js.chars html))))))))) ->
  found_on_page html u.
Proof.
  intros H. apply deduplicateScreenshots_incl in H as [H _].
  apply cleanAll_In in H as (raw & Hraw & Hc).
  apply selectPrimary_In in Hraw. apply filter_In in Hraw as [H1 H2].
  exists raw. auto.
Qed.

Lemma cleaned_len (d : Device) (groups : list (string * list string)) :
  Js.len (deduplicateScreenshots
            (cleanAll
               (deduplicateSemanticDuplicates
                  (selectForDevice d (map classify groups)))))
  <= maxScreenshotsFor d.
Proof.
  eapply Z.le_trans; [apply deduplicateScreenshots_length|].
  eapply Z.le_trans; [apply cleanAll_len|apply selectPrimary_len].
Qed.

Lemma screenshotsFromHtml_result (html : string) :
  let r := screenshotsFromHtml html in
  Js.len (ScreenshotChain.web_screenshots r) <= 8
  /\ Js.len (ScreenshotChain.web_ipadScreenshots r) <= 6
  /\ Js.len (ScreenshotChain.web_appletvScreenshots r) <= 6
  /\ (forall u,
        In u (ScreenshotChain.web_screenshots r
              ++ ScreenshotChain.web_ipadScreenshots r
              ++ ScreenshotChain.web_appletvScreenshots r)%list ->
        found_on_page html u)
  /\ Forall (fun u => 2 <= indicatorCount u /\ isContaminated u = false)
            (ScreenshotChain.web_ipadScreenshots r).
Proof.
  cbv zeta. unfold screenshotsFromHtml, selectPrimaryScreenshotGroups.
  cbn [g_iphone g_ipad g_appletv ScreenshotChain.web_screenshots
       ScreenshotChain.web_ipadScreenshots
       ScreenshotChain.web_appletvScreenshots].
  set (groups := groupScreenshotsByPattern _).
  split; [|split; [|split; [|split]]].
  - apply limitTo_len. lia.
  - eapply Z.le_trans; [apply limitTo_len; lia|].
    eapply Z.le_trans; [apply applyConservativeValidation_len|].
    apply (cleaned_len ipad).
  - apply limitTo_len. lia.
  - intros u Hu.
    apply in_app_or in Hu as [Hu|Hu]; [|apply in_app_or in Hu as [Hu|Hu]];
      apply limitTo_incl in Hu.
    + apply applyConservativeValidation_incl in Hu as [Hu _].
      exact (cleaned_found iphone html u Hu).
    + apply applyConservativeValidation_incl in Hu as [Hu _].
      exact (cleaned_found ipad html u Hu).
    + exact (cleaned_found appletv html u Hu).
  - apply Forall_forall. intros u Hu. apply limitTo_incl in Hu.
    apply applyConservativeValidation_incl in Hu as [_ Hu].
    apply Hu. reflexivity.
Qed.

(** *** [cleanScreenshotUrl] *)

Definition has_backslash (l : list ascii) : Prop := In backslash l.

Lemma str_chars (s : string) : Js.str (Js.chars s) = s.
Proof. apply string_of_list_ascii_of_string. Qed.

Lemma chars_str (l : list ascii) : Js.chars (Js.str l) = l.
Proof. apply list_ascii_of_string_of_list_ascii. Qed.

Lemma prefix_rest_app (p l r : list ascii) :
  Js.prefix_rest p l = Some r -> l = (p ++ r)%list.
Proof.
  revert l. induction p as [|a p IH]; intros l; simpl.
  - intros [= ->]. reflexivity.
  - destruct l as [|b l]; [discriminate|].
    destruct (Js.ascii_eqb a b) eqn:E; [|discriminate].
    apply Ascii.eqb_eq in E. subst b. intros H. f_equal. apply IH, H.
Qed.

Lemma replace_first_by_incl (p by_ l : list ascii) (c : ascii) :
  In c (Js.replace_first_by (Js.prefix_rest p) by_ l) -> In c by_ \/ In c l.
Proof.
  induction l as [|x t IH]; simpl.
  - destruct (Js.prefix_rest p []) as [r|] eqn:E; [|intros []].
    apply prefix_rest_app in E. intros H.
    apply in_app_or in H as [H|H]; [auto|].
    symmetry in E. apply app_eq_nil in E as [_ ->]. destruct H.
  - destruct (Js.prefix_rest p (x :: t)) as [r|] eqn:E.
    + apply prefix_rest_app in E. intros H.
      apply in_app_or in H as [H|H]; [auto|].
      right. change (In c (x :: t)). rewrite E.
      apply in_or_app. right. exact H.
    + intros [<-|H]; [right; left; reflexivity|].
      destruct (IH H); auto.
Qed.

Lemma replace_first_by_none (p by_ l : list ascii) :
  Js.includes_l p l = false ->
  Js.replace_first_by (Js.prefix_rest p) by_ l = l.
Proof.
  unfold Js.includes_l. induction l as [|x t IH]; simpl.
  - destruct (Js.prefix_rest p []); [discriminate|reflexivity].
  - destruct (Js.prefix_rest p (x :: t)); [discriminate|].
    intros H. f_equal. apply IH, H.
Qed.

Lemma filter_no_backslash (l : list ascii) :
  ~ has_backslash l ->
  List.filter (fun c => negb (Js.ascii_eqb c backslash)) l = l.
Proof.
  unfold has_backslash. induction l as [|x t IH]; simpl; [reflexivity|].
  intros H. destruct (Js.ascii_eqb x backslash) eqn:E; cbn [negb].
  - apply Ascii.eqb_eq in E. exfalso. apply H. left. exact E.
  - f_equal. apply IH. intros Ht. apply H. right. exact Ht.
Qed.

Lemma filtered_no_backslash (l : list ascii) :
  ~ has_backslash
      (List.filter (fun c => negb (Js.ascii_eqb c backslash)) l).
Proof.
  unfold has_backslash. intros H. apply filter_In in H as [_ H].
  unfold Js.ascii_eqb in H. rewrite Ascii.eqb_refl in H. discriminate.
Qed.

Lemma standardSize_no_backslash : ~ has_backslash standardSize.
Proof.
  unfold has_backslash, standardSize. cbn.
  intros H. repeat (destruct H as [H|H]; [discriminate H|]). exact H.
Qed.

Lemma sized_no_backslash (url1 : list ascii) :
  ~ has_backslash url1 ->
  ~ has_backslash
      (if Js.includes_l sizeTemplate url1 then
         Js.replace_first_by (Js.prefix_rest sizeTemplate) standardSize
           (Js.replace_first_by (Js.prefix_rest sizeTemplateEscaped)
              standardSize url1)
       else url1).
Proof.
  intros H1. destruct (Js.includes_l sizeTemplate url1); [|exact H1].
  unfold has_backslash. intros H.
  apply replace_first_by_incl in H as [H|H];
    [exact (standardSize_no_backslash H)|].
  apply replace_first_by_incl in H as [H|H];
    [exact (standardSize_no_backslash H)|exact (H1 H)].
Qed.

(** X25.  A URL that [cleanScreenshotUrl] returns starts with http and
    holds no backslash; and a URL without backslash and without the size
    template is returned as it is when it starts with http, and dropped
    otherwise. *)
Theorem cleanScreenshotUrl_cleans (url : string) :
  (forall c, cleanScreenshotUrl url = Some c ->
             Js.startsWith c "http" = true /\ ~ has_backslash (Js.chars c))
  /\ (~ has_backslash (Js.chars url) ->
      Js.includes url "{w}x{h}{c}.{f}" = false ->
      cleanScreenshotUrl url
      = if Js.startsWith url "http" then Some url else None).
Proof.
  split.
  - intros c Hc. split; [exact (cleanScreenshotUrl_http _ _ Hc)|].
    revert Hc. unfold cleanScreenshotUrl.
    set (url1 := List.filter _ (Js.chars url)).
    pose proof (sized_no_backslash url1
                  (filtered_no_backslash (Js.chars url))) as H2.
    set (url2 := if Js.includes_l sizeTemplate url1 then _ else url1) in *.
    clearbody url2.
    destruct (negb (Js.startsWith (Js.str url2) "http")); [discriminate|].
    intros Hc. injection Hc as <-. rewrite chars_str. exact H2.
  - intros Hb Hi. unfold cleanScreenshotUrl.
    rewrite (filter_no_backslash _ Hb).
    unfold Js.includes in Hi.
    change (Js.chars "{w}x{h}{c}.{f}") with sizeTemplate in Hi.
    rewrite Hi, str_chars.
    destruct (Js.startsWith url "http"); reflexivity.
Qed.

(** *** [selectBestQualityUrl] and [deduplicateSemanticDuplicates] *)

Lemma best_fold_largest (others : list string) (best : string) :
  let r := fold_left (fun best current =>
                        if total best <? total current then current else best)
                     others best in
  total best <= total r /\ Forall (fun u => total u <= total r) others.
Proof.
  revert best. induction others as [|c t IH]; intros best; cbn [fold_left].
  - split; [lia|constructor].
  - cbv zeta in IH.
    destruct (IH (if total best <? total c then c else best)) as [H1 H2].
    destruct (Z.ltb_spec (total best) (total c)).
    + split; [lia|]. constructor; [exact H1|exact H2].
    + split; [exact H1|]. constructor; [lia|exact H2].
Qed.

(** X26.  Of a group of URLs, [selectBestQualityUrl] returns one of the
    group, and one of the largest pixel area when the dimensions and pixel
    areas of the group are below 2^53 ([Js.exact_area]: the doubles of the
    code are then the integers compared here). *)
Theorem selectBestQualityUrl_largest (urls : list string) :
  urls <> [] ->
  In (selectBestQualityUrl urls) urls
  /\ ((forall u, In u urls -> Js.exact_area u = true) ->
      Forall (fun u => total u <= total (selectBestQualityUrl urls)) urls).
Proof.
  intros Hne. split; [apply selectBestQualityUrl_In, Hne|]. intros _.
  destruct urls as [|first others]; [congruence|].
  destruct others as [|o os].
  - cbn. constructor; [lia|constructor].
  - unfold selectBestQualityUrl.
    destruct (best_fold_largest (o :: os) first) as [H1 H2].
    constructor; assumption.
Qed.

(** X26 at work: three sizes of one screenshot. *)
Lemma selectBestQualityUrl_largest_witness :
  let urls := ["https://cdn.example/a/392x696bb.jpg";
               "https://cdn.example/a/1242x2688bb.jpg";
               "https://cdn.example/a/643x0w.jpg"] in
  In (selectBestQualityUrl urls) urls
  /\ Forall (fun u => total u <= total (selectBestQualityUrl urls)) urls.
Proof.
  cbv zeta.
  destruct (selectBestQualityUrl_largest
              ["https://cdn.example/a/392x696bb.jpg";
               "https://cdn.example/a/1242x2688bb.jpg";
               "https://cdn.example/a/643x0w.jpg"]) as [H1 H2].
  - discriminate.
  - split; [exact H1|]. apply H2.
    intros u Hu. cbn in Hu.
    destruct Hu as [<-|[<-|[<-|[]]]]; vm_compute; reflexivity.
Defined.

(** Beyond 2^53 the integers compared here are not the doubles of the
    code: the areas of the two URLs below differ by one, and the doubles
    nearest to them are the same, so that the code keeps the first URL. *)
Example pixel_areas_beyond_2_53 :
  total "https://cdn.example/a/9007199254740992x1bb.jpg" = 2 ^ 53
  /\ total "https://cdn.example/a/9007199254740993x1bb.jpg" = 2 ^ 53 + 1
  /\ (Double.round (inject_Z (2 ^ 53 + 1)) == inject_Z (2 ^ 53))%Q
  /\ Js.exact_area "https://cdn.example/a/9007199254740993x1bb.jpg" = false.
Proof. repeat split; vm_compute; reflexivity. Qed.

(** The key under which [deduplicateSemanticDuplicates] remembers a URL:
    its file name without version suffix; none for a URL that the
    expression does not match. *)
Definition semanticKey (url : string) : option string :=
  match match_uuid url with
  | Some (_, filename) => Some (strip_version_suffix filename)
  | None => None
  end.

Definition keysOf (urls : list string) : list string :=
  flat_map (fun u => match semanticKey u with
                     | Some k => [k]
                     | None => []
                     end) urls.

Lemma keysOf_app (l1 l2 : list string) :
  keysOf (l1 ++ l2) = (keysOf l1 ++ keysOf l2)%list.
Proof. unfold keysOf. apply flat_map_app. Qed.

Lemma keysOf_In (k : string) (l : list string) :
  In k (keysOf l) <-> exists u, In u l /\ semanticKey u = Some k.
Proof.
  unfold keysOf. rewrite in_flat_map. split.
  - intros (u & Hu & Hk). exists u. split; [exact Hu|].
    destruct (semanticKey u); [|destruct Hk].
    destruct Hk as [<-|[]]. reflexivity.
  - intros (u & Hu & Hk). exists u. split; [exact Hu|].
    rewrite Hk. left. reflexivity.
Qed.

Lemma semanticLoop_spec (l : list string) :
  forall result,
    NoDup (keysOf result) ->
    let kept := semanticLoop l (keysOf result) result in
    NoDup (keysOf kept)
    /\ (exists added, kept = (result ++ added)%list
                      /\ forall u, In u added -> In u l)
    /\ (forall u, In u l -> semanticKey u = None -> In u kept)
    /\ (forall k, In k (keysOf l) -> In k (keysOf kept)).
Proof.
  induction l as [|x t IH]; intros result Hnd; cbn [semanticLoop].
  - split; [exact Hnd|]. split; [exists []; rewrite app_nil_r; split;
                                  [reflexivity|intros u []]|].
    split; [intros u []|intros k []].
  - assert (forall kept : list string,
               (exists added, kept = ((result ++ [x]) ++ added)%list
                              /\ forall u, In u added -> In u t) ->
               exists added, kept = (result ++ added)%list
                             /\ forall u, In u added -> In u (x :: t)) as Hadd.
    { intros kept (added & -> & Hin). exists (x :: added).
      rewrite <- app_assoc. split; [reflexivity|].
      intros u [<-|Hu]; [left; reflexivity|right; apply Hin, Hu]. }
    unfold semanticKey in IH. fold semanticKey in IH.
    destruct (match_uuid x) as [[uuid filename]|] eqn:Em.
    + assert (semanticKey x = Some (strip_version_suffix filename)) as Hkx
          by (unfold semanticKey; rewrite Em; reflexivity).
      destruct (existsb _ (keysOf result)) eqn:Es.
      * (* a key met before: the URL is skipped *)
        assert (In (strip_version_suffix filename) (keysOf result)) as Hin.
        { apply existsb_exists in Es as (k & Hk & E).
          apply String.eqb_eq in E. subst. exact Hk. }
        destruct (IH result Hnd) as (H1 & (added & H2 & H2') & H3 & H4).
        split; [exact H1|]. split.
        { exists added. split; [exact H2|].
          intros u Hu. right. apply H2', Hu. }
        split.
        { intros u [<-|Hu] Hn; [congruence|apply H3; assumption]. }
        intros k Hk. change (x :: t) with ([x] ++ t)%list in Hk.
        rewrite keysOf_app in Hk. apply in_app_or in Hk as [Hk|Hk];
          [|apply H4, Hk].
        unfold keysOf in Hk. cbn in Hk. rewrite Hkx in Hk.
        destruct Hk as [<-|[]]. rewrite H2, keysOf_app.
        apply in_or_app. left. exact Hin.
      * assert (~ In (strip_version_suffix filename) (keysOf result)) as Hnin.
        { intros Hin.
          assert (existsb (String.eqb (strip_version_suffix filename))
                    (keysOf result) = true) as E; [|congruence].
          apply existsb_exists. eexists. split; [exact Hin|].
          apply String.eqb_refl. }
        assert (keysOf (result ++ [x])
                = (keysOf result ++ [strip_version_suffix filename])%list)
          as Hk1.
        { rewrite keysOf_app. f_equal. unfold keysOf. cbn.
          rewrite Hkx. reflexivity. }
        rewrite <- Hk1.
        destruct (IH (result ++ [x])%list) as (H1 & H2 & H3 & H4).
        { rewrite Hk1. apply NoDup_app; [exact Hnd|repeat constructor; intros []|].
          intros k Hk [<-|[]]. exact (Hnin Hk). }
        split; [exact H1|]. split; [apply Hadd, H2|].
        split.
        { intros u [<-|Hu] Hn; [congruence|apply H3; assumption]. }
        intros k Hk. change (x :: t) with ([x] ++ t)%list in Hk.
        rewrite keysOf_app in Hk. apply in_app_or in Hk as [Hk|Hk];
          [|apply H4, Hk].
        unfold keysOf in Hk. cbn in Hk. rewrite Hkx in Hk.
        destruct Hk as [<-|[]].
        destruct H2 as (added & -> & _). rewrite keysOf_app, Hk1.
        apply in_or_app. left. apply in_or_app. right. left. reflexivity.
    + assert (semanticKey x = None) as Hkx
          by (unfold semanticKey; rewrite Em; reflexivity).
      assert (keysOf (result ++ [x]) = keysOf result) as Hk1.
      { rewrite keysOf_app. unfold keysOf at 2. cbn. rewrite Hkx.
        cbn. apply app_nil_r. }
      rewrite <- Hk1.
      destruct (IH (result ++ [x])%list) as (H1 & H2 & H3 & H4).
      { rewrite Hk1. exact Hnd. }
      split; [exact H1|]. split; [apply Hadd, H2|].
      split.
      { intros u [<-|Hu] Hn; [|apply H3; assumption].
        destruct H2 as (added & -> & _).
        apply in_or_app. left. apply in_or_app. right. left. reflexivity. }
      intros k Hk. change (x :: t) with ([x] ++ t)%list in Hk.
      rewrite keysOf_app in Hk. apply in_app_or in Hk as [Hk|Hk];
        [|apply H4, Hk].
      unfold keysOf in Hk. cbn in Hk. rewrite Hkx in Hk. destruct Hk.
Qed.

(** X27.  [deduplicateSemanticDuplicates] keeps URLs of the input only;
    it keeps every URL that the uuid expression does not match, and of the
    others one for each file name without version suffix: the names of the
    URLs kept are pairwise distinct and every name of the input is among
    them.  The result is never longer than the input. *)
Theorem deduplicateSemanticDuplicates_one_per_name (screenshots : list string) :
  let kept := deduplicateSemanticDuplicates screenshots in
  (forall u, In u kept -> In u screenshots)
  /\ (forall u, In u screenshots -> semanticKey u = None -> In u kept)
  /\ NoDup (keysOf kept)
  /\ (forall k, In k (keysOf kept) <-> In k (keysOf screenshots))
  /\ Js.len kept <= Js.len screenshots.
Proof.
  cbv zeta. unfold deduplicateSemanticDuplicates.
  destruct (semanticLoop_spec screenshots [] (NoDup_nil _))
    as (H1 & (added & H2 & H2') & H3 & H4).
  change (keysOf []) with (@nil string) in *. cbn [app] in H2.
  split; [rewrite H2; exact H2'|]. split; [exact H3|]. split; [exact H1|].
  split.
  - intros k. split; [|apply H4].
    rewrite !keysOf_In. intros (u & Hu & Hk). exists u.
    split; [rewrite H2 in Hu; apply H2', Hu|exact Hk].
  - pose proof (semanticLoop_length screenshots [] []) as H.
    change (Js.len (@nil string)) with 0 in H. lia.
Qed.

Section Page.

Variable World : Type.
Variable get : string -> World -> option string * World.

(** X23.  Whatever the page holds, [extractScreenshotsFromWeb] returns at
    most 8 phone, 6 tablet and 6 Apple TV URLs.  Each of them starts with
    http and is the cleaned form of a URL of the content delivery network
    found on the page that passed the screenshot filter; every tablet URL
    carries tablet indicators worth 2 or more and no contamination mark.
    When the request fails, the three arrays are empty. *)
Theorem extractScreenshotsFromWeb_result (appId country : string) (w : World) :
  let page :=
    fst (get ("https://apps.apple.com/" ++ country ++ "/app/id" ++ appId) w) in
  let r := fst (extractScreenshotsFromWeb World get appId country w) in
  Js.len (ScreenshotChain.web_screenshots r) <= 8
  /\ Js.len (ScreenshotChain.web_ipadScreenshots r) <= 6
  /\ Js.len (ScreenshotChain.web_appletvScreenshots r) <= 6
  /\ (forall u,
        In u (ScreenshotChain.web_screenshots r
              ++ ScreenshotChain.web_ipadScreenshots r
              ++ ScreenshotChain.web_appletvScreenshots r)%list ->
        Js.startsWith u "http" = true
        /\ exists html, page = Some html /\ found_on_page html u)
  /\ Forall (fun u => 2 <= indicatorCount u /\ isContaminated u = false)
            (ScreenshotChain.web_ipadScreenshots r)
  /\ (page = None -> r = noScreenshots).
Proof.
  cbv zeta. unfold extractScreenshotsFromWeb.
  destruct (get _ w) as [[html|] w']; cbn [fst].
  - destruct (screenshotsFromHtml_result html) as (H1 & H2 & H3 & H4 & H5).
    repeat (split; [assumption|]).
    split; [|split; [exact H5|discriminate]].
    intros u Hu. specialize (H4 u Hu). split.
    + destruct H4 as (raw & _ & _ & Hc).
      exact (cleanScreenshotUrl_http _ _ Hc).
    + exists html. split; [reflexivity|exact H4].
  - cbn [noScreenshots ScreenshotChain.web_screenshots
         ScreenshotChain.web_ipadScreenshots
         ScreenshotChain.web_appletvScreenshots app].
    split; [cbn; lia|]. split; [cbn; lia|]. split; [cbn; lia|].
    split; [intros u []|]. split; [constructor|reflexivity].
Qed.

Lemma extractScreenshotsFromWeb_len (appId country : string) (w : World) :
  let r := fst (extractScreenshotsFromWeb World get appId country w) in
  Js.len (ScreenshotChain.web_screenshots r) <= 8
  /\ Js.len (ScreenshotChain.web_ipadScreenshots r) <= 6
  /\ Js.len (ScreenshotChain.web_appletvScreenshots r) <= 6.
Proof.
  cbv zeta. unfold extractScreenshotsFromWeb.
  destruct (get _ w) as [[html|] w']; cbn [fst].
  - destruct (screenshotsFromHtml_result html) as (H1 & H2 & H3 & _).
    auto.
  - cbn. lia.
Qed.

(** X24.  The screenshot step of [app] never replaces what the lookup
    returned: a platform that has screenshots keeps them as they are.  With
    phone and tablet screenshots the record is returned untouched and no
    page is requested, also when the Apple TV screenshots are missing; in
    every other case each missing platform gets an array from the page, of
    at most 8 phone, 6 tablet and 6 Apple TV URLs. *)
Theorem appScreenshots_keeps_present_platforms (result : App.AppData)
  (appId country : string) (w : World) :
  let out := appScreenshots World get result appId country w in
  let phone := App.hasAny (App.screenshots result) in
  let tablet := App.hasAny (App.ipadScreenshots result) in
  let tv := App.hasAny (App.appletvScreenshots result) in
  (phone = true -> App.screenshots (fst out) = App.screenshots result)
  /\ (tablet = true ->
      App.ipadScreenshots (fst out) = App.ipadScreenshots result)
  /\ (tv = true ->
      App.appletvScreenshots (fst out) = App.appletvScreenshots result)
  /\ (phone = true -> tablet = true -> out = (result, w))
  /\ (phone = false ->
      exists l, App.screenshots (fst out) = Some l /\ Js.len l <= 8)
  /\ (tablet = false ->
      exists l, App.ipadScreenshots (fst out) = Some l /\ Js.len l <= 6)
  /\ (phone && tablet = false -> tv = false ->
      exists l, App.appletvScreenshots (fst out) = Some l /\ Js.len l <= 6)
  /\ App.id (fst out) = App.id result.
Proof.
  cbv zeta. unfold appScreenshots, getScreenshotsWithFallback.
  pose proof (extractScreenshotsFromWeb_len appId country w) as Hlen.
  cbv zeta in Hlen.
  destruct (extractScreenshotsFromWeb World get appId country w)
    as [web w'].
  cbn [fst] in Hlen. destruct Hlen as (H1 & H2 & H3).
  destruct (App.hasAny (App.screenshots result));
    destruct (App.hasAny (App.ipadScreenshots result));
    destruct (App.hasAny (App.appletvScreenshots result));
    cbn [andb fst snd App.screenshots App.ipadScreenshots
         App.appletvScreenshots App.id];
    repeat split; try reflexivity; try discriminate; intros;
    try discriminate; eauto.
Qed.

End Page.

(** *** The cap of the group-selection stage *)

(** What the selection keeps for a group: a URL of the group, the one that
    [selectBestQualityUrl] returns; it is a URL of the largest pixel area
    of the group when the dimensions and pixel areas of the group are below
    2^53 ([Js.exact_area]: the doubles of the code are then the integers
    compared here). *)
Definition taken_from_group (d : Device) (patternGroups : list PatternGroup)
  (u : string) : Prop :=
  exists g,
    In g patternGroups /\ deviceType g = d
    /\ u = selectBestQualityUrl (urls g)
    /\ In u (urls g)
    /\ (Forall (fun v => Js.exact_area v = true) (urls g) ->
        Forall (fun v => total v <= total u) (urls g)).

(** C4.  At the group-selection stage of the page extraction, for the
    groups of any candidate URLs and each device class: the groups of the
    class are gone through by falling confidence and the number of groups
    kept is capped, at 8 for phone and at 6 for tablet and Apple TV, hence
    at 8 for phone and tablet; one URL is kept per kept group, the one that
    [selectBestQualityUrl] picks in the group; and the collections that
    [selectPrimaryScreenshotGroups] returns obey the same caps. *)
Theorem selectForDevice_cap (d : Device) (candidates : list string) :
  let patternGroups := map classify (groupScreenshotsByPattern candidates) in
  let kept := selectForDevice d patternGroups in
  StronglySorted (fun a b => confidence b <= confidence a)
    (devicePatterns d patternGroups)
  /\ Js.len kept <= maxScreenshotsFor d
  /\ maxScreenshotsFor d = (match d with iphone => 8 | ipad => 6 | appletv => 6 end)
  /\ (d = iphone \/ d = ipad -> Js.len kept <= 8)
  /\ Forall (taken_from_group d patternGroups) kept
  /\ Js.len (deduplicateSemanticDuplicates kept) <= maxScreenshotsFor d.
Proof.
  cbv zeta.
  set (patternGroups := map classify (groupScreenshotsByPattern candidates)).
  assert (Js.len (selectForDevice d patternGroups) <= maxScreenshotsFor d)
    as Hlen.
  { unfold selectForDevice.
    apply (selectLoop_length (maxScreenshotsFor d)
             (devicePatterns d patternGroups) 0 [] eq_refl).
    destruct d; cbn; lia. }
  split.
  { unfold devicePatterns.
    pose proof (JsFacts.sort_ordered PatternGroup compareGroups
                  (fun g => inject_Z (- confidence g)) (fun _ => True)) as Hs.
    unfold JsFacts.ordered in Hs.
    eapply JsFacts.sorted_weaken; [|apply Hs].
    - intros a b _ _ H. cbv beta in H. rewrite <- Zle_Qle in H. lia.
    - intros x y _ _ H. rewrite <- Zle_Qle. revert H. unfold compareGroups.
      destruct (confidence y - confidence x =? 0) eqn:E; cbn [negb].
      + apply Z.eqb_eq in E. lia.
      + lia.
    - intros x y _ _ H. rewrite <- Zlt_Qlt in H. unfold compareGroups.
      destruct (confidence y - confidence x =? 0) eqn:E; cbn [negb].
      + apply Z.eqb_eq in E. lia.
      + lia.
    - apply Forall_forall. intros x _. exact I. }
  split; [exact Hlen|]. split; [destruct d; reflexivity|].
  split; [intros [->| ->]; cbn in Hlen; lia|]. split.
  - pose proof (selectLoop_members d patternGroups (maxScreenshotsFor d)
                  (devicePatterns d patternGroups) 0 []
                  (devicePatterns_in d _) (Forall_nil _)) as Hall.
    fold (selectForDevice d patternGroups) in Hall.
    eapply Forall_impl; [|exact Hall].
    intros u (g & Hg & Hd & ->). exists g.
    split; [exact Hg|]. split; [exact Hd|]. split; [reflexivity|].
    apply in_map_iff in Hg as [[k us] [<- He]].
    destruct (groupScreenshotsByPattern_within candidates k us He)
      as [Hne _].
    change (urls (classify (k, us))) with us.
    split; [apply selectBestQualityUrl_In, Hne|]. intros _.
    destruct us as [|first others]; [congruence|].
    destruct others as [|o os].
    + cbn. constructor; [lia|constructor].
    + unfold selectBestQualityUrl.
      destruct (best_fold_largest (o :: os) first) as [H1 H2].
      constructor; assumption.
  - apply selectPrimary_len.
Qed.

(** C4 at work: nine phone candidates, of which eight are kept, each of
    them the only URL of its group. *)
Example selectForDevice_cap_nine_phone_candidates :
  let candidates := map (fun n => screenshotUrl n "ImageGen_")
                        ["1"; "2"; "3"; "4"; "5"; "6"; "7"; "8"; "9"] in
  let patternGroups := map classify (groupScreenshotsByPattern candidates) in
  Js.len patternGroups = 9
  /\ forallb Js.exact_area candidates = true
  /\ selectForDevice iphone patternGroups = firstn 8 candidates.
Proof. cbv zeta. repeat split; vm_compute; reflexivity. Qed.

End ScreenshotFallbackFacts.
